(** * Mantou: a shallow embedding of the command-line parser core

    The development follows [src/lib/command.ts] (classes [Command], [Option]
    and [DualOptions], function [incrementNodeInspectorPort]) and
    [src/lib/argument.ts] (class [Argument]).

    Modelling conventions.
    - JavaScript strings are Rocq strings; a character is one [ascii].
    - JavaScript values that flow through option handling are the type
      [jsval]; arrays carry the identity of the object, because the code
      compares them with [===].
    - Objects that are mutated and shared ([Command] objects, the [string[]]
      arrays [argv], [args], [operands], [unknown]) live in a store, the
      [World]; a method is a function from the world to an [Outcome].
    - User callbacks ([parseArg], hooks) are pure functions of their
      arguments; the output sinks are not modelled.
    - The private-name spellings [#name], [#aliases] and [#concatValue] that
      the source uses on other objects denote the members [_name],
      [_aliases] and [_concatValue] declared by the classes. *)

From Stdlib Require Import ZArith NArith String Ascii List Lia Bool DecimalString.
From stdpp Require Import base gmap strings list option.

Local Open Scope list_scope.
Local Open Scope string_scope.

(** ** Strings *)

Module Str.

(** [strip p s] is [Some r] when [s = p ++ r]: the test [s.startsWith(p)]
    together with [s.slice(p.length)]. *)
Fixpoint strip (p s : string) : option string :=
  match p with
  | EmptyString => Some s
  | String c p' =>
      match s with
      | EmptyString => None
      | String d s' => if Ascii.eqb c d then strip p' s' else None
      end
  end.

Definition startsWith (s p : string) : bool :=
  match strip p s with Some _ => true | None => false end.

Definition nonempty (s : string) : bool :=
  match s with EmptyString => false | String _ _ => true end.

(** [s.includes(c)] for a one-character needle. *)
Fixpoint has (c : ascii) (s : string) : bool :=
  match s with
  | EmptyString => false
  | String d s' => if Ascii.eqb c d then true else has c s'
  end.

(** Split at the first occurrence of [c]: [s.slice(0, i)] and
    [s.slice(i + 1)] for [i = s.indexOf(c)]. *)
Fixpoint cut (c : ascii) (s : string) : option (string * string) :=
  match s with
  | EmptyString => None
  | String d s' =>
      if Ascii.eqb c d then Some (EmptyString, s')
      else match cut c s' with
           | Some (a, b) => Some (String d a, b)
           | None => None
           end
  end.

Definition is_digit (c : ascii) : bool :=
  let n := nat_of_ascii c in (48 <=? n)%nat && (n <=? 57)%nat.

Fixpoint all_digits (s : string) : bool :=
  match s with
  | EmptyString => true
  | String c s' => is_digit c && all_digits s'
  end.

(** The regular expression [/^\d+$/]. *)
Definition is_number (s : string) : bool := nonempty s && all_digits s.

Fixpoint digits_value_from (acc : N) (s : string) : N :=
  match s with
  | EmptyString => acc
  | String c s' =>
      digits_value_from (10 * acc + (N.of_nat (nat_of_ascii c) - 48))%N s'
  end.

(** The integer denoted by a run of decimal digits. *)
Definition digits_value (s : string) : N := digits_value_from 0%N s.

Definition decimal (n : N) : string := NilEmpty.string_of_uint (N.to_uint n).

End Str.

(** ** The debugger-port rewrite *)

Module Inspector.

Section WithNumberFormat.

(** [Number.parseInt(s) + 1] is exact when the integer is below [2^53];
    above, the result is a rounded double whose printed form is left to
    this parameter. *)
Variable imprecise_number_to_string : N -> string.

Definition MAX_SAFE_INTEGER : N := (2 ^ 53 - 1)%N.

(** The template fragment [${Number.parseInt(debugPort) + 1}]. *)
Definition port_plus_one (debugPort : string) : string :=
  let n := Str.digits_value debugPort in
  if (n <=? MAX_SAFE_INTEGER)%N then Str.decimal (n + 1)
  else imprecise_number_to_string n.

(** [/^(--inspect(-brk)?)$/]: the result is [match[1]]. *)
Definition match_bare (arg : string) : option string :=
  if String.eqb arg "--inspect" || String.eqb arg "--inspect-brk"
  then Some arg else None.

(** The common prefix [^(--inspect(-brk|-port)?)=] of the second and third
    expressions: [match[1]] and the text after the [=]. *)
Definition match_option_eq (arg : string) : option (string * string) :=
  match Str.strip "--inspect" arg with
  | None => None
  | Some r =>
      match Str.strip "-brk=" r with
      | Some v => Some ("--inspect-brk", v)
      | None =>
          match Str.strip "-port=" r with
          | Some v => Some ("--inspect-port", v)
          | None =>
              match Str.strip "=" r with
              | Some v => Some ("--inspect", v)
              | None => None
              end
          end
      end
  end.

(** [/^(--inspect(-brk|-port)?)=([^:]+)$/]: [match[1]] and [match[3]]. *)
Definition match_single (arg : string) : option (string * string) :=
  match match_option_eq arg with
  | Some (opt, v) =>
      if Str.nonempty v && negb (Str.has ":" v) then Some (opt, v) else None
  | None => None
  end.

(** [/^(--inspect(-brk|-port)?)=([^:]+):(\d+)$/]: [match[1]], [match[3]]
    and [match[4]]. *)
Definition match_host_port (arg : string) : option (string * string * string) :=
  match match_option_eq arg with
  | Some (opt, v) =>
      match Str.cut ":" v with
      | Some (host, port) =>
          if Str.nonempty host && Str.is_number port
          then Some (opt, host, port) else None
      | None => None
      end
  | None => None
  end.

(** The callback of [args.map] in [incrementNodeInspectorPort]. *)
Definition incrementArg (arg : string) : string :=
  if negb (Str.startsWith arg "--inspect") then arg
  else
    let '(debugOption, debugHost, debugPort) :=
      match match_bare arg with
      | Some m1 => (m1, "127.0.0.1", "9229")
      | None =>
          match match_single arg with
          | Some (m1, m3) =>
              if Str.is_number m3 then (m1, "127.0.0.1", m3)
              else (m1, m3, "9229")
          | None =>
              match match_host_port arg with
              | Some (m1, m3, m4) => (m1, m3, m4)
              | None => ("", "127.0.0.1", "9229")
              end
          end
      end in
    if Str.nonempty debugOption && negb (String.eqb debugPort "0")
    then debugOption ++ "=" ++ debugHost ++ ":" ++ port_plus_one debugPort
    else arg.

Definition incrementNodeInspectorPort (args : list string) : list string :=
  map incrementArg args.

End WithNumberFormat.

End Inspector.

(** ** JavaScript values and errors *)

Module JS.

(** The values that options and arguments carry. An array is its identity
    (the object) and its elements; the modelled code never writes into
    such an array, [concat] and literals create new ones. Numbers are the
    integers. *)
#[warnings="-register-all"]
Inductive jsval : Type :=
| VUndefined
| VNull
| VBool (b : bool)
| VNum (n : Z)
| VStr (s : string)
| VArr (id : nat) (items : list jsval).

(** [a === b]. *)
Definition strict_eq (a b : jsval) : bool :=
  match a, b with
  | VUndefined, VUndefined => true
  | VNull, VNull => true
  | VBool x, VBool y => Bool.eqb x y
  | VNum x, VNum y => Z.eqb x y
  | VStr x, VStr y => String.eqb x y
  | VArr i _, VArr j _ => Nat.eqb i j
  | _, _ => false
  end.

(** [v == null]. *)
Definition is_nullish (v : jsval) : bool :=
  match v with VUndefined | VNull => true | _ => false end.

Definition is_null (v : jsval) : bool :=
  match v with VNull => true | _ => false end.

Definition is_undefined (v : jsval) : bool :=
  match v with VUndefined => true | _ => false end.

Definition isArray (v : jsval) : bool :=
  match v with VArr _ _ => true | _ => false end.

(** [list.includes(v)] for a list of string constants. *)
Definition includes_str (l : list string) (v : jsval) : bool :=
  existsb (fun s => strict_eq (VStr s) v) l.

Definition decimalZ (n : Z) : string :=
  match n with
  | Zneg p => "-" ++ Str.decimal (Npos p)
  | _ => Str.decimal (Z.to_N n)
  end.

(** [`${v}`]: the string conversion of template literals. *)
Fixpoint to_string (v : jsval) : string :=
  match v with
  | VUndefined => "undefined"
  | VNull => "null"
  | VBool true => "true"
  | VBool false => "false"
  | VNum n => decimalZ n
  | VStr s => s
  | VArr _ items =>
      let elem x := if is_nullish x then "" else to_string x in
      (fix join (l : list jsval) : string :=
         match l with
         | [] => ""
         | [x] => elem x
         | x :: l' => elem x ++ "," ++ join l'
         end) items
  end.

(** An optional string member in a template literal. *)
Definition opt_to_string (o : option string) : string :=
  match o with Some s => s | None => "undefined" end.

(** Truthiness of an optional string member. *)
Definition truthy (o : option string) : bool :=
  match o with Some s => Str.nonempty s | None => false end.

(** The class [CommanderError] of [error.ts]: [exitCode], [code] and
    [message]. *)
Record CommanderError : Type := {
  exitCode : Z;
  code : string;
  message : string;
}.

(** What a [throw] carries. *)
Inductive exn : Type :=
| ThrowCommander (e : CommanderError)
| ThrowError (msg : string)
| ThrowTypeError (msg : string).

(** [new InvalidArgumentError(message)]. *)
Definition InvalidArgumentError (msg : string) : exn :=
  ThrowCommander {| exitCode := 1; code := "commander.invalidArgument"; message := msg |}.

(** The result of calling a user function. *)
Inductive call_result : Type :=
| Returns (v : jsval)
| Raises (x : exn).

(** [ParseArgFunc]: [(value, previous) => ...]. *)
Definition ParseArgFunc : Type := jsval -> jsval -> call_result.

End JS.
Export JS.

(** ** Class [Argument] ([src/lib/argument.ts]) *)

Module Arg.

Record Argument : Type := {
  description : option string;
  variadic : bool;
  parseArg : option ParseArgFunc;
  required : bool;
  defaultValue : jsval;
  name : string;
}.

(** [s.slice(1, -1)]. *)
Definition slice_1_m1 (s : string) : string :=
  String.substring 1 (String.length s - 2) s.

(** The constructor: [<name>] is required, [[name]] optional, a bare name
    required; a trailing [...] on a name longer than three characters makes
    the argument variadic. *)
Definition new (arg : string) (description : option string) : Argument :=
  let '(req, nm) :=
    match arg with
    | String "<" _ => (true, slice_1_m1 arg)
    | String "[" _ => (false, slice_1_m1 arg)
    | _ => (true, arg)
    end in
  let len := String.length nm in
  let dots := (3 <? len)%nat && String.eqb (String.substring (len - 3) 3 nm) "..." in
  {| description := description;
     variadic := dots;
     parseArg := None;
     required := req;
     defaultValue := VUndefined;
     name := if dots then String.substring 0 (len - 3) nm else nm |}.

(** [default(value)] and [argParser(fn)]. *)
Definition default (value : jsval) (a : Argument) : Argument :=
  {| description := description a; variadic := variadic a; parseArg := parseArg a;
     required := required a; defaultValue := value; name := name a |}.

Definition argParser (fn : option ParseArgFunc) (a : Argument) : Argument :=
  {| description := description a; variadic := variadic a; parseArg := fn;
     required := required a; defaultValue := defaultValue a; name := name a |}.

End Arg.

(** ** Class [Option] (third part of [src/lib/command.ts]) *)

Module Opt.

Record Option : Type := {
  flags : string;
  required : bool;
  optional : bool;
  variadic : bool;
  mandatory : bool;
  negate : bool;
  short : option string;
  long : option string;
  defaultValue : jsval;
  presetArg : jsval;
  envVar : option string;
  parseArg : option ParseArgFunc;
  conflictsWith : list string;
  implied : option (list (string * jsval));
}.

Definition is_sep (c : ascii) : bool :=
  Ascii.eqb c " " || Ascii.eqb c "|" || Ascii.eqb c ",".

(** [flags.split(/[ |,]+/)]: [cur] is the part being read, [insep] tells
    that the previous character was a separator. *)
Fixpoint split_from (cur : string) (insep : bool) (s : string) : list string :=
  match s with
  | EmptyString => [cur]
  | String c s' =>
      if is_sep c then
        if insep then split_from "" true s' else cur :: split_from "" true s'
      else split_from (cur ++ String c "") false s'
  end.

Definition split_flags (flags : string) : list string := split_from "" false flags.

(** [/^[[<]/.test(s)]. *)
Definition starts_with_bracket (s : string) : bool :=
  match s with
  | String "[" _ | String "<" _ => true
  | _ => false
  end.

(** [/^-[^-]$/.test(s)]. *)
Definition is_lone_short (s : string) : bool :=
  match s with
  | String "-" (String c EmptyString) => negb (Ascii.eqb c "-")
  | _ => false
  end.

(** [splitOptionFlags(flags)]: the pair [(shortFlag, longFlag)]. *)
Definition splitOptionFlags (flags : string) : option string * option string :=
  let flagParts := split_flags flags in
  let '(shortFlag, flagParts) :=
    match flagParts with
    | p0 :: p1 :: rest =>
        if negb (starts_with_bracket p1) then (Some p0, p1 :: rest)
        else (None, flagParts)
    | _ => (None, flagParts)
    end in
  let longFlag := head flagParts in
  if negb (truthy shortFlag) && match longFlag with Some l => is_lone_short l | None => false end
  then (longFlag, None)
  else (shortFlag, longFlag).

Definition is_word_char (c : ascii) : bool :=
  let n := nat_of_ascii c in
  ((48 <=? n) && (n <=? 57) || (65 <=? n) && (n <=? 90)
   || (97 <=? n) && (n <=? 122) || (n =? 95))%nat.

(** [/\w\.\.\.[>\]]$/.test(flags)]. *)
Definition is_variadic_flags (flags : string) : bool :=
  let len := String.length flags in
  (5 <=? len)%nat
  && match String.get (len - 5) flags with Some c => is_word_char c | None => false end
  && String.eqb (String.substring (len - 4) 3 flags) "..."
  && match String.get (len - 1) flags with
     | Some c => Ascii.eqb c ">" || Ascii.eqb c "]"
     | None => false
     end.

(** The constructor [new Option(flags)]. *)
Definition new (flags : string) : Option :=
  let '(shortFlag, longFlag) := splitOptionFlags flags in
  {| flags := flags;
     required := Str.has "<" flags;
     optional := Str.has "[" flags;
     variadic := is_variadic_flags flags;
     mandatory := false;
     negate := if truthy longFlag
               then Str.startsWith (default "" longFlag) "--no-" else false;
     short := shortFlag;
     long := longFlag;
     defaultValue := VUndefined;
     presetArg := VUndefined;
     envVar := None;
     parseArg := None;
     conflictsWith := [];
     implied := None |}.

End Opt.

Module OptMethods.
Import Opt.

Definition with_default (value : jsval) (o : Option) : Option :=
  {| flags := flags o; required := required o; optional := optional o;
     variadic := variadic o; mandatory := mandatory o; negate := negate o;
     short := short o; long := long o; defaultValue := value;
     presetArg := presetArg o; envVar := envVar o; parseArg := parseArg o;
     conflictsWith := conflictsWith o; implied := implied o |}.

Definition preset (arg : jsval) (o : Option) : Option :=
  {| flags := flags o; required := required o; optional := optional o;
     variadic := variadic o; mandatory := mandatory o; negate := negate o;
     short := short o; long := long o; defaultValue := defaultValue o;
     presetArg := arg; envVar := envVar o; parseArg := parseArg o;
     conflictsWith := conflictsWith o; implied := implied o |}.

(** [conflicts(names)]: [this.conflictsWith.concat(names)]. *)
Definition conflicts (names : list string) (o : Option) : Option :=
  {| flags := flags o; required := required o; optional := optional o;
     variadic := variadic o; mandatory := mandatory o; negate := negate o;
     short := short o; long := long o; defaultValue := defaultValue o;
     presetArg := presetArg o; envVar := envVar o; parseArg := parseArg o;
     conflictsWith := (conflictsWith o ++ names)%list; implied := implied o |}.

Definition env (name : string) (o : Option) : Option :=
  {| flags := flags o; required := required o; optional := optional o;
     variadic := variadic o; mandatory := mandatory o; negate := negate o;
     short := short o; long := long o; defaultValue := defaultValue o;
     presetArg := presetArg o; envVar := Some name; parseArg := parseArg o;
     conflictsWith := conflictsWith o; implied := implied o |}.

Definition argParser (fn : option ParseArgFunc) (o : Option) : Option :=
  {| flags := flags o; required := required o; optional := optional o;
     variadic := variadic o; mandatory := mandatory o; negate := negate o;
     short := short o; long := long o; defaultValue := defaultValue o;
     presetArg := presetArg o; envVar := envVar o; parseArg := fn;
     conflictsWith := conflictsWith o; implied := implied o |}.

(** [s.replace(/^p/, "")] for a literal prefix [p]. *)
Definition drop_prefix (p s : string) : string :=
  match Str.strip p s with Some r => r | None => s end.

(** [name()]; [None] stands for the [TypeError] of [undefined.replace]. *)
Definition name (o : Option) : option string :=
  if truthy (long o) then Some (drop_prefix "--" (default "" (long o)))
  else match short o with
       | Some s => Some (drop_prefix "-" s)
       | None => None
       end.

(** [str.split("-")]. *)
Fixpoint split_dash_from (cur : string) (s : string) : list string :=
  match s with
  | EmptyString => [cur]
  | String c s' =>
      if Ascii.eqb c "-" then cur :: split_dash_from "" s'
      else split_dash_from (cur ++ String c "") s'
  end.

(** [c.toUpperCase()] on the letters [a]-[z]; other characters are left as
    they are, so the result is that of the code on ASCII text (the code
    also maps the letters outside ASCII that have an upper case). *)
Definition upper (c : ascii) : ascii :=
  let n := nat_of_ascii c in
  if ((97 <=? n) && (n <=? 122))%nat then ascii_of_nat (n - 32) else c.

(** [camelcase(str)]: the [reduce] without initial value starts from the
    first word; [word[0].toUpperCase()] throws on an empty word. *)
Definition camelcase (str : string) : option string :=
  match split_dash_from "" str with
  | [] => None
  | w0 :: ws =>
      fold_left
        (fun acc word =>
           match acc, word with
           | Some s, String c r => Some (s ++ String (upper c) r)
           | _, _ => None
           end) ws (Some w0)
  end.

(** [attributeName()]. *)
Definition attributeName (o : Option) : option string :=
  match name o with
  | Some n => camelcase (drop_prefix "no-" n)
  | None => None
  end.

(** [is(arg)] ([is] is reserved, hence the underscore). *)
Definition is_ (o : Option) (arg : string) : bool :=
  match short o with Some s => String.eqb s arg | None => false end
  || match long o with Some l => String.eqb l arg | None => false end.

(** [isBoolean()]. *)
Definition isBoolean (o : Option) : bool :=
  negb (required o) && negb (optional o) && negb (negate o).

(** [_concatValue(value, previous)], with the identity [id] of the array
    that is created. [Array.prototype.concat] spreads an array argument. *)
Definition _concatValue (o : Option) (id : nat) (value previous : jsval) : jsval :=
  match previous with
  | VArr _ items =>
      if strict_eq previous (defaultValue o) then VArr id [value]
      else VArr id (items ++ match value with VArr _ vs => vs | _ => [value] end)%list
  | _ => VArr id [value]
  end.

End OptMethods.

(** ** Class [Command]: the object *)

Module Cmd.

(** A life-cycle hook: the listener and whether it returns a thenable. *)
Record Hook : Type := {
  hook_id : string;
  hook_async : bool;
}.

(** What [#lifeCycleHooks[event]] can be. *)
Inductive HookSlot : Type :=
| SlotUndefined
| SlotNull
| SlotHooks (l : list Hook).

(** The object literal that initialises [#lifeCycleHooks]. *)
Record LifeCycleHooks : Type := {
  postAction : HookSlot;
  preAction : HookSlot;
  preSubcommand : HookSlot;
}.

(** The listeners that the modelled methods register with [this.on]: in
    [addOption] the closures over [option] (here its index in
    [this.options], the same object), [name] and the value source; in
    [version] the closure over [str]. *)
Inductive Listener : Type :=
| OnOption (index : nat) (attr : string)
| OnOptionEnv (index : nat) (attr : string)
| OnVersion (str : string).

(** The members that the modelled methods read or write. Other objects are
    referred to by their location in the world. [properties] holds the
    members created by [this[key] = value] under
    [_storeOptionsAsProperties]; [optionValues] and [_optionValueSources]
    are the two plain objects used as maps. [_actionHandler] and
    [_executableHandler] record whether the member is truthy. *)
Record Command : Type := {
  args : list string;
  commands : list nat;
  options : list Opt.Option;
  registeredArguments : list Arg.Argument;
  parent : option nat;
  _name : string;
  optionValues : gmap string jsval;
  _optionValueSources : gmap string jsval;
  _storeOptionsAsProperties : bool;
  properties : gmap string jsval;
  _actionHandler : bool;
  _executableHandler : bool;
  _defaultCommandName : option string;
  _aliases : list string;
  _combineFlagAndOptionalValue : bool;
  _enablePositionalOptions : bool;
  _passThroughOptions : bool;
  lifeCycleHooks : LifeCycleHooks;
  addImplicitHelpCommand : option bool;
  helpCommand : option nat;
  listeners : list (string * Listener);
}.

(** Assignments to one member. *)
Definition set_args (x : list string) (c : Command) : Command :=
  {| args := x; commands := commands c; options := options c;
     registeredArguments := registeredArguments c; parent := parent c;
     _name := _name c; optionValues := optionValues c;
     _optionValueSources := _optionValueSources c;
     _storeOptionsAsProperties := _storeOptionsAsProperties c;
     properties := properties c; _actionHandler := _actionHandler c;
     _executableHandler := _executableHandler c;
     _defaultCommandName := _defaultCommandName c; _aliases := _aliases c;
     _combineFlagAndOptionalValue := _combineFlagAndOptionalValue c;
     _enablePositionalOptions := _enablePositionalOptions c;
     _passThroughOptions := _passThroughOptions c;
     lifeCycleHooks := lifeCycleHooks c;
     addImplicitHelpCommand := addImplicitHelpCommand c;
     helpCommand := helpCommand c; listeners := listeners c |}.

Definition set_commands (x : list nat) (c : Command) : Command :=
  {| args := args c; commands := x; options := options c;
     registeredArguments := registeredArguments c; parent := parent c;
     _name := _name c; optionValues := optionValues c;
     _optionValueSources := _optionValueSources c;
     _storeOptionsAsProperties := _storeOptionsAsProperties c;
     properties := properties c; _actionHandler := _actionHandler c;
     _executableHandler := _executableHandler c;
     _defaultCommandName := _defaultCommandName c; _aliases := _aliases c;
     _combineFlagAndOptionalValue := _combineFlagAndOptionalValue c;
     _enablePositionalOptions := _enablePositionalOptions c;
     _passThroughOptions := _passThroughOptions c;
     lifeCycleHooks := lifeCycleHooks c;
     addImplicitHelpCommand := addImplicitHelpCommand c;
     helpCommand := helpCommand c; listeners := listeners c |}.

Definition set_options (x : list Opt.Option) (c : Command) : Command :=
  {| args := args c; commands := commands c; options := x;
     registeredArguments := registeredArguments c; parent := parent c;
     _name := _name c; optionValues := optionValues c;
     _optionValueSources := _optionValueSources c;
     _storeOptionsAsProperties := _storeOptionsAsProperties c;
     properties := properties c; _actionHandler := _actionHandler c;
     _executableHandler := _executableHandler c;
     _defaultCommandName := _defaultCommandName c; _aliases := _aliases c;
     _combineFlagAndOptionalValue := _combineFlagAndOptionalValue c;
     _enablePositionalOptions := _enablePositionalOptions c;
     _passThroughOptions := _passThroughOptions c;
     lifeCycleHooks := lifeCycleHooks c;
     addImplicitHelpCommand := addImplicitHelpCommand c;
     helpCommand := helpCommand c; listeners := listeners c |}.

Definition set_registeredArguments (x : list Arg.Argument) (c : Command) : Command :=
  {| args := args c; commands := commands c; options := options c;
     registeredArguments := x; parent := parent c; _name := _name c;
     optionValues := optionValues c;
     _optionValueSources := _optionValueSources c;
     _storeOptionsAsProperties := _storeOptionsAsProperties c;
     properties := properties c; _actionHandler := _actionHandler c;
     _executableHandler := _executableHandler c;
     _defaultCommandName := _defaultCommandName c; _aliases := _aliases c;
     _combineFlagAndOptionalValue := _combineFlagAndOptionalValue c;
     _enablePositionalOptions := _enablePositionalOptions c;
     _passThroughOptions := _passThroughOptions c;
     lifeCycleHooks := lifeCycleHooks c;
     addImplicitHelpCommand := addImplicitHelpCommand c;
     helpCommand := helpCommand c; listeners := listeners c |}.

Definition set_parent (x : option nat) (c : Command) : Command :=
  {| args := args c; commands := commands c; options := options c;
     registeredArguments := registeredArguments c; parent := x;
     _name := _name c; optionValues := optionValues c;
     _optionValueSources := _optionValueSources c;
     _storeOptionsAsProperties := _storeOptionsAsProperties c;
     properties := properties c; _actionHandler := _actionHandler c;
     _executableHandler := _executableHandler c;
     _defaultCommandName := _defaultCommandName c; _aliases := _aliases c;
     _combineFlagAndOptionalValue := _combineFlagAndOptionalValue c;
     _enablePositionalOptions := _enablePositionalOptions c;
     _passThroughOptions := _passThroughOptions c;
     lifeCycleHooks := lifeCycleHooks c;
     addImplicitHelpCommand := addImplicitHelpCommand c;
     helpCommand := helpCommand c; listeners := listeners c |}.

Definition set_name (x : string) (c : Command) : Command :=
  {| args := args c; commands := commands c; options := options c;
     registeredArguments := registeredArguments c; parent := parent c;
     _name := x; optionValues := optionValues c;
     _optionValueSources := _optionValueSources c;
     _storeOptionsAsProperties := _storeOptionsAsProperties c;
     properties := properties c; _actionHandler := _actionHandler c;
     _executableHandler := _executableHandler c;
     _defaultCommandName := _defaultCommandName c; _aliases := _aliases c;
     _combineFlagAndOptionalValue := _combineFlagAndOptionalValue c;
     _enablePositionalOptions := _enablePositionalOptions c;
     _passThroughOptions := _passThroughOptions c;
     lifeCycleHooks := lifeCycleHooks c;
     addImplicitHelpCommand := addImplicitHelpCommand c;
     helpCommand := helpCommand c; listeners := listeners c |}.

Definition set_optionValues (x : gmap string jsval) (c : Command) : Command :=
  {| args := args c; commands := commands c; options := options c;
     registeredArguments := registeredArguments c; parent := parent c;
     _name := _name c; optionValues := x;
     _optionValueSources := _optionValueSources c;
     _storeOptionsAsProperties := _storeOptionsAsProperties c;
     properties := properties c; _actionHandler := _actionHandler c;
     _executableHandler := _executableHandler c;
     _defaultCommandName := _defaultCommandName c; _aliases := _aliases c;
     _combineFlagAndOptionalValue := _combineFlagAndOptionalValue c;
     _enablePositionalOptions := _enablePositionalOptions c;
     _passThroughOptions := _passThroughOptions c;
     lifeCycleHooks := lifeCycleHooks c;
     addImplicitHelpCommand := addImplicitHelpCommand c;
     helpCommand := helpCommand c; listeners := listeners c |}.

Definition set_optionValueSources (x : gmap string jsval) (c : Command) : Command :=
  {| args := args c; commands := commands c; options := options c;
     registeredArguments := registeredArguments c; parent := parent c;
     _name := _name c; optionValues := optionValues c;
     _optionValueSources := x;
     _storeOptionsAsProperties := _storeOptionsAsProperties c;
     properties := properties c; _actionHandler := _actionHandler c;
     _executableHandler := _executableHandler c;
     _defaultCommandName := _defaultCommandName c; _aliases := _aliases c;
     _combineFlagAndOptionalValue := _combineFlagAndOptionalValue c;
     _enablePositionalOptions := _enablePositionalOptions c;
     _passThroughOptions := _passThroughOptions c;
     lifeCycleHooks := lifeCycleHooks c;
     addImplicitHelpCommand := addImplicitHelpCommand c;
     helpCommand := helpCommand c; listeners := listeners c |}.

Definition set_properties (x : gmap string jsval) (c : Command) : Command :=
  {| args := args c; commands := commands c; options := options c;
     registeredArguments := registeredArguments c; parent := parent c;
     _name := _name c; optionValues := optionValues c;
     _optionValueSources := _optionValueSources c;
     _storeOptionsAsProperties := _storeOptionsAsProperties c;
     properties := x; _actionHandler := _actionHandler c;
     _executableHandler := _executableHandler c;
     _defaultCommandName := _defaultCommandName c; _aliases := _aliases c;
     _combineFlagAndOptionalValue := _combineFlagAndOptionalValue c;
     _enablePositionalOptions := _enablePositionalOptions c;
     _passThroughOptions := _passThroughOptions c;
     lifeCycleHooks := lifeCycleHooks c;
     addImplicitHelpCommand := addImplicitHelpCommand c;
     helpCommand := helpCommand c; listeners := listeners c |}.

Definition set_actionHandler (x : bool) (c : Command) : Command :=
  {| args := args c; commands := commands c; options := options c;
     registeredArguments := registeredArguments c; parent := parent c;
     _name := _name c; optionValues := optionValues c;
     _optionValueSources := _optionValueSources c;
     _storeOptionsAsProperties := _storeOptionsAsProperties c;
     properties := properties c; _actionHandler := x;
     _executableHandler := _executableHandler c;
     _defaultCommandName := _defaultCommandName c; _aliases := _aliases c;
     _combineFlagAndOptionalValue := _combineFlagAndOptionalValue c;
     _enablePositionalOptions := _enablePositionalOptions c;
     _passThroughOptions := _passThroughOptions c;
     lifeCycleHooks := lifeCycleHooks c;
     addImplicitHelpCommand := addImplicitHelpCommand c;
     helpCommand := helpCommand c; listeners := listeners c |}.

Definition set_executableHandler (x : bool) (c : Command) : Command :=
  {| args := args c; commands := commands c; options := options c;
     registeredArguments := registeredArguments c; parent := parent c;
     _name := _name c; optionValues := optionValues c;
     _optionValueSources := _optionValueSources c;
     _storeOptionsAsProperties := _storeOptionsAsProperties c;
     properties := properties c; _actionHandler := _actionHandler c;
     _executableHandler := x; _defaultCommandName := _defaultCommandName c;
     _aliases := _aliases c;
     _combineFlagAndOptionalValue := _combineFlagAndOptionalValue c;
     _enablePositionalOptions := _enablePositionalOptions c;
     _passThroughOptions := _passThroughOptions c;
     lifeCycleHooks := lifeCycleHooks c;
     addImplicitHelpCommand := addImplicitHelpCommand c;
     helpCommand := helpCommand c; listeners := listeners c |}.

Definition set_defaultCommandName (x : option string) (c : Command) : Command :=
  {| args := args c; commands := commands c; options := options c;
     registeredArguments := registeredArguments c; parent := parent c;
     _name := _name c; optionValues := optionValues c;
     _optionValueSources := _optionValueSources c;
     _storeOptionsAsProperties := _storeOptionsAsProperties c;
     properties := properties c; _actionHandler := _actionHandler c;
     _executableHandler := _executableHandler c; _defaultCommandName := x;
     _aliases := _aliases c;
     _combineFlagAndOptionalValue := _combineFlagAndOptionalValue c;
     _enablePositionalOptions := _enablePositionalOptions c;
     _passThroughOptions := _passThroughOptions c;
     lifeCycleHooks := lifeCycleHooks c;
     addImplicitHelpCommand := addImplicitHelpCommand c;
     helpCommand := helpCommand c; listeners := listeners c |}.

Definition set_aliases (x : list string) (c : Command) : Command :=
  {| args := args c; commands := commands c; options := options c;
     registeredArguments := registeredArguments c; parent := parent c;
     _name := _name c; optionValues := optionValues c;
     _optionValueSources := _optionValueSources c;
     _storeOptionsAsProperties := _storeOptionsAsProperties c;
     properties := properties c; _actionHandler := _actionHandler c;
     _executableHandler := _executableHandler c;
     _defaultCommandName := _defaultCommandName c; _aliases := x;
     _combineFlagAndOptionalValue := _combineFlagAndOptionalValue c;
     _enablePositionalOptions := _enablePositionalOptions c;
     _passThroughOptions := _passThroughOptions c;
     lifeCycleHooks := lifeCycleHooks c;
     addImplicitHelpCommand := addImplicitHelpCommand c;
     helpCommand := helpCommand c; listeners := listeners c |}.

Definition set_combineFlagAndOptionalValue (x : bool) (c : Command) : Command :=
  {| args := args c; commands := commands c; options := options c;
     registeredArguments := registeredArguments c; parent := parent c;
     _name := _name c; optionValues := optionValues c;
     _optionValueSources := _optionValueSources c;
     _storeOptionsAsProperties := _storeOptionsAsProperties c;
     properties := properties c; _actionHandler := _actionHandler c;
     _executableHandler := _executableHandler c;
     _defaultCommandName := _defaultCommandName c; _aliases := _aliases c;
     _combineFlagAndOptionalValue := x;
     _enablePositionalOptions := _enablePositionalOptions c;
     _passThroughOptions := _passThroughOptions c;
     lifeCycleHooks := lifeCycleHooks c;
     addImplicitHelpCommand := addImplicitHelpCommand c;
     helpCommand := helpCommand c; listeners := listeners c |}.

Definition set_enablePositionalOptions (x : bool) (c : Command) : Command :=
  {| args := args c; commands := commands c; options := options c;
     registeredArguments := registeredArguments c; parent := parent c;
     _name := _name c; optionValues := optionValues c;
     _optionValueSources := _optionValueSources c;
     _storeOptionsAsProperties := _storeOptionsAsProperties c;
     properties := properties c; _actionHandler := _actionHandler c;
     _executableHandler := _executableHandler c;
     _defaultCommandName := _defaultCommandName c; _aliases := _aliases c;
     _combineFlagAndOptionalValue := _combineFlagAndOptionalValue c;
     _enablePositionalOptions := x;
     _passThroughOptions := _passThroughOptions c;
     lifeCycleHooks := lifeCycleHooks c;
     addImplicitHelpCommand := addImplicitHelpCommand c;
     helpCommand := helpCommand c; listeners := listeners c |}.

Definition set_passThroughOptions (x : bool) (c : Command) : Command :=
  {| args := args c; commands := commands c; options := options c;
     registeredArguments := registeredArguments c; parent := parent c;
     _name := _name c; optionValues := optionValues c;
     _optionValueSources := _optionValueSources c;
     _storeOptionsAsProperties := _storeOptionsAsProperties c;
     properties := properties c; _actionHandler := _actionHandler c;
     _executableHandler := _executableHandler c;
     _defaultCommandName := _defaultCommandName c; _aliases := _aliases c;
     _combineFlagAndOptionalValue := _combineFlagAndOptionalValue c;
     _enablePositionalOptions := _enablePositionalOptions c;
     _passThroughOptions := x; lifeCycleHooks := lifeCycleHooks c;
     addImplicitHelpCommand := addImplicitHelpCommand c;
     helpCommand := helpCommand c; listeners := listeners c |}.

Definition set_lifeCycleHooks (x : LifeCycleHooks) (c : Command) : Command :=
  {| args := args c; commands := commands c; options := options c;
     registeredArguments := registeredArguments c; parent := parent c;
     _name := _name c; optionValues := optionValues c;
     _optionValueSources := _optionValueSources c;
     _storeOptionsAsProperties := _storeOptionsAsProperties c;
     properties := properties c; _actionHandler := _actionHandler c;
     _executableHandler := _executableHandler c;
     _defaultCommandName := _defaultCommandName c; _aliases := _aliases c;
     _combineFlagAndOptionalValue := _combineFlagAndOptionalValue c;
     _enablePositionalOptions := _enablePositionalOptions c;
     _passThroughOptions := _passThroughOptions c; lifeCycleHooks := x;
     addImplicitHelpCommand := addImplicitHelpCommand c;
     helpCommand := helpCommand c; listeners := listeners c |}.

Definition set_addImplicitHelpCommand (x : option bool) (c : Command) : Command :=
  {| args := args c; commands := commands c; options := options c;
     registeredArguments := registeredArguments c; parent := parent c;
     _name := _name c; optionValues := optionValues c;
     _optionValueSources := _optionValueSources c;
     _storeOptionsAsProperties := _storeOptionsAsProperties c;
     properties := properties c; _actionHandler := _actionHandler c;
     _executableHandler := _executableHandler c;
     _defaultCommandName := _defaultCommandName c; _aliases := _aliases c;
     _combineFlagAndOptionalValue := _combineFlagAndOptionalValue c;
     _enablePositionalOptions := _enablePositionalOptions c;
     _passThroughOptions := _passThroughOptions c;
     lifeCycleHooks := lifeCycleHooks c; addImplicitHelpCommand := x;
     helpCommand := helpCommand c; listeners := listeners c |}.

Definition set_helpCommand (x : option nat) (c : Command) : Command :=
  {| args := args c; commands := commands c; options := options c;
     registeredArguments := registeredArguments c; parent := parent c;
     _name := _name c; optionValues := optionValues c;
     _optionValueSources := _optionValueSources c;
     _storeOptionsAsProperties := _storeOptionsAsProperties c;
     properties := properties c; _actionHandler := _actionHandler c;
     _executableHandler := _executableHandler c;
     _defaultCommandName := _defaultCommandName c; _aliases := _aliases c;
     _combineFlagAndOptionalValue := _combineFlagAndOptionalValue c;
     _enablePositionalOptions := _enablePositionalOptions c;
     _passThroughOptions := _passThroughOptions c;
     lifeCycleHooks := lifeCycleHooks c;
     addImplicitHelpCommand := addImplicitHelpCommand c; helpCommand := x;
     listeners := listeners c |}.

Definition set_listeners (x : list (string * Listener)) (c : Command) : Command :=
  {| args := args c; commands := commands c; options := options c;
     registeredArguments := registeredArguments c; parent := parent c;
     _name := _name c; optionValues := optionValues c;
     _optionValueSources := _optionValueSources c;
     _storeOptionsAsProperties := _storeOptionsAsProperties c;
     properties := properties c; _actionHandler := _actionHandler c;
     _executableHandler := _executableHandler c;
     _defaultCommandName := _defaultCommandName c; _aliases := _aliases c;
     _combineFlagAndOptionalValue := _combineFlagAndOptionalValue c;
     _enablePositionalOptions := _enablePositionalOptions c;
     _passThroughOptions := _passThroughOptions c;
     lifeCycleHooks := lifeCycleHooks c;
     addImplicitHelpCommand := addImplicitHelpCommand c;
     helpCommand := helpCommand c; listeners := x |}.

Definition set_storeOptionsAsProperties (x : bool) (c : Command) : Command :=
  {| args := args c; commands := commands c; options := options c;
     registeredArguments := registeredArguments c; parent := parent c;
     _name := _name c; optionValues := optionValues c;
     _optionValueSources := _optionValueSources c;
     _storeOptionsAsProperties := x; properties := properties c;
     _actionHandler := _actionHandler c;
     _executableHandler := _executableHandler c;
     _defaultCommandName := _defaultCommandName c; _aliases := _aliases c;
     _combineFlagAndOptionalValue := _combineFlagAndOptionalValue c;
     _enablePositionalOptions := _enablePositionalOptions c;
     _passThroughOptions := _passThroughOptions c;
     lifeCycleHooks := lifeCycleHooks c;
     addImplicitHelpCommand := addImplicitHelpCommand c;
     helpCommand := helpCommand c; listeners := listeners c |}.

(** The field initialisers and the constructor [new Command(name)]. *)
Definition new (name : string) : Command :=
  {| args := [];
     commands := [];
     options := [];
     registeredArguments := [];
     parent := None;
     _name := name;
     optionValues := ∅;
     _optionValueSources := ∅;
     _storeOptionsAsProperties := false;
     properties := ∅;
     _actionHandler := false;
     _executableHandler := false;
     _defaultCommandName := None;
     _aliases := [];
     _combineFlagAndOptionalValue := true;
     _enablePositionalOptions := false;
     _passThroughOptions := false;
     lifeCycleHooks := {| postAction := SlotNull; preAction := SlotNull;
                          preSubcommand := SlotNull |};
     addImplicitHelpCommand := None;
     helpCommand := None;
     listeners := [] |}.

End Cmd.
Export Cmd.

(** ** The world and the outcome of a method *)

Module Run.

(** The store: the [Command] objects and the [string[]] arrays by location,
    the identity given to the next array value, and [process.env]. *)
Record World : Type := {
  cmds : gmap nat Command;
  arrays : gmap nat (list string);
  next_tag : nat;
  environ : gmap string string;
}.

Definition set_cmds (x : gmap nat Command) (w : World) : World :=
  {| cmds := x; arrays := arrays w; next_tag := next_tag w; environ := environ w |}.

Definition set_arrays (x : gmap nat (list string)) (w : World) : World :=
  {| cmds := cmds w; arrays := x; next_tag := next_tag w; environ := environ w |}.

Definition set_next_tag (x : nat) (w : World) : World :=
  {| cmds := cmds w; arrays := arrays w; next_tag := x; environ := environ w |}.

(** How a method ends: it returns; it reaches [#exit] with a
    [CommanderError] (handed to the exit callback when one is installed,
    and to [process.exit] otherwise); it throws; the model is stuck on a
    location that holds no object, which no JavaScript execution does; or
    it runs forever. *)
Inductive Outcome (A : Type) : Type :=
| Ok (a : A) (w : World)
| Exit (e : CommanderError) (w : World)
| Throw (x : exn) (w : World)
| Stuck
| Diverge.

Arguments Ok {A} a w.
Arguments Exit {A} e w.
Arguments Throw {A} x w.
Arguments Stuck {A}.
Arguments Diverge {A}.

Definition M (A : Type) : Type := World -> Outcome A.

Definition ret {A} (a : A) : M A := fun w => Ok a w.

Definition bind {A B} (m : M A) (k : A -> M B) : M B :=
  fun w =>
    match m w with
    | Ok a w' => k a w'
    | Exit e w' => Exit e w'
    | Throw x w' => Throw x w'
    | Stuck => Stuck
    | Diverge => Diverge
    end.

Definition throw {A} (x : exn) : M A := fun w => Throw x w.

Definition stuck {A} : M A := fun _ => Stuck.

Definition diverge {A} : M A := fun _ => Diverge.

(** The world a method leaves behind, when there is one. *)
Definition final_world {A} (o : Outcome A) : option World :=
  match o with
  | Ok _ w | Exit _ w | Throw _ w => Some w
  | Stuck | Diverge => None
  end.

End Run.
Export Run.

Notation "x <- m ;; k" := (bind m (fun x => k))
  (at level 100, m at next level, right associativity).
Notation "m ;;; k" := (bind m (fun _ => k))
  (at level 100, right associativity).

Module Store.

Definition get_world : M World := fun w => Ok w w.

(** Reading and writing the object at a location. *)
Definition get_cmd (this : nat) : M Command :=
  fun w => match cmds w !! this with Some c => Ok c w | None => Stuck end.

Definition put_cmd (this : nat) (c : Command) : M unit :=
  fun w => Ok tt (set_cmds (<[this := c]> (cmds w)) w).

Definition modify_cmd (this : nat) (f : Command -> Command) : M unit :=
  c <- get_cmd this ;; put_cmd this (f c).

(** [new Command(...)]: the object gets a location that holds none. *)
Definition alloc_cmd (c : Command) : M nat :=
  fun w => let l := fresh (dom (cmds w)) in
           Ok l (set_cmds (<[l := c]> (cmds w)) w).

(** Arrays of strings. *)
Definition get_array (a : nat) : M (list string) :=
  fun w => match arrays w !! a with Some l => Ok l w | None => Stuck end.

Definition put_array (a : nat) (l : list string) : M unit :=
  fun w => Ok tt (set_arrays (<[a := l]> (arrays w)) w).

(** An array literal, [slice()] or [concat]: a new array object. *)
Definition alloc_array (l : list string) : M nat :=
  fun w => let a := fresh (dom (arrays w)) in
           Ok a (set_arrays (<[a := l]> (arrays w)) w).

(** [a.push(...xs)]. *)
Definition push (a : nat) (xs : list string) : M unit :=
  l <- get_array a ;; put_array a (l ++ xs)%list.

(** [a.shift()]: [None] is [undefined]. *)
Definition shift (a : nat) : M (option string) :=
  l <- get_array a ;;
  match l with
  | [] => ret None
  | x :: l' => put_array a l' ;;; ret (Some x)
  end.

(** [a.unshift(x)]. *)
Definition unshift (a : nat) (x : string) : M unit :=
  l <- get_array a ;; put_array a (x :: l).

(** The identity of a new array value. *)
Definition fresh_tag : M nat :=
  fun w => Ok (next_tag w) (set_next_tag (S (next_tag w)) w).

(** [process.env]. *)
Definition get_env : M (gmap string string) := fun w => Ok (environ w) w.

(** [for (const x of l) body(x)] and [l.forEach(body)]. *)
Fixpoint for_each {A} (l : list A) (body : A -> M unit) : M unit :=
  match l with
  | [] => ret tt
  | x :: l' => body x ;;; for_each l' body
  end.

(** [l.find(p)] for a predicate that reads the world. *)
Fixpoint find_m {A} (p : A -> M bool) (l : list A) : M (option A) :=
  match l with
  | [] => ret None
  | x :: l' => b <- p x ;; if b then ret (Some x) else find_m p l'
  end.

(** [l.filter(p)] for a predicate that reads the world. *)
Fixpoint filter_m {A} (p : A -> M bool) (l : list A) : M (list A) :=
  match l with
  | [] => ret []
  | x :: l' =>
      b <- p x ;; r <- filter_m p l' ;; ret (if b then x :: r else r)
  end.

(** The names that every object created by [{}] inherits from
    [Object.prototype]. *)
Definition prototype_members : list string :=
  [ "__proto__"; "constructor"; "hasOwnProperty"; "isPrototypeOf";
    "propertyIsEnumerable"; "toLocaleString"; "toString"; "valueOf";
    "__defineGetter__"; "__defineSetter__"; "__lookupGetter__";
    "__lookupSetter__" ].

(** A key that names no inherited member: for such a key [obj[key]] reads
    the own property alone, and [obj[key] = v] creates or updates it. *)
Definition ordinary_key (key : string) : bool :=
  negb (existsb (String.eqb key) prototype_members).

(** The lookup [obj[key]] in a plain object used as a map: the own property
    of that name, [undefined] without one.  The map holds the own
    properties only, so this is the lookup of the code at the keys that are
    [ordinary_key]; at a name of [prototype_members] the code finds the
    inherited member where there is no own property. *)
Definition js_get (m : gmap string jsval) (key : string) : jsval :=
  default VUndefined (m !! key).

(** A member call on the result of [name()] or [attributeName()]. *)
Definition or_type_error {A} (o : option A) : M A :=
  match o with
  | Some a => ret a
  | None => throw (ThrowTypeError "Cannot read properties of undefined")
  end.

End Store.
Export Store.

(** ** Class [Command]: option values, events and registration *)

Module Methods.

(** [#exit(exitCode, code, message)]. *)
Definition exit_ {A} (status : Z) (id msg : string) : M A :=
  fun w => Exit {| exitCode := status; code := id; message := msg |} w.

(** [error(message, errorOptions)]: [config.exitCode || 1] and
    [config.code || "commander.error"], then [#exit]. *)
Definition error {A} (msg : string) (id : option string) (status : option Z) : M A :=
  exit_ (match status with
         | Some n => if (n =? 0)%Z then 1%Z else n
         | None => 1%Z
         end)
        (if truthy id then default "" id else "commander.error")
        msg.

(** [getOptionValue(key)].  With [storeOptionsAsProperties] the code reads
    [this[key]], a property of the command object itself; the map
    [properties] holds the properties that option values have created and
    none of the fields and methods of the class.  The statements about
    option values are therefore made without [storeOptionsAsProperties]
    and at keys that are [ordinary_key]. *)
Definition getOptionValue (this : nat) (key : string) : M jsval :=
  c <- get_cmd this ;;
  ret (if _storeOptionsAsProperties c then js_get (properties c) key
       else js_get (optionValues c) key).

(** The two assignments of [setOptionValueWithSource], as insertions of
    own properties: what [obj[key] = value] does at every key but
    [__proto__], where the code sets the prototype and stores no property.
    With [storeOptionsAsProperties] the value goes to [properties], apart
    from the fields and methods of the command that [this[key] = value]
    would overwrite. *)
Definition assign_value (key : string) (value source : jsval) (c : Command) : Command :=
  let c' := if _storeOptionsAsProperties c
            then set_properties (<[key := value]> (properties c)) c
            else set_optionValues (<[key := value]> (optionValues c)) c in
  set_optionValueSources (<[key := source]> (_optionValueSources c')) c'.

(** [setOptionValueWithSource(key, value, source)]. *)
Definition setOptionValueWithSource (this : nat) (key : string) (value source : jsval)
  : M unit :=
  modify_cmd this (assign_value key value source).

(** [setOptionValue(key, value)]. *)
Definition setOptionValue (this : nat) (key : string) (value : jsval) : M unit :=
  setOptionValueWithSource this key value VUndefined.

(** [getOptionValueSource(key)]: the own property of [_optionValueSources],
    which is the result of the code at the keys that are [ordinary_key]. *)
Definition getOptionValueSource (this : nat) (key : string) : M jsval :=
  c <- get_cmd this ;; ret (js_get (_optionValueSources c) key).

(** [_findOption(arg)]. *)
Definition _findOption (this : nat) (arg : string) : M (option Opt.Option) :=
  c <- get_cmd this ;; ret (find (fun o => OptMethods.is_ o arg) (options c)).

(** [#findCommand(name)]. *)
Definition findCommand (this : nat) (name : option string) : M (option nat) :=
  match name with
  | None => ret None
  | Some n =>
      if negb (Str.nonempty n) then ret None
      else
        c <- get_cmd this ;;
        find_m (fun l => cmd <- get_cmd l ;;
                         ret (String.eqb (_name cmd) n
                              || existsb (String.eqb n) (_aliases cmd)))
               (commands c)
  end.

(** [#callParseArg(target, value, previous, invalidArgumentMessage)], for
    [fn = target.parseArg]. *)
Definition callParseArg (fn : ParseArgFunc) (value previous : jsval)
    (invalidArgumentMessage : string) : M jsval :=
  match fn value previous with
  | Returns v => ret v
  | Raises err =>
      match err with
      | ThrowCommander e =>
          if String.eqb (code e) "commander.invalidArgument"
          then error (invalidArgumentMessage ++ " " ++ message e)
                     (Some (code e)) (Some (exitCode e))
          else throw err
      | _ => throw err
      end
  end.

Definition option_at (c : Command) (index : nat) : M Opt.Option :=
  match options c !! index with Some o => ret o | None => stuck end.

(** The value stored when the event carried none. *)
Definition fill_missing (option : Opt.Option) : jsval :=
  if Opt.negate option then VBool false
  else if OptMethods.isBoolean option || Opt.optional option then VBool true
  else VStr "".

(** The statement under [// custom processing] in [handleOptionValue]:
    [parseArg] is called on every value but [null], and without [parseArg]
    a variadic option collects the value. *)
Definition customProcessing (option : Opt.Option) (val oldValue : jsval)
    (invalidValueMessage : string) : M jsval :=
  if negb (is_null val) then
    match Opt.parseArg option with
    | Some fn => callParseArg fn val oldValue invalidValueMessage
    | None =>
        if Opt.variadic option
        then id <- fresh_tag ;;
             ret (OptMethods._concatValue option id val oldValue)
        else ret val
    end
  else ret val.

(** The closure [handleOptionValue(val, invalidValueMessage, valueSource)]
    that [addOption] creates for the option at [index], stored under
    [name]. *)
Definition handleOptionValue (this index : nat) (name : string) (val : jsval)
    (invalidValueMessage valueSource : string) : M unit :=
  c <- get_cmd this ;;
  option <- option_at c index ;;
  let val1 := if is_nullish val && negb (is_undefined (Opt.presetArg option))
              then Opt.presetArg option else val in
  oldValue <- getOptionValue this name ;;
  val2 <- customProcessing option val1 oldValue invalidValueMessage ;;
  let val3 := if is_nullish val2 then fill_missing option else val2 in
  setOptionValueWithSource this name val3 (VStr valueSource).

(** One registered listener called with [val]. *)
Definition run_listener (this : nat) (l : Listener) (val : jsval) : M unit :=
  match l with
  | OnOption index name =>
      c <- get_cmd this ;;
      option <- option_at c index ;;
      handleOptionValue this index name val
        ("error: option '" ++ Opt.flags option ++ "' argument '"
         ++ to_string val ++ "' is invalid.") "cli"
  | OnOptionEnv index name =>
      c <- get_cmd this ;;
      option <- option_at c index ;;
      handleOptionValue this index name val
        ("error: option '" ++ Opt.flags option ++ "' value '" ++ to_string val
         ++ "' from env '" ++ opt_to_string (Opt.envVar option)
         ++ "' is invalid.") "env"
  | OnVersion str => exit_ 0 "commander.version" str
  end.

Definition listens (event : string) (entry : string * Listener) : bool :=
  String.eqb (fst entry) event.

(** [this.emit(event, val)]: the listeners of the event, in the order of
    their registration. *)
Definition emit (this : nat) (event : string) (val : jsval) : M unit :=
  c <- get_cmd this ;;
  for_each (List.filter (listens event) (listeners c))
           (fun entry => run_listener this (snd entry) val).

(** [this.on(event, listener)]. *)
Definition on (this : nat) (event : string) (l : Listener) : M unit :=
  modify_cmd this (fun c => set_listeners (listeners c ++ [(event, l)])%list c).

End Methods.
Export Methods.

(** ** Class [Command]: building a command *)

Module Build.

(** [#registerOption(option)]. *)
Definition registerOption (this : nat) (option : Opt.Option) : M unit :=
  byShort <- (if truthy (Opt.short option)
              then _findOption this (default "" (Opt.short option))
              else ret None) ;;
  byLong <- (if truthy (Opt.long option)
             then _findOption this (default "" (Opt.long option))
             else ret None) ;;
  match (match byShort with Some m => Some m | None => byLong end) with
  | Some matchingOption =>
      c <- get_cmd this ;;
      let matchingFlag :=
        match byLong with
        | Some _ => opt_to_string (Opt.long option)
        | None => opt_to_string (Opt.short option)
        end in
      throw (ThrowError
        ("Cannot add option '" ++ Opt.flags option ++ "'"
         ++ (if Str.nonempty (_name c)
             then " to command '" ++ _name c ++ "'" else "")
         ++ " due to conflicting flag '" ++ matchingFlag ++ "'
-  already used by option '" ++ Opt.flags matchingOption ++ "'"))
  | None =>
      modify_cmd this (fun c => set_options (options c ++ [option])%list c)
  end.

(** [addOption(option)]. *)
Definition addOption (this : nat) (option : Opt.Option) : M unit :=
  c0 <- get_cmd this ;;
  let index := length (options c0) in
  registerOption this option ;;;
  oname <- or_type_error (OptMethods.name option) ;;
  name <- or_type_error (OptMethods.attributeName option) ;;
  (if Opt.negate option then
     long <- or_type_error (Opt.long option) ;;
     let positiveLongFlag :=
       match Str.strip "--no-" long with Some r => "--" ++ r | None => long end in
     positive <- _findOption this positiveLongFlag ;;
     match positive with
     | Some _ => ret tt
     | None =>
         setOptionValueWithSource this name
           (if is_undefined (Opt.defaultValue option) then VBool true
            else Opt.defaultValue option)
           (VStr "default")
     end
   else if negb (is_undefined (Opt.defaultValue option)) then
     setOptionValueWithSource this name (Opt.defaultValue option) (VStr "default")
   else ret tt) ;;;
  on this ("option:" ++ oname) (OnOption index name) ;;;
  (if truthy (Opt.envVar option)
   then on this ("optionEnv:" ++ oname) (OnOptionEnv index name)
   else ret tt).

(** [version(str, flags)] with a defined [str]. *)
Definition version (this : nat) (str : string) (flags : option string) : M unit :=
  let versionOption :=
    Opt.new (if truthy flags then default "" flags else "-V, --version") in
  _ <- or_type_error (OptMethods.attributeName versionOption) ;;
  registerOption this versionOption ;;;
  oname <- or_type_error (OptMethods.name versionOption) ;;
  on this ("option:" ++ oname) (OnVersion str).

(** [addArgument(arg)]. *)
Definition addArgument (this : nat) (arg : Arg.Argument) : M unit :=
  c <- get_cmd this ;;
  let previousArgument := list.last (registeredArguments c) in
  if match previousArgument with Some p => Arg.variadic p | None => false end
  then throw (ThrowError
         ("only the last argument can be variadic '"
          ++ match previousArgument with Some p => Arg.name p | None => "" end
          ++ "'"))
  else if Arg.required arg
          && negb (is_undefined (Arg.defaultValue arg))
          && match Arg.parseArg arg with None => true | Some _ => false end
  then throw (ThrowError
         ("a default value for a required argument is never used: '"
          ++ Arg.name arg ++ "'"))
  else put_cmd this (set_registeredArguments (registeredArguments c ++ [arg])%list c).

(** The key lookup [#lifeCycleHooks[event]]. *)
Definition slot (h : LifeCycleHooks) (event : string) : HookSlot :=
  if String.eqb event "postAction" then postAction h
  else if String.eqb event "preAction" then preAction h
  else if String.eqb event "preSubcommand" then preSubcommand h
  else SlotUndefined.

Definition set_slot (event : string) (s : HookSlot) (h : LifeCycleHooks) : LifeCycleHooks :=
  if String.eqb event "postAction"
  then {| postAction := s; preAction := preAction h; preSubcommand := preSubcommand h |}
  else if String.eqb event "preAction"
  then {| postAction := postAction h; preAction := s; preSubcommand := preSubcommand h |}
  else if String.eqb event "preSubcommand"
  then {| postAction := postAction h; preAction := preAction h; preSubcommand := s |}
  else h.

(** [hook(event, listener)]. *)
Definition hook (this : nat) (event : string) (listener : Hook) : M unit :=
  if negb (existsb (String.eqb event) ["preSubcommand"; "preAction"; "postAction"])
  then throw (ThrowError
         ("Unexpected value for event passed to hook : '" ++ event ++ "'.
Expecting one of 'preSubcommand', 'preAction', 'postAction'"))
  else
    modify_cmd this (fun c =>
      let h := lifeCycleHooks c in
      set_lifeCycleHooks
        (set_slot event
           (match slot h event with
            | SlotHooks l => SlotHooks (l ++ [listener])
            | _ => SlotHooks [listener]
            end) h) c).

(** [names.join("|")]. *)
Fixpoint join_bar (names : list string) : string :=
  match names with
  | [] => ""
  | [n] => n
  | n :: rest => n ++ "|" ++ join_bar rest
  end.

(** [alias(alias)] with a defined argument. *)
Definition alias (this : nat) (alias : string) : M unit :=
  c <- get_cmd this ;;
  command <- (match list.last (commands c) with
              | Some l =>
                  lastCommand <- get_cmd l ;;
                  ret (if _executableHandler lastCommand then l else this)
              | None => ret this
              end) ;;
  target <- get_cmd command ;;
  if String.eqb alias (_name target)
  then throw (ThrowError "Command alias can't be the same as its name")
  else
    matchingCommand <- (match parent c with
                        | Some p => findCommand p (Some alias)
                        | None => ret None
                        end) ;;
    match matchingCommand with
    | Some m =>
        mc <- get_cmd m ;;
        throw (ThrowError
          ("cannot add alias '" ++ alias ++ "' to command '" ++ _name c
           ++ "' as already have command '"
           ++ join_bar (_name mc :: _aliases mc) ++ "'"))
    | None =>
        modify_cmd command (fun t => set_aliases (_aliases t ++ [alias])%list t)
    end.

(** [aliases()] without argument. *)
Definition aliases (this : nat) : M (list string) :=
  c <- get_cmd this ;; ret (_aliases c).

End Build.
Export Build.

(** ** Class [Command]: the help command, ancestors and hooks *)

Module Walk.

(** [helpCommand(undefined, undefined)], as [_getHelpCommand] calls it: the
    name and arguments are those of ["help [command]"]. *)
Definition defaultHelpCommand (this : nat) : M unit :=
  helpCommand <- alloc_cmd (Cmd.new "help") ;;
  addArgument helpCommand (Arg.default VUndefined (Arg.new "[command]" None)) ;;;
  modify_cmd this (fun c =>
    set_helpCommand (Some helpCommand) (set_addImplicitHelpCommand (Some true) c)).

(** [addHelpCommand(helpCommand)] with a command object. *)
Definition addHelpCommand (this helpCommand : nat) : M unit :=
  modify_cmd this (fun c =>
    set_helpCommand (Some helpCommand) (set_addImplicitHelpCommand (Some true) c)).

(** [_getHelpCommand()]: [None] is [null]. *)
Definition _getHelpCommand (this : nat) : M (option nat) :=
  c <- get_cmd this ;;
  hasImplicitHelpCommand <-
    (match addImplicitHelpCommand c with
     | Some b => ret b
     | None =>
         if negb (Nat.eqb (length (commands c)) 0) && negb (_actionHandler c)
         then found <- findCommand this (Some "help") ;;
              ret (match found with Some _ => false | None => true end)
         else ret false
     end) ;;
  if hasImplicitHelpCommand then
    (match helpCommand c with
     | None => defaultHelpCommand this
     | Some _ => ret tt
     end) ;;;
    c' <- get_cmd this ;;
    ret (helpCommand c')
  else ret None.

(** The loop of [#getCommandAndAncestors()], at most [fuel] commands. *)
Fixpoint walk_parents (fuel : nat) (command : nat) : M (list nat) :=
  match fuel with
  | O => diverge
  | S fuel' =>
      c <- get_cmd command ;;
      match parent c with
      | None => ret [command]
      | Some p => rest <- walk_parents fuel' p ;; ret (command :: rest)
      end
  end.

(** [#getCommandAndAncestors()]: a walk that visits more commands than the
    world holds is on a cycle of [parent] links and never ends. *)
Definition getCommandAndAncestors (this : nat) : M (list nat) :=
  w <- get_world ;; walk_parents (S (size (cmds w))) this.

(** A callback invocation [callback(first, second)]. *)
Record HookCall : Type := {
  callback : Hook;
  first : nat;
  second : nat;
}.

(** The value of [promiseChain]: the invocations in the order in which they
    are made, and whether the chain is a thenable. *)
Record Chain : Type := {
  called : list HookCall;
  thenable : bool;
}.

(** The initial [let promiseChain;]. *)
Definition no_chain : Chain := {| called := []; thenable := false |}.

(** [#chainOrCall(promise, fn)] for [fn] a hook invocation: it is made after
    those of the chain, and the result is a thenable when the chain was one
    or the callback returns one. *)
Definition chainOrCall (promise : Chain) (fn : HookCall) : Chain :=
  {| called := (called promise ++ [fn])%list;
     thenable := if thenable promise then true else hook_async (callback fn) |}.

Definition slot_defined (s : HookSlot) : bool :=
  match s with SlotUndefined => false | _ => true end.

(** The nested [for ... of] that fills [hooks]; iterating [null] throws. *)
Fixpoint collect_hooks (event : string) (hooked : list nat) : M (list (nat * Hook)) :=
  match hooked with
  | [] => ret []
  | hookedCommand :: rest =>
      c <- get_cmd hookedCommand ;;
      match slot (lifeCycleHooks c) event with
      | SlotHooks callbacks =>
          more <- collect_hooks event rest ;;
          ret (map (pair hookedCommand) callbacks ++ more)%list
      | _ => throw (ThrowTypeError "#lifeCycleHooks[event] is not iterable")
      end
  end.

(** [#chainOrCallHooks(promise, event)]. *)
Definition chainOrCallHooks (this : nat) (promise : Chain) (event : string) : M Chain :=
  ancestors <- getCommandAndAncestors this ;;
  hooked <- filter_m (fun l => c <- get_cmd l ;;
                               ret (slot_defined (slot (lifeCycleHooks c) event)))
                     (rev ancestors) ;;
  hooks <- collect_hooks event hooked ;;
  let hooks' := if String.eqb event "postAction" then rev hooks else hooks in
  ret (fold_left (fun result hookDetail =>
                    chainOrCall result {| callback := snd hookDetail;
                                          first := fst hookDetail;
                                          second := this |})
                 hooks' promise).

(** [#chainOrCallSubCommandHook(promise, subCommand, event)]. *)
Definition chainOrCallSubCommandHook (this : nat) (promise : Chain)
    (subCommand : nat) (event : string) : M Chain :=
  c <- get_cmd this ;;
  match slot (lifeCycleHooks c) event with
  | SlotUndefined => ret promise
  | SlotHooks callbacks =>
      ret (fold_left (fun result hook =>
                        chainOrCall result {| callback := hook; first := this;
                                              second := subCommand |})
                     callbacks promise)
  | SlotNull => throw (ThrowTypeError "#lifeCycleHooks[event] is not iterable")
  end.

End Walk.
Export Walk.

(** ** Class [Command]: validation and the environment and implied passes *)

Module Passes.

(** The filter of [#checkForConflictingLocalOptions]. *)
Definition definedNonDefault (this : nat) (option : Opt.Option) : M bool :=
  optionKey <- or_type_error (OptMethods.attributeName option) ;;
  v <- getOptionValue this optionKey ;;
  if is_undefined v then ret false
  else src <- getOptionValueSource this optionKey ;;
       ret (negb (strict_eq src (VStr "default"))).

(** [findBestOptionFromValue(option)] in [#conflictingOption]. *)
Definition findBestOptionFromValue (this : nat) (option : Opt.Option) : M Opt.Option :=
  c <- get_cmd this ;;
  optionKey <- or_type_error (OptMethods.attributeName option) ;;
  optionValue <- getOptionValue this optionKey ;;
  negativeOption <-
    find_m (fun target =>
              if Opt.negate target
              then k <- or_type_error (OptMethods.attributeName target) ;;
                   ret (String.eqb optionKey k)
              else ret false) (options c) ;;
  positiveOption <-
    find_m (fun target =>
              if negb (Opt.negate target)
              then k <- or_type_error (OptMethods.attributeName target) ;;
                   ret (String.eqb optionKey k)
              else ret false) (options c) ;;
  let fromNegative :=
    match negativeOption with
    | Some n =>
        (is_undefined (Opt.presetArg n) && strict_eq optionValue (VBool false))
        || (negb (is_undefined (Opt.presetArg n))
            && strict_eq optionValue (Opt.presetArg n))
    | None => false
    end in
  ret (if fromNegative then default option negativeOption
       else default option positiveOption).

(** [getErrorMessage(option)] in [#conflictingOption]. *)
Definition getErrorMessage (this : nat) (option : Opt.Option) : M string :=
  bestOption <- findBestOptionFromValue this option ;;
  optionKey <- or_type_error (OptMethods.attributeName bestOption) ;;
  source <- getOptionValueSource this optionKey ;;
  ret (if strict_eq source (VStr "env")
       then "environment variable '" ++ opt_to_string (Opt.envVar bestOption) ++ "'"
       else "option '" ++ Opt.flags bestOption ++ "'").

(** [#conflictingOption(option, conflictingOption)]. *)
Definition conflictingOption {A} (this : nat) (option conflicting : Opt.Option) : M A :=
  m1 <- getErrorMessage this option ;;
  m2 <- getErrorMessage this conflicting ;;
  error ("error: " ++ m1 ++ " cannot be used with " ++ m2)
        (Some "commander.conflictingOption") None.

(** The body of the loop over [optionsWithConflicting] in
    [#checkForConflictingLocalOptions]. *)
Definition conflict_body (this : nat) (definedNonDefaultOptions : list Opt.Option)
    (option : Opt.Option) : M unit :=
  conflictingAndDefined <-
    find_m (fun defined =>
              k <- or_type_error (OptMethods.attributeName defined) ;;
              ret (existsb (String.eqb k) (Opt.conflictsWith option)))
           definedNonDefaultOptions ;;
  match conflictingAndDefined with
  | Some defined => conflictingOption this option defined
  | None => ret tt
  end.

(** [#checkForConflictingLocalOptions()]. *)
Definition checkForConflictingLocalOptions (this : nat) : M unit :=
  c <- get_cmd this ;;
  definedNonDefaultOptions <- filter_m (definedNonDefault this) (options c) ;;
  let optionsWithConflicting :=
    List.filter (fun option => negb (Nat.eqb (length (Opt.conflictsWith option)) 0))
                definedNonDefaultOptions in
  for_each optionsWithConflicting (conflict_body this definedNonDefaultOptions).

(** [#checkForConflictingOptions()]. *)
Definition checkForConflictingOptions (this : nat) : M unit :=
  ancestors <- getCommandAndAncestors this ;;
  for_each ancestors checkForConflictingLocalOptions.

(** The callback of [this.options.forEach] in [_parseOptionsEnv]. *)
Definition parseOptionEnv (this : nat) (option : Opt.Option) : M unit :=
  environment <- get_env ;;
  match Opt.envVar option with
  | Some envVar =>
      match (if Str.nonempty envVar then environment !! envVar else None) with
      | Some value =>
          optionKey <- or_type_error (OptMethods.attributeName option) ;;
          v <- getOptionValue this optionKey ;;
          src <- getOptionValueSource this optionKey ;;
          if is_undefined v || includes_str ["default"; "config"; "env"] src
          then
            name <- or_type_error (OptMethods.name option) ;;
            if Opt.required option || Opt.optional option
            then emit this ("optionEnv:" ++ name) (VStr value)
            else emit this ("optionEnv:" ++ name) VUndefined
          else ret tt
      | None => ret tt
      end
  | None => ret tt
  end.

(** [_parseOptionsEnv()]. *)
Definition _parseOptionsEnv (this : nat) : M unit :=
  c <- get_cmd this ;; for_each (options c) (parseOptionEnv this).

End Passes.
Export Passes.

(** ** Class [DualOptions] and the implied pass *)

Module Dual.

Record DualOptions : Type := {
  positiveOptions : gmap string Opt.Option;
  negativeOptions : gmap string Opt.Option;
  dualOptions : gset string;
}.

(** The [for ... of] of the constructor. *)
Fixpoint fill (options : list Opt.Option) (pos neg : gmap string Opt.Option)
  : M (gmap string Opt.Option * gmap string Opt.Option) :=
  match options with
  | [] => ret (pos, neg)
  | option :: rest =>
      k <- or_type_error (OptMethods.attributeName option) ;;
      if Opt.negate option then fill rest pos (<[k := option]> neg)
      else fill rest (<[k := option]> pos) neg
  end.

(** [new DualOptions(options)]: the dual keys are the negative keys that
    are positive keys too. *)
Definition new (options : list Opt.Option) : M DualOptions :=
  maps <- fill options ∅ ∅ ;;
  ret {| positiveOptions := fst maps;
         negativeOptions := snd maps;
         dualOptions := dom (snd maps) ∩ dom (fst maps) |}.

(** [valueFromOption(value, option)]. *)
Definition valueFromOption (d : DualOptions) (value : jsval) (option : Opt.Option)
  : M bool :=
  optionKey <- or_type_error (OptMethods.attributeName option) ;;
  if negb (bool_decide (optionKey ∈ dualOptions d)) then ret true
  else
    match negativeOptions d !! optionKey with
    | None => stuck
    | Some n =>
        let preset := Opt.presetArg n in
        let negativeValue := if negb (is_undefined preset) then preset else VBool false in
        ret (Bool.eqb (Opt.negate option) (strict_eq negativeValue value))
    end.

(** [hasCustomOptionValue(optionKey)] in [_parseOptionsImplied]. *)
Definition hasCustomOptionValue (this : nat) (optionKey : string) : M bool :=
  v <- getOptionValue this optionKey ;;
  src <- getOptionValueSource this optionKey ;;
  ret (negb (is_undefined v) && negb (includes_str ["default"; "implied"] src)).

(** [option.implied[impliedKey]]. *)
Definition implied_get (l : list (string * jsval)) (key : string) : jsval :=
  match find (fun kv => String.eqb (fst kv) key) l with
  | Some kv => snd kv
  | None => VUndefined
  end.

(** [_parseOptionsImplied()]. *)
Definition _parseOptionsImplied (this : nat) : M unit :=
  c <- get_cmd this ;;
  dualHelper <- new (options c) ;;
  implying <-
    filter_m (fun option =>
                match Opt.implied option with
                | None => ret false
                | Some _ =>
                    k <- or_type_error (OptMethods.attributeName option) ;;
                    custom <- hasCustomOptionValue this k ;;
                    if custom
                    then v <- getOptionValue this k ;;
                         valueFromOption dualHelper v option
                    else ret false
                end) (options c) ;;
  for_each implying (fun option =>
    let implied := default [] (Opt.implied option) in
    keys <- filter_m (fun impliedKey =>
                        custom <- hasCustomOptionValue this impliedKey ;;
                        ret (negb custom)) (map fst implied) ;;
    for_each keys (fun impliedKey =>
      setOptionValueWithSource this impliedKey (implied_get implied impliedKey)
                               (VStr "implied"))).

End Dual.
Export Dual.

(** ** Class [Command]: the token parser *)

Module Parse.

(** The local variables of [parseOptions] that the loop reads and writes:
    the arrays by location ([dest] is the one of [operands] or of
    [unknown]) and the pending variadic option. *)
Record Locals : Type := {
  args_ : nat;
  operands_ : nat;
  unknown_ : nat;
  dest_ : nat;
  activeVariadicOption : option Opt.Option;
}.

Definition set_dest (d : nat) (lv : Locals) : Locals :=
  {| args_ := args_ lv; operands_ := operands_ lv; unknown_ := unknown_ lv;
     dest_ := d; activeVariadicOption := activeVariadicOption lv |}.

Definition set_active (o : option Opt.Option) (lv : Locals) : Locals :=
  {| args_ := args_ lv; operands_ := operands_ lv; unknown_ := unknown_ lv;
     dest_ := dest_ lv; activeVariadicOption := o |}.

(** The result [{ operands, unknown }]. *)
Record ParseOptionsResult : Type := {
  operands : nat;
  unknown : nat;
}.

(** The inner function [maybeOption(arg)]. *)
Definition maybeOption (arg : string) : bool :=
  (1 <? String.length arg)%nat
  && match arg with String "-" _ => true | _ => false end.

(** [arg.length > 2 && arg[0] === "-" && arg[1] !== "-"]: the character
    [arg[1]] and [arg.slice(2)]. *)
Definition short_cluster (arg : string) : option (ascii * string) :=
  match arg with
  | String "-" (String c rest) =>
      if negb (Ascii.eqb c "-") && Str.nonempty rest then Some (c, rest) else None
  | _ => None
  end.

(** [/^--[^=]+=/.test(arg)], with [arg.slice(0, index)] and
    [arg.slice(index + 1)] for [index = arg.indexOf("=")]. *)
Definition long_with_value (arg : string) : option (string * string) :=
  match Str.cut "=" arg with
  | Some (flag, value) =>
      match Str.strip "--" flag with
      | Some nm => if Str.nonempty nm then Some (flag, value) else None
      | None => None
      end
  | None => None
  end.

(** [optionMissingArgument(option)]. *)
Definition optionMissingArgument {A} (this : nat) (option : Opt.Option) : M A :=
  error ("error: option '" ++ Opt.flags option ++ "' argument missing")
        (Some "commander.optionMissingArgument") None.

(** [this.emit(`option:${option.name()}`, val)]. *)
Definition emit_option (this : nat) (option : Opt.Option) (val : jsval) : M unit :=
  name <- or_type_error (OptMethods.name option) ;;
  emit this ("option:" ++ name) val.

(** The statements of the loop body from ["Not a recognised option by this
    command"] on: the token goes to [operands] or [unknown]. [None] is
    [break]. *)
Definition route_token (this : nat) (lv : Locals) (arg : string) : M (option Locals) :=
  let lv := if maybeOption arg then set_dest (unknown_ lv) lv else lv in
  c <- get_cmd this ;;
  ops <- get_array (operands_ lv) ;;
  unk <- get_array (unknown_ lv) ;;
  stop <-
    (if (_enablePositionalOptions c || _passThroughOptions c)
        && Nat.eqb (length ops) 0 && Nat.eqb (length unk) 0
     then
       sub <- findCommand this (Some arg) ;;
       match sub with
       | Some _ =>
           push (operands_ lv) [arg] ;;;
           rest <- get_array (args_ lv) ;;
           push (unknown_ lv) rest ;;;
           ret true
       | None =>
           h <- _getHelpCommand this ;;
           isHelp <- (match h with
                      | Some l => hc <- get_cmd l ;; ret (String.eqb arg (_name hc))
                      | None => ret false
                      end) ;;
           if isHelp then
             push (operands_ lv) [arg] ;;;
             rest <- get_array (args_ lv) ;;
             push (operands_ lv) rest ;;;
             ret true
           else if truthy (_defaultCommandName c) then
             push (unknown_ lv) [arg] ;;;
             rest <- get_array (args_ lv) ;;
             push (unknown_ lv) rest ;;;
             ret true
           else ret false
       end
     else ret false) ;;
  if stop then ret None
  else if _passThroughOptions c then
    push (dest_ lv) [arg] ;;;
    rest <- get_array (args_ lv) ;;
    push (dest_ lv) rest ;;;
    ret None
  else
    push (dest_ lv) [arg] ;;;
    ret (Some lv).

End Parse.
Export Parse.

Module ParseLoop.

(** The branch [if (option)] for a token that is a declared flag. *)
Definition recognised (this : nat) (lv : Locals) : Opt.Option -> M (option Locals) :=
  fun option =>
  (if Opt.required option then
     value <- shift (args_ lv) ;;
     match value with
     | None => optionMissingArgument this option
     | Some v => emit_option this option (VStr v)
     end
   else if Opt.optional option then
     rest <- get_array (args_ lv) ;;
     value <- (match rest with
               | next :: _ =>
                   if negb (maybeOption next)
                   then v <- shift (args_ lv) ;;
                        ret (match v with Some s => VStr s | None => VUndefined end)
                   else ret VNull
               | [] => ret VNull
               end) ;;
     emit_option this option value
   else emit_option this option VUndefined) ;;;
  ret (Some (set_active (if Opt.variadic option then Some option else None) lv)).

(** The branch for combined short flags: [c] is [arg[1]] and [rest] is
    [arg.slice(2)]; [None] when [-c] is not declared. *)
Definition combo (this : nat) (lv : Locals) (c : ascii) (rest : string)
  : M (option (option Locals)) :=
  found <- _findOption this (String "-" (String c "")) ;;
  match found with
  | Some option =>
      c0 <- get_cmd this ;;
      (if Opt.required option
          || (Opt.optional option && _combineFlagAndOptionalValue c0)
       then emit_option this option (VStr rest)
       else emit_option this option VUndefined ;;;
            unshift (args_ lv) ("-" ++ rest)) ;;;
      ret (Some (Some lv))
  | None => ret None
  end.

(** The branch for [--flag=value]; [None] when the flag is not declared or
    takes no value. *)
Definition long_equals (this : nat) (lv : Locals) (flag value : string)
  : M (option (option Locals)) :=
  found <- _findOption this flag ;;
  match found with
  | Some option =>
      if Opt.required option || Opt.optional option
      then emit_option this option (VStr value) ;;; ret (Some (Some lv))
      else ret None
  | None => ret None
  end.

(** One iteration of [while (args.length)] after [arg = args.shift()]:
    [Some lv'] continues with the locals [lv'], [None] leaves the loop. *)
Definition iteration (this : nat) (lv : Locals) (arg : string) : M (option Locals) :=
  if String.eqb arg "--" then
    (if Nat.eqb (dest_ lv) (unknown_ lv) then push (dest_ lv) [arg] else ret tt) ;;;
    rest <- get_array (args_ lv) ;;
    push (dest_ lv) rest ;;;
    ret None
  else
    match activeVariadicOption lv, maybeOption arg with
    | Some variadicOption, false =>
        emit_option this variadicOption (VStr arg) ;;;
        ret (Some lv)
    | _, _ =>
        let lv := set_active None lv in
        found <- (if maybeOption arg then _findOption this arg else ret None) ;;
        match found with
        | Some option => recognised this lv option
        | None =>
            r1 <- (match short_cluster arg with
                   | Some (c, rest) => combo this lv c rest
                   | None => ret None
                   end) ;;
            match r1 with
            | Some next => ret next
            | None =>
                r2 <- (match long_with_value arg with
                       | Some (flag, value) => long_equals this lv flag value
                       | None => ret None
                       end) ;;
                match r2 with
                | Some next => ret next
                | None => route_token this lv arg
                end
            end
        end
    end.

(** [while (args.length) { const arg = args.shift(); ... }], at most [fuel]
    iterations. *)
Fixpoint loop (fuel : nat) (this : nat) (lv : Locals) : M unit :=
  match fuel with
  | O => diverge
  | S fuel' =>
      next <- shift (args_ lv) ;;
      match next with
      | None => ret tt
      | Some arg =>
          r <- iteration this lv arg ;;
          match r with
          | Some lv' => loop fuel' this lv'
          | None => ret tt
          end
      end
  end.

(** Each iteration takes a token off [args] or replaces the first token by
    a shorter one, so this many iterations are never exceeded. *)
Definition iterations (tokens : list string) : nat :=
  S (fold_right (fun t n => S (String.length t) + n) 0 tokens).

(** [parseOptions(argv)]. *)
Definition parseOptions (this : nat) (argv : nat) : M ParseOptionsResult :=
  operands <- alloc_array [] ;;
  unknown <- alloc_array [] ;;
  tokens <- get_array argv ;;
  args <- alloc_array tokens ;;
  loop (iterations tokens) this
       {| args_ := args; operands_ := operands; unknown_ := unknown;
          dest_ := operands; activeVariadicOption := None |} ;;;
  ret {| Parse.operands := operands; Parse.unknown := unknown |}.

(** The first statements of [#parseCommand(operands, unknown)], up to the
    assignment of [this.args]: the new [operands] and [unknown]. *)
Definition parseCommand_args (this : nat) (operands unknown : nat) : M (nat * nat) :=
  parsed <- parseOptions this unknown ;;
  _parseOptionsEnv this ;;;
  _parseOptionsImplied this ;;;
  before <- get_array operands ;;
  parsedOperands <- get_array (Parse.operands parsed) ;;
  operands' <- alloc_array (before ++ parsedOperands)%list ;;
  let unknown' := Parse.unknown parsed in
  ops <- get_array operands' ;;
  unk <- get_array unknown' ;;
  modify_cmd this (set_args (ops ++ unk)%list) ;;;
  ret (operands', unknown').

End ParseLoop.
Export ParseLoop.

(** ** Predicates used to state the properties *)

Module Spec.

(** The two registrations that [addArgument] refuses. *)
Definition previous_is_variadic (c : Command) : Prop :=
  exists p, list.last (registeredArguments c) = Some p /\ Arg.variadic p = true.

Definition unused_default (arg : Arg.Argument) : Prop :=
  Arg.required arg = true /\ Arg.defaultValue arg <> VUndefined
  /\ Arg.parseArg arg = None.

(** The world in which the command at [this] has become [c']. *)
Definition with_cmd (this : nat) (c' : Command) (w : World) : World :=
  set_cmds (<[this := c']> (cmds w)) w.

(** The value that a missing option-argument stands for, in the order of
    the four kinds of option: boolean, negated, optional, and the rest. *)
Definition value_when_missing (o : Opt.Option) : jsval :=
  if OptMethods.isBoolean o then VBool true
  else if Opt.negate o then VBool false
  else if Opt.optional o then VBool true
  else VStr "".

(** The raw value after the substitution of the preset. *)
Definition with_preset (o : Opt.Option) (val : jsval) : jsval :=
  if is_undefined (Opt.presetArg o) then val else Opt.presetArg o.

(** A world with one command, at location [0]. *)
Definition single (c : Command) : World :=
  {| cmds := {[ 0 := c ]}; arrays := ∅; next_tag := 0; environ := ∅ |}.

End Spec.
Export Spec.

Module InspectorSpec.

(** The three option names of the debugger. *)
Definition inspect_option (opt : string) : Prop :=
  opt = "--inspect" \/ opt = "--inspect-brk" \/ opt = "--inspect-port".

(** A host: not empty and without [:]. A port: a run of decimal digits. *)
Definition is_host (host : string) : Prop :=
  Str.nonempty host = true /\ Str.has ":" host = false.

Definition is_port (port : string) : Prop := Str.is_number port = true.

(** [Shape token opt host port]: the token is [opt] with the given host and
    port, the defaults being [127.0.0.1] and [9229]. The bare form exists
    for [--inspect] and [--inspect-brk] only. *)
Inductive Shape : string -> string -> string -> string -> Prop :=
| shape_bare (opt : string) :
    opt = "--inspect" \/ opt = "--inspect-brk" ->
    Shape opt opt "127.0.0.1" "9229"
| shape_port (opt port : string) :
    inspect_option opt -> is_port port ->
    Shape (opt ++ "=" ++ port) opt "127.0.0.1" port
| shape_host (opt host : string) :
    inspect_option opt -> is_host host -> Str.is_number host = false ->
    Shape (opt ++ "=" ++ host) opt host "9229"
| shape_host_port (opt host port : string) :
    inspect_option opt -> is_host host -> is_port port ->
    Shape (opt ++ "=" ++ host ++ ":" ++ port) opt host port.

(** What the rewrite does to one token. *)
Definition Rewritten (token out : string) : Prop :=
  (forall opt host port,
      Shape token opt host port -> port <> "0" ->
      (Str.digits_value port <= Inspector.MAX_SAFE_INTEGER)%N ->
      out = opt ++ "=" ++ host ++ ":" ++ Str.decimal (Str.digits_value port + 1))
  /\ (forall opt host, Shape token opt host "0" -> out = token)
  /\ ((forall opt host port, ~ Shape token opt host port) -> out = token).

End InspectorSpec.

Module AliasSpec.

(** The command that [alias] writes to: the subcommand added last when it
    has an executable handler, and the command itself otherwise. *)
Definition alias_target (w : World) (this : nat) (c : Command) : option nat :=
  match list.last (commands c) with
  | Some l =>
      match cmds w !! l with
      | Some lastCommand => Some (if _executableHandler lastCommand then l else this)
      | None => None
      end
  | None => Some this
  end.

(** The search for a command known by [alias] among the subcommands of the
    parent. *)
Definition sibling_lookup (c : Command) (alias : string) : M (option nat) :=
  match parent c with
  | Some p => findCommand p (Some alias)
  | None => ret None
  end.

End AliasSpec.
Export AliasSpec.

(** ** Programs used as examples *)

Module Examples.

(** [program.command("start <service>", "start named service")]: the
    program is at location [0], the executable subcommand at [1]. *)
Definition start_world : World :=
  {| cmds := {[ 0 := set_commands [1] (Cmd.new "program");
                1 := set_parent (Some 0)
                       (set_executableHandler true (Cmd.new "start")) ]};
     arrays := ∅; next_tag := 0; environ := ∅ |}.

(** Two hooks, named after the order of their declaration. *)
Definition hook_one : Hook := {| hook_id := "one"; hook_async := false |}.
Definition hook_two : Hook := {| hook_id := "two"; hook_async := false |}.

(** A program at [0] with [postAction] hooks [one] and [two], and its
    subcommand at [1] with the [postAction] hook [one]. *)
Definition hooks_world : World :=
  {| cmds :=
       {[ 0 := set_lifeCycleHooks
                 {| postAction := SlotHooks [hook_one; hook_two];
                    preAction := SlotNull; preSubcommand := SlotNull |}
                 (set_commands [1] (Cmd.new "program"));
          1 := set_lifeCycleHooks
                 {| postAction := SlotHooks [hook_one];
                    preAction := SlotNull; preSubcommand := SlotNull |}
                 (set_parent (Some 0) (Cmd.new "sub")) ]};
     arrays := ∅; next_tag := 0; environ := ∅ |}.

Definition hooks_declared (l : nat) : list Hook :=
  if Nat.eqb l 0 then [hook_one; hook_two] else [hook_one].

(** The world that a method leaves behind when run in [w]. *)
Definition world_after {A} (m : M A) (w : World) : World :=
  default w (final_world (m w)).

(** The command at location [0] of a world. *)
Definition program_of (w : World) : Command :=
  default (Cmd.new "") (cmds w !! 0).

(** [program.addOption(new Option("--silent").conflicts("verbose"))
    .option("--verbose")]. *)
Definition silent_option : Opt.Option :=
  OptMethods.conflicts ["verbose"] (Opt.new "--silent").

Definition verbose_option : Opt.Option := Opt.new "--verbose".

Definition conflict_program : M unit :=
  addOption 0 silent_option ;;; addOption 0 verbose_option.

(** The token parser of that program run on the given tokens. *)
Definition conflict_parse (tokens : list string) : M ParseOptionsResult :=
  conflict_program ;;; argv <- alloc_array tokens ;; parseOptions 0 argv.

Definition conflict_world : World :=
  world_after (conflict_parse ["--silent"; "--verbose"]) (single (Cmd.new "")).

(** [new Option("-p, --port <n>").default("80").env("PORT")] and a
    process started with [PORT=9000]. *)
Definition port_option : Opt.Option :=
  OptMethods.env "PORT" (OptMethods.with_default (VStr "80") (Opt.new "-p, --port <n>")).

Definition port_env_world : World :=
  {| cmds := {[ 0 := Cmd.new "" ]}; arrays := ∅; next_tag := 0;
     environ := {[ "PORT" := "9000" ]} |}.

(** The program after [program.addOption(port_option)]. *)
Definition port_world : World := world_after (addOption 0 port_option) port_env_world.

(** A program without options and the tokens [--unk -- x] in the array at
    location [7]. *)
Definition argv_world : World :=
  {| cmds := {[ 0 := Cmd.new "" ]};
     arrays := {[ 7 := ["--unk"; "--"; "x"] ]};
     next_tag := 0; environ := ∅ |}.

(** The locals of the loop for arrays at the locations [0], [1] and [2],
    while it appends to [operands]. *)
Definition locals_012 : Locals :=
  {| args_ := 0; operands_ := 1; unknown_ := 2; dest_ := 1;
     activeVariadicOption := None |}.

(** A program without options in the middle of the loop: [op] is an
    operand already, the tokens [-- a -b] remain. *)
Definition dash_world : World :=
  {| cmds := {[ 0 := Cmd.new "" ]};
     arrays := {[ 0 := ["--"; "a"; "-b"]; 1 := ["op"]; 2 := [] ]};
     next_tag := 0; environ := ∅ |}.

(** Scenario 4 of the specification:
    [program.option("-x <n>").option("-y <n>")] and the tokens
    [-xn1 -y 2] at the start of the loop. *)
Definition cluster_world : World :=
  world_after (addOption 0 (Opt.new "-x <n>") ;;; addOption 0 (Opt.new "-y <n>"))
    {| cmds := {[ 0 := Cmd.new "" ]};
       arrays := {[ 0 := ["-xn1"; "-y"; "2"]; 1 := []; 2 := [] ]};
       next_tag := 0; environ := ∅ |}.

End Examples.
Export Examples.

Module HookSpec.

(** The command at [l] holds the array [declared l] of hooks for [event],
    in the order of the calls of [hook]. *)
Definition has_hooks (w : World) (event : string) (declared : nat -> list Hook)
    (l : nat) : Prop :=
  exists c, cmds w !! l = Some c
            /\ slot (lifeCycleHooks c) event = SlotHooks (declared l).

(** The invocations of the hooks of the command at [l], in the order of
    their declaration, for the action command [this]. *)
Definition calls_of (this : nat) (declared : nat -> list Hook) (l : nat)
  : list HookCall :=
  map (fun h => {| callback := h; first := l; second := this |}) (declared l).

(** The value that a method returns, when it returns. *)
Definition returned {A} (o : Outcome A) : option A :=
  match o with Ok a _ => Some a | _ => None end.

End HookSpec.
Export HookSpec.

Module ConflictSpec.

(** The option has an attribute name ([attributeName()] does not throw). *)
Definition named (o : Opt.Option) : Prop :=
  exists key, OptMethods.attributeName o = Some key.

(** The current value and value source of a key. *)
Definition value_of (c : Command) (key : string) : jsval :=
  if _storeOptionsAsProperties c then js_get (properties c) key
  else js_get (optionValues c) key.

Definition source_of (c : Command) (key : string) : jsval :=
  js_get (_optionValueSources c) key.

(** The options that the conflict validation considers: a value that is
    not [undefined], from a source that is not ["default"]. *)
Definition considered (c : Command) (o : Opt.Option) : bool :=
  match OptMethods.attributeName o with
  | Some key =>
      negb (is_undefined (value_of c key))
      && negb (strict_eq (source_of c key) (VStr "default"))
  | None => false
  end.

(** A considered option lists the attribute name of a considered option. *)
Definition conflict_in (c : Command) : Prop :=
  exists o d key,
    In o (List.filter (considered c) (options c))
    /\ In d (List.filter (considered c) (options c))
    /\ OptMethods.attributeName d = Some key
    /\ In key (Opt.conflictsWith o).

(** The attribute name of [d] is in [o.conflictsWith]. *)
Definition listed_by (o d : Opt.Option) : bool :=
  match OptMethods.attributeName d with
  | Some key => existsb (String.eqb key) (Opt.conflictsWith o)
  | None => false
  end.

End ConflictSpec.
Export ConflictSpec.

Module EnvSpec.

(** The attribute name that [attributeName()] derives from a name. *)
Definition attr_of_name (nm : string) : option string :=
  OptMethods.camelcase (OptMethods.drop_prefix "no-" nm).

(** The listeners are those of [addOption] and [version]: the listener for
    values from the environment is registered under [optionEnv:] followed
    by the name of its option and writes the attribute of that name, the
    others are registered under [option:]. *)
Definition listeners_wf (c : Command) : Prop :=
  forall ev l,
    In (ev, l) (listeners c) ->
    match l with
    | OnOptionEnv _ attr =>
        exists nm, ev = "optionEnv:" ++ nm /\ attr_of_name nm = Some attr
    | OnOption _ _ | OnVersion _ => exists nm, ev = "option:" ++ nm
    end.

(** The priority check of the environment pass. *)
Definition env_may_write (c : Command) (key : string) : bool :=
  is_undefined (value_of c key)
  || includes_str ["default"; "config"; "env"] (source_of c key).

(** A statement about the world in which a method ends, whatever the way
    it ends; and one about the world in which it returns. *)
Definition finally {A} (o : Outcome A) (P : World -> Prop) : Prop :=
  match o with
  | Ok _ w | Exit _ w | Throw _ w => P w
  | Stuck | Diverge => True
  end.

Definition on_return {A} (o : Outcome A) (P : World -> Prop) : Prop :=
  match o with
  | Ok _ w => P w
  | _ => True
  end.

(** The command at [this] satisfies [P] and the environment is [env0]. *)
Definition at_cmd (this : nat) (env0 : gmap string string) (P : Command -> Prop)
  : World -> Prop :=
  fun w => exists c, cmds w !! this = Some c /\ environ w = env0 /\ P c.

(** [c] has the options, the listeners and the storage mode of [c0]. *)
Definition same_shape (c0 c : Command) : Prop :=
  options c = options c0 /\ listeners c = listeners c0
  /\ _storeOptionsAsProperties c = _storeOptionsAsProperties c0.

(** [c] moreover has the value and the source of [key] that [c0] has. *)
Definition keeps (c0 : Command) (key : string) (c : Command) : Prop :=
  same_shape c0 c /\ value_of c key = value_of c0 key
  /\ source_of c key = source_of c0 key.

(** The source of [key] is one that the environment may overwrite. *)
Definition env_or_below (c0 : Command) (key : string) (c : Command) : Prop :=
  same_shape c0 c
  /\ includes_str ["default"; "config"; "env"] (source_of c key) = true.

(** The source of [key] is the environment. *)
Definition from_env (c0 : Command) (key : string) (c : Command) : Prop :=
  same_shape c0 c /\ source_of c key = VStr "env".

End EnvSpec.
Export EnvSpec.

Module ArraySpec.

(** The method ends, and then with the arrays of strings it started with. *)
Definition keeps_arrays {A} (m : M A) : Prop :=
  forall w,
    match m w with
    | Ok _ w' | Exit _ w' | Throw _ w' => arrays w' = arrays w
    | Stuck => True
    | Diverge => False
    end.

(** The method ends; [Q] holds of the result and the arrays when it
    returns, [R] of the arrays when it exits or throws. *)
Definition awp {A} (m : M A) (Q : A -> gmap nat (list string) -> Prop)
    (R : gmap nat (list string) -> Prop) (w : World) : Prop :=
  match m w with
  | Ok a w' => Q a (arrays w')
  | Exit _ w' | Throw _ w' => R (arrays w')
  | Stuck => True
  | Diverge => False
  end.

(** Every array of [A0] is in [A] with the same elements. *)
Definition frame (A0 A : gmap nat (list string)) : Prop :=
  forall a l, A0 !! a = Some l -> A !! a = Some l.

(** The arrays of the loop are not arrays of [A0], [args] is none of the
    other two, and [dest] is [operands] or [unknown]. *)
Definition locals_ok (A0 : gmap nat (list string)) (lv : Locals) : Prop :=
  A0 !! args_ lv = None /\ A0 !! operands_ lv = None /\ A0 !! unknown_ lv = None
  /\ args_ lv <> operands_ lv /\ args_ lv <> unknown_ lv
  /\ (dest_ lv = operands_ lv \/ dest_ lv = unknown_ lv).

(** The number of iterations that the tokens allow. *)
Definition weight (tokens : list string) : nat :=
  fold_right (fun t n => S (String.length t) + n) 0 tokens.

(** [aspec m A Q R]: started with the arrays [A], the method ends, with
    [Q] when it returns and [R] when it exits or throws. *)
Definition aspec {T} (m : M T) (A : gmap nat (list string))
    (Q : T -> gmap nat (list string) -> Prop)
    (R : gmap nat (list string) -> Prop) : Prop :=
  forall w, arrays w = A -> awp m Q R w.

(** What the loop keeps: the arrays of [A0], the arrangement of its own
    arrays, and a bound on the weight of [args]. *)
Definition loop_inv (A0 : gmap nat (list string)) (lv : Locals) (n : nat)
    (A : gmap nat (list string)) : Prop :=
  frame A0 A /\ locals_ok A0 lv
  /\ (forall l, A !! args_ lv = Some l -> weight l <= n).

(** What an iteration establishes: the invariant for the locals it
    continues with, the frame when it leaves the loop. *)
Definition after_iteration (A0 : gmap nat (list string)) (n : nat)
    (r : option Locals) (A : gmap nat (list string)) : Prop :=
  match r with
  | Some lv' => loop_inv A0 lv' n A
  | None => frame A0 A
  end.

(** [ispec A0 lv n m Q]: started under the invariant, the method ends,
    with [Q] when it returns and with the arrays of [A0] as they were when
    it exits or throws. *)
Definition ispec {T} (A0 : gmap nat (list string)) (lv : Locals) (n : nat)
    (m : M T) (Q : T -> gmap nat (list string) -> Prop) : Prop :=
  forall A, loop_inv A0 lv n A -> aspec m A Q (frame A0).

End ArraySpec.
Export ArraySpec.

Module LiveSpec.

(** The listeners refer to options of the command, as those that
    [addOption] registers do. *)
Definition listeners_in_range (c : Command) : Prop :=
  forall ev l,
    In (ev, l) (listeners c) ->
    match l with
    | OnOption index _ | OnOptionEnv index _ => index < length (options c)
    | OnVersion _ => True
    end.

(** The subcommands and the help command of [c] are objects of the world. *)
Definition refs_in (w : World) (c : Command) : Prop :=
  (forall l, In l (commands c) -> is_Some (cmds w !! l))
  /\ (forall l, helpCommand c = Some l -> is_Some (cmds w !! l)).

(** The method ends: it returns, it exits or it throws. *)
Definition ends {A} (o : Outcome A) : Prop :=
  match o with
  | Ok _ _ | Exit _ _ | Throw _ _ => True
  | Stuck | Diverge => False
  end.

(** [c] has the options, the listeners and the subcommands of [c0]. *)
Definition like (c0 c : Command) : Prop :=
  options c = options c0 /\ listeners c = listeners c0
  /\ commands c = commands c0.

(** The world holds at [this] a command like [c0] with the objects it
    refers to, and the arrays at the locations [D]. *)
Definition live (this : nat) (c0 : Command) (D : list nat) (w : World) : Prop :=
  (exists c, cmds w !! this = Some c /\ like c0 c /\ refs_in w c)
  /\ (forall a, In a D -> is_Some (arrays w !! a)).

(** The method has ended, in a live world with [Q] when it returned. *)
Definition good (this : nat) (c0 : Command) (D : list nat) {A}
    (Q : A -> World -> Prop) (o : Outcome A) : Prop :=
  match o with
  | Ok a w' => live this c0 D w' /\ Q a w'
  | Exit _ _ | Throw _ _ => True
  | Stuck | Diverge => False
  end.

(** Started in a live world, the method ends, with [Q] of its result when
    it returns. *)
Definition safe (this : nat) (c0 : Command) (D : list nat) {A}
    (m : M A) (Q : A -> Prop) : Prop :=
  forall w, live this c0 D w -> good this c0 D (fun a _ => Q a) (m w).

(** The arrays of the loop are among those of [D]. *)
Definition lv_in (D : list nat) (lv : Locals) : Prop :=
  In (args_ lv) D /\ In (operands_ lv) D /\ In (unknown_ lv) D /\ In (dest_ lv) D.

(** The locals that an iteration continues with are as [lv_in] says. *)
Definition next_in (D : list nat) (r : option Locals) : Prop :=
  match r with
  | Some lv' => lv_in D lv'
  | None => True
  end.

End LiveSpec.
Export LiveSpec.

(** * More of the classes *)

(** ** Class [Argument]: the other methods *)

Module ArgMethods.

(** [argRequired()] and [argOptional()]. *)
Definition argRequired (a : Arg.Argument) : Arg.Argument :=
  {| Arg.description := Arg.description a; Arg.variadic := Arg.variadic a;
     Arg.parseArg := Arg.parseArg a; Arg.required := true;
     Arg.defaultValue := Arg.defaultValue a; Arg.name := Arg.name a |}.

Definition argOptional (a : Arg.Argument) : Arg.Argument :=
  {| Arg.description := Arg.description a; Arg.variadic := Arg.variadic a;
     Arg.parseArg := Arg.parseArg a; Arg.required := false;
     Arg.defaultValue := Arg.defaultValue a; Arg.name := Arg.name a |}.

(** [humanReadableArgName(arg)]. *)
Definition humanReadableArgName (arg : Arg.Argument) : string :=
  let nameOutput := Arg.name arg ++ (if Arg.variadic arg then "..." else "") in
  if Arg.required arg then "<" ++ nameOutput ++ ">" else "[" ++ nameOutput ++ "]".

End ArgMethods.

(** ** Class [Option]: the other setters *)

Module OptSetters.
Import Opt.

(** [makeOptionMandatory(mandatory)]. *)
Definition makeOptionMandatory (b : bool) (o : Option) : Option :=
  {| flags := flags o; required := required o; optional := optional o;
     variadic := variadic o; mandatory := b; negate := negate o;
     short := short o; long := long o; defaultValue := defaultValue o;
     presetArg := presetArg o; envVar := envVar o; parseArg := parseArg o;
     conflictsWith := conflictsWith o; implied := implied o |}.

End OptSetters.

(** ** Class [Command]: settings, subcommands and the checks after parsing *)

Module Settings.

(** [enablePositionalOptions(positional)]. *)
Definition enablePositionalOptions (this : nat) (positional : bool) : M unit :=
  modify_cmd this (set_enablePositionalOptions positional).

(** [#checkForBrokenPassThrough()]. *)
Definition checkForBrokenPassThrough (this : nat) : M unit :=
  c <- get_cmd this ;;
  match parent c with
  | Some p =>
      if _passThroughOptions c then
        pc <- get_cmd p ;;
        if negb (_enablePositionalOptions pc) then
          throw (ThrowError
            ("passThroughOptions cannot be used for '" ++ _name c
             ++ "' without turning on enablePositionalOptions for parent command(s)"))
        else ret tt
      else ret tt
  | None => ret tt
  end.

(** [passThroughOptions(passThrough)]. *)
Definition passThroughOptions (this : nat) (passThrough : bool) : M unit :=
  modify_cmd this (set_passThroughOptions passThrough) ;;;
  checkForBrokenPassThrough this.

(** [storeOptionsAsProperties(storeAsProperties)];
    [Object.keys(this.#optionValues).length] is the number of keys of the
    map. *)
Definition storeOptionsAsProperties (this : nat) (storeAsProperties : bool) : M unit :=
  c <- get_cmd this ;;
  if negb (Nat.eqb (length (options c)) 0) then
    throw (ThrowError "call .storeOptionsAsProperties() before adding options")
  else if negb (Nat.eqb (size (optionValues c)) 0) then
    throw (ThrowError "call .storeOptionsAsProperties() before setting option values")
  else modify_cmd this (set_storeOptionsAsProperties storeAsProperties).

(** [getOptionValueSourceWithGlobals(key)]: the callback of [forEach] and
    the walk. *)
Fixpoint last_source (key : string) (ancestors : list nat) (source : jsval) : M jsval :=
  match ancestors with
  | [] => ret source
  | cmd :: rest =>
      s <- getOptionValueSource cmd key ;;
      last_source key rest (if negb (is_undefined s) then s else source)
  end.

Definition getOptionValueSourceWithGlobals (this : nat) (key : string) : M jsval :=
  ancestors <- getCommandAndAncestors this ;;
  last_source key ancestors VUndefined.

End Settings.
Export Settings.

Module Subcommands.

(** [knownBy(cmd)] in [#registerCommand]: [[cmd.name()].concat(cmd.aliases())]. *)
Definition knownBy (c : Command) : list string := _name c :: _aliases c.

(** [#registerCommand(command)]. *)
Definition registerCommand (this command : nat) : M unit :=
  cc <- get_cmd command ;;
  alreadyUsed <-
    find_m (fun name =>
              found <- findCommand this (Some name) ;;
              ret (match found with Some _ => true | None => false end))
           (knownBy cc) ;;
  match alreadyUsed with
  | Some used =>
      if Str.nonempty used then
        existing <- findCommand this (Some used) ;;
        ec <- (match existing with
               | Some e => get_cmd e
               | None => throw (ThrowTypeError "Cannot read properties of undefined")
               end) ;;
        throw (ThrowError
          ("cannot add command '" ++ join_bar (knownBy cc)
           ++ "' as already have command '" ++ join_bar (knownBy ec) ++ "'"))
      else modify_cmd this (fun c => set_commands (commands c ++ [command])%list c)
  | None => modify_cmd this (fun c => set_commands (commands c ++ [command])%list c)
  end.

(** [addCommand(cmd, opts)]; of the members of [opts], [isDefault] is
    modelled, [noHelp] and [hidden] only write the member [_hidden] of
    [cmd], which no modelled method reads. *)
Definition addCommand (this cmd : nat) (isDefault : bool) : M unit :=
  cc <- get_cmd cmd ;;
  if negb (Str.nonempty (_name cc)) then
    throw (ThrowError "Command passed to .addCommand() must have a name
- specify the name in Command constructor or using .name()")
  else
    (if isDefault
     then modify_cmd this (set_defaultCommandName (Some (_name cc)))
     else ret tt) ;;;
    registerCommand this cmd ;;;
    modify_cmd cmd (set_parent (Some this)) ;;;
    checkForBrokenPassThrough cmd.

End Subcommands.
Export Subcommands.

Module Arguments.

(** [missingArgument(name)]. *)
Definition missingArgument {A} (this : nat) (name : string) : M A :=
  error ("error: missing required argument '" ++ name ++ "'")
        (Some "commander.missingArgument") None.

(** [missingMandatoryOptionValue(option)]. *)
Definition missingMandatoryOptionValue {A} (this : nat) (option : Opt.Option) : M A :=
  error ("error: required option '" ++ Opt.flags option ++ "' not specified")
        (Some "commander.missingMandatoryOptionValue") None.

(** [l.forEach((x, i) => body(i, x))], counting from [i]. *)
Fixpoint for_each_from {A} (i : nat) (l : list A) (body : nat -> A -> M unit) : M unit :=
  match l with
  | [] => ret tt
  | x :: l' => body i x ;;; for_each_from (S i) l' body
  end.

(** The same loop, collecting [processedArgs[index] = value]. *)
Fixpoint collect_from {A B} (i : nat) (l : list A) (body : nat -> A -> M B) : M (list B) :=
  match l with
  | [] => ret []
  | x :: l' => v <- body i x ;; vs <- collect_from (S i) l' body ;; ret (v :: vs)
  end.

(** [l.reduce(f, init)]. *)
Fixpoint reduce_m {A B} (f : B -> A -> M B) (l : list A) (init : B) : M B :=
  match l with
  | [] => ret init
  | x :: l' => b <- f init x ;; reduce_m f l' b
  end.

Section WithExcessSetting.

(** The member [_allowExcessArguments] of the command, which the record
    [Command] does not hold. *)
Variable _allowExcessArguments : bool.

(** [#excessArguments(receivedArgs)]. *)
Definition excessArguments (this : nat) (receivedArgs : list string) : M unit :=
  if _allowExcessArguments then ret tt
  else
    c <- get_cmd this ;;
    let expected := length (registeredArguments c) in
    let s := if Nat.eqb expected 1 then "" else "s" in
    let forSubcommand :=
      match parent c with
      | Some _ => " for '" ++ _name c ++ "'"
      | None => ""
      end in
    error ("error: too munknown arguments" ++ forSubcommand ++ ". Expected "
           ++ Str.decimal (N.of_nat expected) ++ " argument" ++ s ++ " but got "
           ++ Str.decimal (N.of_nat (length receivedArgs)) ++ ".")
          (Some "commander.excessArguments") None.

(** [#checkNumberOfArguments()]; [this.args[i] == null] holds exactly when
    [i] is not an index of [this.args]. *)
Definition checkNumberOfArguments (this : nat) : M unit :=
  c <- get_cmd this ;;
  for_each_from 0 (registeredArguments c)
    (fun i arg =>
       c' <- get_cmd this ;;
       if Arg.required arg && match args c' !! i with Some _ => false | None => true end
       then missingArgument this (Arg.name arg)
       else ret tt) ;;;
  c <- get_cmd this ;;
  if negb (Nat.eqb (length (registeredArguments c)) 0)
     && match list.last (registeredArguments c) with
        | Some a => Arg.variadic a
        | None => false
        end
  then ret tt
  else if (length (registeredArguments c) <? length (args c))%nat
  then excessArguments this (args c)
  else ret tt.

(** [myParseArg(argument, value, previous)] in [#processArguments]. *)
Definition myParseArg (argument : Arg.Argument) (value previous : jsval) : M jsval :=
  match Arg.parseArg argument with
  | Some fn =>
      if negb (is_null value) then
        callParseArg fn value previous
          ("error: command-argument value '" ++ to_string value
           ++ "' is invalid for argument '" ++ Arg.name argument ++ "'.")
      else ret value
  | None => ret value
  end.

(** The callback of [this.registeredArguments.forEach] in
    [#processArguments]: the value stored at [processedArgs[index]].
    [this.args.slice(index)] and [[]] are new arrays. *)
Definition processArgument (this : nat) (index : nat) (declaredArg : Arg.Argument)
  : M jsval :=
  c <- get_cmd this ;;
  if Arg.variadic declaredArg then
    if (index <? length (args c))%nat then
      id <- fresh_tag ;;
      let rest := drop index (args c) in
      match Arg.parseArg declaredArg with
      | Some _ =>
          reduce_m (fun processed v => myParseArg declaredArg (VStr v) processed)
                   rest (Arg.defaultValue declaredArg)
      | None => ret (VArr id (map VStr rest))
      end
    else if is_undefined (Arg.defaultValue declaredArg) then
      id <- fresh_tag ;; ret (VArr id [])
    else ret (Arg.defaultValue declaredArg)
  else
    match args c !! index with
    | Some v =>
        match Arg.parseArg declaredArg with
        | Some _ => myParseArg declaredArg (VStr v) (Arg.defaultValue declaredArg)
        | None => ret (VStr v)
        end
    | None => ret (Arg.defaultValue declaredArg)
    end.

(** [#processArguments()]: the result is the array assigned to
    [this.processedArgs]. *)
Definition processArguments (this : nat) : M (list jsval) :=
  checkNumberOfArguments this ;;;
  c <- get_cmd this ;;
  collect_from 0 (registeredArguments c) (processArgument this).

End WithExcessSetting.

(** [#checkForMissingMandatoryOptions()]. *)
Definition checkForMissingMandatoryOptions (this : nat) : M unit :=
  ancestors <- getCommandAndAncestors this ;;
  for_each ancestors (fun cmd =>
    c <- get_cmd cmd ;;
    for_each (options c) (fun anOption =>
      if Opt.mandatory anOption then
        key <- or_type_error (OptMethods.attributeName anOption) ;;
        v <- getOptionValue cmd key ;;
        if is_undefined v then missingMandatoryOptionValue cmd anOption
        else ret tt
      else ret tt)).

End Arguments.
Export Arguments.

(** ** Predicates used to state the further properties *)

Module TextSpec.

(** A dash that is followed by another dash or by the end of the string:
    [str.split("-")] then has an empty word after the first. *)
Fixpoint dash_before_gap (s : string) : bool :=
  match s with
  | EmptyString => false
  | String c s' =>
      (Ascii.eqb c "-"
       && match s' with
          | EmptyString => true
          | String d _ => Ascii.eqb d "-"
          end)
      || dash_before_gap s'
  end.

(** No character of the string is a blank, a bar or a comma. *)
Fixpoint no_sep (s : string) : bool :=
  match s with
  | EmptyString => true
  | String c s' => negb (Opt.is_sep c) && no_sep s'
  end.

(** A run of blanks, bars and commas that is not empty. *)
Fixpoint all_sep (s : string) : bool :=
  match s with
  | EmptyString => true
  | String c s' => Opt.is_sep c && all_sep s'
  end.

Definition separator (s : string) : Prop := Str.nonempty s = true /\ all_sep s = true.

(** What may follow the flags: nothing, or a separator and a placeholder
    that starts with a bracket. *)
Definition placeholder_tail (t : string) : Prop :=
  t = "" \/ exists sep p, separator sep /\ t = sep ++ p /\ Opt.starts_with_bracket p = true.

(** The callback of [reduce] in [camelcase]. *)
Definition step (acc : option string) (word : string) : option string :=
  match acc, word with
  | Some s, String c r => Some (s ++ String (OptMethods.upper c) r)
  | _, _ => None
  end.

End TextSpec.
Export TextSpec.

Module BuildSpec.

(** Only the last declared argument may be variadic. *)
Definition variadic_last (l : list Arg.Argument) : Prop :=
  forall i a, l !! i = Some a -> Arg.variadic a = true -> S i = length l.

(** The option [p] goes by the short or by the long flag of [option]. *)
Definition flag_clash (option p : Opt.Option) : bool :=
  (truthy (Opt.short option) && OptMethods.is_ p (default "" (Opt.short option)))
  || (truthy (Opt.long option) && OptMethods.is_ p (default "" (Opt.long option))).

(** No flag, a string that is not empty, names two options. *)
Definition flags_unique (l : list Opt.Option) : Prop :=
  forall i j o p arg,
    l !! i = Some o -> l !! j = Some p -> Str.nonempty arg = true ->
    OptMethods.is_ o arg = true -> OptMethods.is_ p arg = true -> i = j.

(** [option.long.replace(/^--no-/, "--")] in [addOption]. *)
Definition positiveLongFlag (long : string) : string :=
  match Str.strip "--no-" long with
  | Some r => "--" ++ r
  | None => long
  end.

(** The method ends: with [Q] of its result and the world when it returns,
    in a world with [R] when it exits or throws. *)
Definition wp {A} (o : Outcome A) (Q : A -> World -> Prop) (R : World -> Prop) : Prop :=
  match o with
  | Ok a w => Q a w
  | Exit _ w | Throw _ w => R w
  | Stuck | Diverge => False
  end.

(** The method ends, and in a world with [P]. *)
Definition total {A} (o : Outcome A) (P : World -> Prop) : Prop :=
  wp o (fun _ => P) P.

(** The command at [this] has listeners as [addOption] and [version]
    register them. *)
Definition well_listened (this : nat) (w : World) : Prop :=
  exists c, cmds w !! this = Some c /\ listeners_wf c /\ listeners_in_range c.

End BuildSpec.
Export BuildSpec.

Module WalkSpec.

(** [path] lists the command at [l], its parent, the parent of that one,
    and so on up to a command without parent. *)
Fixpoint parent_chain (w : World) (l : nat) (path : list nat) : Prop :=
  match path with
  | [] => False
  | x :: rest =>
      x = l
      /\ exists c, cmds w !! l = Some c
                   /\ match rest with
                      | [] => parent c = None
                      | p :: _ => parent c = Some p /\ parent_chain w p rest
                      end
  end.

(** The source of [key] at the command at [l] is [undefined]. *)
Definition no_source (w : World) (key : string) (l : nat) : Prop :=
  exists c, cmds w !! l = Some c /\ source_of c key = VUndefined.

(** The command at [l] has a mandatory option without value. *)
Definition lacks_mandatory (w : World) (l : nat) : Prop :=
  exists c o key,
    cmds w !! l = Some c /\ In o (options c) /\ Opt.mandatory o = true
    /\ OptMethods.attributeName o = Some key /\ value_of c key = VUndefined.

(** The mandatory options of the command at [l] have attribute names. *)
Definition mandatory_named (w : World) (l : nat) : Prop :=
  exists c, cmds w !! l = Some c
            /\ forall o, In o (options c) -> Opt.mandatory o = true -> named o.

(** The last declared argument is variadic. *)
Definition open_ended (c : Command) : bool :=
  negb (Nat.eqb (length (registeredArguments c)) 0)
  && match list.last (registeredArguments c) with
     | Some a => Arg.variadic a
     | None => false
     end.

(** Every required argument has a command-argument at its position. *)
Definition enough (c : Command) : Prop :=
  forall i arg,
    registeredArguments c !! i = Some arg -> Arg.required arg = true ->
    i < length (args c).

(** The required argument at [i] has no command-argument, and it is the
    first such. *)
Definition first_missing (c : Command) (i : nat) (arg : Arg.Argument) : Prop :=
  registeredArguments c !! i = Some arg /\ Arg.required arg = true
  /\ length (args c) <= i
  /\ forall j a, j < i -> registeredArguments c !! j = Some a ->
                 Arg.required a = true -> j < length (args c).

End WalkSpec.
Export WalkSpec.

Module MoreExamples.

(** A program at [0] that has [verbose] from the command line, and its
    subcommand at [1] that has it by default. *)
Definition sources_world : World :=
  {| cmds :=
       {[ 0 := assign_value "verbose" (VBool true) (VStr "cli")
                 (set_commands [1] (Cmd.new "program"));
          1 := assign_value "verbose" (VBool false) (VStr "default")
                 (set_parent (Some 0) (Cmd.new "sub")) ]};
     arrays := ∅; next_tag := 0; environ := ∅ |}.

(** [new Option("-c, --cheese <type>").makeOptionMandatory()] on a program
    that has no value for it. *)
Definition cheese_option : Opt.Option :=
  OptSetters.makeOptionMandatory true (Opt.new "-c, --cheese <type>").

Definition cheese_world : World :=
  single (set_options [cheese_option] (Cmd.new "")).

(** [program.argument("<source>").argument("[destination]")] called with
    the given command-arguments. *)
Definition copy_command (given : list string) : Command :=
  set_args given
    (set_registeredArguments [Arg.new "<source>" None; Arg.new "[destination]" None]
       (Cmd.new "copy")).

End MoreExamples.
Export MoreExamples.

(** ** What [#processArguments] stores *)

Module ArgSpec.

(** [v] stands at position [i] of [processedArgs] for the declared
    argument [a], which has no parser: a variadic argument receives the
    command-arguments from [i] on in a new array, another one the
    command-argument at [i]; without command-argument an argument that is
    not required receives its default value, or a new empty array when it
    is variadic and has none. *)
Definition supplied (c : Command) (i : nat) (a : Arg.Argument) (v : jsval) : Prop :=
  if Arg.variadic a then
    if (i <? length (args c))%nat
    then exists id, v = VArr id (map VStr (drop i (args c)))
    else Arg.required a = false
         /\ if is_undefined (Arg.defaultValue a)
            then exists id, v = VArr id []
            else v = Arg.defaultValue a
  else
    match args c !! i with
    | Some s => v = VStr s
    | None => Arg.required a = false /\ v = Arg.defaultValue a
    end.

(** [program.argument("<source>").argument("[files...]")] called with the
    given command-arguments. *)
Definition pack_command (given : list string) : Command :=
  set_args given
    (set_registeredArguments [Arg.new "<source>" None; Arg.new "[files...]" None]
       (Cmd.new "pack")).

End ArgSpec.
Export ArgSpec.

(** ** The names of the subcommands *)

Module FamilySpec.

(** The command at [l] goes by [name]: it is its name or one of its
    aliases. *)
Definition goes_by (w : World) (name : string) (l : nat) : bool :=
  match cmds w !! l with
  | Some sc => String.eqb (_name sc) name || existsb (String.eqb name) (_aliases sc)
  | None => false
  end.

(** A subcommand of [c] goes by [name], which is not the empty string. *)
Definition name_taken (w : World) (c : Command) (name : string) : bool :=
  Str.nonempty name && existsb (goes_by w name) (commands c).

(** The name or an alias of [cc] is taken among the subcommands of [c]. *)
Definition names_clash (w : World) (c cc : Command) : bool :=
  existsb (name_taken w c) (knownBy cc).

(** The subcommands of [c] are objects of the world. *)
Definition subcommands_in (w : World) (c : Command) : Prop :=
  forall l, In l (commands c) -> is_Some (cmds w !! l).

(** [program] at [0] with the subcommand [serve] at [1], and a command
    [build] with the alias [serve] at [2]. *)
Definition family_world : World :=
  {| cmds :=
       {[ 0 := set_commands [1] (Cmd.new "program");
          1 := set_parent (Some 0) (Cmd.new "serve");
          2 := set_aliases ["serve"] (Cmd.new "build") ]};
     arrays := ∅; next_tag := 0; environ := ∅ |}.

End FamilySpec.
Export FamilySpec.

(** ** The tokens of a command line *)

Module TokenSpec.

(** The tokens from the first one that starts with a dash on, given as
    [rest]: after a literal [--] they are operands, and otherwise they are
    all unknown. The pair is (operands, unknown). *)
Definition split_at_dash (rest : list string) : list string * list string :=
  match rest with
  | t :: more => if String.eqb t "--" then (more, []) else ([], rest)
  | [] => ([], [])
  end.

(** The locals of [parseOptions] while no variadic option is pending and
    the loop appends to [dest]. *)
Definition locals_to (args operands unknown dest : nat) : Locals :=
  {| args_ := args; operands_ := operands; unknown_ := unknown;
     dest_ := dest; activeVariadicOption := None |}.

(** A program with the option [-p, --port <number>], called with the
    tokens of the array at [0]. *)
Definition serve_world (tokens : list string) : World :=
  {| cmds := {[ 0 := set_options [Opt.new "-p, --port <number>"] (Cmd.new "serve") ]};
     arrays := {[ 0 := tokens ]}; next_tag := 0; environ := ∅ |}.

(** A program without options, called with the tokens of the array at [0]. *)
Definition plain_world (tokens : list string) : World :=
  {| cmds := {[ 0 := Cmd.new "plain" ]};
     arrays := {[ 0 := tokens ]}; next_tag := 0; environ := ∅ |}.

End TokenSpec.
Export TokenSpec.

(** ** The implied pass *)

Module ImpliedSpec.

(** [hasCustomOptionValue(key)] in [_parseOptionsImplied], for the command
    [c]. *)
Definition custom (c : Command) (key : string) : bool :=
  negb (is_undefined (value_of c key))
  && negb (includes_str ["default"; "implied"] (source_of c key)).

(** An option of [c] that has a custom value lists [key] among the keys of
    its implied values. *)
Definition implied_by (c : Command) (key : string) : Prop :=
  exists o l k,
    In o (options c) /\ Opt.implied o = Some l /\ In key (map fst l)
    /\ OptMethods.attributeName o = Some k /\ custom c k = true.

(** What the implied pass may have made of [c]: a key has the value and
    the source it had, or it had no custom value, is implied by an option
    with a custom value and has the source ["implied"]. *)
Definition implied_over (c c' : Command) : Prop :=
  options c' = options c
  /\ forall key,
       (value_of c' key = value_of c key /\ source_of c' key = source_of c key)
       \/ (custom c key = false /\ implied_by c key
           /\ source_of c' key = VStr "implied").

(** The method reads: it ends, in the world in which it started. *)
Definition reads {A} (m : M A) (w : World) : Prop :=
  wp (m w) (fun _ w' => w' = w) (fun w' => w' = w).

(** [new Option("--free").implies({ price: "0" })]. *)
Definition free_option : Opt.Option :=
  let o := Opt.new "--free" in
  {| Opt.flags := Opt.flags o; Opt.required := Opt.required o;
     Opt.optional := Opt.optional o; Opt.variadic := Opt.variadic o;
     Opt.mandatory := Opt.mandatory o; Opt.negate := Opt.negate o;
     Opt.short := Opt.short o; Opt.long := Opt.long o;
     Opt.defaultValue := Opt.defaultValue o; Opt.presetArg := Opt.presetArg o;
     Opt.envVar := Opt.envVar o; Opt.parseArg := Opt.parseArg o;
     Opt.conflictsWith := Opt.conflictsWith o;
     Opt.implied := Some [("price", VStr "0")] |}.

(** A program with [--free] and [--price <amount>] after the command line
    [--free --price 5]. *)
Definition shop_world : World :=
  single (assign_value "price" (VStr "5") (VStr "cli")
            (assign_value "free" (VBool true) (VStr "cli")
               (set_options [free_option; Opt.new "--price <amount>"] (Cmd.new "shop")))).

End ImpliedSpec.
Export ImpliedSpec.

(** ** A parser that rejects *)

Module RejectExamples.

(** [() => { throw new InvalidArgumentError("Not a number."); }]. *)
Definition not_a_number : ParseArgFunc :=
  fun _ _ => Raises (InvalidArgumentError "Not a number.").

(** [new Option("-p, --port <number>").argParser(...)] with that parser. *)
Definition checked_port : Opt.Option :=
  OptMethods.argParser (Some not_a_number) (Opt.new "-p, --port <number>").

End RejectExamples.
Export RejectExamples.

(** ** The implicit help command *)

Module HelpSpec.

(** [hasImplicitHelpCommand] in [_getHelpCommand]: the member
    [#addImplicitHelpCommand] when it is set, and otherwise whether the
    command has subcommands, no action handler and no subcommand that goes
    by [help]. *)
Definition hasImplicitHelpCommand (w : World) (c : Command) : bool :=
  match addImplicitHelpCommand c with
  | Some b => b
  | None =>
      negb (Nat.eqb (length (commands c)) 0) && negb (_actionHandler c)
      && negb (name_taken w c "help")
  end.

(** The command that [helpCommand(undefined, undefined)] creates. *)
Definition default_help : Command :=
  set_registeredArguments [Arg.default VUndefined (Arg.new "[command]" None)]
    (Cmd.new "help").

End HelpSpec.
Export HelpSpec.

(** ** Positional and pass-through options *)

Module PositionalExamples.

(** [program.enablePositionalOptions()] with the subcommand [serve], called
    with [serve --port 80]. *)
Definition positional_world : World :=
  {| cmds :=
       {[ 0 := set_enablePositionalOptions true (set_commands [1] (Cmd.new "program"));
          1 := set_parent (Some 0) (Cmd.new "serve") ]};
     arrays := {[ 0 := ["serve"; "--port"; "80"] ]}; next_tag := 0; environ := ∅ |}.

(** [run.passThroughOptions()] on a program without parent, called with
    [script --verbose]. *)
Definition pass_through_world : World :=
  {| cmds := {[ 0 := set_passThroughOptions true (Cmd.new "run") ]};
     arrays := {[ 0 := ["script"; "--verbose"] ]}; next_tag := 0; environ := ∅ |}.

End PositionalExamples.
Export PositionalExamples.

(** ** The arguments of [#parseCommand] *)

Module ArgsExamples.

(** A program without options, with the array [unknown] at [0] and the
    array [operands] at [1]. *)
Definition operands_world (operands unknown : list string) : World :=
  {| cmds := {[ 0 := Cmd.new "plain" ]};
     arrays := {[ 0 := unknown; 1 := operands ]}; next_tag := 0; environ := ∅ |}.

End ArgsExamples.
Export ArgsExamples.

(** ** Where the stored values are those of the code *)

Module StorageSpec.

(** The option values of the command are kept in [optionValues], and no
    option of the command is stored under an inherited member name. *)
Definition plain_storage (c : Command) : bool :=
  negb (_storeOptionsAsProperties c)
  && forallb (fun o => match OptMethods.attributeName o with
                       | Some key => ordinary_key key
                       | None => true
                       end) (options c).

(** The keys of the values that the options of the command imply are
    ordinary as well. *)
Definition plain_implied (c : Command) : bool :=
  forallb (fun o => match Opt.implied o with
                    | Some l => forallb (fun kv => ordinary_key (fst kv)) l
                    | None => true
                    end) (options c).

(** The value that the listener of an option without parser that is not
    variadic stores for the event value [val]. *)
Definition stored_plain (o : Opt.Option) (val : jsval) : jsval :=
  let v := if is_nullish val && negb (is_undefined (Opt.presetArg o))
           then Opt.presetArg o else val in
  if is_nullish v then Methods.fill_missing o else v.

(** The value that an option receives from its environment variable. *)
Definition env_value (o : Opt.Option) (value : string) : jsval :=
  stored_plain o (if Opt.required o || Opt.optional o then VStr value
                  else VUndefined).

(** The option is bound to an environment variable that is present. *)
Definition env_present (env : gmap string string) (o : Opt.Option) : bool :=
  match Opt.envVar o with
  | Some var => Str.nonempty var && bool_decide (is_Some (env !! var))
  | None => false
  end.

(** The command has the shape of [c0] and holds [v] from the environment
    under [key]. *)
Definition holds_env (c0 : Command) (key : string) (v : jsval) (c : Command) : Prop :=
  same_shape c0 c /\ value_of c key = v /\ source_of c key = VStr "env".

(** The listeners of option values are tied to the options of the command:
    a listener of [addOption] is registered under the event of the name of
    the option at its index and writes the attribute of that option; the
    listener of [version] is registered under the event of an option of
    the command. *)
Definition listeners_tied (c : Command) : Prop :=
  forall ev l,
    In (ev, l) (listeners c) ->
    match l with
    | OnOption index attr =>
        exists o nm,
          options c !! index = Some o /\ OptMethods.name o = Some nm
          /\ ev = "option:" ++ nm /\ OptMethods.attributeName o = Some attr
    | OnOptionEnv index attr =>
        exists o nm,
          options c !! index = Some o /\ OptMethods.name o = Some nm
          /\ ev = "optionEnv:" ++ nm /\ OptMethods.attributeName o = Some attr
    | OnVersion _ =>
        exists o nm,
          In o (options c) /\ OptMethods.name o = Some nm
          /\ ev = "option:" ++ nm
    end.

Definition tied (this : nat) (w : World) : Prop :=
  exists c, cmds w !! this = Some c /\ listeners_tied c.

(** The command at [l] stores its option values in this way. *)
Definition stores_plainly (w : World) (l : nat) : Prop :=
  exists c, cmds w !! l = Some c /\ plain_storage c = true.

End StorageSpec.
Export StorageSpec.

(** ** Pass-through options *)

Module PassThroughSpec.

(** [flag] is a flag of an option of [c] that takes no argument, has no
    parser and is not variadic, a switch, whose event has the one listener
    that [addOption] registered for it. *)
Definition switch (c : Command) (flag : string) : Prop :=
  maybeOption flag = true /\ flag <> "--"
  /\ exists option n oname key,
       find (fun p => OptMethods.is_ p flag) (options c) = Some option
       /\ options c !! n = Some option
       /\ OptMethods.name option = Some oname
       /\ OptMethods.attributeName option = Some key
       /\ Opt.required option = false /\ Opt.optional option = false
       /\ Opt.variadic option = false /\ Opt.parseArg option = None
       /\ List.filter (listens ("option:" ++ oname)) (listeners c)
          = [(("option:" ++ oname)%string, OnOption n key)].

(** The command after the switch [flag] was given on the command line. *)
Definition switched (c : Command) (flag : string) : Command :=
  match find (fun p => OptMethods.is_ p flag) (options c) with
  | Some option =>
      match OptMethods.attributeName option with
      | Some key => assign_value key (stored_plain option VUndefined) (VStr "cli") c
      | None => c
      end
  | None => c
  end.

(** The token starts with a dash, is not [--], and no option of [c] takes
    it: neither whole, nor by its first short flag, nor by the part before
    its [=] as an option that takes a value. *)
Definition unrecognised (c : Command) (t : string) : bool :=
  maybeOption t && negb (String.eqb t "--")
  && match find (fun p => OptMethods.is_ p t) (options c) with
     | Some _ => false
     | None => true
     end
  && match short_cluster t with
     | Some (x, _) =>
         match find (fun p => OptMethods.is_ p (String "-" (String x ""))) (options c) with
         | Some _ => false
         | None => true
         end
     | None => true
     end
  && match long_with_value t with
     | Some (flag, _) =>
         match find (fun p => OptMethods.is_ p flag) (options c) with
         | Some option => negb (Opt.required option || Opt.optional option)
         | None => true
         end
     | None => true
     end.

(** [c1] differs from [c] in its option values at most. *)
Definition same_but_values (c c1 : Command) : Prop :=
  options c1 = options c /\ listeners c1 = listeners c
  /\ commands c1 = commands c
  /\ _passThroughOptions c1 = _passThroughOptions c
  /\ _defaultCommandName c1 = _defaultCommandName c
  /\ addImplicitHelpCommand c1 = addImplicitHelpCommand c
  /\ _actionHandler c1 = _actionHandler c.

(** [run.passThroughOptions().option("-v, --verbose")], called with the
    tokens of the array at [0]. *)
Definition verbose_run_world (tokens : list string) : World :=
  world_after (addOption 0 (Opt.new "-v, --verbose"))
    {| cmds := {[ 0 := set_passThroughOptions true (Cmd.new "run") ]};
       arrays := {[ 0 := tokens ]}; next_tag := 0; environ := ∅ |}.

End PassThroughSpec.
Export PassThroughSpec.

(** * Properties *)

(** ** Facts about the string helpers *)

Module StrFacts.
Import Str.

Lemma app_nil (s : string) : "" ++ s = s.
Proof. reflexivity. Qed.

Lemma app_cons c (a b : string) : String c a ++ b = String c (a ++ b).
Proof. reflexivity. Qed.

Lemma strip_app p r : strip p (p ++ r) = Some r.
Proof.
  induction p as [|c p IH]; [reflexivity|].
  rewrite app_cons. simpl. rewrite Ascii.eqb_refl. exact IH.
Qed.

Lemma strip_Some p s r : strip p s = Some r -> s = p ++ r.
Proof.
  revert s; induction p as [|c p IH]; simpl; intros s H.
  - injection H as ->. reflexivity.
  - destruct s as [|d s]; [discriminate|].
    destruct (Ascii.eqb_spec c d) as [->|]; [|discriminate].
    rewrite app_cons. f_equal. apply IH, H.
Qed.

Lemma cut_Some c s a b :
  cut c s = Some (a, b) -> s = a ++ String c b /\ has c a = false.
Proof.
  revert a b; induction s as [|d s IH]; simpl; intros a b H; [discriminate|].
  destruct (Ascii.eqb_spec c d) as [->|Hne].
  - inversion H; subst. split; reflexivity.
  - destruct (cut c s) as [[a' b']|]; [|discriminate].
    inversion H; subst. destruct (IH a' b eq_refl) as [-> Hh].
    split; [reflexivity|]. simpl.
    destruct (Ascii.eqb_spec c d); [contradiction|exact Hh].
Qed.

Lemma cut_app c a b : has c a = false -> cut c (a ++ String c b) = Some (a, b).
Proof.
  induction a as [|d a IH]; intros H.
  - rewrite app_nil. simpl. rewrite Ascii.eqb_refl. reflexivity.
  - rewrite app_cons. simpl in *.
    destruct (Ascii.eqb c d); [discriminate|]. rewrite (IH H). reflexivity.
Qed.

Lemma cut_None c s : cut c s = None <-> has c s = false.
Proof.
  induction s as [|d s IH]; simpl; [tauto|].
  destruct (Ascii.eqb c d); [split; discriminate|].
  destruct (cut c s) as [[a b]|].
  - split; [discriminate|]. intros H. apply IH in H. discriminate.
  - split; intros _; [apply IH; reflexivity|reflexivity].
Qed.

Lemma has_digit_false c s : is_digit c = false -> all_digits s = true -> has c s = false.
Proof.
  intros Hc. induction s as [|d s IH]; simpl; [reflexivity|].
  intros H. apply andb_prop in H as [Hd Hs].
  destruct (Ascii.eqb_spec c d) as [->|]; [congruence|auto].
Qed.

End StrFacts.

(** ** Running a sequence of method calls *)

Module RunFacts.

Lemma bind_Ok {A B} (m : M A) (k : A -> M B) w a w' :
  m w = Ok a w' -> bind m k w = k a w'.
Proof. intros H. unfold bind. rewrite H. reflexivity. Qed.

Lemma bind_Exit {A B} (m : M A) (k : A -> M B) w e w' :
  m w = Exit e w' -> bind m k w = Exit e w'.
Proof. intros H. unfold bind. rewrite H. reflexivity. Qed.

Lemma bind_Throw {A B} (m : M A) (k : A -> M B) w x w' :
  m w = Throw x w' -> bind m k w = Throw x w'.
Proof. intros H. unfold bind. rewrite H. reflexivity. Qed.

(** The outcome of a sequence that returns comes from a first part that
    returned. *)
Lemma bind_Ok_inv {A B} (m : M A) (k : A -> M B) w b w2 :
  bind m k w = Ok b w2 -> exists a w1, m w = Ok a w1 /\ k a w1 = Ok b w2.
Proof.
  unfold bind. destruct (m w) as [a w1| | | |]; try discriminate. eauto.
Qed.

End RunFacts.
Export RunFacts.

(** ** Facts about values *)

Module JSFacts.

Lemma is_undefined_true v : is_undefined v = true <-> v = VUndefined.
Proof. destruct v; simpl; split; congruence. Qed.

Lemma is_undefined_false v : is_undefined v = false <-> v <> VUndefined.
Proof. destruct v; simpl; split; congruence. Qed.

End JSFacts.

(** ** Registration of arguments *)

Module ArgumentFacts.
Import JSFacts.

(** C8. [addArgument] throws an [Error] exactly when the argument
    registered last is variadic, or the new argument is required and has a
    default value that is not [undefined] but no [parseArg]; in every other
    case it returns and the argument is the new last element of
    [registeredArguments], nothing else being changed. *)
Theorem addArgument_throws_iff (this : nat) (arg : Arg.Argument) (w : World) (c : Command) :
  cmds w !! this = Some c ->
  ((exists msg, addArgument this arg w = Throw (ThrowError msg) w)
   <-> (previous_is_variadic c \/ unused_default arg))
  /\ (~ (previous_is_variadic c \/ unused_default arg) ->
      addArgument this arg w
      = Ok tt (with_cmd this
                 (set_registeredArguments (registeredArguments c ++ [arg])%list c) w)).
Proof.
  intros Hc.
  unfold addArgument, bind, get_cmd. rewrite Hc.
  unfold previous_is_variadic, unused_default.
  destruct (list.last (registeredArguments c)) as [p|] eqn:Hlast.
  - destruct (Arg.variadic p) eqn:Hv.
    + split.
      * split; [intros _; left; eauto | intros _; eexists; reflexivity].
      * intros Hn. exfalso. apply Hn. left. eauto.
    + destruct (Arg.required arg) eqn:Hr; simpl.
      * destruct (is_undefined (Arg.defaultValue arg)) eqn:Hd; simpl.
        -- apply is_undefined_true in Hd. split.
           ++ split; [intros [msg Hm]; discriminate|].
              intros [(q & Hq & Hqv)|(_ & Hne & _)]; [congruence|contradiction].
           ++ intros _. reflexivity.
        -- apply is_undefined_false in Hd.
           destruct (Arg.parseArg arg) as [f|] eqn:Hp.
           ++ split.
              ** split; [intros [msg Hm]; discriminate|].
                 intros [(q & Hq & Hqv)|(_ & _ & Hnone)]; congruence.
              ** intros _. reflexivity.
           ++ split.
              ** split; [intros _; right; auto | intros _; eexists; reflexivity].
              ** intros Hn. exfalso. apply Hn. right. auto.
      * split.
        -- split; [intros [msg Hm]; discriminate|].
           intros [(q & Hq & Hqv)|(Hreq & _)]; congruence.
        -- intros _. reflexivity.
  - destruct (Arg.required arg) eqn:Hr; simpl.
    + destruct (is_undefined (Arg.defaultValue arg)) eqn:Hd; simpl.
      * apply is_undefined_true in Hd. split.
        -- split; [intros [msg Hm]; discriminate|].
           intros [(q & Hq & _)|(_ & Hne & _)]; [discriminate|contradiction].
        -- intros _. reflexivity.
      * apply is_undefined_false in Hd.
        destruct (Arg.parseArg arg) as [f|] eqn:Hp.
        -- split.
           ++ split; [intros [msg Hm]; discriminate|].
              intros [(q & Hq & _)|(_ & _ & Hnone)]; congruence.
           ++ intros _. reflexivity.
        -- split.
           ++ split; [intros _; right; auto | intros _; eexists; reflexivity].
           ++ intros Hn. exfalso. apply Hn. right. auto.
    + split.
      * split; [intros [msg Hm]; discriminate|].
        intros [(q & Hq & _)|(Hreq & _)]; congruence.
      * intros _. reflexivity.
Qed.

(** The program [program.argument("<files...>")] then refuses
    [program.argument("[more]")]. *)
Lemma addArgument_throws_iff_witness :
  cmds (single (set_registeredArguments [Arg.new "<files...>" None] (Cmd.new "")))
    !! 0
  = Some (set_registeredArguments [Arg.new "<files...>" None] (Cmd.new ""))
  /\ exists msg,
      addArgument 0 (Arg.new "[more]" None)
        (single (set_registeredArguments [Arg.new "<files...>" None] (Cmd.new "")))
      = Throw (ThrowError msg)
          (single (set_registeredArguments [Arg.new "<files...>" None] (Cmd.new ""))).
Proof.
  split; [reflexivity|].
  apply (addArgument_throws_iff 0 (Arg.new "[more]" None)
           (single (set_registeredArguments [Arg.new "<files...>" None] (Cmd.new "")))
           (set_registeredArguments [Arg.new "<files...>" None] (Cmd.new ""))
           eq_refl).
  left. eexists. split; reflexivity.
Defined.

End ArgumentFacts.

(** ** The debugger-port rewrite *)

Module InspectorFacts.
Import Str StrFacts Inspector InspectorSpec.

Ltac norm_app := repeat rewrite ?app_cons, ?app_nil.

Lemma match_option_eq_Some arg opt v :
  match_option_eq arg = Some (opt, v) ->
  inspect_option opt /\ arg = opt ++ "=" ++ v.
Proof.
  unfold match_option_eq, inspect_option.
  destruct (strip "--inspect" arg) as [r|] eqn:Hr; [|discriminate].
  apply strip_Some in Hr. subst arg.
  destruct (strip "-brk=" r) as [v1|] eqn:H1.
  { intros H; injection H as <- <-. apply strip_Some in H1. subst r.
    split; [auto|]. norm_app. reflexivity. }
  destruct (strip "-port=" r) as [v2|] eqn:H2.
  { intros H; injection H as <- <-. apply strip_Some in H2. subst r.
    split; [auto|]. norm_app. reflexivity. }
  destruct (strip "=" r) as [v3|] eqn:H3; [|discriminate].
  intros H; injection H as <- <-. apply strip_Some in H3. subst r.
  split; [auto|]. norm_app. reflexivity.
Qed.

Lemma match_option_eq_shape opt v :
  inspect_option opt -> match_option_eq (opt ++ "=" ++ v) = Some (opt, v).
Proof.
  intros [->|[->| ->]]; unfold match_option_eq; norm_app; reflexivity.
Qed.

Lemma match_bare_with_value opt v :
  inspect_option opt -> match_bare (opt ++ "=" ++ v) = None.
Proof.
  intros [->|[->| ->]]; unfold match_bare; norm_app; reflexivity.
Qed.

Lemma startsWith_option opt v :
  inspect_option opt -> startsWith (opt ++ v) "--inspect" = true.
Proof.
  intros [->|[->| ->]]; unfold startsWith; norm_app; reflexivity.
Qed.

Lemma match_bare_Some arg m :
  match_bare arg = Some m -> m = arg /\ (arg = "--inspect" \/ arg = "--inspect-brk").
Proof.
  unfold match_bare.
  destruct (String.eqb_spec arg "--inspect") as [->|]; simpl.
  { intros H; injection H as <-. auto. }
  destruct (String.eqb_spec arg "--inspect-brk") as [->|]; simpl; [|discriminate].
  intros H; injection H as <-. auto.
Qed.

Lemma is_number_no_colon port : is_number port = true -> has ":" port = false.
Proof.
  unfold is_number. intros H. apply andb_prop in H as [_ H].
  apply has_digit_false; [reflexivity|exact H].
Qed.

Lemma has_app c a b : has c (a ++ b) = has c a || has c b.
Proof.
  induction a as [|d a IH]; norm_app; simpl; [reflexivity|].
  destruct (Ascii.eqb c d); [reflexivity|exact IH].
Qed.

Lemma lookup_map {A B} (f : A -> B) (l : list A) (i : nat) (x : A) :
  l !! i = Some x -> map f l !! i = Some (f x).
Proof.
  revert i; induction l as [|a l IH]; intros [|i] H; try discriminate.
  - injection H as ->. reflexivity.
  - simpl. apply IH. exact H.
Qed.

(** What the callback returns on a token of one of the shapes. *)
Lemma incrementArg_shape fmt token opt host port :
  Shape token opt host port ->
  incrementArg fmt token
  = if String.eqb port "0" then token
    else opt ++ "=" ++ host ++ ":" ++ port_plus_one fmt port.
Proof.
  intros HS. destruct HS as [opt Ho|opt port Ho Hp|opt host Ho [Hne Hnc] Hnum
                            |opt host port Ho [Hne Hnc] Hp].
  - destruct Ho as [->| ->]; reflexivity.
  - unfold incrementArg.
    rewrite (startsWith_option opt ("=" ++ port) Ho). simpl.
    rewrite (match_bare_with_value opt port Ho).
    unfold match_single. rewrite (match_option_eq_shape opt port Ho).
    pose proof (is_number_no_colon port Hp) as Hc.
    unfold is_port in Hp. pose proof Hp as Hp'. unfold is_number in Hp'.
    apply andb_prop in Hp' as [Hn _]. rewrite Hn, Hc. simpl. rewrite Hp.
    destruct opt; [destruct Ho as [H|[H|H]]; discriminate|]. simpl.
    destruct (String.eqb port "0"); reflexivity.
  - unfold incrementArg.
    rewrite (startsWith_option opt ("=" ++ host) Ho). simpl.
    rewrite (match_bare_with_value opt host Ho).
    unfold match_single. rewrite (match_option_eq_shape opt host Ho).
    rewrite Hne, Hnc. simpl. rewrite Hnum.
    destruct opt; [destruct Ho as [H|[H|H]]; discriminate|]. simpl.
    reflexivity.
  - unfold incrementArg.
    rewrite (startsWith_option opt ("=" ++ host ++ ":" ++ port) Ho). simpl.
    rewrite (match_bare_with_value opt (host ++ ":" ++ port) Ho).
    unfold match_single, match_host_port.
    rewrite (match_option_eq_shape opt (host ++ ":" ++ port) Ho).
    rewrite has_app, Hnc. norm_app. simpl.
    rewrite andb_false_r.
    rewrite (cut_app ":" host port Hnc). rewrite Hne. unfold is_port in Hp.
    rewrite Hp. simpl.
    destruct opt; [destruct Ho as [H|[H|H]]; discriminate|]. simpl.
    destruct (String.eqb port "0"); reflexivity.
Qed.

(** A token that the callback changes has one of the shapes. *)
Lemma incrementArg_no_shape fmt token :
  (forall opt host port, ~ Shape token opt host port) ->
  incrementArg fmt token = token.
Proof.
  intros Hno. unfold incrementArg.
  destruct (startsWith token "--inspect"); simpl; [|reflexivity].
  destruct (match_bare token) as [m1|] eqn:Hb.
  { apply match_bare_Some in Hb as [-> Hb]. exfalso.
    apply (Hno token "127.0.0.1" "9229"). constructor. exact Hb. }
  destruct (match_single token) as [[m1 m3]|] eqn:Hs.
  { unfold match_single in Hs.
    destruct (match_option_eq token) as [[o v]|] eqn:He; [|discriminate].
    apply match_option_eq_Some in He as [Ho ->].
    destruct (nonempty v) eqn:Hn; simpl in Hs; [|discriminate].
    destruct (has ":" v) eqn:Hc; simpl in Hs; [discriminate|].
    injection Hs as <- <-. exfalso.
    destruct (is_number v) eqn:Hnum.
    - apply (Hno o "127.0.0.1" v). constructor; assumption.
    - apply (Hno o v "9229"). constructor; [assumption|split; assumption|assumption]. }
  destruct (match_host_port token) as [[[m1 m3] m4]|] eqn:Hh.
  { unfold match_host_port in Hh.
    destruct (match_option_eq token) as [[o v]|] eqn:He; [|discriminate].
    apply match_option_eq_Some in He as [Ho ->].
    destruct (cut ":" v) as [[h p]|] eqn:Hcut; [|discriminate].
    apply cut_Some in Hcut as [-> Hc].
    destruct (nonempty h) eqn:Hn; simpl in Hh; [|discriminate].
    destruct (is_number p) eqn:Hp; simpl in Hh; [|discriminate].
    injection Hh as <- <- <-. exfalso.
    apply (Hno o h p). constructor; [assumption|split; assumption|assumption]. }
  reflexivity.
Qed.

End InspectorFacts.

Module InspectorClaims.
Import Str Inspector InspectorSpec.

(** C7 (amended). [incrementNodeInspectorPort] maps the token at every
    index to a token at the same index: a token that is [--inspect] or
    [--inspect-brk], or one of [--inspect], [--inspect-brk],
    [--inspect-port] followed by [=port], [=host] or [=host:port], becomes
    [option=host:port+1], the host being [127.0.0.1] and the port [9229]
    when the token has none, for a port other than ["0"] and at most
    [2^53 - 1]; with the port ["0"] the token is returned as it is; and so
    is every token of another form, the bare [--inspect-port] among them. *)
Theorem incrementNodeInspectorPort_rewrites
    (fmt : N -> string) (args : list string) (i : nat) (token : string) :
  args !! i = Some token ->
  exists out,
    incrementNodeInspectorPort fmt args !! i = Some out /\ Rewritten token out.
Proof.
  intros Hi. exists (incrementArg fmt token). split.
  - unfold incrementNodeInspectorPort. apply InspectorFacts.lookup_map, Hi.
  - repeat split.
    + intros opt host port HS Hp Hsafe.
      rewrite (InspectorFacts.incrementArg_shape fmt token opt host port HS).
      destruct (String.eqb_spec port "0") as [->|_]; [contradiction|].
      unfold port_plus_one. apply N.leb_le in Hsafe. rewrite Hsafe. reflexivity.
    + intros opt host HS.
      rewrite (InspectorFacts.incrementArg_shape fmt token opt host "0" HS).
      reflexivity.
    + apply InspectorFacts.incrementArg_no_shape.
Qed.

(** [node --inspect=localhost:9229 --inspect-port -x]: the first token. *)
Lemma incrementNodeInspectorPort_rewrites_witness :
  ["--inspect=localhost:9229"; "--inspect-port"; "-x"] !! 0%nat
  = Some "--inspect=localhost:9229"
  /\ exists out,
      incrementNodeInspectorPort decimal
        ["--inspect=localhost:9229"; "--inspect-port"; "-x"] !! 0%nat = Some out
      /\ Rewritten "--inspect=localhost:9229" out.
Proof.
  split; [reflexivity|].
  apply (incrementNodeInspectorPort_rewrites decimal
           ["--inspect=localhost:9229"; "--inspect-port"; "-x"] 0
           "--inspect=localhost:9229" eq_refl).
Defined.

(** C7 as stated fails: the bare [--inspect-port] matches the third option
    name but is returned without a port. *)
Lemma bare_inspect_port_is_not_rewritten :
  ~ (forall (fmt : N -> string) (opt : string),
        inspect_option opt ->
        exists host port,
          incrementNodeInspectorPort fmt [opt]
          = [opt ++ "=" ++ host ++ ":" ++ port]).
Proof.
  intros H.
  destruct (H decimal "--inspect-port") as (host & port & E).
  - right. right. reflexivity.
  - repeat rewrite ?StrFacts.app_cons, ?StrFacts.app_nil in E. discriminate E.
Qed.

End InspectorClaims.

(** ** Option values *)

Module ValueFacts.
Export JSFacts.

Lemma get_cmd_ok this w c : cmds w !! this = Some c -> get_cmd this w = Ok c w.
Proof. intros H. unfold get_cmd. rewrite H. reflexivity. Qed.

Lemma with_cmd_lookup this c w : cmds (with_cmd this c w) !! this = Some c.
Proof. unfold with_cmd. simpl. apply lookup_insert_eq. Qed.

Lemma with_cmd_lookup_ne this l c w :
  this <> l -> cmds (with_cmd this c w) !! l = cmds w !! l.
Proof. intros H. unfold with_cmd. simpl. apply lookup_insert_ne, H. Qed.

Lemma getOptionValue_ok this key w c :
  cmds w !! this = Some c ->
  getOptionValue this key w
  = Ok (if _storeOptionsAsProperties c then js_get (properties c) key
        else js_get (optionValues c) key) w.
Proof. intros H. unfold getOptionValue, bind. rewrite (get_cmd_ok _ _ _ H). reflexivity. Qed.

Lemma getOptionValueSource_ok this key w c :
  cmds w !! this = Some c ->
  getOptionValueSource this key w = Ok (js_get (_optionValueSources c) key) w.
Proof.
  intros H. unfold getOptionValueSource, bind. rewrite (get_cmd_ok _ _ _ H). reflexivity.
Qed.

Lemma setOptionValueWithSource_ok this key v s w c :
  cmds w !! this = Some c ->
  setOptionValueWithSource this key v s w
  = Ok tt (with_cmd this (assign_value key v s c) w).
Proof.
  intros H. unfold setOptionValueWithSource, modify_cmd, bind.
  rewrite (get_cmd_ok _ _ _ H). reflexivity.
Qed.

Lemma js_get_insert (m : gmap string jsval) key v : js_get (<[key := v]> m) key = v.
Proof. unfold js_get. rewrite lookup_insert_eq. reflexivity. Qed.

Lemma js_get_insert_ne (m : gmap string jsval) key k v :
  key <> k -> js_get (<[key := v]> m) k = js_get m k.
Proof. intros H. unfold js_get. rewrite lookup_insert_ne by exact H. reflexivity. Qed.

(** Reading back what [setOptionValueWithSource] stored. *)
Lemma assign_value_read key v s c :
  (if _storeOptionsAsProperties (assign_value key v s c)
   then js_get (properties (assign_value key v s c)) key
   else js_get (optionValues (assign_value key v s c)) key) = v
  /\ js_get (_optionValueSources (assign_value key v s c)) key = s.
Proof.
  unfold assign_value.
  destruct (_storeOptionsAsProperties c) eqn:Hs; simpl; rewrite Hs;
    rewrite !js_get_insert; auto.
Qed.

(** [customProcessing] leaves the commands as they are. *)
Lemma customProcessing_cmds o val old msg w v w1 :
  customProcessing o val old msg w = Ok v w1 -> cmds w1 = cmds w.
Proof.
  unfold customProcessing.
  destruct (negb (is_null val)).
  - destruct (Opt.parseArg o) as [fn|].
    + unfold callParseArg. destruct (fn val old) as [r|[e|m|m]].
      * intros H; injection H as _ <-. reflexivity.
      * destruct (String.eqb (code e) "commander.invalidArgument"); discriminate.
      * discriminate.
      * discriminate.
    + destruct (Opt.variadic o).
      * unfold bind, fresh_tag, ret. intros H; injection H as _ <-. reflexivity.
      * intros H; injection H as _ <-. reflexivity.
  - intros H; injection H as _ <-. reflexivity.
Qed.

(** The order in which the code tests the kinds of option gives the same
    value as the order boolean, negated, optional. *)
Lemma fill_missing_eq o : fill_missing o = value_when_missing o.
Proof.
  unfold fill_missing, value_when_missing, OptMethods.isBoolean.
  destruct (Opt.required o), (Opt.optional o), (Opt.negate o); reflexivity.
Qed.

End ValueFacts.

Module ValueClaims.
Import ValueFacts.

(** The handler on an event without value, up to the processed value. *)
Lemma handleOptionValue_stores this index name val msg src w c o processed w1 :
  cmds w !! this = Some c ->
  options c !! index = Some o ->
  is_nullish val = true ->
  customProcessing o (with_preset o val) (value_of c name) msg w = Ok processed w1 ->
  exists w2,
    handleOptionValue this index name val msg src w = Ok tt w2
    /\ getOptionValue this name w2
       = Ok (if is_nullish processed then value_when_missing o else processed) w2
    /\ getOptionValueSource this name w2 = Ok (VStr src) w2.
Proof.
  intros Hc Ho Hnull Hproc.
  pose proof (customProcessing_cmds _ _ _ _ _ _ _ Hproc) as Hw1.
  assert (Hc1 : cmds w1 !! this = Some c) by (rewrite Hw1; exact Hc).
  eexists. split; [|split].
  - unfold handleOptionValue, bind. rewrite (get_cmd_ok _ _ _ Hc).
    unfold option_at. rewrite Ho. unfold ret.
    rewrite (getOptionValue_ok _ _ _ _ Hc). fold (value_of c name).
    replace (if is_nullish val && negb (is_undefined (Opt.presetArg o))
             then Opt.presetArg o else val) with (with_preset o val).
    2:{ unfold with_preset. rewrite Hnull.
        destruct (is_undefined (Opt.presetArg o)); reflexivity. }
    rewrite Hproc. rewrite fill_missing_eq.
    apply (setOptionValueWithSource_ok _ _ _ _ _ _ Hc1).
  - rewrite (getOptionValue_ok _ _ _ _ (with_cmd_lookup _ _ _)).
    f_equal. apply assign_value_read.
  - rewrite (getOptionValueSource_ok _ _ _ _ (with_cmd_lookup _ _ _)).
    f_equal. apply assign_value_read.
Qed.

(** C4. Let the handler of the option at [index] receive an event without
    value ([null] or [undefined]), for any value source (the listeners pass
    ["cli"] and ["env"]), on a command that keeps its option values in the
    separate object, under a name that is no member name that this object
    inherits. If the option has a preset, the handler behaves as on an
    event that carries the preset, and the preset is what it processes and
    stores: whenever the custom processing of the raw value (the preset
    when there is one) returns, the handler returns and the value then
    stored under the option's name is the processed value, or, when that
    is [null] or [undefined], [true] for a boolean option, [false] for a
    negated one, [true] for one with an optional argument and the empty
    string for the others; its source is the source of the event. So an
    option without parser that is not variadic stores its preset, or the
    value of that table without one; and the parser of an option receives
    the preset, and what it returns is stored. *)
Theorem handleOptionValue_missing_value
    (this index : nat) (name : string) (val : jsval) (msg src : string)
    (w : World) (c : Command) (o : Opt.Option) :
  cmds w !! this = Some c ->
  options c !! index = Some o ->
  is_nullish val = true ->
  _storeOptionsAsProperties c = false ->
  ordinary_key name = true ->
  (Opt.presetArg o <> VUndefined ->
   handleOptionValue this index name val msg src w
   = handleOptionValue this index name (Opt.presetArg o) msg src w)
  /\ (forall processed w1,
         customProcessing o (with_preset o val) (value_of c name) msg w = Ok processed w1 ->
         exists w2,
           handleOptionValue this index name val msg src w = Ok tt w2
           /\ getOptionValue this name w2
              = Ok (if is_nullish processed then value_when_missing o else processed) w2
           /\ getOptionValueSource this name w2 = Ok (VStr src) w2)
  /\ (Opt.parseArg o = None -> Opt.variadic o = false ->
      exists w2,
        handleOptionValue this index name val msg src w = Ok tt w2
        /\ getOptionValue this name w2
           = Ok (if is_nullish (Opt.presetArg o) then value_when_missing o
                 else Opt.presetArg o) w2
        /\ getOptionValueSource this name w2 = Ok (VStr src) w2)
  /\ (forall fn v,
         Opt.parseArg o = Some fn ->
         is_nullish (Opt.presetArg o) = false ->
         fn (Opt.presetArg o) (value_of c name) = Returns v ->
         exists w2,
           handleOptionValue this index name val msg src w = Ok tt w2
           /\ getOptionValue this name w2
              = Ok (if is_nullish v then value_when_missing o else v) w2
           /\ getOptionValueSource this name w2 = Ok (VStr src) w2).
Proof.
  intros Hc Ho Hnull _ _. split; [|split; [|split]].
  - intros Hpreset. apply is_undefined_false in Hpreset.
    unfold handleOptionValue, bind. rewrite (get_cmd_ok _ _ _ Hc).
    unfold option_at. rewrite Ho. unfold ret. rewrite Hnull, Hpreset. simpl.
    destruct (is_nullish (Opt.presetArg o)); reflexivity.
  - intros processed w1 Hproc.
    apply (handleOptionValue_stores this index name val msg src w c o processed w1
             Hc Ho Hnull Hproc).
  - intros Hparser Hvar.
    assert (Hproc : customProcessing o (with_preset o val) (value_of c name) msg w
                    = Ok (with_preset o val) w).
    { unfold customProcessing. rewrite Hparser, Hvar.
      destruct (negb (is_null (with_preset o val))); reflexivity. }
    destruct (handleOptionValue_stores this index name val msg src w c o _ _
                Hc Ho Hnull Hproc) as (w2 & H1 & H2 & H3).
    exists w2. split; [exact H1|]. split; [|exact H3].
    rewrite H2. f_equal. unfold with_preset.
    destruct (Opt.presetArg o) eqn:Hp; cbn [is_undefined is_nullish];
      try reflexivity; rewrite Hnull; reflexivity.
  - intros fn v Hparser Hpreset Hfn.
    assert (Hwith : with_preset o val = Opt.presetArg o).
    { unfold with_preset. destruct (Opt.presetArg o); try reflexivity.
      discriminate Hpreset. }
    assert (Hproc : customProcessing o (with_preset o val) (value_of c name) msg w
                    = Ok v w).
    { rewrite Hwith. unfold customProcessing. rewrite Hparser.
      destruct (Opt.presetArg o) eqn:Hp; try discriminate Hpreset;
        cbn [is_null negb]; unfold callParseArg; rewrite Hfn; reflexivity. }
    apply (handleOptionValue_stores this index name val msg src w c o v w
             Hc Ho Hnull Hproc).
Qed.

(** [program.option("--no-sauce")] and the event of [--no-sauce]: [false]
    is stored; [new Option("--donate [amount]").preset("20")] and the event
    of [--donate] without amount: the preset is stored. *)
Lemma handleOptionValue_missing_value_witness :
  (exists w2,
     handleOptionValue 0 0 "sauce" VUndefined "" "cli"
       (single (set_options [Opt.new "--no-sauce"] (Cmd.new ""))) = Ok tt w2
     /\ getOptionValue 0 "sauce" w2 = Ok (VBool false) w2
     /\ getOptionValueSource 0 "sauce" w2 = Ok (VStr "cli") w2)
  /\ (exists w2,
        handleOptionValue 0 0 "donate" VNull "" "cli"
          (single (set_options [OptMethods.preset (VStr "20") (Opt.new "--donate [amount]")]
                     (Cmd.new ""))) = Ok tt w2
        /\ getOptionValue 0 "donate" w2 = Ok (VStr "20") w2
        /\ getOptionValueSource 0 "donate" w2 = Ok (VStr "cli") w2).
Proof.
  split.
  - apply (proj1 (proj2 (proj2
             (handleOptionValue_missing_value 0 0 "sauce" VUndefined "" "cli"
                (single (set_options [Opt.new "--no-sauce"] (Cmd.new "")))
                (set_options [Opt.new "--no-sauce"] (Cmd.new ""))
                (Opt.new "--no-sauce") eq_refl eq_refl eq_refl eq_refl eq_refl)))
             eq_refl eq_refl).
  - apply (proj1 (proj2 (proj2
             (handleOptionValue_missing_value 0 0 "donate" VNull "" "cli"
                (single (set_options
                           [OptMethods.preset (VStr "20") (Opt.new "--donate [amount]")]
                           (Cmd.new "")))
                (set_options [OptMethods.preset (VStr "20") (Opt.new "--donate [amount]")]
                   (Cmd.new ""))
                (OptMethods.preset (VStr "20") (Opt.new "--donate [amount]"))
                eq_refl eq_refl eq_refl eq_refl eq_refl)))
             eq_refl eq_refl).
Defined.

End ValueClaims.

(** ** Aliases *)

Module AliasFacts.
Import ValueFacts.

(** [find_m] with a predicate that only reads the commands. *)
Lemma find_m_reads {A} (p : A -> M bool) (l : list A) (w : World) r w' :
  (forall x b w1, p x w = Ok b w1 -> w1 = w) ->
  find_m p l w = Ok r w' ->
  w' = w /\ (forall x, r = Some x -> p x w = Ok true w).
Proof.
  intros Hp. induction l as [|x l IH]; simpl.
  - unfold ret. intros H; injection H as <- <-. split; [reflexivity|discriminate].
  - unfold bind. destruct (p x w) as [b w1| | | |] eqn:Hx; try discriminate.
    pose proof (Hp _ _ _ Hx) as ->.
    destruct b.
    + unfold ret. intros H; injection H as <- <-.
      split; [reflexivity|]. intros y Hy; injection Hy as <-. exact Hx.
    + exact IH.
Qed.

Lemma findCommand_reads this name w r w' :
  findCommand this name w = Ok r w' ->
  w' = w /\ (forall m, r = Some m -> exists mc, cmds w !! m = Some mc).
Proof.
  unfold findCommand. destruct name as [n|].
  2:{ unfold ret. intros H; injection H as <- <-. split; [reflexivity|discriminate]. }
  destruct (negb (Str.nonempty n)).
  { unfold ret. intros H; injection H as <- <-. split; [reflexivity|discriminate]. }
  unfold bind at 1. unfold get_cmd at 1.
  destruct (cmds w !! this) as [c|]; [|discriminate].
  intros H. apply find_m_reads in H.
  - destruct H as [-> H]. split; [reflexivity|].
    intros m Hm. specialize (H m Hm). unfold bind, get_cmd in H.
    destruct (cmds w !! m) as [mc|]; [eauto|discriminate].
  - intros x b w1. unfold bind, get_cmd, ret.
    destruct (cmds w !! x); [|discriminate]. intros E; injection E as _ <-. reflexivity.
Qed.

End AliasFacts.

Module AliasClaims.
Import ValueFacts AliasFacts.

(** C9 (amended). Let [target] be the subcommand added last when it has an
    executable handler, and the command itself otherwise. [alias(name)]
    throws, and changes nothing, when [name] is the name of [target] or the
    parent of the command already has a subcommand known by [name]; in
    every other case it returns, [name] is the new last alias of [target],
    and no other object changes, so that with an executable last
    subcommand the alias list of the command itself stays as it was. *)
Theorem alias_registers_on_target
    (this : nat) (name : string) (w : World) (c : Command)
    (target : nat) (t : Command) (known : option nat) :
  cmds w !! this = Some c ->
  alias_target w this c = Some target ->
  cmds w !! target = Some t ->
  sibling_lookup c name w = Ok known w ->
  ((name = _name t \/ known <> None) ->
   exists msg, alias this name w = Throw (ThrowError msg) w)
  /\ (name <> _name t -> known = None ->
      alias this name w
      = Ok tt (with_cmd target (set_aliases (_aliases t ++ [name])%list t) w)
      /\ (target <> this ->
          cmds (with_cmd target (set_aliases (_aliases t ++ [name])%list t) w) !! this
          = Some c)).
Proof.
  intros Hc Htarget Ht Hknown.
  assert (Hrun : alias this name w
                 = if String.eqb name (_name t)
                   then Throw (ThrowError "Command alias can't be the same as its name") w
                   else match known with
                        | Some m =>
                            (mc <- get_cmd m ;;
                             throw (ThrowError
                               ("cannot add alias '" ++ name ++ "' to command '" ++ _name c
                                ++ "' as already have command '"
                                ++ join_bar (_name mc :: _aliases mc) ++ "'"))) w
                        | None =>
                            Ok tt (with_cmd target
                                     (set_aliases (_aliases t ++ [name])%list t) w)
                        end).
  { unfold alias. unfold bind at 1. rewrite (get_cmd_ok _ _ _ Hc).
    unfold alias_target in Htarget.
    unfold bind at 1.
    destruct (list.last (commands c)) as [l|].
    - unfold bind at 1. unfold get_cmd at 1.
      destruct (cmds w !! l) as [lc|]; [|discriminate].
      injection Htarget as Htarget. unfold ret. rewrite Htarget.
      unfold bind at 1. rewrite (get_cmd_ok _ _ _ Ht).
      destruct (String.eqb name (_name t)); [reflexivity|].
      unfold bind at 1. unfold sibling_lookup in Hknown. unfold ret in Hknown.
      rewrite Hknown. destruct known; [reflexivity|].
      unfold modify_cmd, bind. rewrite (get_cmd_ok _ _ _ Ht). reflexivity.
    - injection Htarget as <-. unfold ret.
      unfold bind at 1. rewrite (get_cmd_ok _ _ _ Ht).
      destruct (String.eqb name (_name t)); [reflexivity|].
      unfold bind at 1. unfold sibling_lookup in Hknown. unfold ret in Hknown.
      rewrite Hknown. destruct known; [reflexivity|].
      unfold modify_cmd, bind. rewrite (get_cmd_ok _ _ _ Ht). reflexivity. }
  split.
  - intros Hbad. rewrite Hrun.
    destruct (String.eqb_spec name (_name t)) as [_|Hne]; [eauto|].
    destruct Hbad as [Heq|Hk]; [contradiction|].
    destruct known as [m|]; [|contradiction].
    assert (Hm : exists mc, cmds w !! m = Some mc).
    { unfold sibling_lookup in Hknown. destruct (parent c) as [p|].
      - apply findCommand_reads in Hknown as [_ H]. apply H. reflexivity.
      - discriminate. }
    destruct Hm as [mc Hm]. unfold bind. rewrite (get_cmd_ok _ _ _ Hm).
    eexists. reflexivity.
  - intros Hne ->. rewrite Hrun.
    destruct (String.eqb_spec name (_name t)) as [|_]; [contradiction|].
    split; [reflexivity|].
    intros Hdiff. rewrite with_cmd_lookup_ne by exact Hdiff. exact Hc.
Qed.

(** [program.command("start <service>", "start named service").alias("s")]. *)
Lemma alias_registers_on_target_witness :
  alias 0 "s" start_world
  = Ok tt (with_cmd 1 (set_aliases ["s"]
                         (set_parent (Some 0)
                            (set_executableHandler true (Cmd.new "start"))))
                    start_world).
Proof.
  apply (proj2 (alias_registers_on_target 0 "s" start_world
                  (set_commands [1] (Cmd.new "program")) 1
                  (set_parent (Some 0) (set_executableHandler true (Cmd.new "start")))
                  None eq_refl eq_refl eq_refl eq_refl)).
  - discriminate.
  - reflexivity.
Defined.

(** C9 as stated fails: on a command named [build] without subcommands,
    [alias("build")] throws and the alias list stays empty. *)
Lemma alias_equal_to_name_is_not_appended :
  alias 0 "build" (single (Cmd.new "build"))
  = Throw (ThrowError "Command alias can't be the same as its name")
          (single (Cmd.new "build"))
  /\ _aliases <$> cmds (single (Cmd.new "build")) !! 0 = Some [].
Proof. split; reflexivity. Qed.

End AliasClaims.

(** ** Life-cycle hooks *)

Module HookFacts.
Import ValueFacts.

Lemma fold_chainOrCall_called {A} (mk : A -> HookCall) (l : list A) (p : Chain) :
  called (fold_left (fun result x => chainOrCall result (mk x)) l p)
  = (called p ++ map mk l)%list.
Proof.
  revert p; induction l as [|x l IH]; intros p; simpl.
  - rewrite app_nil_r. reflexivity.
  - rewrite IH. simpl. rewrite <- app_assoc. reflexivity.
Qed.

Lemma filter_defined_all event declared w (order : list nat) :
  Forall (has_hooks w event declared) order ->
  filter_m (fun l => c <- get_cmd l ;;
                     ret (slot_defined (slot (lifeCycleHooks c) event))) order w
  = Ok order w.
Proof.
  induction 1 as [|l order (c & Hc & Hs) _ IH]; simpl; [reflexivity|].
  erewrite bind_Ok.
  2:{ erewrite bind_Ok by (apply get_cmd_ok, Hc). reflexivity. }
  rewrite Hs. simpl. erewrite bind_Ok by exact IH. reflexivity.
Qed.

Lemma collect_hooks_all event declared w (order : list nat) :
  Forall (has_hooks w event declared) order ->
  collect_hooks event order w
  = Ok (flat_map (fun l => map (pair l) (declared l)) order) w.
Proof.
  induction 1 as [|l order (c & Hc & Hs) _ IH]; simpl; [reflexivity|].
  erewrite bind_Ok by (apply get_cmd_ok, Hc). rewrite Hs.
  erewrite bind_Ok by exact IH. reflexivity.
Qed.

Lemma flat_map_map_calls this declared (order : list nat) :
  map (fun hookDetail : nat * Hook =>
         {| callback := snd hookDetail; first := fst hookDetail; second := this |})
      (flat_map (fun l => map (pair l) (declared l)) order)
  = flat_map (calls_of this declared) order.
Proof.
  induction order as [|l order IH]; simpl; [reflexivity|].
  rewrite map_app, IH. f_equal. unfold calls_of. rewrite map_map. reflexivity.
Qed.

Lemma rev_flat_map {A B} (f : A -> list B) (l : list A) :
  rev (flat_map f l) = flat_map (fun x => rev (f x)) (rev l).
Proof.
  induction l as [|x l IH]; simpl; [reflexivity|].
  rewrite rev_app_distr, IH, flat_map_app. simpl. rewrite app_nil_r. reflexivity.
Qed.

Lemma chainOrCallHooks_ok this promise event declared w ancestors :
  getCommandAndAncestors this w = Ok ancestors w ->
  Forall (has_hooks w event declared) ancestors ->
  chainOrCallHooks this promise event w
  = Ok (fold_left (fun result hookDetail =>
                     chainOrCall result {| callback := snd hookDetail;
                                           first := fst hookDetail;
                                           second := this |})
          (let hooks := flat_map (fun l => map (pair l) (declared l)) (rev ancestors) in
           if String.eqb event "postAction" then rev hooks else hooks)
          promise) w.
Proof.
  intros Hanc Hall.
  assert (Hrev : Forall (has_hooks w event declared) (rev ancestors)).
  { apply Forall_forall. intros l Hl. apply in_rev in Hl.
    rewrite Forall_forall in Hall. apply Hall, Hl. }
  unfold chainOrCallHooks. erewrite bind_Ok by exact Hanc.
  erewrite bind_Ok by (apply (filter_defined_all _ declared), Hrev).
  erewrite bind_Ok by (apply (collect_hooks_all _ declared), Hrev).
  reflexivity.
Qed.

End HookFacts.

Module HookClaims.
Import ValueFacts HookFacts.

(** C6 (amended). Let [ancestors] be the action command followed by its
    ancestors up to the root. When each of them holds an array of
    [preAction] hooks, [#chainOrCallHooks] calls these hooks after those of
    the chain it is given, walking from the root to the action command, in
    the order of declaration within each command. When each of them holds
    an array of [postAction] hooks, it calls them in the reverse of that
    order: walking from the action command to the root and, within each
    command, from the hook declared last to the one declared first. The
    [preSubcommand] hooks that [#chainOrCallSubCommandHook] calls are those
    of the dispatching command alone, in the order of declaration. *)
Theorem hooks_run_in_order
    (this sub : nat) (w : World) (ancestors : list nat)
    (declared : nat -> list Hook) (promise : Chain) :
  getCommandAndAncestors this w = Ok ancestors w ->
  (Forall (has_hooks w "preAction" declared) ancestors ->
   exists r, chainOrCallHooks this promise "preAction" w = Ok r w
             /\ called r
                = (called promise
                   ++ flat_map (calls_of this declared) (rev ancestors))%list)
  /\ (Forall (has_hooks w "postAction" declared) ancestors ->
      exists r, chainOrCallHooks this promise "postAction" w = Ok r w
                /\ called r
                   = (called promise
                      ++ flat_map (fun l => rev (calls_of this declared l))
                           ancestors)%list)
  /\ (has_hooks w "preSubcommand" declared this ->
      exists r, chainOrCallSubCommandHook this promise sub "preSubcommand" w = Ok r w
                /\ called r
                   = (called promise
                      ++ map (fun h => {| callback := h; first := this; second := sub |})
                           (declared this))%list).
Proof.
  intros Hanc. split; [|split].
  - intros Hall. eexists. split.
    + apply (chainOrCallHooks_ok _ _ _ declared _ _ Hanc Hall).
    + simpl. rewrite fold_chainOrCall_called, flat_map_map_calls. reflexivity.
  - intros Hall. eexists. split.
    + apply (chainOrCallHooks_ok _ _ _ declared _ _ Hanc Hall).
    + simpl. rewrite fold_chainOrCall_called. f_equal.
      rewrite map_rev, flat_map_map_calls, rev_flat_map, rev_involutive.
      reflexivity.
  - intros (c & Hc & Hs). eexists. split.
    + unfold chainOrCallSubCommandHook.
      erewrite bind_Ok by (apply get_cmd_ok, Hc). rewrite Hs. reflexivity.
    + apply fold_chainOrCall_called.
Qed.

(** The [postAction] hooks of the subcommand at [1] and of its parent. *)
Lemma hooks_run_in_order_witness :
  exists r, chainOrCallHooks 1 no_chain "postAction" hooks_world = Ok r hooks_world
            /\ called r
               = [ {| callback := hook_one; first := 1; second := 1 |};
                   {| callback := hook_two; first := 0; second := 1 |};
                   {| callback := hook_one; first := 0; second := 1 |} ].
Proof.
  apply (proj1 (proj2 (hooks_run_in_order 1 1 hooks_world [1; 0] hooks_declared
                         no_chain eq_refl))).
  repeat constructor; eexists; split; reflexivity.
Defined.

(** C6 as stated fails: of two [postAction] hooks declared on one command,
    the second is called first. *)
Lemma postAction_hooks_run_last_declared_first :
  returned ((hook 0 "postAction" hook_one ;;;
             hook 0 "postAction" hook_two ;;;
             chainOrCallHooks 0 no_chain "postAction") (single (Cmd.new "")))
  = Some {| called := [ {| callback := hook_two; first := 0; second := 0 |};
                        {| callback := hook_one; first := 0; second := 0 |} ];
            thenable := false |}.
Proof. reflexivity. Qed.

(** A command on which [hook] was never called for the event holds [null],
    which the filter keeps and the iteration rejects. *)
Lemma hooks_null_is_not_iterable :
  chainOrCallHooks 0 no_chain "preAction" (single (Cmd.new ""))
  = Throw (ThrowTypeError "#lifeCycleHooks[event] is not iterable")
          (single (Cmd.new "")).
Proof. reflexivity. Qed.

End HookClaims.

(** ** Conflict validation *)

Module ConflictFacts.
Import ValueFacts.

(** Loops whose body only reads the world. *)
Lemma find_m_pure {A} (p : A -> M bool) (f : A -> bool) (l : list A) (w : World) :
  (forall x, In x l -> p x w = Ok (f x) w) ->
  find_m p l w = Ok (find f l) w.
Proof.
  induction l as [|x l IH]; intros Hp; simpl; [reflexivity|].
  erewrite bind_Ok by (apply Hp; left; reflexivity).
  destruct (f x); [reflexivity|]. apply IH. intros y Hy. apply Hp. right. exact Hy.
Qed.

Lemma filter_m_pure {A} (p : A -> M bool) (f : A -> bool) (l : list A) (w : World) :
  (forall x, In x l -> p x w = Ok (f x) w) ->
  filter_m p l w = Ok (List.filter f l) w.
Proof.
  induction l as [|x l IH]; intros Hp; simpl; [reflexivity|].
  erewrite bind_Ok by (apply Hp; left; reflexivity).
  erewrite bind_Ok by (apply IH; intros y Hy; apply Hp; right; exact Hy).
  reflexivity.
Qed.

Lemma definedNonDefault_ok l w c o :
  cmds w !! l = Some c -> named o ->
  definedNonDefault l o w = Ok (considered c o) w.
Proof.
  intros Hc [key Hk]. unfold definedNonDefault, considered. rewrite Hk. simpl.
  erewrite bind_Ok by reflexivity.
  erewrite bind_Ok by (apply getOptionValue_ok, Hc).
  fold (value_of c key). destruct (is_undefined (value_of c key)); [reflexivity|].
  erewrite bind_Ok by (apply getOptionValueSource_ok, Hc). reflexivity.
Qed.

Lemma named_in (l : list Opt.Option) o :
  Forall named l -> In o l -> named o.
Proof. intros H Hin. rewrite Forall_forall in H. apply H, Hin. Qed.

Lemma findBestOptionFromValue_ok l w c o :
  cmds w !! l = Some c -> Forall named (options c) -> named o ->
  exists best, findBestOptionFromValue l o w = Ok best w /\ named best.
Proof.
  intros Hc Hall [key Hk]. unfold findBestOptionFromValue.
  erewrite bind_Ok by (apply get_cmd_ok, Hc). rewrite Hk.
  erewrite bind_Ok by reflexivity.
  erewrite bind_Ok by (apply getOptionValue_ok, Hc).
  erewrite bind_Ok.
  2:{ apply (find_m_pure _ (fun target =>
               Opt.negate target
               && match OptMethods.attributeName target with
                  | Some k => String.eqb key k
                  | None => false
                  end)).
      intros x Hx. destruct (named_in _ _ Hall Hx) as [k Hxk]. rewrite Hxk.
      destruct (Opt.negate x); reflexivity. }
  erewrite bind_Ok.
  2:{ apply (find_m_pure _ (fun target =>
               negb (Opt.negate target)
               && match OptMethods.attributeName target with
                  | Some k => String.eqb key k
                  | None => false
                  end)).
      intros x Hx. destruct (named_in _ _ Hall Hx) as [k Hxk]. rewrite Hxk.
      destruct (Opt.negate x); reflexivity. }
  eexists. split; [reflexivity|].
  match goal with
  | |- named (if ?b then default o ?n else default o ?p) =>
      assert (Hn : named (default o n));
      [|assert (Hp : named (default o p)); [|destruct b; assumption]]
  end.
  - match goal with |- named (default o ?n) => destruct n as [x|] eqn:Hf end;
      simpl; [|exists key; exact Hk].
    apply find_some in Hf as [Hx _]. exact (named_in _ _ Hall Hx).
  - match goal with |- named (default o ?n) => destruct n as [x|] eqn:Hf end;
      simpl; [|exists key; exact Hk].
    apply find_some in Hf as [Hx _]. exact (named_in _ _ Hall Hx).
Qed.

Lemma getErrorMessage_ok l w c o :
  cmds w !! l = Some c -> Forall named (options c) -> named o ->
  exists m, getErrorMessage l o w = Ok m w.
Proof.
  intros Hc Hall Ho. unfold getErrorMessage.
  destruct (findBestOptionFromValue_ok _ _ _ _ Hc Hall Ho) as (best & Hb & [k Hk]).
  erewrite bind_Ok by exact Hb. rewrite Hk.
  erewrite bind_Ok by reflexivity.
  erewrite bind_Ok by (apply getOptionValueSource_ok, Hc).
  eexists. reflexivity.
Qed.

Lemma conflictingOption_exit l w c o d :
  cmds w !! l = Some c -> Forall named (options c) -> named o -> named d ->
  exists e, @conflictingOption unit l o d w = Exit e w
            /\ code e = "commander.conflictingOption".
Proof.
  intros Hc Hall Ho Hd. unfold conflictingOption.
  destruct (getErrorMessage_ok _ _ _ _ Hc Hall Ho) as [m1 H1].
  destruct (getErrorMessage_ok _ _ _ _ Hc Hall Hd) as [m2 H2].
  erewrite bind_Ok by exact H1. erewrite bind_Ok by exact H2.
  eexists. split; reflexivity.
Qed.

Lemma conflict_body_outcome l w c dnd o :
  cmds w !! l = Some c -> Forall named (options c) ->
  Forall named dnd -> named o ->
  (conflict_body l dnd o w = Ok tt w /\ find (listed_by o) dnd = None)
  \/ (exists e, conflict_body l dnd o w = Exit e w
                /\ code e = "commander.conflictingOption").
Proof.
  intros Hc Hall Hdnd Ho. unfold conflict_body.
  erewrite bind_Ok.
  2:{ apply (find_m_pure _ (listed_by o)). intros x Hx.
      destruct (named_in _ _ Hdnd Hx) as [k Hk]. unfold listed_by. rewrite Hk.
      reflexivity. }
  destruct (find (listed_by o) dnd) as [d|] eqn:Hf.
  - right. apply find_some in Hf as [Hd _].
    apply (conflictingOption_exit _ _ _ _ _ Hc Hall Ho (named_in _ _ Hdnd Hd)).
  - left. split; reflexivity.
Qed.

Lemma conflict_loop_outcome l w c dnd (ows : list Opt.Option) :
  cmds w !! l = Some c -> Forall named (options c) ->
  Forall named dnd -> Forall named ows ->
  (for_each ows (conflict_body l dnd) w = Ok tt w
   /\ forall o, In o ows -> find (listed_by o) dnd = None)
  \/ (exists e, for_each ows (conflict_body l dnd) w = Exit e w
                /\ code e = "commander.conflictingOption").
Proof.
  intros Hc Hall Hdnd Hows. induction Hows as [|o ows Ho _ IH]; simpl.
  - left. split; [reflexivity|]. intros o [].
  - destruct (conflict_body_outcome _ _ _ _ _ Hc Hall Hdnd Ho) as [[Hok Hnone]|(e & He & Hcode)].
    + erewrite bind_Ok by exact Hok.
      destruct IH as [[Hrest Hall']|(e & He & Hcode)].
      * left. split; [exact Hrest|]. intros o' [<-|Hin]; auto.
      * right. eauto.
    + right. exists e. split; [|exact Hcode]. apply bind_Exit, He.
Qed.

Lemma filter_named (f : Opt.Option -> bool) (l : list Opt.Option) :
  Forall named l -> Forall named (List.filter f l).
Proof.
  intros H. apply Forall_forall. intros x Hx. apply filter_In in Hx as [Hx _].
  exact (named_in _ _ H Hx).
Qed.

Lemma considered_filter l w c :
  cmds w !! l = Some c -> Forall named (options c) ->
  filter_m (definedNonDefault l) (options c) w
  = Ok (List.filter (considered c) (options c)) w.
Proof.
  intros Hc Hall. apply filter_m_pure. intros x Hx.
  apply (definedNonDefault_ok _ _ _ _ Hc (named_in _ _ Hall Hx)).
Qed.

(** The check of one command returns without change or exits with the
    code of conflicts, and it exits when there is a conflict. *)
Lemma local_check_outcome l w c :
  cmds w !! l = Some c -> Forall named (options c) ->
  (checkForConflictingLocalOptions l w = Ok tt w /\ ~ conflict_in c)
  \/ (exists e, checkForConflictingLocalOptions l w = Exit e w
                /\ code e = "commander.conflictingOption").
Proof.
  intros Hc Hall. unfold checkForConflictingLocalOptions.
  erewrite bind_Ok by (apply get_cmd_ok, Hc).
  erewrite bind_Ok by (apply considered_filter; assumption).
  set (dnd := List.filter (considered c) (options c)).
  assert (Hdnd : Forall named dnd) by (apply filter_named, Hall).
  destruct (conflict_loop_outcome l w c dnd
              (List.filter (fun option => negb (Nat.eqb (length (Opt.conflictsWith option)) 0)) dnd)
              Hc Hall Hdnd (filter_named _ _ Hdnd)) as [[Hok Hnone]|Hexit].
  - left. split; [exact Hok|].
    intros (o & d & key & Ho & Hd & Hkey & Hin).
    assert (Hows : In o (List.filter (fun option => negb (Nat.eqb (length (Opt.conflictsWith option)) 0)) dnd)).
    { apply filter_In. split; [exact Ho|]. destruct (Opt.conflictsWith o); [destruct Hin|reflexivity]. }
    specialize (Hnone o Hows).
    apply (find_none _ _ Hnone) in Hd. unfold listed_by in Hd. rewrite Hkey in Hd.
    assert (Ht : existsb (String.eqb key) (Opt.conflictsWith o) = true).
    { apply existsb_exists. exists key. split; [exact Hin|apply String.eqb_refl]. }
    congruence.
  - right. exact Hexit.
Qed.

Lemma walk_check_exit w (ancestors : list nat) l c :
  (forall a, In a ancestors ->
             exists ca, cmds w !! a = Some ca /\ Forall named (options ca)) ->
  In l ancestors -> cmds w !! l = Some c -> conflict_in c ->
  exists e, for_each ancestors checkForConflictingLocalOptions w = Exit e w
            /\ code e = "commander.conflictingOption".
Proof.
  intros Hwf Hl Hc Hconf. induction ancestors as [|a rest IH]; [destruct Hl|].
  simpl.
  destruct (Hwf a (or_introl eq_refl)) as (ca & Hca & Hna).
  destruct (local_check_outcome a w ca Hca Hna) as [[Hok Hno]|(e & He & Hcode)].
  - erewrite bind_Ok by exact Hok.
    destruct Hl as [->|Hl].
    + rewrite Hc in Hca. injection Hca as <-. contradiction.
    + apply IH; [|exact Hl]. intros b Hb. apply Hwf. right. exact Hb.
  - exists e. split; [|exact Hcode]. apply bind_Exit, He.
Qed.

End ConflictFacts.

Module ConflictClaims.
Import ValueFacts ConflictFacts.




End ConflictClaims.

(** ** The environment pass *)

Module EnvFacts.
Import ValueFacts.

Lemma finally_bind {A B} (m : M A) (k : A -> M B) w (P Q : World -> Prop) :
  finally (m w) P ->
  (forall w1, P w1 -> Q w1) ->
  (forall a w1, m w = Ok a w1 -> finally (k a w1) Q) ->
  finally (bind m k w) Q.
Proof.
  intros Hm HPQ Hk. unfold bind.
  destruct (m w) as [a w1|e w1|x w1| |]; simpl in *; auto.
Qed.

Lemma on_return_bind {A B} (m : M A) (k : A -> M B) w (Q : World -> Prop) :
  (forall a w1, m w = Ok a w1 -> on_return (k a w1) Q) ->
  on_return (bind m k w) Q.
Proof.
  intros Hk. unfold bind.
  destruct (m w) as [a w1|e w1|x w1| |]; simpl; auto.
Qed.

(** A loop keeps what each round keeps. *)
Lemma for_each_finally {A} (l : list A) (body : A -> M unit) (I : World -> Prop) :
  (forall x w, In x l -> I w -> finally (body x w) I) ->
  forall w, I w -> finally (for_each l body w) I.
Proof.
  induction l as [|x l IH]; intros Hb w Hw; simpl; [exact Hw|].
  apply (finally_bind _ _ _ I I).
  - apply Hb; [left; reflexivity|exact Hw].
  - auto.
  - intros [] w1 Hx. apply IH.
    + intros y w2 Hy. apply Hb. right. exact Hy.
    + pose proof (Hb x w (or_introl eq_refl) Hw) as H. rewrite Hx in H. exact H.
Qed.

(** A loop that returns has run every round, each from a state that the
    rounds before it left. *)
Lemma for_each_on_return {A} (l : list A) (body : A -> M unit)
    (I : World -> Prop) :
  (forall x w, In x l -> I w -> on_return (body x w) I) ->
  forall w, I w -> on_return (for_each l body w) I.
Proof.
  induction l as [|x l IH]; intros Hb w Hw; simpl; [exact Hw|].
  apply on_return_bind. intros [] w1 Hx. apply IH.
  - intros y w2 Hy. apply Hb. right. exact Hy.
  - pose proof (Hb x w (or_introl eq_refl) Hw) as H. rewrite Hx in H. exact H.
Qed.

(** [customProcessing] changes neither the commands nor the environment. *)
Lemma customProcessing_frame o val old msg w :
  finally (customProcessing o val old msg w)
          (fun w1 => cmds w1 = cmds w /\ environ w1 = environ w).
Proof.
  unfold customProcessing.
  destruct (negb (is_null val)); [|simpl; auto].
  destruct (Opt.parseArg o) as [fn|].
  - unfold callParseArg. destruct (fn val old) as [r|[e|m|m]]; simpl; auto.
    destruct (String.eqb (code e) "commander.invalidArgument"); simpl; auto.
  - destruct (Opt.variadic o); simpl; auto.
Qed.

(** The handler of an option either stores a value under its attribute,
    with the source of the event, or leaves the commands as they are. *)
Lemma handleOptionValue_effect this index attr val msg src w c :
  cmds w !! this = Some c ->
  match handleOptionValue this index attr val msg src w with
  | Ok _ w' =>
      exists v, cmds w' = <[this := assign_value attr v (VStr src) c]> (cmds w)
                /\ environ w' = environ w
  | Exit _ w' | Throw _ w' => cmds w' = cmds w /\ environ w' = environ w
  | Stuck | Diverge => True
  end.
Proof.
  intros Hc. unfold handleOptionValue.
  erewrite bind_Ok by (apply get_cmd_ok, Hc).
  unfold option_at. destruct (options c !! index) as [o|]; [|exact I].
  erewrite bind_Ok by reflexivity.
  erewrite bind_Ok by (apply getOptionValue_ok, Hc).
  match goal with
  | |- context [customProcessing ?a ?b ?d ?e] =>
      pose proof (customProcessing_frame a b d e w) as Hf;
      unfold bind; destruct (customProcessing a b d e w) as [v w1|e1 w1|x w1| |]
  end; simpl in Hf; try exact Hf; try exact I.
  destruct Hf as [Hcm Henv].
  assert (Hc1 : cmds w1 !! this = Some c) by (rewrite Hcm; exact Hc).
  rewrite (setOptionValueWithSource_ok _ _ _ _ _ _ Hc1).
  eexists. unfold with_cmd. simpl. rewrite Hcm. split; [reflexivity|exact Henv].
Qed.

Lemma assign_value_shape c0 c k v s :
  same_shape c0 c -> same_shape c0 (assign_value k v s c).
Proof.
  intros (Ho & Hl & Hs). unfold same_shape, assign_value.
  destruct (_storeOptionsAsProperties c) eqn:E; simpl; rewrite ?E; auto.
Qed.

Lemma assign_value_other c k key v s :
  k <> key ->
  value_of (assign_value k v s c) key = value_of c key
  /\ source_of (assign_value k v s c) key = source_of c key.
Proof.
  intros Hne. unfold value_of, source_of, assign_value.
  destruct (_storeOptionsAsProperties c) eqn:Hs; simpl; rewrite Hs;
    rewrite !js_get_insert_ne by exact Hne; auto.
Qed.

Lemma assign_value_source c k v s : source_of (assign_value k v s c) k = s.
Proof.
  unfold source_of, assign_value.
  destruct (_storeOptionsAsProperties c); simpl; apply js_get_insert.
Qed.

Lemma env_event_inj a b : "optionEnv:" ++ a = "optionEnv:" ++ b -> a = b.
Proof.
  repeat rewrite ?StrFacts.app_cons, ?StrFacts.app_nil. intros H.
  injection H as H. exact H.
Qed.

Lemma env_event_not_cli a b : "option:" ++ a <> "optionEnv:" ++ b.
Proof.
  repeat rewrite ?StrFacts.app_cons, ?StrFacts.app_nil. intros H.
  injection H as H. destruct a; discriminate H.
Qed.

(** Under [listeners_wf], the listeners of an event of the environment
    write the attribute of the name in the event. *)
Lemma env_listener c nm entry :
  listeners_wf c ->
  In entry (List.filter (listens ("optionEnv:" ++ nm)) (listeners c)) ->
  exists index attr, snd entry = OnOptionEnv index attr /\ attr_of_name nm = Some attr.
Proof.
  intros Hwf Hin. apply filter_In in Hin as [Hin Hev].
  destruct entry as [ev l]. unfold listens in Hev. simpl in Hev.
  apply String.eqb_eq in Hev. subst ev.
  specialize (Hwf _ _ Hin). destruct l as [i a|i a|v].
  - destruct Hwf as [nm' H]. symmetry in H. apply env_event_not_cli in H. destruct H.
  - destruct Hwf as (nm' & H & Ha). apply env_event_inj in H. subst nm'.
    simpl. eauto.
  - destruct Hwf as [nm' H]. symmetry in H. apply env_event_not_cli in H. destruct H.
Qed.

Lemma env_may_write_after c k v :
  env_may_write (assign_value k v (VStr "env") c) k = true.
Proof.
  unfold env_may_write. rewrite assign_value_source. apply orb_true_r.
Qed.

Lemma for_each_establish {A} (l : list A) (body : A -> M unit) (I J : World -> Prop) :
  (forall x w, In x l -> I w -> on_return (body x w) J) ->
  (forall w, J w -> I w) ->
  l <> [] ->
  forall w, I w -> on_return (for_each l body w) J.
Proof.
  intros Hb HJI. induction l as [|x l IH]; intros Hne w Hw; [contradiction|].
  simpl. apply on_return_bind. intros [] w1 Hx.
  pose proof (Hb x w (or_introl eq_refl) Hw) as H. rewrite Hx in H. simpl in H.
  destruct l as [|y l']; [exact H|].
  apply IH; [|discriminate|apply HJI, H].
  intros z w2 Hz. apply Hb. right. exact Hz.
Qed.

Section Invariant.

Variable this : nat.
Variable env0 : gmap string string.
Variable c0 : Command.
Hypothesis Hwf : listeners_wf c0.

(** A property of the command that an assignment from the environment
    keeps when the priority check lets it through. *)
Variable X : Command -> Prop.
Hypothesis X_shape : forall c, X c -> same_shape c0 c.
Hypothesis X_assign :
  forall k c v, X c -> env_may_write c k = true ->
                X (assign_value k v (VStr "env") c).

Lemma run_env_listener_finally index k val w :
  at_cmd this env0 (fun c => X c /\ env_may_write c k = true) w ->
  finally (run_listener this (OnOptionEnv index k) val w)
          (at_cmd this env0 (fun c => X c /\ env_may_write c k = true)).
Proof.
  intros (c & Hc & Henv & HX & Hg). unfold run_listener.
  erewrite bind_Ok by (apply get_cmd_ok, Hc).
  unfold option_at. destruct (options c !! index) as [o|]; [|exact I].
  erewrite bind_Ok by reflexivity.
  match goal with
  | |- context [handleOptionValue ?a ?b ?d ?e ?f ?g] =>
      pose proof (handleOptionValue_effect a b d e f g w c Hc) as He;
      destruct (handleOptionValue a b d e f g w) as [u w1|e1 w1|x w1| |]
  end; simpl; try exact I.
  - destruct He as (v & Hcm & He). eexists. split; [|split; [|split]].
    + rewrite Hcm. apply lookup_insert_eq.
    + congruence.
    + apply X_assign; assumption.
    + apply env_may_write_after.
  - destruct He as [Hcm He]. exists c. rewrite Hcm. repeat split; try assumption; congruence.
  - destruct He as [Hcm He]. exists c. rewrite Hcm. repeat split; try assumption; congruence.
Qed.

Lemma emit_env_finally nm k val w :
  attr_of_name nm = Some k ->
  at_cmd this env0 (fun c => X c /\ env_may_write c k = true) w ->
  finally (emit this ("optionEnv:" ++ nm) val w) (at_cmd this env0 X).
Proof.
  intros Hk HI. pose proof HI as (c & Hc & Henv & HX & Hg).
  unfold emit. erewrite bind_Ok by (apply get_cmd_ok, Hc).
  assert (Hl : listeners c = listeners c0) by (apply X_shape, HX).
  rewrite Hl.
  assert (Hfin : finally
            (for_each (List.filter (listens ("optionEnv:" ++ nm)) (listeners c0))
               (fun entry => run_listener this (snd entry) val) w)
            (at_cmd this env0 (fun c => X c /\ env_may_write c k = true))).
  { apply for_each_finally; [|exact HI].
    intros entry w1 Hin Hw1.
    destruct (env_listener c0 nm entry Hwf Hin) as (index & attr & -> & Ha).
    rewrite Hk in Ha. injection Ha as <-.
    apply run_env_listener_finally, Hw1. }
  destruct (for_each _ _ w) as [u w1|e1 w1|x w1| |]; simpl in *; try exact I;
    destruct Hfin as (c1 & H1 & H2 & H3 & _); exists c1; auto.
Qed.

Lemma attributeName_name o k :
  OptMethods.attributeName o = Some k ->
  exists nm, OptMethods.name o = Some nm /\ attr_of_name nm = Some k.
Proof.
  unfold OptMethods.attributeName, attr_of_name.
  destruct (OptMethods.name o) as [nm|]; [|discriminate]. eauto.
Qed.

Lemma parseOptionEnv_finally o w :
  at_cmd this env0 X w ->
  finally (parseOptionEnv this o w) (at_cmd this env0 X).
Proof.
  intros HI. pose proof HI as (c & Hc & Henv & HX).
  unfold parseOptionEnv. erewrite bind_Ok by reflexivity.
  destruct (Opt.envVar o) as [var|]; [|exact HI].
  destruct (if Str.nonempty var then environ w !! var else None) as [value|];
    [|exact HI].
  destruct (OptMethods.attributeName o) as [k|] eqn:Hk; [|exact HI].
  erewrite bind_Ok by reflexivity.
  erewrite bind_Ok by (apply getOptionValue_ok, Hc).
  erewrite bind_Ok by (apply getOptionValueSource_ok, Hc).
  fold (value_of c k). fold (source_of c k). fold (env_may_write c k).
  destruct (env_may_write c k) eqn:Hg; [|exact HI].
  destruct (attributeName_name o k Hk) as (nm & Hnm & Ha). rewrite Hnm.
  erewrite bind_Ok by reflexivity.
  assert (HI' : at_cmd this env0 (fun c => X c /\ env_may_write c k = true) w)
    by (exists c; auto).
  destruct (Opt.required o || Opt.optional o);
    apply (emit_env_finally nm k _ w Ha HI').
Qed.

Lemma parseOptionsEnv_finally w :
  at_cmd this env0 X w ->
  finally (_parseOptionsEnv this w) (at_cmd this env0 X).
Proof.
  intros HI. pose proof HI as (c & Hc & _).
  unfold _parseOptionsEnv. erewrite bind_Ok by (apply get_cmd_ok, Hc).
  apply for_each_finally; [|exact HI].
  intros o w1 _ Hw1. apply parseOptionEnv_finally, Hw1.
Qed.

End Invariant.

Lemma for_each_app {A} (l1 l2 : list A) (body : A -> M unit) w :
  for_each (l1 ++ l2)%list body w = (for_each l1 body ;;; for_each l2 body) w.
Proof.
  revert w; induction l1 as [|x l1 IH]; intros w; simpl; [reflexivity|].
  unfold bind. destruct (body x w) as [[] w1| | | |]; try reflexivity.
  rewrite IH. reflexivity.
Qed.

Lemma includes_not_cli key c :
  source_of c key = VStr "cli" ->
  includes_str ["default"; "config"; "env"] (source_of c key) = false.
Proof. intros ->. reflexivity. Qed.

(** The three properties that the pass keeps. *)
Lemma keeps_assign c0 key :
  value_of c0 key <> VUndefined -> source_of c0 key = VStr "cli" ->
  forall k c v, keeps c0 key c -> env_may_write c k = true ->
                keeps c0 key (assign_value k v (VStr "env") c).
Proof.
  intros Hv Hs k c v (Hshape & Hval & Hsrc) Hg.
  destruct (String.eqb_spec k key) as [->|Hne].
  - exfalso. unfold env_may_write in Hg. rewrite Hval, Hsrc, Hs in Hg.
    apply is_undefined_false in Hv. rewrite Hv in Hg. discriminate Hg.
  - destruct (assign_value_other c k key v (VStr "env") Hne) as [H1 H2].
    split; [apply assign_value_shape, Hshape|]. split; congruence.
Qed.

Lemma env_or_below_assign c0 key :
  forall k c v, env_or_below c0 key c -> env_may_write c k = true ->
                env_or_below c0 key (assign_value k v (VStr "env") c).
Proof.
  intros k c v (Hshape & Hsrc) _. split; [apply assign_value_shape, Hshape|].
  destruct (String.eqb_spec k key) as [->|Hne].
  - rewrite assign_value_source. reflexivity.
  - destruct (assign_value_other c k key v (VStr "env") Hne) as [_ H2].
    rewrite H2. exact Hsrc.
Qed.

Lemma from_env_assign c0 key :
  forall k c v, from_env c0 key c -> env_may_write c k = true ->
                from_env c0 key (assign_value k v (VStr "env") c).
Proof.
  intros k c v (Hshape & Hsrc) _. split; [apply assign_value_shape, Hshape|].
  destruct (String.eqb_spec k key) as [->|Hne].
  - apply assign_value_source.
  - destruct (assign_value_other c k key v (VStr "env") Hne) as [_ H2].
    rewrite H2. exact Hsrc.
Qed.

(** The event of an option whose listener is registered leaves the source
    of its attribute at ["env"] when it returns. *)
Lemma emit_env_sets this env0 c0 nm key index val w :
  listeners_wf c0 ->
  attr_of_name nm = Some key ->
  In ("optionEnv:" ++ nm, OnOptionEnv index key) (listeners c0) ->
  at_cmd this env0 (same_shape c0) w ->
  on_return (emit this ("optionEnv:" ++ nm) val w) (at_cmd this env0 (from_env c0 key)).
Proof.
  intros Hwf Hk Hin HI. pose proof HI as (c & Hc & Henv & Hshape).
  unfold emit. erewrite bind_Ok by (apply get_cmd_ok, Hc).
  destruct Hshape as (_ & Hl & _). rewrite Hl.
  apply (for_each_establish _ _ (at_cmd this env0 (same_shape c0))).
  - intros entry w1 Hentry (c1 & Hc1 & Henv1 & Hshape1).
    destruct (env_listener c0 nm entry Hwf Hentry) as (i & attr & -> & Ha).
    rewrite Hk in Ha. injection Ha as <-.
    unfold run_listener. erewrite bind_Ok by (apply get_cmd_ok, Hc1).
    unfold option_at. destruct (options c1 !! i) as [o|]; [|exact I].
    erewrite bind_Ok by reflexivity.
    match goal with
    | |- context [handleOptionValue ?a ?b ?d ?e ?f ?g] =>
        pose proof (handleOptionValue_effect a b d e f g w1 c1 Hc1) as He;
        destruct (handleOptionValue a b d e f g w1) as [u w2|e1 w2|x w2| |]
    end; simpl; try exact I.
    destruct He as (v & Hcm & He). eexists. split; [|split; [|split]].
    + rewrite Hcm. apply lookup_insert_eq.
    + congruence.
    + apply assign_value_shape, Hshape1.
    + apply assign_value_source.
  - intros w1 (c1 & H1 & H2 & H3 & _). exists c1. auto.
  - intros Hnil.
    assert (Hf : In ("optionEnv:" ++ nm, OnOptionEnv index key)
                    (List.filter (listens ("optionEnv:" ++ nm)) (listeners c0))).
    { apply filter_In. split; [exact Hin|]. unfold listens. simpl.
      apply String.eqb_refl. }
    rewrite Hnil in Hf. destruct Hf.
  - exact HI.
Qed.

Lemma parseOptionEnv_sets this env0 c0 o var value key nm index w :
  listeners_wf c0 ->
  Opt.envVar o = Some var -> Str.nonempty var = true ->
  env0 !! var = Some value ->
  OptMethods.attributeName o = Some key -> OptMethods.name o = Some nm ->
  In ("optionEnv:" ++ nm, OnOptionEnv index key) (listeners c0) ->
  at_cmd this env0 (env_or_below c0 key) w ->
  on_return (parseOptionEnv this o w) (at_cmd this env0 (from_env c0 key)).
Proof.
  intros Hwf Hvar Hne Hval Hkey Hnm Hin (c & Hc & Henv & Hshape & Hsrc).
  unfold parseOptionEnv. erewrite bind_Ok by reflexivity.
  rewrite Hvar, Hne, Henv, Hval, Hkey.
  erewrite bind_Ok by reflexivity.
  erewrite bind_Ok by (apply getOptionValue_ok, Hc).
  erewrite bind_Ok by (apply getOptionValueSource_ok, Hc).
  fold (source_of c key). rewrite Hsrc, orb_true_r. rewrite Hnm.
  erewrite bind_Ok by reflexivity.
  assert (Ha : attr_of_name nm = Some key).
  { destruct (attributeName_name o key Hkey) as (nm' & Hnm' & Ha). congruence. }
  assert (HI : at_cmd this env0 (same_shape c0) w) by (exists c; auto).
  destruct (Opt.required o || Opt.optional o);
    apply (emit_env_sets this env0 c0 nm key index _ w Hwf Ha Hin HI).
Qed.

End EnvFacts.

(** ** The methods end *)

Module LiveFacts.
Import ValueFacts.

Lemma assign_value_fields k v s c :
  options (assign_value k v s c) = options c
  /\ listeners (assign_value k v s c) = listeners c
  /\ commands (assign_value k v s c) = commands c
  /\ helpCommand (assign_value k v s c) = helpCommand c.
Proof.
  unfold assign_value. destruct (_storeOptionsAsProperties c); repeat split; reflexivity.
Qed.

Section Live.

Variable this : nat.
Variable c0 : Command.
Variable D : list nat.
Hypothesis Hrange : listeners_in_range c0.


Lemma good_bind {A B} (m : M A) (k : A -> M B) (Q1 : A -> World -> Prop)
    (Q : B -> World -> Prop) w :
  good this c0 D Q1 (m w) ->
  (forall a w', live this c0 D w' -> Q1 a w' -> good this c0 D Q (k a w')) ->
  good this c0 D Q (bind m k w).
Proof.
  intros Hm Hk. unfold bind.
  destruct (m w) as [a w1| | | |]; simpl in *; try exact Hm.
  destruct Hm as [H1 H2]. apply Hk; assumption.
Qed.

Lemma safe_ret {A} (a : A) (Q : A -> Prop) : Q a -> safe this c0 D (ret a) Q.
Proof. intros H w Hw. split; assumption. Qed.

Lemma safe_ret_any {A} (a : A) : safe this c0 D (ret a) (fun _ => True).
Proof. apply safe_ret. exact I. Qed.

Lemma safe_bind {A B} (m : M A) (k : A -> M B) (Q1 : A -> Prop) (Q : B -> Prop) :
  safe this c0 D m Q1 -> (forall a, Q1 a -> safe this c0 D (k a) Q) ->
  safe this c0 D (bind m k) Q.
Proof.
  intros Hm Hk w Hw. eapply good_bind; [apply Hm, Hw|].
  intros a w' Hw' Ha. apply Hk; assumption.
Qed.

Lemma safe_bind_any {A B} (m : M A) (k : A -> M B) (Q : B -> Prop) :
  safe this c0 D m (fun _ => True) -> (forall a, safe this c0 D (k a) Q) ->
  safe this c0 D (bind m k) Q.
Proof. intros Hm Hk. apply (safe_bind _ _ _ _ Hm). intros a _. apply Hk. Qed.

Lemma safe_conseq {A} (m : M A) (Q1 Q2 : A -> Prop) :
  safe this c0 D m Q1 -> (forall a, Q1 a -> Q2 a) -> safe this c0 D m Q2.
Proof.
  intros H HQ w Hw. specialize (H w Hw).
  destruct (m w); simpl in *; try exact H. destruct H; auto.
Qed.

Lemma safe_any {A} (m : M A) (Q : A -> Prop) :
  safe this c0 D m Q -> safe this c0 D m (fun _ => True).
Proof. intros H. apply (safe_conseq _ _ _ H). auto. Qed.

Lemma safe_throw {A} x (Q : A -> Prop) : safe this c0 D (throw x) Q.
Proof. intros w _. exact I. Qed.

Lemma safe_exit {A} n c m (Q : A -> Prop) : safe this c0 D (exit_ n c m) Q.
Proof. intros w _. exact I. Qed.

Lemma safe_error {A} m c n (Q : A -> Prop) : safe this c0 D (error m c n) Q.
Proof. apply safe_exit. Qed.

Lemma safe_or_type_error {A} (o : option A) : safe this c0 D (or_type_error o) (fun _ => True).
Proof. destruct o; [apply safe_ret_any|apply safe_throw]. Qed.

Lemma safe_get_cmd : safe this c0 D (get_cmd this) (like c0).
Proof.
  intros w Hw. pose proof Hw as [(c & Hc & Hl & _) _].
  unfold get_cmd. rewrite Hc. split; assumption.
Qed.

Lemma safe_bind_cmd {B} (k : Command -> M B) (Q : B -> Prop) :
  (forall c, like c0 c -> safe this c0 D (k c) Q) -> safe this c0 D (bind (get_cmd this) k) Q.
Proof. intros H. exact (safe_bind _ _ _ _ safe_get_cmd H). Qed.

(** A subcommand is an object of the world. *)
Lemma safe_get_sub l : In l (commands c0) -> safe this c0 D (get_cmd l) (fun _ => True).
Proof.
  intros Hin w Hw. pose proof Hw as [(c & Hc & (_ & _ & Hs) & Hsub & _) _].
  rewrite <- Hs in Hin. destruct (Hsub l Hin) as [cl Hcl].
  unfold get_cmd. rewrite Hcl. split; [assumption|exact I].
Qed.

(** An assignment to a field that is none of those that [live] reads. *)
Lemma safe_modify (f : Command -> Command) :
  (forall c, options (f c) = options c /\ listeners (f c) = listeners c
             /\ commands (f c) = commands c /\ helpCommand (f c) = helpCommand c) ->
  safe this c0 D (modify_cmd this f) (fun _ => True).
Proof.
  intros Hf w Hw. pose proof Hw as [(c & Hc & (Ho & Hl & Hs) & Hsub & Hhelp) HD].
  unfold modify_cmd, bind, get_cmd. rewrite Hc. simpl.
  destruct (Hf c) as (Fo & Fl & Fs & Fh).
  split; [|exact I]. split; [|exact HD].
  exists (f c). split; [apply lookup_insert_eq|]. split.
  - repeat split; congruence.
  - split.
    + intros l Hin. rewrite Fs in Hin. apply lookup_insert_is_Some'. right.
      apply Hsub, Hin.
    + intros l Hh. rewrite Fh in Hh. apply lookup_insert_is_Some'. right.
      apply Hhelp, Hh.
Qed.

Lemma safe_get_array a : In a D -> safe this c0 D (get_array a) (fun _ => True).
Proof.
  intros Ha w Hw. pose proof Hw as [_ HD]. destruct (HD a Ha) as [l Hl].
  unfold get_array. rewrite Hl. split; [assumption|exact I].
Qed.

Lemma safe_put_array a l : safe this c0 D (put_array a l) (fun _ => True).
Proof.
  intros w [Hc HD]. simpl. split; [|exact I]. split; [exact Hc|].
  intros a' Ha'. apply lookup_insert_is_Some'. right. apply HD, Ha'.
Qed.

Lemma safe_fresh_tag : safe this c0 D fresh_tag (fun _ => True).
Proof. intros w Hw. split; [exact Hw|exact I]. Qed.

Lemma safe_get_env : safe this c0 D get_env (fun _ => True).
Proof. intros w Hw. split; [exact Hw|exact I]. Qed.

Lemma safe_for_each {A} (l : list A) (body : A -> M unit) :
  (forall x, In x l -> safe this c0 D (body x) (fun _ => True)) ->
  safe this c0 D (for_each l body) (fun _ => True).
Proof.
  induction l as [|x l IH]; intros Hb; simpl; [apply safe_ret_any|].
  apply safe_bind_any; [apply Hb; left; reflexivity|].
  intros _. apply IH. intros y Hy. apply Hb. right. exact Hy.
Qed.

Lemma safe_find_m {A} (p : A -> M bool) (l : list A) :
  (forall x, In x l -> safe this c0 D (p x) (fun _ => True)) ->
  safe this c0 D (find_m p l) (fun _ => True).
Proof.
  induction l as [|x l IH]; intros Hp; simpl; [apply safe_ret_any|].
  apply safe_bind_any; [apply Hp; left; reflexivity|].
  intros []; [apply safe_ret_any|]. apply IH. intros y Hy. apply Hp. right. exact Hy.
Qed.

Create HintDb safe discriminated.

#[local] Hint Resolve safe_ret_any safe_throw safe_exit safe_error
  safe_or_type_error safe_get_array safe_put_array safe_fresh_tag safe_get_env
  : safe.

(** One step of the proof that a method ends: a sequence, a loop, or a
    case analysis on what the method inspects. *)
Ltac sf_step :=
  match goal with
  | |- LiveSpec.safe _ _ _ (bind (get_cmd _) _) _ => apply safe_bind_cmd; intros ? ?
  | |- LiveSpec.safe _ _ _ (bind _ _) _ => apply safe_bind_any; [|intros ?]
  | |- LiveSpec.safe _ _ _ (for_each _ _) _ => apply safe_for_each; intros ? ?
  | |- LiveSpec.safe _ _ _ (find_m _ _) _ => apply safe_find_m; intros ? ?
  | |- LiveSpec.safe _ _ _ (match ?x with _ => _ end) _ => destruct x
  | |- LiveSpec.safe _ _ _ _ _ => solve [eauto with safe]
  end.

Ltac sf := repeat sf_step.

Lemma safe_push a xs : In a D -> safe this c0 D (push a xs) (fun _ => True).
Proof. intros Ha. unfold push. sf. Qed.

Lemma safe_shift a : In a D -> safe this c0 D (shift a) (fun _ => True).
Proof. intros Ha. unfold shift. sf. Qed.

Lemma safe_unshift a x : In a D -> safe this c0 D (unshift a x) (fun _ => True).
Proof. intros Ha. unfold unshift. sf. Qed.

Lemma safe_getOptionValue k : safe this c0 D (getOptionValue this k) (fun _ => True).
Proof. unfold getOptionValue. sf. Qed.

Lemma safe_getOptionValueSource k : safe this c0 D (getOptionValueSource this k) (fun _ => True).
Proof. unfold getOptionValueSource. sf. Qed.

Lemma safe_setOptionValueWithSource k v s :
  safe this c0 D (setOptionValueWithSource this k v s) (fun _ => True).
Proof. apply safe_modify. intros c. apply assign_value_fields. Qed.

Lemma safe_findOption arg : safe this c0 D (_findOption this arg) (fun _ => True).
Proof. unfold _findOption. sf. Qed.

Lemma safe_findCommand name : safe this c0 D (findCommand this name) (fun _ => True).
Proof.
  unfold findCommand. destruct name as [n|]; [|apply safe_ret_any].
  destruct (negb (Str.nonempty n)); [apply safe_ret_any|].
  apply safe_bind_cmd. intros c (_ & _ & Hs). rewrite Hs.
  apply safe_find_m. intros l Hl.
  apply safe_bind_any; [apply safe_get_sub, Hl|]. intros cl. apply safe_ret_any.
Qed.

#[local] Hint Resolve safe_push safe_shift safe_unshift safe_getOptionValue
  safe_getOptionValueSource safe_setOptionValueWithSource safe_findOption
  safe_findCommand : safe.

Lemma safe_callParseArg fn v p m : safe this c0 D (callParseArg fn v p m) (fun _ => True).
Proof. unfold callParseArg. sf. Qed.

#[local] Hint Resolve safe_callParseArg : safe.

Lemma safe_customProcessing o v old m : safe this c0 D (customProcessing o v old m) (fun _ => True).
Proof. unfold customProcessing. sf. Qed.

#[local] Hint Resolve safe_customProcessing : safe.

Lemma safe_option_at c index :
  like c0 c -> index < length (options c0) ->
  safe this c0 D (option_at c index) (fun _ => True).
Proof.
  intros (Ho & _) Hi. unfold option_at. rewrite Ho.
  destruct (lookup_lt_is_Some_2 _ _ Hi) as [o ->]. apply safe_ret_any.
Qed.

#[local] Hint Resolve safe_option_at : safe.

Lemma safe_handleOptionValue index name v m s :
  index < length (options c0) ->
  safe this c0 D (handleOptionValue this index name v m s) (fun _ => True).
Proof. intros Hi. unfold handleOptionValue. sf. Qed.

#[local] Hint Resolve safe_handleOptionValue : safe.

Lemma safe_run_listener ev l v :
  In (ev, l) (listeners c0) -> safe this c0 D (run_listener this l v) (fun _ => True).
Proof.
  intros Hin. pose proof (Hrange ev l Hin) as Hi.
  unfold run_listener. destruct l as [index name|index name|str]; sf.
Qed.

Lemma safe_emit ev v : safe this c0 D (emit this ev v) (fun _ => True).
Proof.
  unfold emit. apply safe_bind_cmd. intros c (_ & Hl & _). rewrite Hl.
  apply safe_for_each. intros [ev' l] Hin. apply filter_In in Hin as [Hin _].
  apply (safe_run_listener ev' l v Hin).
Qed.

#[local] Hint Resolve safe_emit : safe.

Lemma safe_emit_option o v : safe this c0 D (emit_option this o v) (fun _ => True).
Proof. unfold emit_option. sf. Qed.

Lemma safe_optionMissingArgument {A} o (Q : A -> Prop) :
  safe this c0 D (optionMissingArgument this o) Q.
Proof. unfold optionMissingArgument. apply safe_error. Qed.

#[local] Hint Resolve safe_emit_option safe_optionMissingArgument : safe.

Lemma safe_parseOptionEnv o : safe this c0 D (parseOptionEnv this o) (fun _ => True).
Proof. unfold parseOptionEnv. sf. Qed.

Lemma safe_parseOptionsEnv : safe this c0 D (_parseOptionsEnv this) (fun _ => True).
Proof.
  unfold _parseOptionsEnv. apply safe_bind_cmd. intros c _.
  apply safe_for_each. intros o _. apply safe_parseOptionEnv.
Qed.

(** *** The help command *)

Lemma live_insert_other w l (h : Command) :
  live this c0 D w -> l <> this ->
  live this c0 D (set_cmds (<[l := h]> (cmds w)) w).
Proof.
  intros [(c & Hc & Hl & Hsub & Hhelp) HD] Hne. split; [|exact HD].
  exists c. split; [simpl; rewrite lookup_insert_ne by exact Hne; exact Hc|].
  split; [exact Hl|]. split.
  - intros l' Hin. simpl. apply lookup_insert_is_Some'. right. apply Hsub, Hin.
  - intros l' Hh. simpl. apply lookup_insert_is_Some'. right. apply Hhelp, Hh.
Qed.

(** [helpCommand(...)]: a new command becomes the help command. *)
Lemma help_good (h : Command) (arg : Arg.Argument) w :
  live this c0 D w ->
  good this c0 D (fun _ _ => True)
    ((helpCommand <- alloc_cmd h ;;
      addArgument helpCommand arg ;;;
      modify_cmd this (fun c =>
        set_helpCommand (Some helpCommand) (set_addImplicitHelpCommand (Some true) c))) w).
Proof.
  intros Hw. pose proof Hw as [(c & Hc & Hl & Hsub & Hhelp) HD].
  unfold bind at 1. unfold alloc_cmd.
  set (l := fresh (dom (cmds w))).
  assert (Hfresh : cmds w !! l = None) by (apply not_elem_of_dom, is_fresh).
  assert (Hne : l <> this) by congruence.
  set (w1 := set_cmds (<[l := h]> (cmds w)) w).
  assert (Hw1 : live this c0 D w1) by (apply live_insert_other; assumption).
  assert (Hl1 : cmds w1 !! l = Some h) by apply lookup_insert_eq.
  unfold addArgument. unfold bind at 1. unfold bind at 1.
  rewrite (get_cmd_ok _ _ _ Hl1).
  destruct (match list.last (registeredArguments h) with
            | Some p => Arg.variadic p
            | None => false
            end); [exact I|].
  destruct (Arg.required arg && negb (is_undefined (Arg.defaultValue arg))
            && match Arg.parseArg arg with Some _ => false | None => true end);
    [exact I|].
  unfold put_cmd.
  set (h' := set_registeredArguments (registeredArguments h ++ [arg])%list h).
  set (w2 := set_cmds (<[l := h']> (cmds w1)) w1).
  assert (Hw2 : live this c0 D w2) by (apply live_insert_other; assumption).
  destruct Hw2 as [(c2 & Hc2 & (Ho2 & Hl2 & Hs2) & Hsub2 & Hhelp2) HD2].
  unfold modify_cmd, bind. rewrite (get_cmd_ok _ _ _ Hc2). simpl.
  split; [|exact I]. split; [|exact HD2].
  eexists. split; [apply lookup_insert_eq|]. split.
  - repeat split; assumption.
  - split.
    + intros l' Hin. simpl in Hin. apply lookup_insert_is_Some'. right.
      apply Hsub2, Hin.
    + intros l' Hh. simpl in Hh. injection Hh as <-.
      apply lookup_insert_is_Some'. right. exists h'. apply lookup_insert_eq.
Qed.

Lemma safe_defaultHelpCommand : safe this c0 D (defaultHelpCommand this) (fun _ => True).
Proof. intros w Hw. apply help_good, Hw. Qed.

(** The help command that [_getHelpCommand] returns is an object of the
    world. *)
Lemma getHelpCommand_good w :
  live this c0 D w ->
  good this c0 D (fun h w' => forall l, h = Some l -> is_Some (cmds w' !! l))
    (_getHelpCommand this w).
Proof.
  intros Hw. unfold _getHelpCommand.
  eapply good_bind; [apply safe_get_cmd, Hw|]. intros c w1 Hw1 _.
  eapply good_bind.
  { assert (H : safe this c0 D
                  (match addImplicitHelpCommand c with
                   | Some b => ret b
                   | None =>
                       if negb (Nat.eqb (length (commands c)) 0) && negb (_actionHandler c)
                       then found <- findCommand this (Some "help") ;;
                            ret (match found with Some _ => false | None => true end)
                       else ret false
                   end) (fun _ => True)) by sf.
    apply H, Hw1. }
  intros has w2 Hw2 _. destruct has.
  - eapply good_bind.
    { assert (H : safe this c0 D
                    (match helpCommand c with
                     | None => defaultHelpCommand this
                     | Some _ => ret tt
                     end) (fun _ => True)).
      { destruct (helpCommand c); [apply safe_ret_any|apply safe_defaultHelpCommand]. }
      apply H, Hw2. }
    intros _ w3 Hw3 _.
    pose proof Hw3 as [(c3 & Hc3 & _ & _ & Hhelp3) _].
    unfold bind. rewrite (get_cmd_ok _ _ _ Hc3). split; [exact Hw3|exact Hhelp3].
  - split; [exact Hw2|]. intros l Hl. discriminate Hl.
Qed.

(** The test [arg === this._getHelpCommand()?.name()]. *)
Lemma safe_help {B} (arg : string) (k : bool -> M B) (Q : B -> Prop) :
  (forall b, safe this c0 D (k b) Q) ->
  safe this c0 D
    (h <- _getHelpCommand this ;;
     isHelp <- (match h with
                | Some l => hc <- get_cmd l ;; ret (String.eqb arg (_name hc))
                | None => ret false
                end) ;;
     k isHelp) Q.
Proof.
  intros Hk w Hw. eapply good_bind; [apply getHelpCommand_good, Hw|].
  intros h w1 Hw1 Hh. destruct h as [l|].
  - destruct (Hh l eq_refl) as [hc Hhc].
    unfold bind at 1. unfold bind at 1. rewrite (get_cmd_ok _ _ _ Hhc).
    apply Hk, Hw1.
  - apply Hk, Hw1.
Qed.

(** *** The loop of the token parser *)

Lemma lv_in_set_active lv o : lv_in D lv -> lv_in D (set_active o lv).
Proof. intros H. exact H. Qed.

Lemma lv_in_set_dest lv : lv_in D lv -> lv_in D (set_dest (unknown_ lv) lv).
Proof. intros (Ha & Ho & Hu & Hd). repeat split; assumption. Qed.

Lemma safe_continue lv : lv_in D lv -> safe this c0 D (ret (Some lv)) (next_in D).
Proof. intros H. apply safe_ret. exact H. Qed.

Lemma safe_leave : safe this c0 D (ret None) (next_in D).
Proof. apply safe_ret. exact I. Qed.

#[local] Hint Resolve lv_in_set_active lv_in_set_dest safe_continue safe_leave : safe.

Lemma safe_route_token lv arg :
  lv_in D lv -> safe this c0 D (route_token this lv arg) (next_in D).
Proof.
  intros Hlv. unfold route_token.
  assert (Hlv' : lv_in D (if maybeOption arg then set_dest (unknown_ lv) lv else lv)).
  { destruct (maybeOption arg); [apply lv_in_set_dest|]; exact Hlv. }
  revert Hlv'. generalize (if maybeOption arg then set_dest (unknown_ lv) lv else lv).
  clear Hlv lv. intros lv Hlv. pose proof Hlv as (Ha & Ho & Hu & Hd).
  apply safe_bind_cmd. intros c Hc.
  apply safe_bind_any; [sf|]. intros ops.
  apply safe_bind_any; [sf|]. intros unk.
  apply safe_bind_any.
  - destruct ((_enablePositionalOptions c || _passThroughOptions c)
              && Nat.eqb (length ops) 0 && Nat.eqb (length unk) 0); [|sf].
    apply safe_bind_any; [sf|]. intros [sub|]; [sf|].
    apply safe_help. intros isHelp. sf.
  - intros stop. sf.
Qed.

Lemma safe_recognised lv o :
  lv_in D lv -> safe this c0 D (recognised this lv o) (next_in D).
Proof.
  intros Hlv. pose proof Hlv as (Ha & Ho & Hu & Hd). unfold recognised.
  apply safe_bind_any; [sf|]. intros _. sf.
Qed.

(** What a branch that may pass the token on leaves. *)
Lemma safe_combo lv c rest :
  lv_in D lv ->
  safe this c0 D (combo this lv c rest)
    (fun r => match r with Some next => next_in D next | None => True end).
Proof.
  intros Hlv. pose proof Hlv as (Ha & Ho & Hu & Hd). unfold combo.
  apply safe_bind_any; [sf|]. intros [o|]; [|apply safe_ret; exact I].
  apply safe_bind_cmd. intros cc Hcc.
  apply safe_bind_any; [sf|]. intros _. apply safe_ret. exact Hlv.
Qed.

Lemma safe_long_equals lv flag value :
  lv_in D lv ->
  safe this c0 D (long_equals this lv flag value)
    (fun r => match r with Some next => next_in D next | None => True end).
Proof.
  intros Hlv. unfold long_equals.
  apply safe_bind_any; [sf|]. intros [o|]; [|apply safe_ret; exact I].
  destruct (Opt.required o || Opt.optional o); [|apply safe_ret; exact I].
  apply safe_bind_any; [sf|]. intros _. apply safe_ret. exact Hlv.
Qed.

Lemma safe_iteration lv arg :
  lv_in D lv -> safe this c0 D (iteration this lv arg) (next_in D).
Proof.
  intros Hlv. pose proof Hlv as (Ha & Ho & Hu & Hd).
  assert (Hrest :
    safe this c0 D
      (found <- (if maybeOption arg then _findOption this arg else ret None) ;;
       match found with
       | Some option => recognised this (set_active None lv) option
       | None =>
           r1 <- (match short_cluster arg with
                  | Some (c, rest) => combo this (set_active None lv) c rest
                  | None => ret None
                  end) ;;
           match r1 with
           | Some next => ret next
           | None =>
               r2 <- (match long_with_value arg with
                      | Some (flag, value) =>
                          long_equals this (set_active None lv) flag value
                      | None => ret None
                      end) ;;
               match r2 with
               | Some next => ret next
               | None => route_token this (set_active None lv) arg
               end
           end
       end) (next_in D)).
  { apply safe_bind_any; [sf|]. intros [o|]; [apply safe_recognised, Hlv|].
    eapply safe_bind.
    { destruct (short_cluster arg) as [[c rest]|];
        [apply safe_combo, Hlv|apply safe_ret; exact I]. }
    intros [next|] Hnext; [apply safe_ret, Hnext|].
    eapply safe_bind.
    { destruct (long_with_value arg) as [[flag value]|];
        [apply safe_long_equals, Hlv|apply safe_ret; exact I]. }
    intros [next|] Hnext2; [apply safe_ret, Hnext2|].
    apply safe_route_token, Hlv. }
  unfold iteration. destruct (String.eqb arg "--"); [sf|].
  destruct (activeVariadicOption lv) as [v|]; [destruct (maybeOption arg)|].
  - exact Hrest.
  - sf.
  - exact Hrest.
Qed.

(** The loop is never stuck; it ends when the fuel suffices. *)
Lemma loop_not_stuck fuel :
  forall lv w, lv_in D lv -> live this c0 D w -> loop fuel this lv w <> Stuck.
Proof.
  induction fuel as [|fuel IH]; intros lv w Hlv Hw; [discriminate|].
  simpl. pose proof Hlv as (Ha & _).
  pose proof (safe_shift (args_ lv) Ha w Hw) as Hs.
  unfold bind at 1. destruct (shift (args_ lv) w) as [next w1| | | |];
    simpl in Hs; try discriminate; try contradiction.
  destruct Hs as [Hw1 _]. destruct next as [arg|]; [|discriminate].
  pose proof (safe_iteration lv arg Hlv w1 Hw1) as Hi.
  unfold bind. destruct (iteration this lv arg w1) as [r w2| | | |];
    simpl in Hi; try discriminate; try contradiction.
  destruct Hi as [Hw2 Hr]. destruct r as [lv'|]; [|discriminate].
  apply IH; assumption.
Qed.

End Live.

(** [parseOptions] is never stuck: its three arrays are new objects that
    stay in the world. *)
Lemma parseOptions_not_stuck this argv w c tokens :
  cmds w !! this = Some c -> listeners_in_range c -> refs_in w c ->
  arrays w !! argv = Some tokens ->
  parseOptions this argv w <> Stuck.
Proof.
  intros Hc Hrange Hrefs Hargv. unfold parseOptions.
  unfold bind at 1. unfold alloc_array at 1.
  pose proof (is_fresh (dom (arrays w))) as Ho.
  apply not_elem_of_dom in Ho.
  generalize dependent (fresh (dom (arrays w))). intros operands Ho.
  set (w1 := set_arrays (<[operands := []]> (arrays w)) w).
  unfold bind at 1. unfold alloc_array at 1.
  pose proof (is_fresh (dom (arrays w1))) as Hu.
  apply not_elem_of_dom in Hu.
  generalize dependent (fresh (dom (arrays w1))). intros unknown Hu.
  set (w2 := set_arrays (<[unknown := []]> (arrays w1)) w1).
  assert (Hargv1 : arrays w1 !! argv = Some tokens).
  { unfold w1. simpl. rewrite lookup_insert_ne; [exact Hargv|]. congruence. }
  assert (Hargv2 : arrays w2 !! argv = Some tokens).
  { unfold w2. simpl. rewrite lookup_insert_ne; [exact Hargv1|]. congruence. }
  unfold bind at 1. unfold get_array at 1. rewrite Hargv2.
  unfold bind at 1. unfold alloc_array at 1.
  generalize (fresh (dom (arrays w2))). intros args.
  set (w3 := set_arrays (<[args := tokens]> (arrays w2)) w2).
  set (lv := {| args_ := args; operands_ := operands; unknown_ := unknown;
                dest_ := operands; activeVariadicOption := None |}).
  assert (Hlive : live this c [args; operands; unknown] w3).
  { split.
    - exists c. split; [exact Hc|]. split; [repeat split|exact Hrefs].
    - intros a Ha. unfold w3, w2, w1. simpl.
      rewrite !lookup_insert_is_Some'. simpl in Ha. tauto. }
  assert (Hlv : lv_in [args; operands; unknown] lv).
  { unfold lv_in, lv. simpl. tauto. }
  pose proof (loop_not_stuck this c [args; operands; unknown] Hrange
                (iterations tokens) lv w3 Hlv Hlive) as Hloop.
  unfold bind. destruct (loop (iterations tokens) this lv w3); try discriminate.
  contradiction.
Qed.

(** The environment pass ends. *)
Lemma parseOptionsEnv_ends this w c :
  cmds w !! this = Some c -> listeners_in_range c -> refs_in w c ->
  ends (_parseOptionsEnv this w).
Proof.
  intros Hc Hrange Hrefs.
  assert (Hlive : live this c [] w).
  { split.
    - exists c. split; [exact Hc|]. split; [repeat split|exact Hrefs].
    - intros a []. }
  pose proof (safe_parseOptionsEnv this c [] Hrange w Hlive) as H.
  destruct (_parseOptionsEnv this w); simpl in *; auto.
Qed.

End LiveFacts.

Module EnvValueFacts.
Import ValueFacts EnvFacts.

(** The priority check lets the environment write again what it wrote. *)
Lemma may_write_assign c0 key :
  forall k c v,
    same_shape c0 c /\ env_may_write c key = true ->
    env_may_write c k = true ->
    same_shape c0 (assign_value k v (VStr "env") c)
    /\ env_may_write (assign_value k v (VStr "env") c) key = true.
Proof.
  intros k c v [Hshape Hg] _. split; [apply assign_value_shape, Hshape|].
  destruct (String.eqb_spec k key) as [->|Hne].
  - apply env_may_write_after.
  - destruct (assign_value_other c k key v (VStr "env") Hne) as [H1 H2].
    unfold env_may_write. rewrite H1, H2. exact Hg.
Qed.

Lemma holds_env_assign c0 key v k c v' :
  k <> key -> holds_env c0 key v c ->
  holds_env c0 key v (assign_value k v' (VStr "env") c).
Proof.
  intros Hne (Hshape & Hv & Hs).
  destruct (assign_value_other c k key v' (VStr "env") Hne) as [H1 H2].
  split; [apply assign_value_shape, Hshape|]. split; congruence.
Qed.

Section InvariantAt.

Variable this : nat.
Variable env0 : gmap string string.
Variable c0 : Command.
Hypothesis Hwf : listeners_wf c0.

(** A property of the command that the assignments under [k] keep. *)
Variable k : string.
Variable X : Command -> Prop.
Hypothesis X_shape : forall c, X c -> same_shape c0 c.
Hypothesis X_assign : forall c v, X c -> X (assign_value k v (VStr "env") c).

Lemma run_env_listener_at index val w :
  at_cmd this env0 X w ->
  finally (run_listener this (OnOptionEnv index k) val w) (at_cmd this env0 X).
Proof.
  intros (c & Hc & Henv & HX). unfold run_listener.
  erewrite bind_Ok by (apply get_cmd_ok, Hc).
  unfold option_at. destruct (options c !! index) as [o|]; [|exact I].
  erewrite bind_Ok by reflexivity.
  match goal with
  | |- context [handleOptionValue ?a ?b ?d ?e ?f ?g] =>
      pose proof (handleOptionValue_effect a b d e f g w c Hc) as He;
      destruct (handleOptionValue a b d e f g w) as [u w1|e1 w1|x w1| |]
  end; simpl; try exact I.
  - destruct He as (v & Hcm & He). eexists. split; [|split].
    + rewrite Hcm. apply lookup_insert_eq.
    + congruence.
    + apply X_assign; assumption.
  - destruct He as [Hcm He]. exists c. rewrite Hcm. repeat split; try assumption; congruence.
  - destruct He as [Hcm He]. exists c. rewrite Hcm. repeat split; try assumption; congruence.
Qed.

Lemma emit_env_at nm val w :
  attr_of_name nm = Some k ->
  at_cmd this env0 X w ->
  finally (emit this ("optionEnv:" ++ nm) val w) (at_cmd this env0 X).
Proof.
  intros Hk HI. pose proof HI as (c & Hc & Henv & HX).
  unfold emit. erewrite bind_Ok by (apply get_cmd_ok, Hc).
  assert (Hl : listeners c = listeners c0) by (apply X_shape, HX).
  rewrite Hl.
  apply for_each_finally; [|exact HI].
  intros entry w1 Hin Hw1.
  destruct (env_listener c0 nm entry Hwf Hin) as (index & attr & -> & Ha).
  rewrite Hk in Ha. injection Ha as <-.
  apply run_env_listener_at, Hw1.
Qed.

Lemma parseOptionEnv_at o w :
  OptMethods.attributeName o = Some k ->
  at_cmd this env0 X w ->
  finally (parseOptionEnv this o w) (at_cmd this env0 X).
Proof.
  intros Hk HI. pose proof HI as (c & Hc & Henv & HX).
  unfold parseOptionEnv. erewrite bind_Ok by reflexivity.
  destruct (Opt.envVar o) as [var|]; [|exact HI].
  destruct (if Str.nonempty var then environ w !! var else None) as [value|];
    [|exact HI].
  rewrite Hk.
  erewrite bind_Ok by reflexivity.
  erewrite bind_Ok by (apply getOptionValue_ok, Hc).
  erewrite bind_Ok by (apply getOptionValueSource_ok, Hc).
  fold (value_of c k). fold (source_of c k). fold (env_may_write c k).
  destruct (env_may_write c k) eqn:Hg; [|exact HI].
  destruct (attributeName_name o k Hk) as (nm & Hnm & Ha). rewrite Hnm.
  erewrite bind_Ok by reflexivity.
  destruct (Opt.required o || Opt.optional o);
    apply (emit_env_at nm _ w Ha HI).
Qed.

End InvariantAt.

(** An option that is not bound to a variable that is present is passed
    over. *)
Lemma parseOptionEnv_absent this o w :
  env_present (environ w) o = false ->
  parseOptionEnv this o w = Ok tt w.
Proof.
  intros Hp. unfold parseOptionEnv. erewrite bind_Ok by reflexivity.
  unfold env_present in Hp.
  destruct (Opt.envVar o) as [var|]; [|reflexivity].
  destruct (Str.nonempty var); [|reflexivity].
  destruct (environ w !! var) as [value|]; [|reflexivity].
  cbn [andb] in Hp. rewrite bool_decide_eq_false in Hp.
  exfalso. apply Hp. eauto.
Qed.

(** An option that is stored under another name, or under none, leaves
    what the environment wrote under [key]. *)
Lemma parseOptionEnv_other this env0 c0 key v o w :
  listeners_wf c0 ->
  OptMethods.attributeName o <> Some key ->
  at_cmd this env0 (holds_env c0 key v) w ->
  finally (parseOptionEnv this o w) (at_cmd this env0 (holds_env c0 key v)).
Proof.
  intros Hwf Hne HI.
  destruct (OptMethods.attributeName o) as [k|] eqn:Hk.
  - apply (parseOptionEnv_at this env0 c0 Hwf k (holds_env c0 key v)
             (fun c1 H => proj1 H)); [|exact Hk|exact HI].
    intros c1 v' H1. apply holds_env_assign; [congruence|exact H1].
  - unfold parseOptionEnv. erewrite bind_Ok by reflexivity.
    destruct (Opt.envVar o) as [var|]; [|exact HI].
    destruct (if Str.nonempty var then environ w !! var else None) as [value|];
      [|exact HI].
    rewrite Hk. exact HI.
Qed.

(** The round of an option without parser that is not variadic, whose
    event has the one listener that [addOption] registered. *)
Lemma parseOptionEnv_stores this w c0 c1 o index var value key nm :
  cmds w !! this = Some c1 -> same_shape c0 c1 ->
  options c0 !! index = Some o ->
  Opt.envVar o = Some var -> Str.nonempty var = true ->
  environ w !! var = Some value ->
  OptMethods.attributeName o = Some key -> OptMethods.name o = Some nm ->
  Opt.parseArg o = None -> Opt.variadic o = false ->
  List.filter (listens ("optionEnv:" ++ nm)) (listeners c0)
  = [(("optionEnv:" ++ nm)%string, OnOptionEnv index key)] ->
  env_may_write c1 key = true ->
  parseOptionEnv this o w
  = Ok tt (with_cmd this (assign_value key (env_value o value) (VStr "env") c1) w).
Proof.
  intros Hc (Hopts & Hls & _) Hidx Hvar Hne Hval Hkey Hnm Hparser Hvariadic Hl Hg.
  unfold parseOptionEnv. erewrite bind_Ok by reflexivity. cbn beta iota.
  rewrite Hvar, Hne, Hval, Hkey.
  erewrite bind_Ok by reflexivity. cbn beta iota.
  erewrite bind_Ok by (apply getOptionValue_ok, Hc). cbn beta iota.
  erewrite bind_Ok by (apply getOptionValueSource_ok, Hc). cbn beta iota.
  fold (value_of c1 key). fold (source_of c1 key). fold (env_may_write c1 key).
  rewrite Hg, Hnm.
  erewrite bind_Ok by reflexivity. cbn beta iota.
  assert (Hemit : forall val,
            emit this ("optionEnv:" ++ nm) val w
            = Ok tt (with_cmd this
                       (assign_value key (stored_plain o val) (VStr "env") c1) w)).
  { intros val. unfold emit. erewrite bind_Ok by (apply get_cmd_ok, Hc). cbn beta iota.
    rewrite Hls, Hl. cbn [for_each snd].
    assert (Hat : option_at c1 index w = Ok o w).
    { unfold option_at. rewrite Hopts, Hidx. reflexivity. }
    unfold run_listener.
    erewrite bind_Ok.
    2:{ erewrite bind_Ok by (apply get_cmd_ok, Hc). cbn beta iota.
        erewrite bind_Ok by exact Hat. cbn beta iota.
        unfold handleOptionValue.
        erewrite bind_Ok by (apply get_cmd_ok, Hc). cbn beta iota.
        erewrite bind_Ok by exact Hat. cbn beta iota zeta.
        erewrite bind_Ok by (apply getOptionValue_ok, Hc). cbn beta iota.
        unfold customProcessing. rewrite Hparser, Hvariadic.
        erewrite bind_Ok.
        2:{ match goal with
            | |- (if ?b then _ else _) _ = _ => destruct b; reflexivity
            end. }
        cbn beta iota.
        apply (setOptionValueWithSource_ok this key _ _ _ c1 Hc). }
    reflexivity. }
  unfold env_value. destruct (Opt.required o || Opt.optional o); apply Hemit.
Qed.

End EnvValueFacts.

Module EnvClaims.
Import ValueFacts EnvFacts LiveFacts EnvValueFacts.



(** The pass of that scenario returns: the attribute holds the string of
    the variable. *)
Example env_value_replaces_default :
  returned ((_parseOptionsEnv 0 ;;;
             value <- getOptionValue 0 "port" ;;
             source <- getOptionValueSource 0 "port" ;;
             ret (value, source)) port_world)
  = Some (VStr "9000", VStr "env").
Proof. vm_compute. reflexivity. Qed.


End EnvClaims.

(** ** The arrays of the token parser *)

Module ArrayFacts.
Import ValueFacts.

Lemma ka_ret {A} (a : A) : keeps_arrays (ret a).
Proof. intros w. reflexivity. Qed.

Lemma ka_bind {A B} (m : M A) (k : A -> M B) :
  keeps_arrays m -> (forall a, keeps_arrays (k a)) -> keeps_arrays (bind m k).
Proof.
  intros Hm Hk w. unfold bind. specialize (Hm w).
  destruct (m w) as [a w1| | | |]; auto.
  specialize (Hk a w1). destruct (k a w1); auto; congruence.
Qed.

Lemma ka_throw {A} x : keeps_arrays (@throw A x).
Proof. intros w. reflexivity. Qed.

Lemma ka_stuck {A} : keeps_arrays (@stuck A).
Proof. intros w. exact I. Qed.

Lemma ka_exit {A} n c m : keeps_arrays (@exit_ A n c m).
Proof. intros w. reflexivity. Qed.

Lemma ka_error {A} m c n : keeps_arrays (@error A m c n).
Proof. apply ka_exit. Qed.

Lemma ka_get_cmd l : keeps_arrays (get_cmd l).
Proof. intros w. unfold get_cmd. destruct (cmds w !! l); [reflexivity|exact I]. Qed.

Lemma ka_put_cmd l c : keeps_arrays (put_cmd l c).
Proof. intros w. reflexivity. Qed.

Lemma ka_alloc_cmd c : keeps_arrays (alloc_cmd c).
Proof. intros w. reflexivity. Qed.

Lemma ka_fresh_tag : keeps_arrays fresh_tag.
Proof. intros w. reflexivity. Qed.

Lemma ka_get_env : keeps_arrays get_env.
Proof. intros w. reflexivity. Qed.

Lemma ka_or_type_error {A} (o : option A) : keeps_arrays (or_type_error o).
Proof. destruct o; [apply ka_ret|apply ka_throw]. Qed.

Lemma ka_for_each {A} (l : list A) (body : A -> M unit) :
  (forall x, keeps_arrays (body x)) -> keeps_arrays (for_each l body).
Proof.
  intros Hb. induction l as [|x l IH]; simpl; [apply ka_ret|].
  apply ka_bind; [apply Hb|intros _; exact IH].
Qed.

Lemma ka_find_m {A} (p : A -> M bool) (l : list A) :
  (forall x, keeps_arrays (p x)) -> keeps_arrays (find_m p l).
Proof.
  intros Hp. induction l as [|x l IH]; simpl; [apply ka_ret|].
  apply ka_bind; [apply Hp|intros []; [apply ka_ret|exact IH]].
Qed.

Create HintDb ka discriminated.

#[export] Hint Resolve ka_ret ka_throw ka_stuck ka_exit ka_error ka_get_cmd
  ka_put_cmd ka_alloc_cmd ka_fresh_tag ka_get_env ka_or_type_error : ka.

(** One step of the proof that a method keeps the arrays: a sequence, a
    loop, or a case analysis on what the method inspects. *)
Ltac ka_step :=
  match goal with
  | |- keeps_arrays (bind _ _) => apply ka_bind; [|intros ?]
  | |- keeps_arrays (for_each _ _) => apply ka_for_each; intros ?
  | |- keeps_arrays (find_m _ _) => apply ka_find_m; intros ?
  | |- keeps_arrays (match ?x with _ => _ end) => destruct x
  | |- keeps_arrays _ => solve [auto with ka]
  end.

Ltac ka := repeat ka_step.

Lemma ka_modify_cmd l f : keeps_arrays (modify_cmd l f).
Proof. unfold modify_cmd. ka. Qed.

Lemma ka_getOptionValue l k : keeps_arrays (getOptionValue l k).
Proof. unfold getOptionValue. ka. Qed.

Lemma ka_getOptionValueSource l k : keeps_arrays (getOptionValueSource l k).
Proof. unfold getOptionValueSource. ka. Qed.

Lemma ka_setOptionValueWithSource l k v s :
  keeps_arrays (setOptionValueWithSource l k v s).
Proof. apply ka_modify_cmd. Qed.

Lemma ka_findOption l arg : keeps_arrays (_findOption l arg).
Proof. unfold _findOption. ka. Qed.

Lemma ka_findCommand l n : keeps_arrays (findCommand l n).
Proof. unfold findCommand. ka. Qed.

#[export] Hint Resolve ka_modify_cmd ka_getOptionValue ka_getOptionValueSource
  ka_setOptionValueWithSource ka_findOption ka_findCommand : ka.

Lemma ka_callParseArg fn v p m : keeps_arrays (callParseArg fn v p m).
Proof. unfold callParseArg. ka. Qed.

#[export] Hint Resolve ka_callParseArg : ka.

Lemma ka_customProcessing o v old m : keeps_arrays (customProcessing o v old m).
Proof. unfold customProcessing. ka. Qed.

#[export] Hint Resolve ka_customProcessing : ka.

Lemma ka_handleOptionValue l i n v m s : keeps_arrays (handleOptionValue l i n v m s).
Proof. unfold handleOptionValue, option_at. ka. Qed.

#[export] Hint Resolve ka_handleOptionValue : ka.

Lemma ka_run_listener l x v : keeps_arrays (run_listener l x v).
Proof. unfold run_listener, option_at. ka. Qed.

#[export] Hint Resolve ka_run_listener : ka.

Lemma ka_emit l ev v : keeps_arrays (emit l ev v).
Proof. unfold emit. ka. Qed.

#[export] Hint Resolve ka_emit : ka.

Lemma ka_emit_option l o v : keeps_arrays (emit_option l o v).
Proof. unfold emit_option. ka. Qed.

Lemma ka_optionMissingArgument {A} l o : keeps_arrays (@optionMissingArgument A l o).
Proof. unfold optionMissingArgument. ka. Qed.

Lemma ka_addArgument l a : keeps_arrays (addArgument l a).
Proof. unfold addArgument. ka. Qed.

#[export] Hint Resolve ka_emit_option ka_optionMissingArgument ka_addArgument : ka.

Lemma ka_getHelpCommand l : keeps_arrays (_getHelpCommand l).
Proof. unfold _getHelpCommand, defaultHelpCommand. ka. Qed.

#[export] Hint Resolve ka_getHelpCommand : ka.

(** *** Rules for [aspec] *)

Lemma aspec_ret {T} (a : T) A Q R : Q a A -> aspec (ret a) A Q R.
Proof. intros H w <-. exact H. Qed.

Lemma aspec_bind {T U} (m : M T) (k : T -> M U) A Q R :
  aspec m A (fun a A' => aspec (k a) A' Q R) R -> aspec (bind m k) A Q R.
Proof.
  intros H w Hw. specialize (H w Hw). unfold awp, bind in *.
  destruct (m w) as [a w1| | | |]; auto. apply (H w1 eq_refl).
Qed.

Lemma aspec_conseq {T} (m : M T) A (Q1 Q2 : T -> _ -> Prop) R :
  aspec m A Q1 R -> (forall a A', Q1 a A' -> Q2 a A') -> aspec m A Q2 R.
Proof.
  intros H HQ w Hw. specialize (H w Hw). unfold awp in *.
  destruct (m w); auto.
Qed.

Lemma aspec_keeps {T} (m : M T) A Q R :
  keeps_arrays m -> (forall a, Q a A) -> R A -> aspec m A Q R.
Proof.
  intros Hk HQ HR w <-. specialize (Hk w). unfold awp.
  destruct (m w); auto; rewrite Hk; auto.
Qed.

Lemma aspec_get_array a A Q R :
  (forall l, A !! a = Some l -> Q l A) -> aspec (get_array a) A Q R.
Proof.
  intros H w <-. unfold awp, get_array.
  destruct (arrays w !! a) as [l|]; [apply H; reflexivity|exact I].
Qed.

Lemma aspec_put_array a l A (Q : unit -> _ -> Prop) R :
  Q tt (<[a := l]> A) -> aspec (put_array a l) A Q R.
Proof. intros H w <-. exact H. Qed.

Lemma aspec_alloc_array l A Q R :
  (forall a, A !! a = None -> Q a (<[a := l]> A)) -> aspec (alloc_array l) A Q R.
Proof.
  intros H w <-. unfold awp, alloc_array. simpl. apply H.
  apply not_elem_of_dom. apply is_fresh.
Qed.

Lemma aspec_push a xs A (Q : unit -> _ -> Prop) R :
  (forall l, A !! a = Some l -> Q tt (<[a := (l ++ xs)%list]> A)) ->
  aspec (push a xs) A Q R.
Proof.
  intros H. unfold push. apply aspec_bind, aspec_get_array. intros l Hl.
  apply aspec_put_array, H, Hl.
Qed.

Lemma aspec_shift a A Q R :
  (forall l, A !! a = Some l ->
             match l with
             | [] => Q None A
             | x :: l' => Q (Some x) (<[a := l']> A)
             end) ->
  aspec (shift a) A Q R.
Proof.
  intros H. unfold shift. apply aspec_bind, aspec_get_array. intros l Hl.
  specialize (H l Hl). destruct l as [|x l'].
  - apply aspec_ret, H.
  - apply aspec_bind, aspec_put_array, aspec_ret, H.
Qed.

Lemma aspec_unshift a x A (Q : unit -> _ -> Prop) R :
  (forall l, A !! a = Some l -> Q tt (<[a := x :: l]> A)) ->
  aspec (unshift a x) A Q R.
Proof.
  intros H. unfold unshift. apply aspec_bind, aspec_get_array. intros l Hl.
  apply aspec_put_array, H, Hl.
Qed.

(** *** The invariant *)

Lemma frame_refl A : frame A A.
Proof. intros a l H. exact H. Qed.

Lemma frame_insert A0 A d (x : list string) :
  frame A0 A -> A0 !! d = None -> frame A0 (<[d := x]> A).
Proof.
  intros Hf Hd a l Ha. destruct (decide (d = a)) as [->|Hne]; [congruence|].
  rewrite lookup_insert_ne by exact Hne. apply Hf, Ha.
Qed.

Lemma loop_inv_frame A0 lv n A : loop_inv A0 lv n A -> frame A0 A.
Proof. intros [H _]. exact H. Qed.

(** A write to [operands], [unknown] or [dest]. *)
Lemma loop_inv_write A0 lv n A d x :
  loop_inv A0 lv n A ->
  d = dest_ lv \/ d = operands_ lv \/ d = unknown_ lv ->
  loop_inv A0 lv n (<[d := x]> A).
Proof.
  intros (Hf & Hok & Hw) Hd.
  pose proof Hok as (Ha & Ho & Hu & Hao & Hau & Hdest).
  assert (Hd' : d = operands_ lv \/ d = unknown_ lv)
    by (destruct Hd as [->|[->| ->]]; auto).
  assert (Hnone : A0 !! d = None) by (destruct Hd' as [->| ->]; assumption).
  assert (Hne : d <> args_ lv) by (destruct Hd' as [->| ->]; auto).
  split; [apply frame_insert; assumption|]. split; [exact Hok|].
  intros l Hl. rewrite lookup_insert_ne in Hl by exact Hne. apply Hw, Hl.
Qed.

(** A write to [args]. *)
Lemma loop_inv_args A0 lv n n' A l :
  loop_inv A0 lv n A -> weight l <= n' ->
  loop_inv A0 lv n' (<[args_ lv := l]> A).
Proof.
  intros (Hf & Hok & Hw) Hl.
  pose proof Hok as (Ha & _).
  split; [apply frame_insert; assumption|]. split; [exact Hok|].
  intros l' Hl'. rewrite lookup_insert_eq in Hl'. injection Hl' as <-. exact Hl.
Qed.

Lemma loop_inv_set_active A0 lv n A o :
  loop_inv A0 lv n A -> loop_inv A0 (set_active o lv) n A.
Proof. intros H. exact H. Qed.

Lemma loop_inv_set_dest A0 lv n A :
  loop_inv A0 lv n A -> loop_inv A0 (set_dest (unknown_ lv) lv) n A.
Proof.
  intros (Hf & (Ha & Ho & Hu & Hao & Hau & Hdest) & Hw).
  split; [exact Hf|]. split; [|exact Hw].
  unfold locals_ok. simpl. repeat split; auto.
Qed.

Lemma loop_inv_mono A0 lv n n' A : loop_inv A0 lv n A -> n <= n' -> loop_inv A0 lv n' A.
Proof.
  intros (Hf & Hok & Hw) Hle. split; [exact Hf|]. split; [exact Hok|].
  intros l Hl. specialize (Hw l Hl). lia.
Qed.

(** *** Rules for [ispec] *)

Section Invariant.

Variable A0 : gmap nat (list string).
Variable lv : Locals.
Variable n : nat.

Lemma ispec_ret {T} (a : T) (Q : T -> _ -> Prop) :
  (forall A, loop_inv A0 lv n A -> Q a A) -> ispec A0 lv n (ret a) Q.
Proof. intros H A HA. apply aspec_ret, H, HA. Qed.

Lemma ispec_bind {T U} (m : M T) (k : T -> M U) Q :
  ispec A0 lv n m (fun _ A' => loop_inv A0 lv n A') ->
  (forall a, ispec A0 lv n (k a) Q) ->
  ispec A0 lv n (bind m k) Q.
Proof.
  intros Hm Hk A HA. apply aspec_bind.
  eapply aspec_conseq; [apply Hm, HA|]. intros a A' HA'. apply Hk, HA'.
Qed.

Lemma ispec_keeps {T} (m : M T) :
  keeps_arrays m -> ispec A0 lv n m (fun _ A' => loop_inv A0 lv n A').
Proof.
  intros Hm A HA. apply aspec_keeps; [exact Hm|auto|apply (loop_inv_frame _ _ _ _ HA)].
Qed.

Lemma ispec_get_array a :
  ispec A0 lv n (get_array a) (fun _ A' => loop_inv A0 lv n A').
Proof. intros A HA. apply aspec_get_array. auto. Qed.

Lemma ispec_push d xs :
  d = dest_ lv \/ d = operands_ lv \/ d = unknown_ lv ->
  ispec A0 lv n (push d xs) (fun _ A' => loop_inv A0 lv n A').
Proof.
  intros Hd A HA. apply aspec_push. intros l _. apply loop_inv_write; assumption.
Qed.

Lemma ispec_if {T} (b : bool) (m1 m2 : M T) Q :
  ispec A0 lv n m1 Q -> ispec A0 lv n m2 Q ->
  ispec A0 lv n (if b then m1 else m2) Q.
Proof. destruct b; auto. Qed.

Lemma ispec_leave :
  ispec A0 lv n (ret None) (after_iteration A0 n).
Proof. apply ispec_ret. intros A HA. apply (loop_inv_frame _ _ _ _ HA). Qed.

Lemma ispec_continue :
  ispec A0 lv n (ret (Some lv)) (after_iteration A0 n).
Proof. apply ispec_ret. intros A HA. exact HA. Qed.

End Invariant.

Create HintDb ispec discriminated.

#[export] Hint Resolve ispec_keeps ispec_get_array ispec_push ispec_leave
  ispec_continue : ispec.

(** One step of the symbolic execution of a method under the invariant. *)
Ltac istep :=
  match goal with
  | |- ispec _ _ _ (bind _ _) _ => apply ispec_bind; [|intros ?]
  | |- ispec _ _ _ (if _ then _ else _) _ => apply ispec_if
  | |- ispec _ _ _ (match ?x with _ => _ end) _ => destruct x
  | |- ispec _ _ _ _ _ => solve [auto 6 with ispec ka]
  end.

Ltac isteps := repeat istep.

Lemma route_token_spec this A0 lv n arg :
  ispec A0 lv n (route_token this lv arg) (after_iteration A0 n).
Proof.
  unfold route_token.
  assert (Hlv : forall A, loop_inv A0 lv n A ->
                  loop_inv A0 (if maybeOption arg then set_dest (unknown_ lv) lv else lv) n A).
  { intros A HA. destruct (maybeOption arg); [apply loop_inv_set_dest|]; exact HA. }
  intros A HA. apply Hlv in HA. revert A HA.
  generalize (if maybeOption arg then set_dest (unknown_ lv) lv else lv).
  clear Hlv lv. intros lv.
  match goal with
  | |- forall A, loop_inv ?a ?l ?k A -> aspec ?m A ?Q _ => change (ispec a l k m Q)
  end.
  isteps.
Qed.

Lemma after_iteration_mono A0 n n' r A :
  after_iteration A0 n r A -> n <= n' -> after_iteration A0 n' r A.
Proof.
  destruct r as [lv'|]; simpl; [|auto]. intros H Hle. apply (loop_inv_mono _ _ _ _ _ H Hle).
Qed.

Lemma ispec_conseq {T} A0 lv n (m : M T) (Q1 Q2 : T -> _ -> Prop) :
  ispec A0 lv n m Q1 -> (forall a A, Q1 a A -> Q2 a A) -> ispec A0 lv n m Q2.
Proof. intros H HQ A HA. eapply aspec_conseq; [apply H, HA|exact HQ]. Qed.

Lemma ispec_bind_change {T U} A0 lv n n' (m : M T) (k : T -> M U) Q :
  ispec A0 lv n m (fun _ A' => loop_inv A0 lv n' A') ->
  (forall a, ispec A0 lv n' (k a) Q) ->
  ispec A0 lv n (bind m k) Q.
Proof.
  intros Hm Hk A HA. apply aspec_bind.
  eapply aspec_conseq; [apply Hm, HA|]. intros a A' HA'. apply Hk, HA'.
Qed.

Lemma weight_cons x l : weight (x :: l) = S (String.length x) + weight l.
Proof. reflexivity. Qed.

Lemma ispec_shift A0 lv n :
  ispec A0 lv n (shift (args_ lv)) (fun _ A' => loop_inv A0 lv n A').
Proof.
  intros A HA. apply aspec_shift. intros l Hl. destruct l as [|x l']; [exact HA|].
  apply (loop_inv_args _ _ n); [exact HA|].
  destruct HA as (_ & _ & Hw). specialize (Hw _ Hl). rewrite weight_cons in Hw. lia.
Qed.

Lemma ispec_unshift A0 lv n x :
  ispec A0 lv n (unshift (args_ lv) x)
        (fun _ A' => loop_inv A0 lv (S (String.length x) + n) A').
Proof.
  intros A HA. apply aspec_unshift. intros l Hl.
  apply (loop_inv_args _ _ n); [exact HA|].
  destruct HA as (_ & _ & Hw). specialize (Hw _ Hl). rewrite weight_cons. lia.
Qed.

#[export] Hint Resolve ispec_shift : ispec.

Lemma recognised_spec this A0 lv n o :
  ispec A0 lv n (recognised this lv o) (after_iteration A0 n).
Proof.
  unfold recognised. apply ispec_bind.
  - isteps.
  - intros _. apply ispec_ret. intros A HA. exact HA.
Qed.

Lemma combo_spec this A0 lv n c rest :
  ispec A0 lv n (combo this lv c rest)
        (fun r A' =>
           match r with
           | Some next => after_iteration A0 (S (S (String.length rest)) + n) next A'
           | None => loop_inv A0 lv n A'
           end).
Proof.
  unfold combo. apply ispec_bind; [isteps|]. intros [o|].
  - apply ispec_bind; [isteps|]. intros c0.
    apply (ispec_bind_change _ _ _ (S (S (String.length rest)) + n)).
    + destruct (Opt.required o || Opt.optional o && _combineFlagAndOptionalValue c0).
      * eapply ispec_conseq; [apply ispec_keeps; auto with ka|].
        intros ? A HA. apply (loop_inv_mono _ _ _ _ _ HA). lia.
      * apply (ispec_bind_change _ _ _ n); [isteps|]. intros _.
        exact (ispec_unshift A0 lv n ("-" ++ rest)).
    + intros _. apply ispec_ret. intros A HA. exact HA.
  - apply ispec_ret. auto.
Qed.

Lemma long_equals_spec this A0 lv n flag value :
  ispec A0 lv n (long_equals this lv flag value)
        (fun r A' =>
           match r with
           | Some next => after_iteration A0 n next A'
           | None => loop_inv A0 lv n A'
           end).
Proof.
  unfold long_equals. apply ispec_bind; [isteps|]. intros [o|].
  - destruct (Opt.required o || Opt.optional o).
    + apply ispec_bind; [isteps|]. intros _. apply ispec_ret. intros A HA. exact HA.
    + apply ispec_ret. auto.
  - apply ispec_ret. auto.
Qed.

Lemma short_cluster_length arg c rest :
  short_cluster arg = Some (c, rest) -> String.length arg = S (S (String.length rest)).
Proof.
  unfold short_cluster.
  destruct arg as [|a [|b r]];
    try discriminate;
    destruct a as [[] [] [] [] [] [] [] []]; try discriminate.
  destruct (negb (Ascii.eqb b "-") && Str.nonempty r); [|discriminate].
  intros H; injection H as <- <-. reflexivity.
Qed.

(** A branch that handles the token or passes it on. *)
Lemma try_branch_spec A0 lv n n' (m : M (option (option Locals)))
    (k : M (option Locals)) :
  ispec A0 lv n m
        (fun r A' =>
           match r with
           | Some next => after_iteration A0 n' next A'
           | None => loop_inv A0 lv n A'
           end) ->
  ispec A0 lv n k (after_iteration A0 n') ->
  ispec A0 lv n (r <- m ;; match r with Some next => ret next | None => k end)
        (after_iteration A0 n').
Proof.
  intros Hm Hk A HA. apply aspec_bind.
  eapply aspec_conseq; [apply Hm, HA|].
  intros [next|] A' H; [apply aspec_ret, H|apply Hk, H].
Qed.

Lemma iteration_spec this A0 lv n arg :
  ispec A0 lv n (iteration this lv arg) (after_iteration A0 (n + String.length arg)).
Proof.
  assert (Hmono : forall r A, after_iteration A0 n r A ->
                    after_iteration A0 (n + String.length arg) r A).
  { intros r A H. apply (after_iteration_mono _ _ _ _ _ H). lia. }
  assert (Hrest :
    ispec A0 (set_active None lv) n
      (found <- (if maybeOption arg then _findOption this arg else ret None) ;;
       match found with
       | Some option => recognised this (set_active None lv) option
       | None =>
           r1 <- (match short_cluster arg with
                  | Some (c, rest) => combo this (set_active None lv) c rest
                  | None => ret None
                  end) ;;
           match r1 with
           | Some next => ret next
           | None =>
               r2 <- (match long_with_value arg with
                      | Some (flag, value) =>
                          long_equals this (set_active None lv) flag value
                      | None => ret None
                      end) ;;
               match r2 with
               | Some next => ret next
               | None => route_token this (set_active None lv) arg
               end
           end
       end)
      (after_iteration A0 (n + String.length arg))).
  { apply ispec_bind; [isteps|]. intros [o|].
    { eapply ispec_conseq; [apply recognised_spec|exact Hmono]. }
    apply try_branch_spec.
    { destruct (short_cluster arg) as [[c rest]|] eqn:Hsc.
      - eapply ispec_conseq; [apply combo_spec|].
        intros [next|] A H; [|exact H].
        rewrite (short_cluster_length _ _ _ Hsc).
        apply (after_iteration_mono _ _ _ _ _ H). lia.
      - apply ispec_ret. auto. }
    apply try_branch_spec.
    { destruct (long_with_value arg) as [[flag value]|].
      - eapply ispec_conseq; [apply long_equals_spec|].
        intros [next|] A H; [apply Hmono, H|exact H].
      - apply ispec_ret. auto. }
    eapply ispec_conseq; [apply route_token_spec|exact Hmono]. }
  unfold iteration. destruct (String.eqb arg "--").
  { eapply ispec_conseq; [|exact Hmono]. isteps. }
  destruct (activeVariadicOption lv) as [v|]; [destruct (maybeOption arg) eqn:Hm|].
  - exact Hrest.
  - eapply ispec_conseq; [|exact Hmono]. isteps.
  - exact Hrest.
Qed.

(** The loop ends, and with the arrays of [A0] as they were. *)
Lemma loop_spec this A0 fuel :
  forall lv n, n < fuel ->
    ispec A0 lv n (loop fuel this lv) (fun _ A' => frame A0 A').
Proof.
  induction fuel as [|fuel IH]; intros lv n Hn; [lia|].
  simpl. intros A HA. apply aspec_bind, aspec_shift. intros l Hl.
  destruct l as [|arg rest].
  - apply aspec_ret, (loop_inv_frame _ _ _ _ HA).
  - assert (Hw : weight (arg :: rest) <= n) by (destruct HA as (_ & _ & H); apply H, Hl).
    rewrite weight_cons in Hw.
    apply aspec_bind. eapply aspec_conseq.
    + apply (iteration_spec this A0 lv (weight rest) arg).
      apply (loop_inv_args _ _ n); [exact HA|lia].
    + intros [lv'|] A' H.
      * apply (IH lv' (weight rest + String.length arg)); [lia|exact H].
      * apply aspec_ret, H.
Qed.

Lemma iterations_weight tokens : iterations tokens = S (weight tokens).
Proof. reflexivity. Qed.

Lemma parseOptions_spec this argv A0 :
  aspec (parseOptions this argv) A0 (fun _ A' => frame A0 A') (frame A0).
Proof.
  unfold parseOptions.
  apply aspec_bind, aspec_alloc_array. intros operands Hops.
  apply aspec_bind, aspec_alloc_array. intros unknown Hunk.
  apply aspec_bind, aspec_get_array. intros tokens _.
  apply aspec_bind, aspec_alloc_array. intros args Hargs.
  assert (Hne1 : operands <> unknown) by (intros ->; rewrite lookup_insert_eq in Hunk; discriminate).
  assert (Hne2 : unknown <> args) by (intros ->; rewrite lookup_insert_eq in Hargs; discriminate).
  assert (Hne3 : operands <> args).
  { intros ->. rewrite lookup_insert_ne, lookup_insert_eq in Hargs by auto. discriminate. }
  rewrite lookup_insert_ne in Hunk by exact Hne1.
  rewrite !lookup_insert_ne in Hargs by auto.
  apply aspec_bind. eapply aspec_conseq.
  - apply (loop_spec this A0 (iterations tokens) _ (weight tokens)).
    + rewrite iterations_weight. lia.
    + split; [|split].
      * repeat apply frame_insert; auto using frame_refl.
      * unfold locals_ok. simpl. repeat split; auto.
      * simpl. intros l Hl. rewrite lookup_insert_eq in Hl. injection Hl as <-. lia.
  - intros ? A' H. apply aspec_ret, H.
Qed.

End ArrayFacts.

Module ArrayClaims.
Import ArrayFacts LiveFacts.

(** C10. Let [this] be a command of the world whose listeners refer to
    its options and whose subcommands are objects of the world.
    [parseOptions] ends (it returns, it exits or it throws), and in
    whatever way it ends the array [argv] that it was given holds the
    elements it held, in the same order; so does every other array of
    strings that existed before the call. The arrays that the method writes
    to, the copy [args] of [argv] among them, are new. *)
Theorem parseOptions_leaves_argv
    (this argv : nat) (w : World) (c : Command) (tokens : list string) :
  cmds w !! this = Some c ->
  listeners_in_range c ->
  refs_in w c ->
  arrays w !! argv = Some tokens ->
  ends (parseOptions this argv w)
  /\ finally (parseOptions this argv w)
       (fun w' => arrays w' !! argv = Some tokens
                  /\ frame (arrays w) (arrays w')).
Proof.
  intros Hc Hrange Hrefs Hargv.
  pose proof (parseOptions_spec this argv (arrays w) w eq_refl) as H.
  pose proof (parseOptions_not_stuck this argv w c tokens Hc Hrange Hrefs Hargv) as Hs.
  unfold awp in H.
  destruct (parseOptions this argv w) as [r w'|e w'|x w'| |]; simpl;
    try (split; [exact I|split; [apply H, Hargv|exact H]]).
  - contradiction.
  - destruct H.
Qed.

(** Scenario 4 of the specification: the tokens [-xn1 -y 2] are still in
    the array after the call. *)
Lemma parseOptions_leaves_argv_witness :
  ends (parseOptions 0 0 cluster_world)
  /\ finally (parseOptions 0 0 cluster_world)
       (fun w' => arrays w' !! 0 = Some ["-xn1"; "-y"; "2"]
                  /\ frame (arrays cluster_world) (arrays w')).
Proof.
  apply (parseOptions_leaves_argv 0 0 cluster_world (program_of cluster_world)
           ["-xn1"; "-y"; "2"]).
  - vm_compute. reflexivity.
  - intros ev l Hin. vm_compute in Hin.
    repeat (destruct Hin as [Hin|Hin]; [injection Hin as <- <-; vm_compute; lia|]).
    destruct Hin.
  - split.
    + intros l Hin. vm_compute in Hin. destruct Hin.
    + intros l Hl. vm_compute in Hl. discriminate Hl.
  - vm_compute. reflexivity.
Defined.

End ArrayClaims.

(** ** The token parser *)

Module ParseFacts.
Import ValueFacts ArrayFacts.

Lemma set_arrays_id w : set_arrays (arrays w) w = w.
Proof. destruct w. reflexivity. Qed.

Lemma shift_cons a w x l :
  arrays w !! a = Some (x :: l) ->
  shift a w = Ok (Some x) (set_arrays (<[a := l]> (arrays w)) w).
Proof.
  intros H. unfold shift. erewrite bind_Ok by (unfold get_array; rewrite H; reflexivity).
  reflexivity.
Qed.

Lemma get_array_ok a w l : arrays w !! a = Some l -> get_array a w = Ok l w.
Proof. intros H. unfold get_array. rewrite H. reflexivity. Qed.

Lemma push_ok a w l xs :
  arrays w !! a = Some l ->
  push a xs w = Ok tt (set_arrays (<[a := (l ++ xs)%list]> (arrays w)) w).
Proof.
  intros H. unfold push. erewrite bind_Ok by (apply get_array_ok, H). reflexivity.
Qed.

Lemma short_cluster_shape arg x rest :
  short_cluster arg = Some (x, rest) ->
  arg = String "-" (String x rest) /\ String.eqb arg "--" = false
  /\ maybeOption arg = true.
Proof.
  unfold short_cluster.
  destruct arg as [|a [|b r]];
    try discriminate;
    destruct a as [[] [] [] [] [] [] [] []]; try discriminate.
  destruct (Ascii.eqb_spec b "-") as [->|Hb]; simpl; [discriminate|].
  destruct r as [|c r]; simpl; [discriminate|].
  intros H; injection H as <- <-. split; [reflexivity|]. split; [|reflexivity].
  simpl. destruct (Ascii.eqb_spec b "-"); [contradiction|reflexivity].
Qed.

Lemma findOption_ok this w c arg :
  cmds w !! this = Some c ->
  _findOption this arg w = Ok (find (fun o => OptMethods.is_ o arg) (options c)) w.
Proof.
  intros H. unfold _findOption. erewrite bind_Ok by (apply get_cmd_ok, H). reflexivity.
Qed.

Lemma unshift_ok a w l x :
  arrays w !! a = Some l ->
  unshift a x w = Ok tt (set_arrays (<[a := x :: l]> (arrays w)) w).
Proof.
  intros H. unfold unshift. erewrite bind_Ok by (apply get_array_ok, H). reflexivity.
Qed.

Lemma bind_assoc {A B C} (m : M A) (f : A -> M B) (g : B -> M C) w :
  bind (bind m f) g w = bind m (fun a => bind (f a) g) w.
Proof. unfold bind. destruct (m w); reflexivity. Qed.

Lemma bind_cong {A B} (m m' : M A) (k : A -> M B) w :
  m w = m' w -> bind m k w = bind m' k w.
Proof. intros H. unfold bind. rewrite H. reflexivity. Qed.

Lemma bind_ext_Ok {A B} (m : M A) (k k' : A -> M B) w :
  (forall a w', m w = Ok a w' -> k a w' = k' a w') -> bind m k w = bind m k' w.
Proof. intros H. unfold bind. destruct (m w); auto. Qed.

End ParseFacts.

Module ParseClaims.
Import ValueFacts ArrayFacts ParseFacts.

(** C1 (amended). When the loop of the token parser takes a literal [--]
    off [args], it pushes all the remaining tokens to the array it is
    appending to and stops: while it appends to [operands], [--] itself is
    pushed nowhere; once it appends to [unknown] (an unknown option came
    before), [--] is pushed to [unknown] first, ahead of the remaining
    tokens. *)
Theorem literal_double_dash
    (this fuel : nat) (lv : Locals) (w : World) (rest d : list string) :
  args_ lv <> dest_ lv ->
  arrays w !! args_ lv = Some ("--" :: rest) ->
  arrays w !! dest_ lv = Some d ->
  loop (S fuel) this lv w
  = Ok tt (set_arrays
             (<[dest_ lv := (d ++ (if Nat.eqb (dest_ lv) (unknown_ lv)
                                   then ["--"] else []) ++ rest)%list]>
                (<[args_ lv := rest]> (arrays w))) w).
Proof.
  intros Hne Hargs Hdest. simpl.
  erewrite bind_Ok by (apply shift_cons, Hargs).
  unfold iteration. simpl.
  set (w1 := set_arrays (<[args_ lv := rest]> (arrays w)) w).
  assert (Hd1 : arrays w1 !! dest_ lv = Some d).
  { unfold w1. simpl. rewrite lookup_insert_ne by exact Hne. exact Hdest. }
  assert (Ha1 : arrays w1 !! args_ lv = Some rest).
  { unfold w1. simpl. apply lookup_insert_eq. }
  destruct (Nat.eqb (dest_ lv) (unknown_ lv)).
  - erewrite bind_Ok.
    2:{ erewrite bind_Ok by (apply push_ok, Hd1).
        erewrite bind_Ok.
        2:{ apply get_array_ok. simpl. rewrite lookup_insert_ne by auto. exact Ha1. }
        erewrite bind_Ok.
        2:{ apply push_ok. simpl. apply lookup_insert_eq. }
        reflexivity. }
    simpl. unfold ret. f_equal. unfold w1, set_arrays. simpl. f_equal.
    rewrite insert_insert_eq. rewrite <- app_assoc. reflexivity.
  - erewrite bind_Ok.
    2:{ erewrite bind_Ok by reflexivity.
        erewrite bind_Ok by (apply get_array_ok, Ha1).
        erewrite bind_Ok by (apply push_ok, Hd1).
        reflexivity. }
    reflexivity.
Qed.

(** C2 (amended). Let the loop take off [args] a token [-Xrest] (longer
    than two characters, the second not a dash) that is not itself a
    declared flag, [-X] being a declared flag and [o] the first option that
    declares it. If [o] takes a required argument, or an optional one while
    [_combineFlagAndOptionalValue] is on, the parser emits the event of [o]
    with the value [rest] and goes on with the remaining tokens. Otherwise
    it emits the event of [o] without value and puts [-rest] back in front
    of [args], so that the next iteration is the one of the token [-rest]. *)
Theorem short_cluster_event
    (this fuel : nat) (lv : Locals) (w : World) (c : Command)
    (arg : string) (more : list string) (x : ascii) (rest : string)
    (o : Opt.Option) :
  cmds w !! this = Some c ->
  arrays w !! args_ lv = Some (arg :: more) ->
  short_cluster arg = Some (x, rest) ->
  find (fun o => OptMethods.is_ o arg) (options c) = None ->
  find (fun o => OptMethods.is_ o (String "-" (String x ""))) (options c) = Some o ->
  loop (S (S fuel)) this lv w
  = if Opt.required o || (Opt.optional o && _combineFlagAndOptionalValue c)
    then (shift (args_ lv) ;;;
          emit_option this o (VStr rest) ;;;
          loop (S fuel) this (set_active None lv)) w
    else (shift (args_ lv) ;;;
          emit_option this o VUndefined ;;;
          r <- iteration this (set_active None lv) ("-" ++ rest) ;;
          match r with
          | Some lv' => loop fuel this lv'
          | None => ret tt
          end) w.
Proof.
  intros Hc Hargs Hsc Hexact Hshort.
  destruct (short_cluster_shape _ _ _ Hsc) as (Harg & Hdd & Hmaybe).
  set (w1 := set_arrays (<[args_ lv := more]> (arrays w)) w).
  assert (Hc1 : cmds w1 !! this = Some c) by exact Hc.
  assert (Hiter : iteration this lv arg w1
                  = (if Opt.required o || (Opt.optional o && _combineFlagAndOptionalValue c)
                     then emit_option this o (VStr rest) ;;; ret (Some (set_active None lv))
                     else emit_option this o VUndefined ;;;
                          unshift (args_ lv) ("-" ++ rest) ;;;
                          ret (Some (set_active None lv))) w1).
  { unfold iteration. rewrite Hdd, Hmaybe.
    assert (Hbody : forall lv0,
      (found <- (if true then _findOption this arg else ret None) ;;
       match found with
       | Some option => recognised this lv0 option
       | None =>
           r1 <- (match short_cluster arg with
                  | Some (c, rest) => combo this lv0 c rest
                  | None => ret None
                  end) ;;
           match r1 with
           | Some next => ret next
           | None =>
               r2 <- (match long_with_value arg with
                      | Some (flag, value) => long_equals this lv0 flag value
                      | None => ret None
                      end) ;;
               match r2 with
               | Some next => ret next
               | None => route_token this lv0 arg
               end
           end
       end) w1
      = (if Opt.required o || (Opt.optional o && _combineFlagAndOptionalValue c)
         then emit_option this o (VStr rest) ;;; ret (Some lv0)
         else emit_option this o VUndefined ;;;
              unshift (args_ lv0) ("-" ++ rest) ;;;
              ret (Some lv0)) w1).
    { intros lv0. erewrite bind_Ok by (apply findOption_ok, Hc1). rewrite Hexact.
      rewrite Hsc. unfold combo.
      unfold bind at 1. unfold bind at 1.
      rewrite (findOption_ok _ _ _ _ Hc1), Hshort.
      unfold bind at 1. rewrite (get_cmd_ok _ _ _ Hc1).
      destruct (Opt.required o || Opt.optional o && _combineFlagAndOptionalValue c).
      - unfold bind. destruct (emit_option this o (VStr rest) w1); reflexivity.
      - unfold bind. destruct (emit_option this o VUndefined w1) as [u w2| | | |]; try reflexivity.
        destruct (unshift (args_ lv0) ("-" ++ rest) w2); reflexivity. }
    destruct (activeVariadicOption lv); apply (Hbody (set_active None lv)). }
  change (loop (S (S fuel)) this lv w)
    with ((next <- shift (args_ lv) ;;
           match next with
           | None => ret tt
           | Some arg =>
               r <- iteration this lv arg ;;
               match r with
               | Some lv' => loop (S fuel) this lv'
               | None => ret tt
               end
           end) w).
  erewrite bind_Ok by (apply shift_cons, Hargs). fold w1. cbv beta iota.
  rewrite (bind_cong _ _ _ _ Hiter).
  destruct (Opt.required o || Opt.optional o && _combineFlagAndOptionalValue c).
  - erewrite (bind_Ok (shift (args_ lv))) by (apply shift_cons, Hargs). fold w1.
    rewrite bind_assoc. reflexivity.
  - erewrite (bind_Ok (shift (args_ lv))) by (apply shift_cons, Hargs). fold w1.
    rewrite bind_assoc. apply bind_ext_Ok. intros u w2 Hemit.
    pose proof (ka_emit_option this o VUndefined w1) as Hka. rewrite Hemit in Hka.
    assert (Ha2 : arrays w2 !! args_ lv = Some more).
    { rewrite Hka. unfold w1. simpl. apply lookup_insert_eq. }
    rewrite bind_assoc.
    erewrite bind_Ok by (apply unshift_ok, Ha2).
    erewrite bind_Ok by reflexivity. cbv beta iota.
    change (loop (S fuel) this (set_active None lv))
      with (next <- shift (args_ lv) ;;
            match next with
            | None => ret tt
            | Some arg =>
                r <- iteration this (set_active None lv) arg ;;
                match r with
                | Some lv' => loop fuel this lv'
                | None => ret tt
                end
            end).
    erewrite (bind_Ok (shift _)).
    2:{ apply shift_cons. simpl. apply lookup_insert_eq. }
    simpl arrays. rewrite insert_insert_eq.
    rewrite (insert_id (arrays w2) _ _ Ha2).
    assert (Hw2 : set_arrays (arrays w2) (set_arrays (<[args_ lv := ("-" ++ rest) :: more]> (arrays w2)) w2) = w2).
    { destruct w2. reflexivity. }
    rewrite Hw2. reflexivity.
Qed.

(** [op -- a -b]: the tokens after [--] become operands. *)
Lemma literal_double_dash_witness :
  args_ locals_012 <> dest_ locals_012
  /\ arrays dash_world !! args_ locals_012 = Some ["--"; "a"; "-b"]
  /\ arrays dash_world !! dest_ locals_012 = Some ["op"]
  /\ loop 1 0 locals_012 dash_world
     = Ok tt (set_arrays
                (<[1 := ["op"; "a"; "-b"]]> (<[0 := ["a"; "-b"]]> (arrays dash_world)))
                dash_world).
Proof.
  split; [discriminate|]. split; [reflexivity|]. split; [reflexivity|].
  apply (literal_double_dash 0 0 locals_012 dash_world ["a"; "-b"] ["op"]).
  - discriminate.
  - reflexivity.
  - reflexivity.
Defined.

(** C1 as stated fails: for the tokens [--unk -- x] the token [x] that
    remains after [--] is not an operand, and [--] is in [unknown] and in
    the final [args]. The result lists [operands], [unknown] and [args]. *)
Lemma double_dash_after_unknown_is_kept :
  returned ((operands <- alloc_array [] ;;
             r <- parseCommand_args 0 operands 7 ;;
             ops <- get_array (fst r) ;;
             unk <- get_array (snd r) ;;
             c <- get_cmd 0 ;;
             ret (ops, unk, args c)) argv_world)
  = Some ([], ["--unk"; "--"; "x"], ["--unk"; "--"; "x"]).
Proof. vm_compute. reflexivity. Qed.

(** [-xn1] with [-x <n>]: the value is [n1]. *)
Lemma short_cluster_event_witness :
  loop 2 0 locals_012 cluster_world
  = (shift 0 ;;;
     emit_option 0 (Opt.new "-x <n>") (VStr "n1") ;;;
     loop 1 0 (set_active None locals_012)) cluster_world.
Proof.
  refine (short_cluster_event 0 0 locals_012 cluster_world (program_of cluster_world)
            "-xn1" ["-y"; "2"] "x" "n1" (Opt.new "-x <n>") _ _ _ _ _).
  - vm_compute. reflexivity.
  - vm_compute. reflexivity.
  - reflexivity.
  - vm_compute. reflexivity.
  - vm_compute. reflexivity.
Defined.

(** C2 as stated fails: with the options [-a] and [-ab, --alpha-beta], the
    token [-ab] is the declared flag [-ab]; the parser emits the event of
    that option and none for [-a]. The result lists the values of [a] and
    [alphaBeta]. *)
Lemma declared_token_is_not_split :
  returned ((addOption 0 (Opt.new "-a") ;;;
             addOption 0 (Opt.new "-ab, --alpha-beta") ;;;
             argv <- alloc_array ["-ab"] ;;
             parseOptions 0 argv ;;;
             a <- getOptionValue 0 "a" ;;
             ab <- getOptionValue 0 "alphaBeta" ;;
             ret (a, ab)) (single (Cmd.new "")))
  = Some (VUndefined, VBool true).
Proof. vm_compute. reflexivity. Qed.

End ParseClaims.

(** * Further properties *)

(** ** Strings: slices and splits *)

Module SliceFacts.
Import Str StrFacts.

Lemma length_app (a b : string) :
  String.length (a ++ b) = String.length a + String.length b.
Proof.
  induction a as [|c a IH]; [reflexivity|]. rewrite app_cons. simpl. rewrite IH. reflexivity.
Qed.

Lemma app_nil_r (s : string) : s ++ "" = s.
Proof. induction s as [|c s IH]; [reflexivity|]. rewrite app_cons, IH. reflexivity. Qed.

Lemma app_assoc (a b c : string) : (a ++ b) ++ c = a ++ b ++ c.
Proof.
  induction a as [|x a IH]; [reflexivity|]. rewrite !app_cons, IH. reflexivity.
Qed.

Lemma substring_0_app (a b : string) : substring 0 (String.length a) (a ++ b) = a.
Proof.
  induction a as [|c a IH]; [destruct b; reflexivity|].
  rewrite app_cons. simpl. rewrite IH. reflexivity.
Qed.

(** A string is its first [k] characters followed by the others. *)
Lemma substring_split (k : nat) (s : string) :
  k <= String.length s ->
  substring 0 k s ++ substring k (String.length s - k) s = s.
Proof.
  revert s. induction k as [|k IH]; intros s Hk.
  - rewrite Nat.sub_0_r. replace (substring 0 0 s) with "" by (destruct s; reflexivity).
    rewrite app_nil. rewrite <- (app_nil_r s) at 2. apply substring_0_app.
  - destruct s as [|c s]; [simpl in Hk; lia|]. simpl in *.
    rewrite app_cons. f_equal. apply IH. lia.
Qed.

Lemma has_append c (a b : string) : has c (a ++ b) = has c a || has c b.
Proof.
  induction a as [|d a IH]; [reflexivity|]. rewrite app_cons. simpl.
  destruct (Ascii.eqb c d); [reflexivity|exact IH].
Qed.

End SliceFacts.

(** ** Class [Argument] *)

Module ArgumentNames.
Import Str StrFacts SliceFacts.

Lemma slice_bracketed (o cl : ascii) (n : string) :
  Arg.slice_1_m1 (String o (n ++ String cl "")) = n.
Proof.
  unfold Arg.slice_1_m1. simpl String.length. rewrite length_app. simpl String.length.
  replace (S (String.length n + 1) - 2) with (String.length n) by lia.
  simpl. apply substring_0_app.
Qed.

(** The name and the dots that the constructor splits off make up the text
    between the brackets. *)
Lemma name_and_dots (n : string) :
  let len := String.length n in
  let dots := (3 <? len)%nat && String.eqb (substring (len - 3) 3 n) "..." in
  (if dots then substring 0 (len - 3) n else n) ++ (if dots then "..." else "") = n.
Proof.
  cbv zeta. destruct (3 <? String.length n)%nat eqn:Hlen; simpl.
  - destruct (String.eqb_spec (substring (String.length n - 3) 3 n) "...") as [E|_].
    + apply Nat.ltb_lt in Hlen.
      pose proof (substring_split (String.length n - 3) n ltac:(lia)) as H.
      replace (String.length n - (String.length n - 3)) with 3 in H by lia.
      rewrite E in H. exact H.
    + apply app_nil_r.
  - apply app_nil_r.
Qed.

(** X1. [humanReadableArgName] gives back the text from which the
    constructor of [Argument] made the argument, when that text is a name
    in angle brackets or in square brackets; the name may end in the dots
    of a variadic argument. *)
Theorem humanReadableArgName_round_trip (n : string) (description : option string) :
  ArgMethods.humanReadableArgName (Arg.new ("<" ++ n ++ ">") description)
  = "<" ++ n ++ ">"
  /\ ArgMethods.humanReadableArgName (Arg.new ("[" ++ n ++ "]") description)
     = "[" ++ n ++ "]".
Proof.
  split.
  - rewrite !app_cons, !app_nil.
    unfold Arg.new. cbv beta iota. rewrite slice_bracketed.
    unfold ArgMethods.humanReadableArgName. cbn [Arg.required Arg.name Arg.variadic].
    rewrite (name_and_dots n). rewrite !app_cons, !app_nil. reflexivity.
  - rewrite !app_cons, !app_nil.
    unfold Arg.new. cbv beta iota. rewrite slice_bracketed.
    unfold ArgMethods.humanReadableArgName. cbn [Arg.required Arg.name Arg.variadic].
    rewrite (name_and_dots n). rewrite !app_cons, !app_nil. reflexivity.
Qed.

End ArgumentNames.

(** ** Option names: [camelcase], [splitOptionFlags], [attributeName] *)

Module CamelFacts.
Import Str StrFacts SliceFacts OptMethods.

Lemma upper_not_dash c : Ascii.eqb c "-" = false -> Ascii.eqb (upper c) "-" = false.
Proof.
  intros H. destruct c as [[] [] [] [] [] [] [] []]; try reflexivity; discriminate H.
Qed.

Lemma has_dash_cons c s :
  has "-" (String c s) = Ascii.eqb c "-" || has "-" s.
Proof.
  change (has "-" (String c s)) with (if Ascii.eqb "-" c then true else has "-" s).
  rewrite (Ascii.eqb_sym "-" c). destruct (Ascii.eqb c "-"); reflexivity.
Qed.

(** The first word continues [cur]; the other words do not depend on it. *)
Lemma split_shape s :
  forall cur, exists w ws,
    split_dash_from cur s = (cur ++ w) :: ws /\ split_dash_from "" s = w :: ws.
Proof.
  induction s as [|c s IH]; intros cur.
  - exists "", []. simpl. rewrite app_nil_r. auto.
  - cbn [split_dash_from]. destruct (Ascii.eqb c "-").
    + exists "", (split_dash_from "" s). rewrite app_nil_r. auto.
    + rewrite app_nil.
      destruct (IH (String c "")) as (w1 & ws1 & H1 & H1').
      destruct (IH (cur ++ String c "")) as (w2 & ws2 & H2 & H2').
      rewrite H1' in H2'. injection H2' as <- <-.
      rewrite app_cons, app_nil in H1.
      exists (String c w1), ws1. rewrite H2, H1.
      rewrite app_assoc, !app_cons, !app_nil. auto.
Qed.

Lemma first_word s w ws :
  split_dash_from "" s = w :: ws ->
  (w = "" <-> match s with
              | EmptyString => true
              | String d _ => Ascii.eqb d "-"
              end = true).
Proof.
  destruct s as [|d s]; cbn [split_dash_from].
  - intros H; injection H as <- <-. tauto.
  - destruct (Ascii.eqb d "-").
    + intros H; injection H as <- <-. tauto.
    + rewrite app_nil.
      destruct (split_shape s (String d "")) as (w1 & ws1 & H1 & _).
      rewrite app_cons, app_nil in H1.
      rewrite H1. intros H; injection H as <- <-. split; discriminate.
Qed.

Lemma rest_words s :
  forall w ws, split_dash_from "" s = w :: ws -> (In "" ws <-> dash_before_gap s = true).
Proof.
  induction s as [|c s IH]; intros w ws.
  - simpl. intros H; injection H as <- <-. simpl. split; [tauto|discriminate].
  - cbn [split_dash_from dash_before_gap]. destruct (Ascii.eqb c "-") eqn:Hc.
    + intros H; injection H as <- <-.
      destruct (split_shape s "") as (w1 & ws1 & H1 & _). rewrite app_nil in H1.
      rewrite H1. simpl In.
      pose proof (first_word s w1 ws1 H1) as Hw. pose proof (IH w1 ws1 H1) as Hr.
      rewrite orb_true_iff. simpl andb. rewrite <- Hw, <- Hr.
      split; intros [E|E]; auto.
    + rewrite app_nil.
      destruct (split_shape s (String c "")) as (w1 & ws1 & H1 & H1').
      rewrite H1. intros H; injection H as <- <-.
      simpl. apply (IH w1 ws1 H1').
Qed.

Lemma camelcase_fold s :
  exists w ws, split_dash_from "" s = w :: ws /\ camelcase s = fold_left step ws (Some w).
Proof.
  destruct (split_shape s "") as (w & ws & H & _). rewrite app_nil in H.
  exists w, ws. split; [exact H|]. unfold camelcase. rewrite H. reflexivity.
Qed.

Lemma fold_None ws : fold_left step ws None = None.
Proof. induction ws as [|x ws IH]; [reflexivity|exact IH]. Qed.

Lemma fold_fails ws : forall a, fold_left step ws (Some a) = None <-> In "" ws.
Proof.
  induction ws as [|x ws IH]; intros a; simpl.
  - split; [discriminate|tauto].
  - destruct x as [|c r].
    + rewrite fold_None. tauto.
    + rewrite IH. split; [tauto|]. intros [E|E]; [discriminate|exact E].
Qed.

Lemma words_without_dash s :
  forall cur, has "-" cur = false ->
    Forall (fun w => has "-" w = false) (split_dash_from cur s).
Proof.
  induction s as [|c s IH]; intros cur Hcur; simpl.
  - constructor; [exact Hcur|constructor].
  - destruct (Ascii.eqb c "-") eqn:Hc.
    + constructor; [exact Hcur|]. apply IH. reflexivity.
    + apply IH. rewrite has_append, Hcur, has_dash_cons, Hc. reflexivity.
Qed.

Lemma fold_without_dash ws :
  Forall (fun w => has "-" w = false) ws ->
  forall a r, has "-" a = false -> fold_left step ws (Some a) = Some r ->
              has "-" r = false.
Proof.
  induction 1 as [|x ws Hx Hws IH]; intros a r Ha; simpl.
  - intros H; injection H as <-. exact Ha.
  - destruct x as [|c x]; [rewrite fold_None; discriminate|].
    apply IH. rewrite has_append, Ha. rewrite has_dash_cons in Hx |- *.
    apply orb_false_elim in Hx as [Hc Hx]. rewrite (upper_not_dash c Hc), Hx. reflexivity.
Qed.

Lemma split_without_dash s :
  has "-" s = false -> forall cur, split_dash_from cur s = [cur ++ s].
Proof.
  induction s as [|c s IH]; intros H cur; simpl.
  - rewrite app_nil_r. reflexivity.
  - rewrite has_dash_cons in H. apply orb_false_elim in H as [Hc Hs].
    rewrite Hc, (IH Hs), app_assoc. reflexivity.
Qed.

End CamelFacts.

Module CamelClaims.
Import Str StrFacts SliceFacts OptMethods CamelFacts.

(** X2. [camelcase] throws (the [TypeError] of [word[0].toUpperCase()])
    exactly when a dash of the string is followed by another dash or by the
    end of the string; what it returns has no dash; and a string without
    dash is returned as it is. *)
Theorem camelcase_words (str : string) :
  (camelcase str = None <-> dash_before_gap str = true)
  /\ (forall r, camelcase str = Some r -> has "-" r = false)
  /\ (has "-" str = false -> camelcase str = Some str).
Proof.
  destruct (camelcase_fold str) as (w & ws & Hsplit & Hfold).
  split; [|split].
  - rewrite Hfold, fold_fails. apply (rest_words str w ws Hsplit).
  - intros r Hr. rewrite Hfold in Hr.
    pose proof (words_without_dash str "" eq_refl) as Hall. rewrite Hsplit in Hall.
    inversion Hall as [|? ? Hw Hws]; subst.
    apply (fold_without_dash ws Hws w r Hw Hr).
  - intros H. unfold camelcase. rewrite (split_without_dash str H ""). reflexivity.
Qed.

End CamelClaims.

(** ** Option flags *)

Module FlagFacts.
Import Str StrFacts SliceFacts Opt.

Lemma split_word a :
  no_sep a = true -> Str.nonempty a = true ->
  forall cur b r, split_from cur b (a ++ r) = split_from (cur ++ a) false r.
Proof.
  induction a as [|c a IH]; intros Hns Hne cur b r; [discriminate|].
  cbn [no_sep] in Hns. apply andb_prop in Hns as [Hc Ha].
  apply negb_true_iff in Hc.
  rewrite app_cons. cbn [split_from]. rewrite Hc.
  destruct a as [|d a].
  - rewrite app_nil. reflexivity.
  - rewrite (IH Ha eq_refl). rewrite app_assoc, !app_cons, !app_nil. reflexivity.
Qed.

Lemma split_in_sep sep :
  all_sep sep = true -> forall r, split_from "" true (sep ++ r) = split_from "" true r.
Proof.
  induction sep as [|c sep IH]; intros H r; [reflexivity|].
  cbn [all_sep] in H. apply andb_prop in H as [Hc Hs].
  rewrite app_cons. cbn [split_from]. rewrite Hc. apply IH, Hs.
Qed.

Lemma split_sep sep :
  separator sep -> forall cur r, split_from cur false (sep ++ r) = cur :: split_from "" true r.
Proof.
  intros [Hne Hall] cur r. destruct sep as [|c sep]; [discriminate|].
  cbn [all_sep] in Hall. apply andb_prop in Hall as [Hc Hs].
  rewrite app_cons. cbn [split_from]. rewrite Hc. f_equal. apply split_in_sep, Hs.
Qed.

(** The first part continues [cur]. *)
Lemma split_head x : forall cur, exists w more, split_from cur false x = (cur ++ w) :: more.
Proof.
  induction x as [|c x IH]; intros cur.
  - exists "", []. simpl. rewrite app_nil_r. reflexivity.
  - cbn [split_from]. destruct (is_sep c).
    + exists "", (split_from "" true x). rewrite app_nil_r. reflexivity.
    + destruct (IH (cur ++ String c "")) as (w & more & H).
      exists (String c w), more. rewrite H, app_assoc, !app_cons, !app_nil. reflexivity.
Qed.

(** The part that a placeholder starts is a placeholder. *)
Lemma split_bracket p :
  starts_with_bracket p = true ->
  exists w more, split_from "" true p = w :: more /\ starts_with_bracket w = true.
Proof.
  destruct p as [|c p]; [discriminate|]. intros H.
  assert (Hc : is_sep c = false).
  { destruct c as [[] [] [] [] [] [] [] []]; try reflexivity; discriminate H. }
  cbn [split_from]. rewrite Hc, app_nil.
  destruct (split_head p (String c "")) as (w & more & Hs).
  rewrite app_cons, app_nil in Hs. exists (String c w), more.
  split; [exact Hs|]. destruct c as [[] [] [] [] [] [] [] []]; try discriminate H; reflexivity.
Qed.

Lemma split_tail cur t :
  placeholder_tail t ->
  split_from cur false t = [cur]
  \/ exists p more, split_from cur false t = cur :: p :: more
                    /\ starts_with_bracket p = true.
Proof.
  intros [->|(sep & p & Hsep & -> & Hp)]; [left; reflexivity|right].
  rewrite (split_sep sep Hsep).
  destruct (split_bracket p Hp) as (w & more & -> & Hw). eauto.
Qed.

Lemma new_flags flags :
  short (Opt.new flags) = fst (splitOptionFlags flags)
  /\ long (Opt.new flags) = snd (splitOptionFlags flags).
Proof. unfold Opt.new. destruct (splitOptionFlags flags). split; reflexivity. Qed.

Lemma new_negate flags :
  negate (Opt.new flags)
  = (if truthy (snd (splitOptionFlags flags))
     then Str.startsWith (default "" (snd (splitOptionFlags flags))) "--no-"
     else false).
Proof. unfold Opt.new. destruct (splitOptionFlags flags). reflexivity. Qed.

Lemma flag_alone l t :
  Str.nonempty l = true -> no_sep l = true -> placeholder_tail t ->
  splitOptionFlags (l ++ t)
  = if is_lone_short l then (Some l, None) else (None, Some l).
Proof.
  intros Hl Hnl Ht.
  unfold splitOptionFlags, split_flags. rewrite (split_word l Hnl Hl), app_nil.
  destruct (split_tail l t Ht) as [->|(p & more & -> & Hp)].
  - simpl. destruct (is_lone_short l); reflexivity.
  - rewrite Hp. simpl. destruct (is_lone_short l); reflexivity.
Qed.

Lemma no_sep_app a b : no_sep (a ++ b) = no_sep a && no_sep b.
Proof.
  induction a as [|c a IH]; [reflexivity|]. rewrite app_cons. cbn [no_sep].
  rewrite IH. apply andb_assoc.
Qed.

(** A long flag alone: the option that [new Option(flag)] makes. *)
Lemma long_flag_alone n :
  Str.nonempty n = true -> no_sep n = true ->
  splitOptionFlags ("--" ++ n) = (None, Some ("--" ++ n)).
Proof.
  intros Hn Hns.
  rewrite <- (app_nil_r ("--" ++ n)) at 1.
  rewrite (flag_alone ("--" ++ n) ""); [| |rewrite no_sep_app, Hns; reflexivity|left; reflexivity].
  - destruct n as [|c n]; [discriminate|]. reflexivity.
  - reflexivity.
Qed.

End FlagFacts.

Module FlagClaims.
Import Str StrFacts SliceFacts Opt FlagFacts.

(** X3. The constructor of [Option] reads a short flag and a long flag
    that are joined by blanks, bars or commas, whatever follows the long
    flag after a further separator. A flag is a non-empty word without
    blank, bar or comma, and the long flag does not start with a
    bracket. *)
Theorem option_flags_pair (s sep l t : string) :
  Str.nonempty s = true -> no_sep s = true ->
  Str.nonempty l = true -> no_sep l = true ->
  starts_with_bracket l = false ->
  separator sep ->
  (t = "" \/ exists sep' t', separator sep' /\ t = sep' ++ t') ->
  short (Opt.new (s ++ sep ++ l ++ t)) = Some s
  /\ long (Opt.new (s ++ sep ++ l ++ t)) = Some l.
Proof.
  intros Hs Hns Hl Hnl Hbr Hsep Ht.
  assert (Hparts : exists more, split_flags (s ++ sep ++ l ++ t) = s :: l :: more).
  { unfold split_flags. rewrite (split_word s Hns Hs), app_nil.
    rewrite (split_sep sep Hsep). rewrite (split_word l Hnl Hl), app_nil.
    destruct Ht as [->|(sep' & t' & Hsep' & ->)].
    - exists []. reflexivity.
    - rewrite (split_sep sep' Hsep'). eauto. }
  destruct Hparts as [more Hparts].
  destruct (new_flags (s ++ sep ++ l ++ t)) as [-> ->].
  unfold splitOptionFlags. rewrite Hparts. rewrite Hbr. simpl. rewrite Hs.
  split; reflexivity.
Qed.

(** [-p, --port <n>]. *)
Lemma option_flags_pair_witness :
  short (Opt.new ("-p" ++ ", " ++ "--port" ++ " <n>")) = Some "-p"
  /\ long (Opt.new ("-p" ++ ", " ++ "--port" ++ " <n>")) = Some "--port".
Proof.
  apply (option_flags_pair "-p" ", " "--port" " <n>"); try reflexivity.
  - split; reflexivity.
  - right. exists " ", "<n>". split; [split; reflexivity|reflexivity].
Defined.

(** X4. A flag that stands alone, or before a separator and a placeholder
    in brackets, is the long flag of the option, unless it is a dash and
    one other character: then it is the short flag and there is no long
    flag. *)
Theorem option_flag_alone (l t : string) :
  Str.nonempty l = true -> no_sep l = true ->
  placeholder_tail t ->
  short (Opt.new (l ++ t)) = (if is_lone_short l then Some l else None)
  /\ long (Opt.new (l ++ t)) = (if is_lone_short l then None else Some l).
Proof.
  intros Hl Hnl Ht.
  destruct (new_flags (l ++ t)) as [-> ->].
  rewrite (flag_alone l t Hl Hnl Ht). destruct (is_lone_short l); split; reflexivity.
Qed.

(** [-x [value]] has the short flag [-x] only. *)
Lemma option_flag_alone_witness :
  short (Opt.new ("-x" ++ " [value]")) = Some "-x"
  /\ long (Opt.new ("-x" ++ " [value]")) = None.
Proof.
  apply (option_flag_alone "-x" " [value]"); try reflexivity.
  right. exists " ", "[value]". split; [split; reflexivity|]. split; reflexivity.
Defined.

End FlagClaims.

Module NegatedClaims.
Import Str StrFacts SliceFacts Opt OptMethods FlagFacts.

(** X5. The options [--no-name] and [--name] store their values under the
    same key, the camel-case form of [name], and only the first is
    negated. The name is a non-empty word without blank, bar or comma
    that does not itself start with [no-]. *)
Theorem negated_option_shares_key (n : string) :
  Str.nonempty n = true -> no_sep n = true -> strip "no-" n = None ->
  attributeName (Opt.new ("--no-" ++ n)) = camelcase n
  /\ attributeName (Opt.new ("--" ++ n)) = camelcase n
  /\ negate (Opt.new ("--no-" ++ n)) = true
  /\ negate (Opt.new ("--" ++ n)) = false.
Proof.
  intros Hn Hns Hno.
  assert (Hneg : "--no-" ++ n = "--" ++ ("no-" ++ n)) by reflexivity.
  assert (Hns' : no_sep ("no-" ++ n) = true) by (rewrite no_sep_app, Hns; reflexivity).
  pose proof (long_flag_alone n Hn Hns) as Hpos.
  pose proof (long_flag_alone ("no-" ++ n) eq_refl Hns') as Hnegf.
  rewrite <- Hneg in Hnegf.
  repeat split.
  - unfold attributeName, name.
    destruct (new_flags ("--no-" ++ n)) as [_ ->]. rewrite Hnegf. simpl snd.
    simpl truthy. cbv iota. unfold default, id. rewrite Hneg.
    unfold drop_prefix. rewrite (strip_app "--"). rewrite (strip_app "no-"). reflexivity.
  - unfold attributeName, name.
    destruct (new_flags ("--" ++ n)) as [_ ->]. rewrite Hpos. simpl snd.
    simpl truthy. cbv iota. unfold default, id.
    unfold drop_prefix. rewrite (strip_app "--"). rewrite Hno. reflexivity.
  - rewrite new_negate, Hnegf. simpl snd. simpl truthy. cbv iota. unfold default, id.
    unfold startsWith. rewrite (strip_app "--no-"). reflexivity.
  - rewrite new_negate, Hpos. simpl snd. simpl truthy. cbv iota. unfold default, id.
    unfold startsWith.
    replace (strip "--no-" ("--" ++ n)) with (strip "no-" n); [rewrite Hno; reflexivity|].
    reflexivity.
Qed.

(** [--no-dry-run] and [--dry-run] share the key [dryRun]. *)
Lemma negated_option_shares_key_witness :
  attributeName (Opt.new ("--no-" ++ "dry-run")) = Some "dryRun"
  /\ attributeName (Opt.new ("--" ++ "dry-run")) = Some "dryRun"
  /\ negate (Opt.new ("--no-" ++ "dry-run")) = true
  /\ negate (Opt.new ("--" ++ "dry-run")) = false.
Proof.
  apply (negated_option_shares_key "dry-run"); reflexivity.
Defined.

End NegatedClaims.

(** ** Building a command *)

Module BuildFacts.
Import ValueFacts.

Lemma wp_bind {A B} (m : M A) (k : A -> M B) w (Q1 : A -> World -> Prop) Q R :
  wp (m w) Q1 R ->
  (forall a w1, m w = Ok a w1 -> Q1 a w1 -> wp (k a w1) Q R) ->
  wp (bind m k w) Q R.
Proof.
  intros Hm Hk. unfold bind. destruct (m w) as [a w1| | | |]; simpl in *; auto.
Qed.

Lemma wp_conseq {A} (o : Outcome A) (Q1 Q2 : A -> World -> Prop) (R1 R2 : World -> Prop) :
  wp o Q1 R1 -> (forall a w, Q1 a w -> Q2 a w) -> (forall w, R1 w -> R2 w) -> wp o Q2 R2.
Proof. destruct o; simpl; auto. Qed.

Lemma last_lookup_length {A} (l : list A) i a :
  l !! i = Some a -> S i = length l -> list.last l = Some a.
Proof.
  intros Hi Hlen. rewrite last_lookup. replace (pred (length l)) with i by lia. exact Hi.
Qed.

Lemma find_existsb {A} (p : A -> bool) (l : list A) :
  existsb p l = match find p l with Some _ => true | None => false end.
Proof.
  induction l as [|x l IH]; [reflexivity|]. simpl. destruct (p x); [reflexivity|exact IH].
Qed.

Lemma existsb_orb {A} (p q : A -> bool) (l : list A) :
  existsb (fun x => p x || q x) l = existsb p l || existsb q l.
Proof.
  induction l as [|x l IH]; [reflexivity|]. simpl. rewrite IH.
  destruct (p x), (q x), (existsb p l), (existsb q l); reflexivity.
Qed.

Lemma existsb_andb_const {A} (b : bool) (p : A -> bool) (l : list A) :
  existsb (fun x => b && p x) l = b && existsb p l.
Proof.
  destruct b; simpl; [reflexivity|]. induction l as [|x l IH]; [reflexivity|exact IH].
Qed.

(** What [#registerOption] finds among the options of the command. *)
Lemma registerOption_finds this option w c :
  cmds w !! this = Some c ->
  exists byShort byLong,
    byShort = (if truthy (Opt.short option)
               then find (fun o => OptMethods.is_ o (default "" (Opt.short option)))
                         (options c)
               else None)
    /\ byLong = (if truthy (Opt.long option)
                 then find (fun o => OptMethods.is_ o (default "" (Opt.long option)))
                           (options c)
                 else None)
    /\ registerOption this option w
       = match (match byShort with Some m => Some m | None => byLong end) with
         | Some matchingOption =>
             Throw (ThrowError
               ("Cannot add option '" ++ Opt.flags option ++ "'"
                ++ (if Str.nonempty (_name c)
                    then " to command '" ++ _name c ++ "'" else "")
                ++ " due to conflicting flag '"
                ++ match byLong with
                   | Some _ => opt_to_string (Opt.long option)
                   | None => opt_to_string (Opt.short option)
                   end ++ "'
-  already used by option '" ++ Opt.flags matchingOption ++ "'")) w
         | None =>
             Ok tt (with_cmd this (set_options (options c ++ [option])%list c) w)
         end.
Proof.
  intros Hc. eexists. eexists. split; [reflexivity|]. split; [reflexivity|].
  unfold registerOption.
  assert (Hf : forall (b : bool) arg,
             (if b then _findOption this arg else ret None) w
             = Ok (if b then find (fun o => OptMethods.is_ o arg) (options c) else None) w).
  { intros [] arg; [|reflexivity].
    unfold _findOption. erewrite bind_Ok by (apply get_cmd_ok, Hc). reflexivity. }
  erewrite (bind_Ok _ _ _ _ _ (Hf _ _)). erewrite (bind_Ok _ _ _ _ _ (Hf _ _)).
  match goal with
  | |- context [match (match ?a with Some m => Some m | None => ?b end) with _ => _ end] =>
      destruct a; [|destruct b]
  end.
  - erewrite bind_Ok by (apply get_cmd_ok, Hc). reflexivity.
  - erewrite bind_Ok by (apply get_cmd_ok, Hc). reflexivity.
  - unfold modify_cmd. erewrite bind_Ok by (apply get_cmd_ok, Hc). reflexivity.
Qed.

Lemma clash_found option (l : list Opt.Option) :
  existsb (flag_clash option) l
  = match (match (if truthy (Opt.short option)
                  then find (fun o => OptMethods.is_ o (default "" (Opt.short option))) l
                  else None) with
           | Some m => Some m
           | None => if truthy (Opt.long option)
                     then find (fun o => OptMethods.is_ o (default "" (Opt.long option))) l
                     else None
           end) with
    | Some _ => true
    | None => false
    end.
Proof.
  unfold flag_clash. rewrite existsb_orb, !existsb_andb_const, !find_existsb.
  destruct (truthy (Opt.short option)), (truthy (Opt.long option)); simpl;
    repeat match goal with
           | |- context [find ?p ?l] => destruct (find p l)
           end; reflexivity.
Qed.

Lemma registerOption_throws this option w c :
  cmds w !! this = Some c ->
  existsb (flag_clash option) (options c) = true ->
  exists msg, registerOption this option w = Throw (ThrowError msg) w.
Proof.
  intros Hc Hclash.
  destruct (registerOption_finds this option w c Hc) as (s & l & -> & -> & ->).
  rewrite clash_found in Hclash.
  match goal with
  | |- context [match ?x with Some _ => Throw _ _ | None => _ end] => destruct x
  end; [eexists; reflexivity|discriminate Hclash].
Qed.

Lemma registerOption_returns this option w c :
  cmds w !! this = Some c ->
  existsb (flag_clash option) (options c) = false ->
  registerOption this option w
  = Ok tt (with_cmd this (set_options (options c ++ [option])%list c) w).
Proof.
  intros Hc Hclash.
  destruct (registerOption_finds this option w c Hc) as (s & l & -> & -> & ->).
  rewrite clash_found in Hclash.
  match goal with
  | |- context [match ?x with Some _ => Throw _ _ | None => _ end] => destruct x
  end; [discriminate Hclash|reflexivity].
Qed.

Lemma is_flag key o :
  Str.nonempty key = true -> OptMethods.is_ o key = true ->
  (truthy (Opt.short o) && String.eqb (default "" (Opt.short o)) key)
  || (truthy (Opt.long o) && String.eqb (default "" (Opt.long o)) key) = true.
Proof.
  intros Hk H. unfold OptMethods.is_ in H. apply orb_true_iff in H as [H|H].
  - destruct (Opt.short o) as [s|]; [|discriminate H].
    apply String.eqb_eq in H. subst s. simpl. rewrite Hk, String.eqb_refl. reflexivity.
  - destruct (Opt.long o) as [l|]; [|discriminate H].
    apply String.eqb_eq in H. subst l. simpl. rewrite Hk, String.eqb_refl.
    apply orb_true_r.
Qed.

End BuildFacts.

Module BuildClaims.
Import ValueFacts BuildFacts.

(** X6. [addArgument] keeps the declared arguments such that only the last
    one may be variadic: however the call ends, that holds of the list,
    which is the old list or the old list followed by the new argument. *)
Theorem addArgument_keeps_variadic_last
    (this : nat) (arg : Arg.Argument) (w : World) (c : Command) :
  cmds w !! this = Some c ->
  variadic_last (registeredArguments c) ->
  total (addArgument this arg w)
    (fun w' => exists c',
       cmds w' !! this = Some c'
       /\ variadic_last (registeredArguments c')
       /\ (registeredArguments c' = registeredArguments c
           \/ registeredArguments c' = (registeredArguments c ++ [arg])%list)).
Proof.
  intros Hc Hinv. unfold addArgument.
  erewrite bind_Ok by (apply get_cmd_ok, Hc).
  destruct (match list.last (registeredArguments c) with
            | Some p => Arg.variadic p
            | None => false
            end) eqn:Hlast.
  { simpl. exists c. auto. }
  destruct (Arg.required arg && negb (is_undefined (Arg.defaultValue arg))
            && match Arg.parseArg arg with Some _ => false | None => true end).
  { simpl. exists c. auto. }
  simpl. eexists. split; [apply lookup_insert_eq|]. simpl. split; [|auto].
  intros i a Hi Hv. rewrite length_app. simpl.
  pose proof (lookup_lt_is_Some_1 _ _ (ex_intro _ a Hi)) as Hlt.
  rewrite length_app in Hlt. simpl in Hlt.
  destruct (decide (i < length (registeredArguments c))) as [Hil|Hil]; [|lia].
  exfalso. rewrite lookup_app_l in Hi by exact Hil.
  pose proof (Hinv i a Hi Hv) as Hlen.
  rewrite (last_lookup_length _ _ _ Hi Hlen) in Hlast. congruence.
Qed.

(** [program.argument("<files...>")] on a new command. *)
Lemma addArgument_keeps_variadic_last_witness :
  total (addArgument 0 (Arg.new "<files...>" None) (single (Cmd.new "")))
    (fun w' => exists c',
       cmds w' !! 0 = Some c'
       /\ variadic_last (registeredArguments c')
       /\ (registeredArguments c' = registeredArguments (Cmd.new "")
           \/ registeredArguments c'
              = (registeredArguments (Cmd.new "") ++ [Arg.new "<files...>" None])%list)).
Proof.
  apply (addArgument_keeps_variadic_last 0 (Arg.new "<files...>" None)
           (single (Cmd.new "")) (Cmd.new "")).
  - reflexivity.
  - intros i a Hi. destruct i; discriminate Hi.
Defined.

(** X7. [#registerOption] throws, and changes nothing, when an option
    already registered goes by the short or the long flag of the new
    option; otherwise it appends the option, and then no flag names two
    options if that was so before. *)
Theorem registerOption_keeps_flags_unique
    (this : nat) (option : Opt.Option) (w : World) (c : Command) :
  cmds w !! this = Some c ->
  (existsb (flag_clash option) (options c) = true ->
   exists msg, registerOption this option w = Throw (ThrowError msg) w)
  /\ (existsb (flag_clash option) (options c) = false ->
      registerOption this option w
      = Ok tt (with_cmd this (set_options (options c ++ [option])%list c) w)
      /\ (flags_unique (options c) -> flags_unique (options c ++ [option])%list)).
Proof.
  intros Hc. split; [apply registerOption_throws, Hc|].
  intros Hclash. split; [apply registerOption_returns; assumption|].
  intros Huniq.
  assert (Hnew : forall j p arg,
             options c !! j = Some p -> Str.nonempty arg = true ->
             OptMethods.is_ option arg = true -> OptMethods.is_ p arg = true -> False).
  { intros j p arg Hj Harg Ho Hp.
    assert (Hin : In p (options c)) by (apply list_elem_of_In, (list_elem_of_lookup_2 _ j), Hj).
    assert (Hcl : flag_clash option p = true).
    { unfold flag_clash. pose proof (is_flag arg option Harg Ho) as H.
      apply orb_true_iff in H as [H|H]; apply andb_prop in H as [Ht He];
        apply String.eqb_eq in He; rewrite He, Ht, Hp; simpl;
        [reflexivity|apply orb_true_r]. }
    assert (existsb (flag_clash option) (options c) = true)
      by (apply existsb_exists; eauto).
    congruence. }
  intros i j o p arg Hi Hj Harg Ho Hp.
  destruct (decide (i < length (options c))) as [Hil|Hil];
    destruct (decide (j < length (options c))) as [Hjl|Hjl].
  - rewrite lookup_app_l in Hi, Hj by assumption. eauto.
  - rewrite lookup_app_l in Hi by assumption.
    rewrite lookup_app_r in Hj by lia.
    destruct (j - length (options c)) eqn:E; [|destruct n; discriminate Hj].
    injection Hj as <-. exfalso. eauto.
  - rewrite lookup_app_l in Hj by assumption.
    rewrite lookup_app_r in Hi by lia.
    destruct (i - length (options c)) eqn:E; [|destruct n; discriminate Hi].
    injection Hi as <-. exfalso. eauto.
  - pose proof (lookup_lt_is_Some_1 _ _ (ex_intro _ o Hi)) as Hi'.
    pose proof (lookup_lt_is_Some_1 _ _ (ex_intro _ p Hj)) as Hj'.
    rewrite length_app in Hi', Hj'. simpl in *. lia.
Qed.

(** A second option with the short flag [-p] is refused. *)
Lemma registerOption_keeps_flags_unique_witness :
  exists msg,
    registerOption 0 (Opt.new "-p, --pizza") port_world
    = Throw (ThrowError msg) port_world.
Proof.
  apply (proj1 (registerOption_keeps_flags_unique 0 (Opt.new "-p, --pizza") port_world
                  (program_of port_world) ltac:(vm_compute; reflexivity))).
  vm_compute. reflexivity.
Defined.

End BuildClaims.

Module OptionFacts.
Import ValueFacts BuildFacts.

Lemma on_ok this ev l w c :
  cmds w !! this = Some c ->
  on this ev l w
  = Ok tt (with_cmd this (set_listeners (listeners c ++ [(ev, l)])%list c) w).
Proof.
  intros Hc. unfold on, modify_cmd. erewrite bind_Ok by (apply get_cmd_ok, Hc). reflexivity.
Qed.

Lemma listeners_assign k v s c1 :
  listeners (assign_value k v s c1) = listeners c1
  /\ options (assign_value k v s c1) = options c1.
Proof. unfold assign_value. destruct (_storeOptionsAsProperties c1); split; reflexivity. Qed.

Section Invariant.

Variable this : nat.
Variable option : Opt.Option.
Variable c : Command.

(** A property of the command that holds once the option is registered
    and that the later steps of [addOption] keep. *)
Variable Inv : Command -> Prop.
Hypothesis Inv_registered : Inv (set_options (options c ++ [option])%list c).
Hypothesis Inv_assign : forall c1 k v s, Inv c1 -> Inv (assign_value k v s c1).
Hypothesis Inv_listener :
  forall c1 oname key,
    Inv c1 -> OptMethods.name option = Some oname ->
    OptMethods.attributeName option = Some key ->
    Inv (set_listeners
           (listeners c1 ++ [(("option:" ++ oname)%string, OnOption (length (options c)) key)])%list
           c1).
Hypothesis Inv_env_listener :
  forall c1 oname key,
    Inv c1 -> OptMethods.name option = Some oname ->
    OptMethods.attributeName option = Some key ->
    Inv (set_listeners
           (listeners c1
            ++ [(("optionEnv:" ++ oname)%string, OnOptionEnv (length (options c)) key)])%list
           c1).

Lemma assign_keeps k v s w :
  (exists c1, cmds w !! this = Some c1 /\ Inv c1) ->
  wp (setOptionValueWithSource this k v s w)
     (fun _ w' => exists c', cmds w' !! this = Some c' /\ Inv c')
     (fun w' => exists c', cmds w' !! this = Some c' /\ (c' = c \/ Inv c')).
Proof.
  intros (c1 & Hc1 & HI). rewrite (setOptionValueWithSource_ok _ _ _ _ _ _ Hc1). simpl.
  eexists. split; [apply lookup_insert_eq|]. apply Inv_assign, HI.
Qed.

Lemma addOption_inv w :
  cmds w !! this = Some c ->
  wp (addOption this option w)
     (fun _ w' => exists c', cmds w' !! this = Some c' /\ Inv c')
     (fun w' => exists c', cmds w' !! this = Some c' /\ (c' = c \/ Inv c')).
Proof.
  intros Hc. unfold addOption.
  erewrite bind_Ok by (apply get_cmd_ok, Hc).
  destruct (existsb (flag_clash option) (options c)) eqn:Hclash.
  { destruct (registerOption_throws this option w c Hc Hclash) as [msg E].
    erewrite bind_Throw by exact E. simpl. exists c. auto. }
  erewrite bind_Ok by (apply (registerOption_returns this option w c Hc Hclash)).
  set (c1 := set_options (options c ++ [option])%list c).
  set (w1 := with_cmd this c1 w).
  assert (H1 : exists c', cmds w1 !! this = Some c' /\ Inv c').
  { exists c1. split; [apply with_cmd_lookup|exact Inv_registered]. }
  assert (HR : forall w', (exists c', cmds w' !! this = Some c' /\ Inv c') ->
                          exists c', cmds w' !! this = Some c' /\ (c' = c \/ Inv c')).
  { intros w' (c' & H & HI). exists c'. auto. }
  destruct (OptMethods.name option) as [oname|] eqn:Hname.
  2:{ erewrite bind_Throw by reflexivity. exact (HR w1 H1). }
  erewrite bind_Ok by reflexivity.
  destruct (OptMethods.attributeName option) as [key|] eqn:Hkey.
  2:{ erewrite bind_Throw by reflexivity. exact (HR w1 H1). }
  erewrite bind_Ok by reflexivity.
  eapply wp_bind with (Q1 := fun _ w2 => exists c', cmds w2 !! this = Some c' /\ Inv c').
  { destruct (Opt.negate option).
    - destruct (Opt.long option) as [l|].
      2:{ erewrite bind_Throw by reflexivity. exact (HR w1 H1). }
      erewrite bind_Ok by reflexivity.
      destruct H1 as (c' & Hc' & HI).
      erewrite bind_Ok by (apply ParseFacts.findOption_ok, Hc').
      destruct (find _ (options c')).
      + simpl. eauto.
      + apply assign_keeps. eauto.
    - destruct (negb (is_undefined (Opt.defaultValue option))).
      + apply assign_keeps, H1.
      + simpl. exact H1. }
  intros _ w2 _ (c2 & Hc2 & HI2).
  erewrite bind_Ok by (apply on_ok, Hc2).
  destruct (truthy (Opt.envVar option)).
  - erewrite on_ok by apply with_cmd_lookup. simpl.
    eexists. split; [apply lookup_insert_eq|].
    apply Inv_env_listener; auto.
  - simpl. eexists. split; [apply lookup_insert_eq|]. apply Inv_listener; auto.
Qed.

End Invariant.

End OptionFacts.

Module OptionClaims.
Import ValueFacts BuildFacts OptionFacts.

Lemma tied_wf c1 : listeners_tied c1 -> listeners_wf c1 /\ listeners_in_range c1.
Proof.
  intros Ht. split; intros ev l Hin; specialize (Ht ev l Hin); destruct l.
  - destruct Ht as (o & nm & _ & _ & E & _). eauto.
  - destruct Ht as (o & nm & _ & Hname & E & Hkey). exists nm. split; [exact E|].
    unfold OptMethods.attributeName in Hkey. rewrite Hname in Hkey. exact Hkey.
  - destruct Ht as (o & nm & _ & _ & E). eauto.
  - destruct Ht as (o & nm & Ho & _). apply (lookup_lt_Some _ _ _ Ho).
  - destruct Ht as (o & nm & Ho & _). apply (lookup_lt_Some _ _ _ Ho).
  - exact I.
Qed.

Lemma tied_snoc c1 ev l :
  listeners_tied c1 ->
  match l with
  | OnOption index attr =>
      exists o nm,
        options c1 !! index = Some o /\ OptMethods.name o = Some nm
        /\ ev = "option:" ++ nm /\ OptMethods.attributeName o = Some attr
  | OnOptionEnv index attr =>
      exists o nm,
        options c1 !! index = Some o /\ OptMethods.name o = Some nm
        /\ ev = "optionEnv:" ++ nm /\ OptMethods.attributeName o = Some attr
  | OnVersion _ =>
      exists o nm,
        In o (options c1) /\ OptMethods.name o = Some nm /\ ev = "option:" ++ nm
  end ->
  listeners_tied (set_listeners (listeners c1 ++ [(ev, l)])%list c1).
Proof.
  intros Ht Hnew ev' l' Hin. simpl in Hin. apply in_app_or in Hin as [Hin|[E|[]]].
  - apply (Ht ev' l' Hin).
  - injection E as <- <-. exact Hnew.
Qed.

Lemma tied_more_options c1 o :
  listeners_tied c1 ->
  listeners_tied (set_options (options c1 ++ [o])%list c1).
Proof.
  intros Ht ev l Hin. specialize (Ht ev l Hin). simpl.
  destruct l.
  - destruct Ht as (o' & nm & Ho & H). exists o', nm. split; [|exact H].
    rewrite lookup_app_l; [exact Ho|apply (lookup_lt_Some _ _ _ Ho)].
  - destruct Ht as (o' & nm & Ho & H). exists o', nm. split; [|exact H].
    rewrite lookup_app_l; [exact Ho|apply (lookup_lt_Some _ _ _ Ho)].
  - destruct Ht as (o' & nm & Ho & H). exists o', nm. split; [|exact H].
    apply in_or_app. left. exact Ho.
Qed.

(** X8. [addOption] and [version] register listeners that are tied to the
    options of the command: a listener for the value of an option, from
    the command line or from the environment, refers by its index to an
    option of the command, is registered under the event of the name of
    that very option and writes the attribute of that option; the listener
    of [version] is registered under the event of an option of the
    command. When the listeners of the command are such before the call,
    the call ends, and they are such however it ends. The listeners of a
    new command are such, there being none; and listeners that are tied in
    this way are registered under their kind of event and refer to an
    index within the options. *)
Theorem builders_keep_listeners (this : nat) (w : World) (c : Command) :
  cmds w !! this = Some c -> listeners_tied c ->
  (forall option, total (addOption this option w) (tied this))
  /\ (forall str flags, total (version this str flags w) (tied this))
  /\ listeners_wf c /\ listeners_in_range c.
Proof.
  intros Hc Ht. split; [|split; [|apply tied_wf, Ht]].
  - intros option.
    pose proof (addOption_inv this option c
                  (fun c1 => listeners_tied c1
                             /\ options c1 !! length (options c) = Some option)) as H.
    eapply wp_conseq; [apply H; clear H| |].
    + split; [apply tied_more_options, Ht|].
      simpl. apply list_lookup_middle. reflexivity.
    + intros c1 k v s (H1 & H2).
      destruct (listeners_assign k v s c1) as [El Eo].
      unfold listeners_tied. rewrite El, Eo. auto.
    + intros c1 oname key (H1 & H2) Hname Hkey. split; [|exact H2].
      apply tied_snoc; [exact H1|]. exists option, oname. auto.
    + intros c1 oname key (H1 & H2) Hname Hkey. split; [|exact H2].
      apply tied_snoc; [exact H1|]. exists option, oname. auto.
    + exact Hc.
    + intros _ w' (c' & Hc' & H1 & _). exists c'. auto.
    + intros w' (c' & Hc' & [E|(H1 & _)]); exists c'; subst; auto.
  - intros str flags. unfold version.
    set (o := Opt.new (if truthy flags then default "" flags else "-V, --version")).
    destruct (OptMethods.attributeName o) as [key|].
    2:{ erewrite bind_Throw by reflexivity. exists c. auto. }
    erewrite bind_Ok by reflexivity.
    destruct (existsb (flag_clash o) (options c)) eqn:Hclash.
    { destruct (registerOption_throws this o w c Hc Hclash) as [msg E].
      erewrite bind_Throw by exact E. exists c. auto. }
    erewrite bind_Ok by (apply (registerOption_returns this o w c Hc Hclash)).
    destruct (OptMethods.name o) as [oname|] eqn:Hname.
    2:{ erewrite bind_Throw by reflexivity. eexists.
        split; [apply with_cmd_lookup|]. apply tied_more_options, Ht. }
    erewrite bind_Ok by reflexivity.
    erewrite on_ok by apply with_cmd_lookup.
    eexists. split; [apply with_cmd_lookup|].
    apply tied_snoc; [apply tied_more_options, Ht|].
    exists o, oname. split; [|auto]. simpl. apply in_or_app. right. left. reflexivity.
Qed.

(** [new Command().addOption(new Option("-p, --port <n>")...)]. *)
Lemma builders_keep_listeners_witness :
  total (addOption 0 port_option (single (Cmd.new ""))) (tied 0).
Proof.
  apply (proj1 (builders_keep_listeners 0 (single (Cmd.new "")) (Cmd.new "")
                  eq_refl ltac:(intros ev l []))).
Defined.

(** X9. [storeOptionsAsProperties] has to be called before options are
    added and before option values are set: once [addOption] has returned
    it throws, and once a value is stored in the separate object it
    throws. The value is stored under any key but [__proto__], the one key
    at which the assignment creates no property. *)
Theorem storeOptionsAsProperties_comes_first
    (this : nat) (b : bool) (w : World) (c : Command) :
  cmds w !! this = Some c ->
  (forall option w',
      addOption this option w = Ok tt w' ->
      storeOptionsAsProperties this b w'
      = Throw (ThrowError "call .storeOptionsAsProperties() before adding options") w')
  /\ (options c = [] -> _storeOptionsAsProperties c = false ->
      forall key v s,
      key <> "__proto__" ->
      exists w',
        setOptionValueWithSource this key v s w = Ok tt w'
        /\ storeOptionsAsProperties this b w'
           = Throw (ThrowError
                      "call .storeOptionsAsProperties() before setting option values") w').
Proof.
  intros Hc. split.
  - intros option w' Hadd.
    pose proof (addOption_inv this option c
                  (fun c1 => options c1 = (options c ++ [option])%list)) as H.
    assert (Hwp : wp (addOption this option w)
                     (fun _ w' => exists c', cmds w' !! this = Some c'
                                            /\ options c' = (options c ++ [option])%list)
                     (fun w' => exists c', cmds w' !! this = Some c'
                                 /\ (c' = c \/ options c' = (options c ++ [option])%list))).
    { apply H; clear H.
      - reflexivity.
      - intros c1 k v s E. destruct (listeners_assign k v s c1) as [_ Eo]. congruence.
      - intros c1 oname key E _ _. exact E.
      - intros c1 oname key E _ _. exact E.
      - exact Hc. }
    rewrite Hadd in Hwp. destruct Hwp as (c' & Hc' & Eo).
    unfold storeOptionsAsProperties. erewrite bind_Ok by (apply get_cmd_ok, Hc').
    rewrite Eo, length_app. simpl.
    replace (Nat.eqb (length (options c) + 1) 0) with false
      by (symmetry; apply Nat.eqb_neq; lia).
    reflexivity.
  - intros Hopts Hmode key v s _. eexists. split.
    + apply (setOptionValueWithSource_ok _ _ _ _ _ _ Hc).
    + unfold storeOptionsAsProperties.
      erewrite bind_Ok by (apply get_cmd_ok, with_cmd_lookup).
      unfold assign_value. rewrite Hmode. simpl. rewrite Hopts. simpl.
      replace (Nat.eqb (size (<[key := v]> (optionValues c))) 0) with false; [reflexivity|].
      symmetry. apply Nat.eqb_neq. intros Hsize.
      apply map_size_empty_inv in Hsize.
      apply (insert_non_empty (optionValues c) key v Hsize).
Qed.

(** [program.option("--verbose").storeOptionsAsProperties()]. *)
Lemma storeOptionsAsProperties_comes_first_witness :
  storeOptionsAsProperties 0 true
    (world_after (addOption 0 verbose_option) (single (Cmd.new "")))
  = Throw (ThrowError "call .storeOptionsAsProperties() before adding options")
          (world_after (addOption 0 verbose_option) (single (Cmd.new ""))).
Proof.
  apply (proj1 (storeOptionsAsProperties_comes_first 0 true (single (Cmd.new ""))
                  (Cmd.new "") eq_refl) verbose_option).
  vm_compute. reflexivity.
Defined.

End OptionClaims.

Module DefaultClaims.
Import ValueFacts BuildFacts OptionFacts.

Lemma value_of_assign key v s x :
  value_of (assign_value key v s x) key = v /\ source_of (assign_value key v s x) key = s.
Proof. apply assign_value_read. Qed.

(** X10. A negated option that is added to a command makes its attribute
    default to [true] (or to the default value of the option, when it has
    one), with the source ["default"], unless the positive form of its
    long flag is a flag of the command; then the value and its source stay
    as they are. The option is one that [#registerOption] accepts and that
    has a long flag, and so a name and an attribute name; the command
    keeps its option values in the separate object, and the attribute name
    is none of the member names that this object inherits. *)
Theorem negated_option_defaults_to_true
    (this : nat) (option : Opt.Option) (w : World) (c : Command)
    (oname key l : string) :
  cmds w !! this = Some c ->
  existsb (flag_clash option) (options c) = false ->
  Opt.negate option = true ->
  OptMethods.name option = Some oname ->
  OptMethods.attributeName option = Some key ->
  Opt.long option = Some l ->
  _storeOptionsAsProperties c = false ->
  ordinary_key key = true ->
  exists w' c',
    addOption this option w = Ok tt w'
    /\ cmds w' !! this = Some c'
    /\ options c' = (options c ++ [option])%list
    /\ (find (fun o => OptMethods.is_ o (positiveLongFlag l)) (options c ++ [option])%list
        = None ->
        value_of c' key = (if is_undefined (Opt.defaultValue option) then VBool true
                           else Opt.defaultValue option)
        /\ source_of c' key = VStr "default")
    /\ (find (fun o => OptMethods.is_ o (positiveLongFlag l)) (options c ++ [option])%list
        <> None ->
        value_of c' key = value_of c key /\ source_of c' key = source_of c key).
Proof.
  intros Hc Hclash Hneg Hname Hkey Hlong _ _.
  set (c1 := set_options (options c ++ [option])%list c).
  assert (Hrun : forall w1 cx,
    cmds w1 !! this = Some cx ->
    (on this ("option:" ++ oname) (OnOption (length (options c)) key) ;;;
     (if truthy (Opt.envVar option)
      then on this ("optionEnv:" ++ oname) (OnOptionEnv (length (options c)) key)
      else ret tt)) w1
    = Ok tt (with_cmd this
               (if truthy (Opt.envVar option)
                then set_listeners
                       ((listeners cx
                         ++ [(("option:" ++ oname)%string, OnOption (length (options c)) key)])
                        ++ [(("optionEnv:" ++ oname)%string,
                             OnOptionEnv (length (options c)) key)])%list cx
                else set_listeners
                       (listeners cx
                        ++ [(("option:" ++ oname)%string, OnOption (length (options c)) key)])%list
                       cx) w1)).
  { intros w1 cx Hcx. erewrite bind_Ok by (apply on_ok, Hcx).
    destruct (truthy (Opt.envVar option)).
    - erewrite on_ok by apply with_cmd_lookup. unfold with_cmd. simpl.
      rewrite insert_insert_eq. reflexivity.
    - reflexivity. }
  assert (Hstart :
    addOption this option w
    = ((positive <- _findOption this (positiveLongFlag l) ;;
        match positive with
        | Some _ => ret tt
        | None =>
            setOptionValueWithSource this key
              (if is_undefined (Opt.defaultValue option) then VBool true
               else Opt.defaultValue option) (VStr "default")
        end) ;;;
       on this ("option:" ++ oname) (OnOption (length (options c)) key) ;;;
       (if truthy (Opt.envVar option)
        then on this ("optionEnv:" ++ oname) (OnOptionEnv (length (options c)) key)
        else ret tt)) (with_cmd this c1 w)).
  { unfold addOption.
    erewrite bind_Ok by (apply get_cmd_ok, Hc).
    erewrite bind_Ok by (apply (registerOption_returns this option w c Hc Hclash)).
    rewrite Hname, Hkey, Hneg, Hlong.
    erewrite bind_Ok by reflexivity. erewrite bind_Ok by reflexivity.
    apply ParseFacts.bind_cong. erewrite bind_Ok by reflexivity. reflexivity. }
  rewrite Hstart. clear Hstart.
  assert (H1 : cmds (with_cmd this c1 w) !! this = Some c1) by apply with_cmd_lookup.
  change (options c1) with (options c ++ [option])%list in *.
  destruct (find (fun o => OptMethods.is_ o (positiveLongFlag l)) (options c ++ [option])%list)
    as [p|] eqn:Hfind.
  - erewrite (bind_Ok (bind _ _)).
    2:{ erewrite bind_Ok by (apply ParseFacts.findOption_ok, H1).
        change (options c1) with (options c ++ [option])%list. rewrite Hfind. reflexivity. }
    eexists. eexists. split; [apply (Hrun _ c1 H1)|].
    split; [apply with_cmd_lookup|].
    split; [destruct (truthy (Opt.envVar option)); reflexivity|].
    split; [discriminate|]. intros _.
    destruct (truthy (Opt.envVar option)); split; reflexivity.
  - erewrite (bind_Ok (bind _ _)).
    2:{ erewrite bind_Ok by (apply ParseFacts.findOption_ok, H1).
        change (options c1) with (options c ++ [option])%list. rewrite Hfind.
        apply (setOptionValueWithSource_ok _ _ _ _ _ _ H1). }
    eexists. eexists. split; [apply (Hrun _ _ (with_cmd_lookup _ _ _))|].
    split; [apply with_cmd_lookup|].
    split.
    { pose proof (proj2 (listeners_assign key
                  (if is_undefined (Opt.defaultValue option) then VBool true
                   else Opt.defaultValue option) (VStr "default") c1)) as HO.
      destruct (truthy (Opt.envVar option)); exact HO. }
    split; [|intros H; contradiction].
    intros _.
    pose proof (value_of_assign key
                  (if is_undefined (Opt.defaultValue option) then VBool true
                   else Opt.defaultValue option) (VStr "default") c1) as HV.
    destruct (truthy (Opt.envVar option)); exact HV.
Qed.

(** [program.option("--no-sauce")] on a new command. *)
Lemma negated_option_defaults_to_true_witness :
  exists w' c',
    addOption 0 (Opt.new "--no-sauce") (single (Cmd.new "")) = Ok tt w'
    /\ cmds w' !! 0 = Some c'
    /\ options c' = (options (Cmd.new "") ++ [Opt.new "--no-sauce"])%list
    /\ (find (fun o => OptMethods.is_ o (positiveLongFlag "--no-sauce"))
             (options (Cmd.new "") ++ [Opt.new "--no-sauce"])%list = None ->
        value_of c' "sauce"
        = (if is_undefined (Opt.defaultValue (Opt.new "--no-sauce")) then VBool true
           else Opt.defaultValue (Opt.new "--no-sauce"))
        /\ source_of c' "sauce" = VStr "default")
    /\ (find (fun o => OptMethods.is_ o (positiveLongFlag "--no-sauce"))
             (options (Cmd.new "") ++ [Opt.new "--no-sauce"])%list <> None ->
        value_of c' "sauce" = value_of (Cmd.new "") "sauce"
        /\ source_of c' "sauce" = source_of (Cmd.new "") "sauce").
Proof.
  apply (negated_option_defaults_to_true 0 (Opt.new "--no-sauce") (single (Cmd.new ""))
           (Cmd.new "") "no-sauce" "sauce" "--no-sauce"); reflexivity.
Defined.

End DefaultClaims.

(** ** The walk to the root and the checks after parsing *)

Module WalkFacts.
Import ValueFacts.

Lemma chain_unique w path1 :
  forall l path2, parent_chain w l path1 -> parent_chain w l path2 -> path1 = path2.
Proof.
  induction path1 as [|x rest IH]; intros l path2 H1 H2; [destruct H1|].
  destruct path2 as [|y rest2]; [destruct H2|].
  destruct H1 as (-> & c1 & Hc1 & H1). destruct H2 as (-> & c2 & Hc2 & H2).
  rewrite Hc1 in Hc2. injection Hc2 as <-. f_equal.
  destruct rest as [|p rest]; destruct rest2 as [|q rest2].
  - reflexivity.
  - destruct H2 as [H2 _]. congruence.
  - destruct H1 as [H1 _]. congruence.
  - destruct H1 as [E1 H1]. destruct H2 as [E2 H2].
    assert (p = q) by congruence. subst q. apply (IH p); assumption.
Qed.

Lemma chain_suffix w pre :
  forall l x post, parent_chain w l (pre ++ x :: post)%list -> parent_chain w x (x :: post).
Proof.
  induction pre as [|y pre IH]; intros l x post H.
  - simpl in H. destruct H as (-> & H). split; [reflexivity|exact H].
  - simpl in H. destruct H as (-> & c & Hc & H).
    destruct (pre ++ x :: post)%list as [|p rest] eqn:E.
    { destruct pre; discriminate E. }
    destruct H as [_ H]. rewrite <- E in H. apply (IH p), H.
Qed.

Lemma chain_head w l path : parent_chain w l path -> exists rest, path = l :: rest.
Proof. destruct path as [|x rest]; [intros []|]. intros (-> & _). eauto. Qed.

Lemma chain_NoDup w path : forall l, parent_chain w l path -> NoDup path.
Proof.
  induction path as [|x rest IH]; intros l H; [destruct H|].
  pose proof H as (-> & c & Hc & Hrest).
  constructor.
  - intros Hin. apply list_elem_of_In in Hin. apply in_split in Hin as (pre & post & E).
    assert (H' : parent_chain w l (l :: post)).
    { apply (chain_suffix w (l :: pre) l l post). simpl. rewrite <- E. exact H. }
    pose proof (chain_unique w _ l _ H H') as Eq. injection Eq as Eq.
    rewrite E in Eq at 1. apply (f_equal (@length nat)) in Eq.
    rewrite length_app in Eq. simpl in Eq. lia.
  - destruct rest as [|p rest']; [constructor|].
    destruct Hrest as [_ Hrest]. apply (IH p), Hrest.
Qed.

Lemma chain_in_world w path :
  forall l, parent_chain w l path -> forall x, In x path -> is_Some (cmds w !! x).
Proof.
  induction path as [|y rest IH]; intros l H x Hin; [destruct H|].
  destruct H as (-> & c & Hc & Hrest). destruct Hin as [<-|Hin]; [eauto|].
  destruct rest as [|p rest']; [destruct Hin|].
  destruct Hrest as [_ Hrest]. apply (IH p Hrest x Hin).
Qed.

Lemma chain_length w l path : parent_chain w l path -> length path <= size (cmds w).
Proof.
  intros H. rewrite <- size_dom.
  assert (Hsub : path ⊆+ elements (dom (cmds w))).
  { apply NoDup_submseteq; [apply (chain_NoDup w path l H)|].
    intros x Hx. apply elem_of_elements. apply list_elem_of_In in Hx.
    destruct (chain_in_world w path l H x Hx) as [c Hc]. apply (elem_of_dom_2 _ _ _ Hc). }
  apply submseteq_length in Hsub. exact Hsub.
Qed.

Lemma walk_chain w path :
  forall fuel l, parent_chain w l path -> length path <= fuel ->
                 walk_parents fuel l w = Ok path w.
Proof.
  induction path as [|x rest IH]; intros fuel l H Hlen; [destruct H|].
  destruct H as (-> & c & Hc & Hrest).
  destruct fuel as [|fuel]; [simpl in Hlen; lia|].
  simpl. erewrite bind_Ok by (apply get_cmd_ok, Hc).
  destruct rest as [|p rest'].
  - rewrite Hrest. reflexivity.
  - destruct Hrest as [-> Hrest].
    erewrite bind_Ok by (apply (IH fuel p Hrest); simpl in *; lia). reflexivity.
Qed.

Lemma walk_returns fuel :
  forall l w path w', walk_parents fuel l w = Ok path w' ->
                      w' = w /\ parent_chain w l path.
Proof.
  induction fuel as [|fuel IH]; intros l w path w' H; [discriminate H|].
  simpl in H. unfold bind at 1 in H. unfold get_cmd in H.
  destruct (cmds w !! l) as [c|] eqn:Hc; [|discriminate H].
  destruct (parent c) as [p|] eqn:Hp.
  - unfold bind in H. destruct (walk_parents fuel p w) as [rest w1| | | |] eqn:Hw;
      try discriminate H.
    unfold ret in H. injection H as <- <-.
    destruct (IH p w rest w1 Hw) as [-> Hrest]. split; [reflexivity|].
    split; [reflexivity|]. exists c. split; [exact Hc|].
    destruct (chain_head w p rest Hrest) as [rest' ->]. split; [exact Hp|exact Hrest].
  - unfold ret in H. injection H as <- <-. split; [reflexivity|].
    split; [reflexivity|]. exists c. auto.
Qed.

(** The walk returns the chain of parents. *)
Lemma ancestors_chain this w path :
  parent_chain w this path -> getCommandAndAncestors this w = Ok path w.
Proof.
  intros H. unfold getCommandAndAncestors, bind, get_world.
  apply walk_chain; [exact H|]. pose proof (chain_length w this path H). lia.
Qed.

End WalkFacts.

Module WalkClaims.
Import ValueFacts WalkFacts.

(** X11. [#getCommandAndAncestors] returns a list exactly when that list
    is the chain of parents: the command, its parent, and so on up to a
    command without parent; and it leaves the world as it is. *)
Theorem getCommandAndAncestors_is_parent_chain
    (this : nat) (w : World) (path : list nat) :
  (parent_chain w this path -> getCommandAndAncestors this w = Ok path w)
  /\ (forall w', getCommandAndAncestors this w = Ok path w' ->
                 w' = w /\ parent_chain w this path).
Proof.
  split; [apply ancestors_chain|].
  intros w' H. unfold getCommandAndAncestors, bind, get_world in H.
  apply (walk_returns _ _ _ _ _ H).
Qed.

(** The subcommand at [1] of the program at [0]. *)
Lemma getCommandAndAncestors_is_parent_chain_witness :
  getCommandAndAncestors 1 hooks_world = Ok [1; 0] hooks_world.
Proof.
  apply (proj1 (getCommandAndAncestors_is_parent_chain 1 hooks_world [1; 0])).
  split; [reflexivity|]. eexists. split; [reflexivity|]. split; [reflexivity|].
  split; [reflexivity|]. eexists. split; reflexivity.
Defined.

End WalkClaims.

Module CheckFacts.
Import ValueFacts WalkFacts.

(** A loop of checks, each of which returns or exits without changing the
    world, ends at the first that exits. *)
Lemma for_each_first {A} (body : A -> M unit) (p : A -> bool)
    (e : A -> CommanderError) w (l : list A) :
  (forall x, In x l -> body x w = if p x then Exit (e x) w else Ok tt w) ->
  for_each l body w = match find p l with
                      | Some x => Exit (e x) w
                      | None => Ok tt w
                      end.
Proof.
  induction l as [|x l IH]; intros Hb; [reflexivity|].
  simpl. unfold bind. rewrite (Hb x (or_introl eq_refl)).
  destruct (p x); [reflexivity|]. apply IH. intros y Hy. apply Hb. right. exact Hy.
Qed.

Lemma last_source_run key w path :
  (forall l, In l path -> is_Some (cmds w !! l)) ->
  forall acc,
    last_source key path acc w
    = Ok (fold_left (fun a l =>
                       match cmds w !! l with
                       | Some c => if negb (is_undefined (source_of c key))
                                   then source_of c key else a
                       | None => a
                       end) path acc) w.
Proof.
  induction path as [|l path IH]; intros Hall acc; [reflexivity|].
  destruct (Hall l (or_introl eq_refl)) as [c Hc].
  simpl. erewrite bind_Ok by (apply getOptionValueSource_ok, Hc).
  rewrite Hc. apply IH. intros x Hx. apply Hall. right. exact Hx.
Qed.

Lemma fold_no_source key w post :
  Forall (no_source w key) post ->
  forall acc,
    fold_left (fun a l =>
                 match cmds w !! l with
                 | Some c => if negb (is_undefined (source_of c key))
                             then source_of c key else a
                 | None => a
                 end) post acc = acc.
Proof.
  induction 1 as [|l post (c & Hc & Hs) _ IH]; intros acc; [reflexivity|].
  simpl. rewrite Hc, Hs. simpl. apply IH.
Qed.

End CheckFacts.

Module GlobalsClaims.
Import ValueFacts WalkFacts CheckFacts.

(** X12. [getOptionValueSourceWithGlobals] returns the source that the
    key has at the outermost command of the chain of parents that has one
    for it, global before local, and [undefined] when none has. The key is
    none of the member names that the object of the sources inherits. *)
Theorem global_source_wins (this : nat) (key : string) (w : World) (path : list nat) :
  parent_chain w this path ->
  ordinary_key key = true ->
  (forall pre l post c,
      path = (pre ++ l :: post)%list -> cmds w !! l = Some c ->
      source_of c key <> VUndefined -> Forall (no_source w key) post ->
      getOptionValueSourceWithGlobals this key w = Ok (source_of c key) w)
  /\ (Forall (no_source w key) path ->
      getOptionValueSourceWithGlobals this key w = Ok VUndefined w).
Proof.
  intros Hchain _.
  assert (Hrun : getOptionValueSourceWithGlobals this key w
                 = last_source key path VUndefined w).
  { unfold getOptionValueSourceWithGlobals.
    erewrite bind_Ok by (apply ancestors_chain, Hchain). reflexivity. }
  rewrite Hrun, (last_source_run key w path (chain_in_world w path this Hchain)).
  split.
  - intros pre l post c -> Hc Hs Hpost.
    rewrite fold_left_app. simpl. rewrite Hc.
    apply is_undefined_false in Hs. rewrite Hs. simpl.
    rewrite (fold_no_source key w post Hpost). reflexivity.
  - intros Hall. rewrite (fold_no_source key w path Hall). reflexivity.
Qed.

(** The subcommand has [verbose] by default, the program from the command
    line. *)
Lemma global_source_wins_witness :
  getOptionValueSourceWithGlobals 1 "verbose" sources_world
  = Ok (VStr "cli") sources_world.
Proof.
  assert (Hchain : parent_chain sources_world 1 [1; 0]).
  { split; [reflexivity|]. eexists. split; [reflexivity|]. split; [reflexivity|].
    split; [reflexivity|]. eexists. split; reflexivity. }
  refine (proj1 (global_source_wins 1 "verbose" sources_world [1; 0] Hchain eq_refl)
            [1] 0 [] _ eq_refl eq_refl _ _).
  - discriminate.
  - constructor.
Defined.

End GlobalsClaims.

Module MandatoryFacts.
Import ValueFacts WalkFacts CheckFacts.

(** The first mandatory option of the list that has no value. *)
Lemma mandatory_loop cmd w c :
  cmds w !! cmd = Some c ->
  (forall o, In o (options c) -> Opt.mandatory o = true -> named o) ->
  for_each (options c) (fun anOption =>
    if Opt.mandatory anOption then
      key <- or_type_error (OptMethods.attributeName anOption) ;;
      v <- getOptionValue cmd key ;;
      if is_undefined v then missingMandatoryOptionValue cmd anOption
      else ret tt
    else ret tt) w
  = match find (fun o => Opt.mandatory o
                         && match OptMethods.attributeName o with
                            | Some key => is_undefined (value_of c key)
                            | None => false
                            end) (options c) with
    | Some o =>
        Exit {| exitCode := 1; code := "commander.missingMandatoryOptionValue";
                message := "error: required option '" ++ Opt.flags o
                           ++ "' not specified" |} w
    | None => Ok tt w
    end.
Proof.
  intros Hc Hnamed.
  apply (for_each_first _ _
           (fun o => {| exitCode := 1; code := "commander.missingMandatoryOptionValue";
                        message := "error: required option '" ++ Opt.flags o
                                   ++ "' not specified" |})).
  intros o Hin. destruct (Opt.mandatory o) eqn:Hm; [|reflexivity].
  destruct (Hnamed o Hin Hm) as [key Hkey]. rewrite Hkey. simpl andb.
  erewrite bind_Ok by reflexivity.
  erewrite bind_Ok by (apply getOptionValue_ok, Hc).
  fold (value_of c key). destruct (is_undefined (value_of c key)); reflexivity.
Qed.

Lemma find_lacking c :
  (exists o key, In o (options c) /\ Opt.mandatory o = true
                 /\ OptMethods.attributeName o = Some key /\ value_of c key = VUndefined)
  <-> find (fun o => Opt.mandatory o
                     && match OptMethods.attributeName o with
                        | Some key => is_undefined (value_of c key)
                        | None => false
                        end) (options c) <> None.
Proof.
  split.
  - intros (o & key & Hin & Hm & Hk & Hv) Hnone.
    pose proof (find_none _ _ Hnone o Hin) as H. simpl in H.
    rewrite Hm, Hk, Hv in H. discriminate H.
  - intros H.
    destruct (find _ (options c)) as [o|] eqn:Hf; [|contradiction].
    apply find_some in Hf as [Hin Hp]. apply andb_prop in Hp as [Hm Hv].
    destruct (OptMethods.attributeName o) as [key|] eqn:Hk; [|discriminate Hv].
    apply is_undefined_true in Hv. eauto 10.
Qed.

End MandatoryFacts.

Module MandatoryClaims.
Import ValueFacts WalkFacts CheckFacts MandatoryFacts.

(** X13. [#checkForMissingMandatoryOptions] exits with the code
    [commander.missingMandatoryOptionValue] when a command of the chain of
    parents has a mandatory option without value, and returns otherwise;
    in both cases the world stays as it is. The commands of the chain keep
    their option values in the separate object, and no option of theirs is
    stored under a member name that this object inherits. *)
Theorem mandatory_options_are_checked (this : nat) (w : World) (path : list nat) :
  parent_chain w this path ->
  Forall (mandatory_named w) path ->
  Forall (stores_plainly w) path ->
  ((exists l, In l path /\ lacks_mandatory w l) ->
   exists e, checkForMissingMandatoryOptions this w = Exit e w
             /\ code e = "commander.missingMandatoryOptionValue" /\ exitCode e = 1%Z)
  /\ ((forall l, In l path -> ~ lacks_mandatory w l) ->
      checkForMissingMandatoryOptions this w = Ok tt w).
Proof.
  intros Hchain Hnamed _.
  set (lacking := fun c : Command =>
         find (fun o => Opt.mandatory o
                        && match OptMethods.attributeName o with
                           | Some key => is_undefined (value_of c key)
                           | None => false
                           end) (options c)).
  set (err := fun o : Opt.Option =>
         {| exitCode := 1%Z; code := "commander.missingMandatoryOptionValue";
            message := "error: required option '" ++ Opt.flags o ++ "' not specified" |}).
  set (p := fun l : nat =>
         match cmds w !! l with
         | Some c => match lacking c with Some _ => true | None => false end
         | None => false
         end).
  set (e := fun l : nat =>
         match cmds w !! l with
         | Some c => match lacking c with Some o => err o | None => err (Opt.new "") end
         | None => err (Opt.new "")
         end).
  assert (Hrun : checkForMissingMandatoryOptions this w
                 = match find p path with
                   | Some l => Exit (e l) w
                   | None => Ok tt w
                   end).
  { unfold checkForMissingMandatoryOptions.
    erewrite bind_Ok by (apply ancestors_chain, Hchain).
    apply for_each_first. intros l Hin.
    rewrite Forall_forall in Hnamed.
    destruct (Hnamed l Hin) as (c & Hc & Hn).
    erewrite bind_Ok by (apply get_cmd_ok, Hc).
    rewrite (mandatory_loop l w c Hc Hn). unfold p, e. rewrite Hc.
    fold (lacking c). destruct (lacking c); reflexivity. }
  rewrite Hrun. split.
  - intros (l & Hin & c & o & key & Hc & Ho & Hm & Hk & Hv).
    destruct (find p path) as [l'|] eqn:Hf.
    + exists (e l'). split; [reflexivity|]. unfold e.
      destruct (cmds w !! l'); [destruct (lacking _)|]; split; reflexivity.
    + pose proof (find_none _ _ Hf l Hin) as H. unfold p in H. rewrite Hc in H.
      assert (Hl : lacking c <> None) by (apply find_lacking; eauto 10).
      destruct (lacking c); [discriminate H|contradiction].
  - intros Hnone. destruct (find p path) as [l|] eqn:Hf; [|reflexivity].
    apply find_some in Hf as [Hin Hp]. exfalso. apply (Hnone l Hin).
    unfold p in Hp. destruct (cmds w !! l) as [c|] eqn:Hc; [|discriminate Hp].
    assert (Hl : lacking c <> None) by (destruct (lacking c); [discriminate|discriminate Hp]).
    apply find_lacking in Hl as (o & key & H).
    exists c, o, key. tauto.
Qed.

(** The mandatory option [--cheese <type>] was not given. *)
Lemma mandatory_options_are_checked_witness :
  exists e, checkForMissingMandatoryOptions 0 cheese_world = Exit e cheese_world
            /\ code e = "commander.missingMandatoryOptionValue" /\ exitCode e = 1%Z.
Proof.
  refine (proj1 (mandatory_options_are_checked 0 cheese_world [0] _ _ _) _).
  - split; [reflexivity|]. eexists. split; reflexivity.
  - constructor; [|constructor]. eexists. split; [reflexivity|].
    intros o [<-|[]] _. eexists. reflexivity.
  - constructor; [|constructor]. eexists. split; reflexivity.
  - exists 0. split; [left; reflexivity|].
    exists (set_options [cheese_option] (Cmd.new "")), cheese_option, "cheese".
    repeat split. left. reflexivity.
Defined.

End MandatoryClaims.

Module ArityFacts.
Import ValueFacts.

Lemma for_each_from_ok {A} (body : nat -> A -> M unit) w (l : list A) :
  forall i, (forall k x, l !! k = Some x -> body (i + k) x w = Ok tt w) ->
            for_each_from i l body w = Ok tt w.
Proof.
  induction l as [|y l IH]; intros i Hb; [reflexivity|].
  simpl. unfold bind. pose proof (Hb 0 y eq_refl) as H0. rewrite Nat.add_0_r in H0.
  rewrite H0. apply IH. intros k x Hk.
  replace (S i + k) with (i + S k) by lia. apply Hb. exact Hk.
Qed.

Lemma for_each_from_exit {A} (body : nat -> A -> M unit) w (l : list A) :
  forall i k x e,
    l !! k = Some x -> body (i + k) x w = Exit e w ->
    (forall j y, j < k -> l !! j = Some y -> body (i + j) y w = Ok tt w) ->
    for_each_from i l body w = Exit e w.
Proof.
  induction l as [|y l IH]; intros i k x e Hk Hx Hbefore; [discriminate Hk|].
  simpl. unfold bind. destruct k as [|k].
  - injection Hk as ->. rewrite Nat.add_0_r in Hx. rewrite Hx. reflexivity.
  - pose proof (Hbefore 0 y ltac:(lia) eq_refl) as H0. rewrite Nat.add_0_r in H0.
    rewrite H0. apply (IH (S i) k x e Hk).
    + replace (S i + k) with (i + S k) by lia. exact Hx.
    + intros j z Hj Hz. replace (S i + j) with (i + S j) by lia.
      apply Hbefore; [lia|exact Hz].
Qed.

(** The test of one declared argument. *)
Lemma missing_test this w c i (arg : Arg.Argument) :
  cmds w !! this = Some c ->
  (c' <- get_cmd this ;;
   if Arg.required arg && match args c' !! i with Some _ => false | None => true end
   then missingArgument this (Arg.name arg)
   else ret tt) w
  = if Arg.required arg && (length (args c) <=? i)%nat
    then Exit {| exitCode := 1; code := "commander.missingArgument";
                 message := "error: missing required argument '" ++ Arg.name arg ++ "'" |} w
    else Ok tt w.
Proof.
  intros Hc. erewrite bind_Ok by (apply get_cmd_ok, Hc).
  destruct (Nat.leb_spec (length (args c)) i) as [Hle|Hlt].
  - rewrite (proj2 (lookup_ge_None _ _) Hle). destruct (Arg.required arg); reflexivity.
  - destruct (lookup_lt_is_Some_2 _ _ Hlt) as [s ->]. rewrite andb_false_r. reflexivity.
Qed.

End ArityFacts.

Module ArityClaims.
Import ValueFacts ArityFacts.

(** X14. [#checkNumberOfArguments] exits with the code
    [commander.missingArgument], naming the first required argument that
    has no command-argument at its position; when there is none, it
    returns if the last declared argument is variadic, or there are not
    more command-arguments than declared arguments, or excess arguments
    are allowed, and exits with the code [commander.excessArguments]
    otherwise. The world stays as it is. *)
Theorem checkNumberOfArguments_outcome
    (allowExcess : bool) (this : nat) (w : World) (c : Command) :
  cmds w !! this = Some c ->
  (forall i arg,
      first_missing c i arg ->
      checkNumberOfArguments allowExcess this w
      = Exit {| exitCode := 1; code := "commander.missingArgument";
                message := "error: missing required argument '" ++ Arg.name arg ++ "'" |} w)
  /\ (enough c ->
      open_ended c = true \/ length (args c) <= length (registeredArguments c)
      \/ allowExcess = true ->
      checkNumberOfArguments allowExcess this w = Ok tt w)
  /\ (enough c ->
      open_ended c = false -> length (registeredArguments c) < length (args c) ->
      allowExcess = false ->
      exists e, checkNumberOfArguments allowExcess this w = Exit e w
                /\ code e = "commander.excessArguments" /\ exitCode e = 1%Z).
Proof.
  intros Hc.
  assert (Henough : enough c ->
            for_each_from 0 (registeredArguments c)
              (fun i arg =>
                 c' <- get_cmd this ;;
                 if Arg.required arg
                    && match args c' !! i with Some _ => false | None => true end
                 then missingArgument this (Arg.name arg)
                 else ret tt) w = Ok tt w).
  { intros He. apply for_each_from_ok. intros k x Hk. simpl.
    rewrite (missing_test this w c k x Hc).
    destruct (Arg.required x) eqn:Hr; [|reflexivity].
    pose proof (He k x Hk Hr) as Hlt.
    replace (length (args c) <=? k)%nat with false; [reflexivity|].
    symmetry. apply Nat.leb_gt. exact Hlt. }
  split; [|split].
  - intros i arg (Hi & Hr & Hle & Hfirst). unfold checkNumberOfArguments.
    erewrite bind_Ok by (apply get_cmd_ok, Hc).
    erewrite bind_Exit; [reflexivity|].
    apply (for_each_from_exit _ w _ 0 i arg); [exact Hi| |].
    + simpl. rewrite (missing_test this w c i arg Hc), Hr.
      replace (length (args c) <=? i)%nat with true; [reflexivity|].
      symmetry. apply Nat.leb_le. exact Hle.
    + intros j y Hj Hy. simpl. rewrite (missing_test this w c j y Hc).
      destruct (Arg.required y) eqn:Hry; [|reflexivity].
      pose proof (Hfirst j y Hj Hy Hry) as Hlt.
      replace (length (args c) <=? j)%nat with false; [reflexivity|].
      symmetry. apply Nat.leb_gt. exact Hlt.
  - intros He Hcase. unfold checkNumberOfArguments.
    erewrite bind_Ok by (apply get_cmd_ok, Hc).
    erewrite bind_Ok by (apply Henough, He).
    erewrite bind_Ok by (apply get_cmd_ok, Hc).
    fold (open_ended c). destruct (open_ended c); [reflexivity|].
    destruct (Nat.ltb_spec (length (registeredArguments c)) (length (args c))) as [Hlt|Hge];
      [|reflexivity].
    destruct Hcase as [H|[H| ->]]; [discriminate H|lia|reflexivity].
  - intros He Hopen Hlt ->. unfold checkNumberOfArguments.
    erewrite bind_Ok by (apply get_cmd_ok, Hc).
    erewrite bind_Ok by (apply Henough, He).
    erewrite bind_Ok by (apply get_cmd_ok, Hc).
    fold (open_ended c). rewrite Hopen.
    apply Nat.ltb_lt in Hlt. rewrite Hlt.
    unfold excessArguments. erewrite bind_Ok by (apply get_cmd_ok, Hc).
    eexists. split; [reflexivity|]. split; reflexivity.
Qed.

(** [copy] without command-arguments: [<source>] is missing. *)
Lemma checkNumberOfArguments_outcome_witness :
  checkNumberOfArguments false 0 (single (copy_command []))
  = Exit {| exitCode := 1; code := "commander.missingArgument";
            message := "error: missing required argument '"
                       ++ Arg.name (Arg.new "<source>" None) ++ "'" |}
         (single (copy_command [])).
Proof.
  apply (proj1 (checkNumberOfArguments_outcome false 0 (single (copy_command []))
                  (copy_command []) eq_refl) 0 (Arg.new "<source>" None)).
  split; [reflexivity|]. split; [reflexivity|]. split; [simpl; lia|].
  intros j a Hj. lia.
Defined.

End ArityClaims.

Module SupplyFacts.
Import ValueFacts ArityFacts.

(** When the loop of [#checkNumberOfArguments] returns, no required
    argument is missing. *)
Lemma check_loop_returns this w c (l : list Arg.Argument) :
  cmds w !! this = Some c ->
  forall i u w',
    for_each_from i l
      (fun i arg =>
         c' <- get_cmd this ;;
         if Arg.required arg && match args c' !! i with Some _ => false | None => true end
         then missingArgument this (Arg.name arg)
         else ret tt) w = Ok u w' ->
    forall k x, l !! k = Some x -> Arg.required x = true -> i + k < length (args c).
Proof.
  intros Hc. induction l as [|y l IH]; intros i u w' H k x Hk Hr; [discriminate Hk|].
  simpl in H. unfold bind at 1 in H.
  rewrite (missing_test this w c i y Hc) in H.
  destruct (Arg.required y && (length (args c) <=? i)%nat) eqn:Ht; [discriminate H|].
  destruct k as [|k].
  - injection Hk as ->. rewrite Hr in Ht. simpl in Ht.
    apply Nat.leb_gt in Ht. lia.
  - replace (i + S k) with (S i + k) by lia. apply (IH (S i) u w' H k x Hk Hr).
Qed.

Lemma check_returns allow this w c u w' :
  cmds w !! this = Some c ->
  checkNumberOfArguments allow this w = Ok u w' -> enough c.
Proof.
  intros Hc H. unfold checkNumberOfArguments in H.
  erewrite bind_Ok in H by (apply get_cmd_ok, Hc).
  unfold bind at 1 in H.
  destruct (for_each_from 0 (registeredArguments c) _ w) as [u1 w1| | | |] eqn:Hl;
    try discriminate H.
  intros i arg Hi Hr. apply (check_loop_returns this w c _ Hc 0 u1 w1 Hl i arg Hi Hr).
Qed.

(** The callback of the loop of [#processArguments] on an argument
    without parser. *)
Lemma processArgument_supplies this w c i a :
  cmds w !! this = Some c -> Arg.parseArg a = None ->
  (Arg.required a = true -> i < length (args c)) ->
  exists v w', processArgument this i a w = Ok v w'
               /\ cmds w' = cmds w /\ arrays w' = arrays w /\ supplied c i a v.
Proof.
  intros Hc Hp Hreq. unfold processArgument, supplied.
  erewrite bind_Ok by (apply get_cmd_ok, Hc).
  rewrite Hp. destruct (Arg.variadic a).
  - destruct (Nat.ltb_spec i (length (args c))) as [Hlt|Hge].
    + eexists _, _. split; [reflexivity|]. repeat split. eexists. reflexivity.
    + assert (Hnr : Arg.required a = false).
      { destruct (Arg.required a); [|reflexivity]. specialize (Hreq eq_refl). lia. }
      destruct (is_undefined (Arg.defaultValue a)).
      * eexists _, _. split; [reflexivity|]. repeat split; [exact Hnr|].
        eexists. reflexivity.
      * eexists _, _. split; [reflexivity|]. repeat split. exact Hnr.
  - destruct (args c !! i) as [s|] eqn:Hs.
    + eexists _, _. split; [reflexivity|]. repeat split.
    + eexists _, _. split; [reflexivity|]. repeat split.
      destruct (Arg.required a); [|reflexivity]. specialize (Hreq eq_refl).
      apply lookup_ge_None in Hs. lia.
Qed.

Lemma collect_supplies this c (l : list Arg.Argument) :
  forall i w,
    cmds w !! this = Some c ->
    (forall k a, l !! k = Some a ->
                 Arg.parseArg a = None
                 /\ (Arg.required a = true -> i + k < length (args c))) ->
    exists vs w',
      collect_from i l (processArgument this) w = Ok vs w'
      /\ cmds w' = cmds w /\ arrays w' = arrays w
      /\ length vs = length l
      /\ forall k a, l !! k = Some a ->
                     exists v, vs !! k = Some v /\ supplied c (i + k) a v.
Proof.
  induction l as [|y l IH]; intros i w Hc Hl.
  - exists [], w. simpl. repeat split. intros k a Hk. discriminate Hk.
  - destruct (Hl 0 y eq_refl) as [Hp Hr]. rewrite Nat.add_0_r in Hr.
    destruct (processArgument_supplies this w c i y Hc Hp Hr)
      as (v & w1 & Hv & Hc1 & Ha1 & Hs).
    assert (Hc' : cmds w1 !! this = Some c) by (rewrite Hc1; exact Hc).
    destruct (IH (S i) w1 Hc') as (vs & w2 & Hvs & Hc2 & Ha2 & Hlen & Hall).
    { intros k a Hk. replace (S i + k) with (i + S k) by lia. apply (Hl (S k) a Hk). }
    exists (v :: vs), w2. simpl. unfold bind. rewrite Hv, Hvs. unfold ret.
    split; [reflexivity|]. split; [congruence|]. split; [congruence|].
    split; [simpl; lia|]. intros k a Hk. destruct k as [|k].
    + injection Hk as ->. exists v. rewrite Nat.add_0_r. split; [reflexivity|exact Hs].
    + replace (i + S k) with (S i + k) by lia. apply (Hall k a Hk).
Qed.

End SupplyFacts.

Module SupplyClaims.
Import ValueFacts ArityFacts SupplyFacts.

(** X15. When [#checkNumberOfArguments] lets the command-arguments pass
    and no declared argument has a parser, [#processArguments] returns
    one value for each declared argument, in their order: the
    command-argument at its position, for a variadic argument a new array
    of the command-arguments from its position on, and only for an
    argument that is not required its default value (or a new empty
    array) when there is no command-argument. The commands and the
    arrays of the world stay as they are. *)
Theorem processArguments_supplies_declared
    (allowExcess : bool) (this : nat) (w : World) (c : Command) :
  cmds w !! this = Some c ->
  Forall (fun a => Arg.parseArg a = None) (registeredArguments c) ->
  checkNumberOfArguments allowExcess this w = Ok tt w ->
  exists processedArgs w',
    processArguments allowExcess this w = Ok processedArgs w'
    /\ cmds w' = cmds w /\ arrays w' = arrays w
    /\ length processedArgs = length (registeredArguments c)
    /\ forall i a, registeredArguments c !! i = Some a ->
                   exists v, processedArgs !! i = Some v /\ supplied c i a v.
Proof.
  intros Hc Hnone Hcheck.
  pose proof (check_returns allowExcess this w c tt w Hc Hcheck) as Henough.
  destruct (collect_supplies this c (registeredArguments c) 0 w Hc)
    as (vs & w' & Hvs & Hc' & Ha' & Hlen & Hall).
  { intros k a Hk. split.
    - rewrite Forall_forall in Hnone. apply Hnone.
      apply list_elem_of_In. apply (list_elem_of_lookup_2 _ k). exact Hk.
    - intros Hr. apply (Henough k a Hk Hr). }
  exists vs, w'. unfold processArguments.
  erewrite bind_Ok by exact Hcheck.
  erewrite bind_Ok by (apply get_cmd_ok, Hc).
  split; [exact Hvs|]. split; [exact Hc'|]. split; [exact Ha'|].
  split; [exact Hlen|]. exact Hall.
Qed.

(** [pack a b c]: [source] is [a], [files] the new array of [b] and [c]. *)
Lemma processArguments_supplies_declared_witness :
  exists processedArgs w',
    processArguments false 0 (single (pack_command ["a"; "b"; "c"])) = Ok processedArgs w'
    /\ cmds w' = cmds (single (pack_command ["a"; "b"; "c"]))
    /\ arrays w' = arrays (single (pack_command ["a"; "b"; "c"]))
    /\ length processedArgs = 2
    /\ forall i a, registeredArguments (pack_command ["a"; "b"; "c"]) !! i = Some a ->
                   exists v, processedArgs !! i = Some v
                             /\ supplied (pack_command ["a"; "b"; "c"]) i a v.
Proof.
  apply (processArguments_supplies_declared false 0
           (single (pack_command ["a"; "b"; "c"])) (pack_command ["a"; "b"; "c"]) eq_refl).
  - repeat constructor.
  - reflexivity.
Defined.

End SupplyClaims.

Module FamilyFacts.
Import ValueFacts ConflictFacts.

Lemma existsb_pointwise {A} (f g : A -> bool) (l : list A) :
  (forall x, f x = g x) -> existsb f l = existsb g l.
Proof.
  intros H. induction l as [|x l IH]; simpl; [reflexivity|]. rewrite H, IH. reflexivity.
Qed.

Lemma find_is_Some {A} (q : A -> bool) (l : list A) :
  match find q l with Some x => q x = true /\ In x l | None => existsb q l = false end.
Proof.
  induction l as [|x l IH]; simpl; [reflexivity|].
  destruct (q x) eqn:Hq.
  - split; [exact Hq|]. left. reflexivity.
  - simpl. destruct (find q l); [|exact IH]. destruct IH. split; [assumption|]. right. assumption.
Qed.

(** [#findCommand] finds a subcommand exactly for a name that is taken. *)
Lemma findCommand_taken this w c name :
  cmds w !! this = Some c -> subcommands_in w c ->
  exists found,
    findCommand this (Some name) w = Ok found w
    /\ match found with
       | Some l => name_taken w c name = true /\ In l (commands c)
       | None => name_taken w c name = false
       end.
Proof.
  intros Hc Hsub. unfold findCommand, name_taken.
  destruct (Str.nonempty name); simpl.
  2:{ exists None. split; reflexivity. }
  erewrite bind_Ok by (apply get_cmd_ok, Hc).
  rewrite (find_m_pure _ (goes_by w name)).
  - exists (find (goes_by w name) (commands c)). split; [reflexivity|].
    pose proof (find_is_Some (goes_by w name) (commands c)) as H.
    destruct (find (goes_by w name) (commands c)) as [l|].
    + destruct H as [Hq Hin]. split; [|exact Hin].
      apply existsb_exists. exists l. split; assumption.
    + exact H.
  - intros l Hl. destruct (Hsub l Hl) as [sc Hsc].
    erewrite bind_Ok by (apply get_cmd_ok, Hsc).
    unfold goes_by. rewrite Hsc. reflexivity.
Qed.

(** The outcome of [#registerCommand]. *)
Lemma registerCommand_outcome this command w c cc :
  cmds w !! this = Some c -> cmds w !! command = Some cc -> subcommands_in w c ->
  if names_clash w c cc
  then exists msg, registerCommand this command w = Throw (ThrowError msg) w
  else registerCommand this command w
       = Ok tt (with_cmd this (set_commands (commands c ++ [command]) c) w).
Proof.
  intros Hc Hcc Hsub. unfold registerCommand.
  erewrite bind_Ok by (apply get_cmd_ok, Hcc).
  erewrite bind_Ok.
  2:{ apply (find_m_pure _ (name_taken w c)). intros name _.
      destruct (findCommand_taken this w c name Hc Hsub) as (found & Hf & Hm).
      erewrite bind_Ok by exact Hf. unfold ret. destruct found as [l|].
      - destruct Hm as [-> _]. reflexivity.
      - rewrite Hm. reflexivity. }
  unfold names_clash.
  pose proof (find_is_Some (name_taken w c) (knownBy cc)) as H.
  destruct (find (name_taken w c) (knownBy cc)) as [used|].
  - destruct H as [Hused Hin].
    replace (existsb (name_taken w c) (knownBy cc)) with true
      by (symmetry; apply existsb_exists; exists used; split; assumption).
    assert (Hne : Str.nonempty used = true).
    { unfold name_taken in Hused. apply andb_true_iff in Hused. apply Hused. }
    rewrite Hne.
    destruct (findCommand_taken this w c used Hc Hsub) as (found & Hf & Hm).
    erewrite bind_Ok by exact Hf.
    destruct found as [e|]; [|congruence].
    destruct Hm as [_ He]. destruct (Hsub e He) as [ec Hec].
    erewrite bind_Ok by (apply get_cmd_ok, Hec).
    eexists. reflexivity.
  - rewrite H. unfold modify_cmd.
    erewrite bind_Ok by (apply get_cmd_ok, Hc). reflexivity.
Qed.

(** Assignments to the command at [this] that keep its subcommands and
    the names of the commands keep the clashes. *)
Lemma names_clash_with this w c c1 cc :
  cmds w !! this = Some c ->
  _name c1 = _name c -> _aliases c1 = _aliases c -> commands c1 = commands c ->
  names_clash (with_cmd this c1 w) c1 cc = names_clash w c cc.
Proof.
  intros Hc Hn Ha Hs. unfold names_clash.
  apply existsb_pointwise. intros name. unfold name_taken. f_equal. rewrite Hs.
  apply existsb_pointwise. intros l. unfold goes_by, with_cmd. simpl.
  destruct (decide (l = this)) as [->|Hne].
  - rewrite lookup_insert_eq, Hc, Hn, Ha. reflexivity.
  - rewrite lookup_insert_ne by congruence. reflexivity.
Qed.

Lemma subcommands_in_with this w c c1 :
  subcommands_in w c -> commands c1 = commands c ->
  subcommands_in (with_cmd this c1 w) c1.
Proof.
  intros Hsub Hs l Hl. rewrite Hs in Hl. unfold with_cmd. simpl.
  destruct (decide (l = this)) as [->|Hne].
  - rewrite lookup_insert_eq. eauto.
  - rewrite lookup_insert_ne by congruence. apply Hsub, Hl.
Qed.

End FamilyFacts.

Module FamilyClaims.
Import ValueFacts FamilyFacts.

(** X16. [addCommand] throws and changes nothing when the command has no
    name. It throws without adding the command when its name or one of
    its aliases is taken by a subcommand (the default command name has
    been assigned by then, when [isDefault] was given). Otherwise the
    command is appended to the subcommands and gets its parent; the call
    still throws after that when the command passes options through and
    positional options are not enabled on the new parent. *)
Theorem addCommand_outcome
    (this cmd : nat) (isDefault : bool) (w : World) (c cc : Command) :
  cmds w !! this = Some c -> cmds w !! cmd = Some cc -> this <> cmd ->
  subcommands_in w c ->
  let c1 := if isDefault then set_defaultCommandName (Some (_name cc)) c else c in
  let w1 := if isDefault then with_cmd this c1 w else w in
  let w2 := with_cmd cmd (set_parent (Some this) cc)
              (with_cmd this (set_commands (commands c ++ [cmd]) c1) w1) in
  (Str.nonempty (_name cc) = false ->
   exists msg, addCommand this cmd isDefault w = Throw (ThrowError msg) w)
  /\ (Str.nonempty (_name cc) = true -> names_clash w c cc = true ->
      exists msg, addCommand this cmd isDefault w = Throw (ThrowError msg) w1)
  /\ (Str.nonempty (_name cc) = true -> names_clash w c cc = false ->
      if _passThroughOptions cc && negb (_enablePositionalOptions c)
      then exists msg, addCommand this cmd isDefault w = Throw (ThrowError msg) w2
      else addCommand this cmd isDefault w = Ok tt w2).
Proof.
  intros Hc Hcc Hne Hsub c1 w1 w2.
  assert (Hc1 : cmds w1 !! this = Some c1).
  { subst w1 c1. destruct isDefault; [|exact Hc].
    unfold with_cmd. simpl. apply lookup_insert_eq. }
  assert (Hcc1 : cmds w1 !! cmd = Some cc).
  { subst w1. destruct isDefault; [|exact Hcc].
    unfold with_cmd. simpl. rewrite lookup_insert_ne by exact Hne. exact Hcc. }
  assert (Hshape : _name c1 = _name c /\ _aliases c1 = _aliases c
                   /\ commands c1 = commands c
                   /\ _enablePositionalOptions c1 = _enablePositionalOptions c).
  { subst c1. destruct isDefault; repeat split. }
  destruct Hshape as (Hn1 & Ha1 & Hs1 & Hp1).
  assert (Hclash : names_clash w1 c1 cc = names_clash w c cc).
  { subst w1. destruct isDefault; [|subst c1; reflexivity].
    apply names_clash_with; assumption. }
  assert (Hsub1 : subcommands_in w1 c1).
  { subst w1. destruct isDefault; [|subst c1; exact Hsub].
    apply (subcommands_in_with this w c c1 Hsub Hs1). }
  assert (Hfirst : (if isDefault
                    then modify_cmd this (set_defaultCommandName (Some (_name cc)))
                    else ret tt) w = Ok tt w1).
  { subst w1 c1. destruct isDefault; [|reflexivity].
    unfold modify_cmd. erewrite bind_Ok by (apply get_cmd_ok, Hc). reflexivity. }
  pose proof (registerCommand_outcome this cmd w1 c1 cc Hc1 Hcc1 Hsub1) as Hreg.
  rewrite Hclash in Hreg.
  split; [|split].
  - intros Hname. unfold addCommand.
    erewrite bind_Ok by (apply get_cmd_ok, Hcc). rewrite Hname. simpl.
    eexists. reflexivity.
  - intros Hname Htaken. unfold addCommand.
    erewrite bind_Ok by (apply get_cmd_ok, Hcc). rewrite Hname. simpl.
    erewrite bind_Ok by exact Hfirst.
    rewrite Htaken in Hreg. destruct Hreg as [msg Hreg].
    exists msg. erewrite bind_Throw by exact Hreg. reflexivity.
  - intros Hname Hfree. unfold addCommand.
    erewrite bind_Ok by (apply get_cmd_ok, Hcc). rewrite Hname. simpl.
    erewrite bind_Ok by exact Hfirst.
    rewrite Hfree in Hreg. rewrite Hs1 in Hreg.
    erewrite bind_Ok by exact Hreg.
    set (w1' := with_cmd this (set_commands (commands c ++ [cmd]) c1) w1) in *.
    assert (Hcc2 : cmds w1' !! cmd = Some cc).
    { subst w1'. unfold with_cmd. simpl. rewrite lookup_insert_ne by exact Hne. exact Hcc1. }
    assert (Hmod : modify_cmd cmd (set_parent (Some this)) w1' = Ok tt w2).
    { unfold modify_cmd. erewrite bind_Ok by (apply get_cmd_ok, Hcc2). reflexivity. }
    erewrite bind_Ok by exact Hmod.
    unfold checkForBrokenPassThrough.
    assert (Hcmd2 : cmds w2 !! cmd = Some (set_parent (Some this) cc)).
    { subst w2. unfold with_cmd. simpl. apply lookup_insert_eq. }
    assert (Hthis2 : cmds w2 !! this = Some (set_commands (commands c ++ [cmd]) c1)).
    { subst w2 w1'. unfold with_cmd. simpl.
      rewrite lookup_insert_ne by congruence. apply lookup_insert_eq. }
    erewrite bind_Ok by (apply get_cmd_ok, Hcmd2). simpl.
    destruct (_passThroughOptions cc); simpl; [|reflexivity].
    erewrite bind_Ok by (apply get_cmd_ok, Hthis2). simpl.
    rewrite Hp1. destruct (_enablePositionalOptions c); simpl; [reflexivity|].
    eexists. reflexivity.
Qed.

(** [program.addCommand(build)] where [build] has the alias [serve]. *)
Lemma addCommand_outcome_witness :
  exists msg, addCommand 0 2 false family_world = Throw (ThrowError msg) family_world.
Proof.
  refine (proj1 (proj2 (addCommand_outcome 0 2 false family_world
                   (set_commands [1] (Cmd.new "program"))
                   (set_aliases ["serve"] (Cmd.new "build"))
                   eq_refl eq_refl _ _)) eq_refl eq_refl).
  - lia.
  - intros l [<-|[]]. eexists. reflexivity.
Defined.

End FamilyClaims.

Module TokenFacts.
Import StrFacts ValueFacts ArrayFacts ParseFacts.

(** A token that cannot be an option is neither [--], nor a cluster of
    short flags, nor of the form [--flag=value]. *)
Lemma operand_token t :
  maybeOption t = false ->
  String.eqb t "--" = false /\ short_cluster t = None /\ long_with_value t = None.
Proof.
  intros H. split; [|split].
  - destruct (String.eqb_spec t "--") as [->|]; [discriminate H|reflexivity].
  - destruct (short_cluster t) as [[x r]|] eqn:E; [|reflexivity].
    apply short_cluster_shape in E. destruct E as (_ & _ & E). congruence.
  - unfold long_with_value.
    destruct (Str.cut "=" t) as [[flag value]|] eqn:Hcut; [|reflexivity].
    destruct (Str.strip "--" flag) as [nm|] eqn:Hs; [|reflexivity].
    apply strip_Some in Hs. apply cut_Some in Hcut. destruct Hcut as [Ht _].
    subst flag. subst t. discriminate H.
Qed.

Lemma iterations_enough tokens : exists k, iterations tokens = length tokens + S k.
Proof.
  unfold iterations. induction tokens as [|t l [k IH]].
  - exists 0. reflexivity.
  - exists (String.length t + k). cbn [fold_right length]. lia.
Qed.

Section Plain.

Variables (this : nat) (c : Command) (a o u : nat).
Hypothesis Hpos : _enablePositionalOptions c = false.
Hypothesis Hpass : _passThroughOptions c = false.

(** A token that cannot be an option is pushed to [dest]. *)
Lemma iteration_operand d w t dl :
  cmds w !! this = Some c -> maybeOption t = false ->
  is_Some (arrays w !! o) -> is_Some (arrays w !! u) -> arrays w !! d = Some dl ->
  iteration this (locals_to a o u d) t w
  = Ok (Some (locals_to a o u d)) (set_arrays (<[d := (dl ++ [t])%list]> (arrays w)) w).
Proof.
  intros Hc Ht [ol Ho] [ul Hu] Hd.
  destruct (operand_token t Ht) as (Hdd & Hsc & Hlv).
  unfold iteration. rewrite Hdd. simpl. rewrite Ht.
  rewrite Hsc, Hlv.
  change (set_active None (locals_to a o u d)) with (locals_to a o u d).
  erewrite bind_Ok by reflexivity. cbn beta iota.
  erewrite bind_Ok by reflexivity. cbn beta iota.
  erewrite bind_Ok by reflexivity. cbn beta iota.
  unfold route_token. rewrite Ht.
  erewrite bind_Ok by (apply get_cmd_ok, Hc).
  erewrite bind_Ok by (apply get_array_ok, Ho).
  erewrite bind_Ok by (apply get_array_ok, Hu).
  rewrite Hpos, Hpass. simpl.
  erewrite bind_Ok by reflexivity. cbn beta iota.
  erewrite bind_Ok by (apply push_ok, Hd). reflexivity.
Qed.

(** The loop pushes the tokens that cannot be options to [dest], as long
    as there are such. *)
Lemma loop_operands d rest fuel :
  a <> d ->
  forall pre w dl,
    cmds w !! this = Some c ->
    arrays w !! a = Some (pre ++ rest)%list -> arrays w !! d = Some dl ->
    is_Some (arrays w !! o) -> is_Some (arrays w !! u) ->
    Forall (fun t => maybeOption t = false) pre ->
    exists w',
      loop (length pre + fuel) this (locals_to a o u d) w = loop fuel this (locals_to a o u d) w'
      /\ cmds w' = cmds w
      /\ arrays w' !! a = Some rest /\ arrays w' !! d = Some (dl ++ pre)%list
      /\ forall x, x <> a -> x <> d -> arrays w' !! x = arrays w !! x.
Proof.
  intros Had. induction pre as [|t pre IH]; intros w dl Hc Ha Hd Ho Hu Hpre.
  - exists w. rewrite app_nil_r. repeat split; assumption.
  - inversion Hpre as [|? ? Ht Hpre']; subst.
    set (w1 := set_arrays (<[a := (pre ++ rest)%list]> (arrays w)) w).
    set (w2 := set_arrays (<[d := (dl ++ [t])%list]> (arrays w1)) w1).
    assert (Hd1 : arrays w1 !! d = Some dl).
    { unfold w1. simpl. rewrite lookup_insert_ne by exact Had. exact Hd. }
    assert (Ho1 : is_Some (arrays w1 !! o)).
    { unfold w1. simpl. apply lookup_insert_is_Some'. right. exact Ho. }
    assert (Hu1 : is_Some (arrays w1 !! u)).
    { unfold w1. simpl. apply lookup_insert_is_Some'. right. exact Hu. }
    destruct (IH w2 (dl ++ [t])%list) as (w' & Hloop & Hc' & Ha' & Hd' & Hx').
    + exact Hc.
    + unfold w2, w1. simpl. rewrite lookup_insert_ne by congruence.
      apply lookup_insert_eq.
    + unfold w2. simpl. apply lookup_insert_eq.
    + unfold w2. simpl. apply lookup_insert_is_Some'. right. exact Ho1.
    + unfold w2. simpl. apply lookup_insert_is_Some'. right. exact Hu1.
    + exact Hpre'.
    + exists w'. split; [|split; [|split; [|split]]].
      * rewrite <- Hloop. simpl.
        erewrite bind_Ok by (apply shift_cons; exact Ha).
        cbn beta iota. fold w1.
        erewrite bind_Ok by (apply (iteration_operand d w1 t dl Hc Ht Ho1 Hu1 Hd1)).
        reflexivity.
      * exact Hc'.
      * exact Ha'.
      * rewrite Hd', <- app_assoc. reflexivity.
      * intros x Hxa Hxd. rewrite (Hx' x Hxa Hxd). unfold w2, w1. simpl.
        rewrite lookup_insert_ne by congruence.
        rewrite lookup_insert_ne by congruence. reflexivity.
Qed.

(** Without declared options, a token that may be an option, other than
    [--], is pushed to [unknown], and so is what follows. *)
Lemma iteration_unknown d w t ul :
  cmds w !! this = Some c -> options c = [] ->
  maybeOption t = true -> String.eqb t "--" = false ->
  is_Some (arrays w !! o) -> arrays w !! u = Some ul ->
  iteration this (locals_to a o u d) t w
  = Ok (Some (locals_to a o u u)) (set_arrays (<[u := (ul ++ [t])%list]> (arrays w)) w).
Proof.
  intros Hc Hopt Ht Hdd [ol Ho] Hu.
  unfold iteration. rewrite Hdd. simpl. rewrite Ht.
  change (set_active None (locals_to a o u d)) with (locals_to a o u d).
  erewrite bind_Ok by (rewrite (findOption_ok this w c t Hc), Hopt; reflexivity).
  cbn [find].
  assert (Hcombo : (match short_cluster t with
                    | Some (x, rest) => combo this (locals_to a o u d) x rest
                    | None => ret None
                    end) w = Ok None w).
  { destruct (short_cluster t) as [[x r]|]; [|reflexivity].
    unfold combo.
    erewrite bind_Ok by (rewrite (findOption_ok this w c _ Hc), Hopt; reflexivity).
    reflexivity. }
  erewrite bind_Ok by exact Hcombo. cbn beta iota.
  assert (Hlong : (match long_with_value t with
                   | Some (flag, value) => long_equals this (locals_to a o u d) flag value
                   | None => ret None
                   end) w = Ok None w).
  { destruct (long_with_value t) as [[flag value]|]; [|reflexivity].
    unfold long_equals.
    erewrite bind_Ok by (rewrite (findOption_ok this w c _ Hc), Hopt; reflexivity).
    reflexivity. }
  erewrite bind_Ok by exact Hlong. cbn beta iota.
  unfold route_token. rewrite Ht.
  erewrite bind_Ok by (apply get_cmd_ok, Hc).
  erewrite bind_Ok by (apply get_array_ok, Ho).
  erewrite bind_Ok by (apply get_array_ok, Hu).
  rewrite Hpos, Hpass. simpl.
  erewrite bind_Ok by reflexivity. cbn beta iota.
  erewrite bind_Ok by (apply push_ok, Hu). reflexivity.
Qed.

(** The literal [--]. *)
Lemma iteration_dashes d w rest dl :
  a <> d -> arrays w !! a = Some rest -> arrays w !! d = Some dl ->
  exists w',
    iteration this (locals_to a o u d) "--" w = Ok None w'
    /\ cmds w' = cmds w
    /\ arrays w' !! d = Some (dl ++ (if Nat.eqb d u then ["--"] else []) ++ rest)%list
    /\ forall x, x <> d -> arrays w' !! x = arrays w !! x.
Proof.
  intros Had Ha Hd. unfold iteration. simpl.
  destruct (Nat.eqb d u).
  - eexists. split.
    + erewrite bind_Ok by (apply push_ok, Hd).
      erewrite bind_Ok.
      2:{ apply get_array_ok. simpl. rewrite lookup_insert_ne by auto. exact Ha. }
      erewrite bind_Ok.
      2:{ apply push_ok. simpl. apply lookup_insert_eq. }
      reflexivity.
    + simpl. split; [reflexivity|]. split.
      * rewrite lookup_insert_eq, <- app_assoc. reflexivity.
      * intros x Hx. rewrite !lookup_insert_ne by congruence. reflexivity.
  - eexists. split.
    + erewrite bind_Ok by reflexivity.
      erewrite bind_Ok by (apply get_array_ok, Ha).
      erewrite bind_Ok by (apply push_ok, Hd).
      reflexivity.
    + simpl. split; [reflexivity|]. split.
      * rewrite lookup_insert_eq. reflexivity.
      * intros x Hx. rewrite !lookup_insert_ne by congruence. reflexivity.
Qed.

(** Once the loop appends to [unknown], and without declared options, all
    the tokens end there. *)
Lemma loop_unknown fuel :
  a <> u -> options c = [] ->
  forall tokens w ul,
    cmds w !! this = Some c ->
    arrays w !! a = Some tokens -> arrays w !! u = Some ul ->
    is_Some (arrays w !! o) ->
    exists w',
      loop (length tokens + S fuel) this (locals_to a o u u) w = Ok tt w'
      /\ cmds w' = cmds w
      /\ arrays w' !! u = Some (ul ++ tokens)%list
      /\ forall x, x <> a -> x <> u -> arrays w' !! x = arrays w !! x.
Proof.
  intros Hau Hopt. induction tokens as [|t tokens IH]; intros w ul Hc Ha Hu Ho.
  - exists w. cbn [length Nat.add loop].
    assert (Hs : shift a w = Ok None w).
    { unfold shift. erewrite bind_Ok by (apply get_array_ok, Ha). reflexivity. }
    erewrite bind_Ok by exact Hs.
    rewrite app_nil_r. repeat split; try assumption; reflexivity.
  - set (w1 := set_arrays (<[a := tokens]> (arrays w)) w).
    assert (Ha1 : arrays w1 !! a = Some tokens) by (unfold w1; simpl; apply lookup_insert_eq).
    assert (Hu1 : arrays w1 !! u = Some ul).
    { unfold w1. simpl. rewrite lookup_insert_ne by exact Hau. exact Hu. }
    assert (Ho1 : is_Some (arrays w1 !! o)).
    { unfold w1. simpl. apply lookup_insert_is_Some'. right. exact Ho. }
    assert (Hx1 : forall x, x <> a -> arrays w1 !! x = arrays w !! x).
    { intros x Hx. unfold w1. simpl. rewrite lookup_insert_ne by congruence. reflexivity. }
    cbn [length Nat.add loop].
    erewrite bind_Ok by (apply shift_cons; exact Ha). cbn beta iota. fold w1.
    destruct (String.eqb_spec t "--") as [->|Hdd].
    + destruct (iteration_dashes u w1 tokens ul Hau Ha1 Hu1) as (w' & Hit & Hc' & Hu' & Hx').
      exists w'. erewrite bind_Ok by exact Hit.
      split; [reflexivity|]. split; [exact Hc'|]. split.
      * rewrite Hu', Nat.eqb_refl. reflexivity.
      * intros x Hxa Hxu. rewrite (Hx' x Hxu). apply Hx1, Hxa.
    + apply String.eqb_neq in Hdd.
      assert (Hstep : exists w2,
                 iteration this (locals_to a o u u) t w1 = Ok (Some (locals_to a o u u)) w2
                 /\ w2 = set_arrays (<[u := (ul ++ [t])%list]> (arrays w1)) w1).
      { eexists. split; [|reflexivity].
        destruct (maybeOption t) eqn:Ht.
        - apply (iteration_unknown u w1 t ul Hc Hopt Ht Hdd Ho1 Hu1).
        - apply (iteration_operand u w1 t ul Hc Ht Ho1 (ex_intro _ ul Hu1) Hu1). }
      destruct Hstep as (w2 & Hit & ->).
      destruct (IH (set_arrays (<[u := (ul ++ [t])%list]> (arrays w1)) w1) (ul ++ [t])%list)
        as (w' & Hloop & Hc' & Hu' & Hx').
      * exact Hc.
      * simpl. rewrite lookup_insert_ne by congruence. exact Ha1.
      * simpl. apply lookup_insert_eq.
      * simpl. apply lookup_insert_is_Some'. right. exact Ho1.
      * exists w'. erewrite bind_Ok by exact Hit.
        split; [exact Hloop|]. split; [exact Hc'|]. split.
        -- rewrite Hu', <- app_assoc. reflexivity.
        -- intros x Hxa Hxu. rewrite (Hx' x Hxa Hxu). simpl.
           rewrite lookup_insert_ne by congruence. apply Hx1, Hxa.
Qed.

End Plain.

(** The statements of [parseOptions] before the loop. *)
Lemma parseOptions_start this argv w tokens :
  arrays w !! argv = Some tokens ->
  exists a o u w0,
    parseOptions this argv w
    = (loop (iterations tokens) this (locals_to a o u o) ;;;
       ret {| Parse.operands := o; Parse.unknown := u |}) w0
    /\ cmds w0 = cmds w
    /\ a <> o /\ a <> u /\ o <> u
    /\ arrays w0 !! a = Some tokens /\ arrays w0 !! o = Some [] /\ arrays w0 !! u = Some [].
Proof.
  intros Hargv. unfold parseOptions, alloc_array, bind at 1 2.
  set (o := fresh (dom (arrays w))).
  set (w1 := set_arrays (<[o := []]> (arrays w)) w).
  set (u := fresh (dom (arrays w1))).
  set (w2 := set_arrays (<[u := []]> (arrays w1)) w1).
  assert (Ho : o ∉ dom (arrays w)) by apply is_fresh.
  assert (Hu : u ∉ dom (arrays w1)) by apply is_fresh.
  assert (Hargv_o : argv <> o).
  { intros ->. apply Ho. apply elem_of_dom. eauto. }
  assert (Huo : u <> o).
  { intros E. apply Hu. rewrite E. unfold w1. simpl.
    apply elem_of_dom. rewrite lookup_insert_eq. eauto. }
  assert (Hargv_u : argv <> u).
  { intros E. apply Hu. rewrite <- E. unfold w1. simpl.
    apply elem_of_dom. rewrite lookup_insert_ne by congruence. eauto. }
  assert (Hargv2 : arrays w2 !! argv = Some tokens).
  { unfold w2, w1. simpl. rewrite !lookup_insert_ne by congruence. exact Hargv. }
  erewrite bind_Ok by (apply get_array_ok, Hargv2).
  unfold bind at 1.
  set (a := fresh (dom (arrays w2))).
  assert (Ha : a ∉ dom (arrays w2)) by apply is_fresh.
  assert (Hau : a <> u).
  { intros E. apply Ha. rewrite E. unfold w2. simpl.
    apply elem_of_dom. rewrite lookup_insert_eq. eauto. }
  assert (Hao : a <> o).
  { intros E. apply Ha. rewrite E. unfold w2, w1. simpl.
    apply elem_of_dom. rewrite lookup_insert_ne by congruence.
    rewrite lookup_insert_eq. eauto. }
  exists a, o, u, (set_arrays (<[a := tokens]> (arrays w2)) w2).
  split; [reflexivity|]. split; [reflexivity|].
  split; [exact Hao|]. split; [exact Hau|]. split; [congruence|].
  simpl. split; [apply lookup_insert_eq|]. split.
  - rewrite !lookup_insert_ne by congruence. apply lookup_insert_eq.
  - rewrite lookup_insert_ne by congruence. apply lookup_insert_eq.
Qed.

(** [parseOptions] on a command without declared options. *)
Lemma parseOptions_plain
    (this argv : nat) (w : World) (c : Command) (pre rest : list string) :
  cmds w !! this = Some c -> options c = [] ->
  _enablePositionalOptions c = false -> _passThroughOptions c = false ->
  arrays w !! argv = Some (pre ++ rest)%list ->
  Forall (fun t => maybeOption t = false) pre ->
  (forall t more, rest = t :: more -> maybeOption t = true) ->
  exists r w',
    parseOptions this argv w = Ok r w'
    /\ cmds w' = cmds w
    /\ arrays w' !! Parse.operands r = Some (pre ++ fst (split_at_dash rest))%list
    /\ arrays w' !! Parse.unknown r = Some (snd (split_at_dash rest)).
Proof.
  intros Hc Hopt Hpos Hpass Hargv Hpre Hrest.
  destruct (parseOptions_start this argv w _ Hargv)
    as (a & o & u & w0 & Hparse & Hc0 & Hao & Hau & Hou & Ha0 & Ho0 & Hu0).
  destruct (iterations_enough (pre ++ rest)) as [k Hk].
  rewrite length_app, <- Nat.add_assoc in Hk.
  assert (Hc0' : cmds w0 !! this = Some c) by (rewrite Hc0; exact Hc).
  destruct (loop_operands this c a o u Hpos Hpass o rest (length rest + S k) Hao
              pre w0 [] Hc0' Ha0 Ho0 (ex_intro _ _ Ho0) (ex_intro _ _ Hu0) Hpre)
    as (w1 & Hloop & Hc1 & Ha1 & Ho1 & Hx1).
  assert (Hu1 : arrays w1 !! u = Some []).
  { rewrite (Hx1 u) by congruence. exact Hu0. }
  assert (Hc1' : cmds w1 !! this = Some c) by (rewrite Hc1; exact Hc0').
  rewrite Hparse, Hk. unfold bind at 1. rewrite Hloop. simpl in Ho1.
  exists {| Parse.operands := o; Parse.unknown := u |}.
  destruct rest as [|t more].
  - exists w1. cbn [length Nat.add loop].
    assert (Hs : shift a w1 = Ok None w1).
    { unfold shift. erewrite bind_Ok by (apply get_array_ok, Ha1). reflexivity. }
    erewrite bind_Ok by exact Hs. simpl.
    split; [reflexivity|]. split; [congruence|]. split; [|exact Hu1].
    rewrite app_nil_r. exact Ho1.
  - pose proof (Hrest t more eq_refl) as Ht.
    set (w2 := set_arrays (<[a := more]> (arrays w1)) w1).
    assert (Ha2 : arrays w2 !! a = Some more) by (unfold w2; simpl; apply lookup_insert_eq).
    assert (Ho2 : arrays w2 !! o = Some pre).
    { unfold w2. simpl. rewrite lookup_insert_ne by exact Hao. exact Ho1. }
    assert (Hu2 : arrays w2 !! u = Some []).
    { unfold w2. simpl. rewrite lookup_insert_ne by exact Hau. exact Hu1. }
    cbn [length Nat.add loop].
    erewrite bind_Ok by (apply shift_cons; exact Ha1). cbn beta iota. fold w2.
    unfold split_at_dash.
    destruct (String.eqb_spec t "--") as [->|Hdd].
    + destruct (iteration_dashes this a o u o w2 more pre Hao Ha2 Ho2)
        as (w3 & Hit & Hc3 & Ho3 & Hx3).
      exists w3. erewrite bind_Ok by exact Hit. simpl.
      split; [reflexivity|]. split; [rewrite Hc3; unfold w2; simpl; congruence|].
      split.
      * rewrite Ho3. replace (Nat.eqb o u) with false; [reflexivity|].
        symmetry. apply Nat.eqb_neq. exact Hou.
      * rewrite (Hx3 u) by congruence. exact Hu2.
    + apply String.eqb_neq in Hdd.
      pose proof (iteration_unknown this c a o u Hpos Hpass o w2 t [] Hc1' Hopt Ht Hdd
                    (ex_intro _ _ Ho2) Hu2) as Hit.
      set (w3 := set_arrays (<[u := ([] ++ [t])%list]> (arrays w2)) w2) in *.
      destruct (loop_unknown this c a o u Hpos Hpass k Hau Hopt more w3 [t])
        as (w4 & Hl4 & Hc4 & Hu4 & Hx4).
      * exact Hc1'.
      * unfold w3. simpl. rewrite lookup_insert_ne by congruence. exact Ha2.
      * unfold w3. simpl. apply lookup_insert_eq.
      * unfold w3. simpl. apply lookup_insert_is_Some'. right. eauto.
      * exists w4. erewrite bind_Ok by exact Hit. cbn beta iota. rewrite Hl4. simpl.
        split; [reflexivity|]. split; [rewrite Hc4; unfold w3, w2; simpl; congruence|].
        split.
        -- rewrite (Hx4 o) by congruence. unfold w3. simpl.
           rewrite lookup_insert_ne by congruence. rewrite app_nil_r. exact Ho2.
        -- exact Hu4.
Qed.

End TokenFacts.

Module TokenClaims.
Import StrFacts ValueFacts ArrayFacts ParseFacts TokenFacts.

(** X17. On a command without declared options, and with neither
    positional nor pass-through options, [parseOptions] returns the
    tokens that come before the first token that starts with a dash as
    operands. If that token is a literal [--], it is dropped and the
    tokens after it are operands too; otherwise that token and everything
    after it, a later [--] included, is unknown. *)
Theorem parseOptions_without_options
    (this argv : nat) (w : World) (c : Command) (pre rest : list string) :
  cmds w !! this = Some c -> options c = [] ->
  _enablePositionalOptions c = false -> _passThroughOptions c = false ->
  arrays w !! argv = Some (pre ++ rest)%list ->
  Forall (fun t => maybeOption t = false) pre ->
  (forall t more, rest = t :: more -> maybeOption t = true) ->
  exists r w',
    parseOptions this argv w = Ok r w'
    /\ cmds w' = cmds w
    /\ arrays w' !! Parse.operands r = Some (pre ++ fst (split_at_dash rest))%list
    /\ arrays w' !! Parse.unknown r = Some (snd (split_at_dash rest)).
Proof. apply parseOptions_plain. Qed.

(** [plain a -x -- b]: [a] is an operand, the rest is unknown. *)
Lemma parseOptions_without_options_witness :
  exists r w',
    parseOptions 0 0 (plain_world ["a"; "-x"; "--"; "b"]) = Ok r w'
    /\ cmds w' = cmds (plain_world ["a"; "-x"; "--"; "b"])
    /\ arrays w' !! Parse.operands r = Some ["a"]
    /\ arrays w' !! Parse.unknown r = Some ["-x"; "--"; "b"].
Proof.
  apply (parseOptions_without_options 0 0 (plain_world ["a"; "-x"; "--"; "b"])
           (Cmd.new "plain") ["a"] ["-x"; "--"; "b"]); try reflexivity.
  - repeat constructor.
  - intros t more E. injection E as <- _. reflexivity.
Defined.

(** X18. When the last token is the flag of an option that requires an
    argument, and the tokens before it are operands (none can be an
    option), [parseOptions] exits with the code
    [commander.optionMissingArgument], the exit code 1 and the message
    that names the flags of the option (neither positional nor
    pass-through options are enabled). *)
Theorem required_option_needs_argument
    (this argv : nat) (w : World) (c : Command) (pre : list string)
    (flag : string) (option : Opt.Option) :
  cmds w !! this = Some c ->
  _enablePositionalOptions c = false -> _passThroughOptions c = false ->
  arrays w !! argv = Some (pre ++ [flag])%list ->
  Forall (fun t => maybeOption t = false) pre ->
  maybeOption flag = true -> flag <> "--" ->
  find (fun o => OptMethods.is_ o flag) (options c) = Some option ->
  Opt.required option = true ->
  exists w',
    parseOptions this argv w
    = Exit {| exitCode := 1; code := "commander.optionMissingArgument";
              message := "error: option '" ++ Opt.flags option ++ "' argument missing" |}
           w'
    /\ cmds w' = cmds w.
Proof.
  intros Hc Hpos Hpass Hargv Hpre Hflag Hdd Hfind Hreq.
  destruct (parseOptions_start this argv w _ Hargv)
    as (a & o & u & w0 & Hparse & Hc0 & Hao & Hau & Hou & Ha0 & Ho0 & Hu0).
  destruct (iterations_enough (pre ++ [flag])) as [k Hk].
  rewrite length_app, <- Nat.add_assoc in Hk.
  assert (Hc0' : cmds w0 !! this = Some c) by (rewrite Hc0; exact Hc).
  destruct (loop_operands this c a o u Hpos Hpass o [flag] (length [flag] + S k) Hao
              pre w0 [] Hc0' Ha0 Ho0 (ex_intro _ _ Ho0) (ex_intro _ _ Hu0) Hpre)
    as (w1 & Hloop & Hc1 & Ha1 & Ho1 & Hx1).
  assert (Hc1' : cmds w1 !! this = Some c) by (rewrite Hc1; exact Hc0').
  set (w2 := set_arrays (<[a := []]> (arrays w1)) w1).
  exists w2. split; [|unfold w2; simpl; congruence].
  rewrite Hparse, Hk. apply bind_Exit. rewrite Hloop.
  cbn [length Nat.add loop].
  erewrite bind_Ok by (apply shift_cons; exact Ha1). cbn beta iota. fold w2.
  apply bind_Exit. unfold iteration.
  apply String.eqb_neq in Hdd. rewrite Hdd. simpl. rewrite Hflag. cbn beta iota. fold w2.
  erewrite bind_Ok by (rewrite (findOption_ok this w2 c flag Hc1'), Hfind; reflexivity).
  cbn beta iota. unfold recognised. apply bind_Exit. rewrite Hreq.
  assert (Hs : shift a w2 = Ok None w2).
  { assert (Ha2 : arrays w2 !! a = Some []) by (unfold w2; simpl; apply lookup_insert_eq).
    unfold shift. erewrite bind_Ok by (apply get_array_ok, Ha2). reflexivity. }
  erewrite bind_Ok by exact Hs. reflexivity.
Qed.

(** [serve public --port]: the port is missing. *)
Lemma required_option_needs_argument_witness :
  exists w',
    parseOptions 0 0 (serve_world ["public"; "--port"])
    = Exit {| exitCode := 1; code := "commander.optionMissingArgument";
              message := "error: option '" ++ Opt.flags (Opt.new "-p, --port <number>")
                         ++ "' argument missing" |} w'
    /\ cmds w' = cmds (serve_world ["public"; "--port"]).
Proof.
  apply (required_option_needs_argument 0 0 (serve_world ["public"; "--port"])
           (set_options [Opt.new "-p, --port <number>"] (Cmd.new "serve"))
           ["public"] "--port" (Opt.new "-p, --port <number>"));
    try reflexivity.
  - repeat constructor.
  - discriminate.
Defined.

End TokenClaims.

Module RoundFacts.
Import StrFacts ValueFacts ArrayFacts ParseFacts BuildFacts OptionFacts TokenFacts.

Lemma with_cmd_twice l c1 c2 w : with_cmd l c2 (with_cmd l c1 w) = with_cmd l c2 w.
Proof. unfold with_cmd, set_cmds. simpl. rewrite insert_insert_eq. reflexivity. Qed.

Lemma find_snoc {A} (p : A -> bool) (l : list A) x :
  find p l = None -> find p (l ++ [x]) = if p x then Some x else None.
Proof.
  induction l as [|y l IH]; simpl; [reflexivity|].
  destruct (p y); [discriminate|exact IH].
Qed.

Lemma find_none_existsb {A} (p : A -> bool) (l : list A) :
  existsb p l = false -> find p l = None.
Proof. rewrite find_existsb. destruct (find p l); [discriminate|reflexivity]. Qed.

(** A flag of an option that clashes with no option of the list finds the
    option once it is appended. *)
Lemma new_flag_finds option flag (l : list Opt.Option) :
  existsb (flag_clash option) l = false ->
  Str.nonempty flag = true -> OptMethods.is_ option flag = true ->
  find (fun o => OptMethods.is_ o flag) (l ++ [option]) = Some option.
Proof.
  intros Hclash Hne His. rewrite find_snoc, His; [reflexivity|].
  apply find_none_existsb. apply not_true_is_false. intros Hex.
  apply existsb_exists in Hex. destruct Hex as (p & Hp & Hpf).
  assert (Hcl : existsb (flag_clash option) l = true); [|congruence].
  apply existsb_exists. exists p. split; [exact Hp|].
  pose proof (is_flag flag option Hne His) as Hf. unfold flag_clash.
  apply orb_true_iff in Hf. apply orb_true_iff. destruct Hf as [Hf|Hf];
    apply andb_true_iff in Hf; destruct Hf as [Ht He];
    apply String.eqb_eq in He; [left|right]; rewrite Ht, He; exact Hpf.
Qed.

Lemma maybeOption_nonempty t : maybeOption t = true -> Str.nonempty t = true.
Proof. destruct t; [discriminate|reflexivity]. Qed.

Lemma assign_settings key v s c :
  _enablePositionalOptions (assign_value key v s c) = _enablePositionalOptions c
  /\ _passThroughOptions (assign_value key v s c) = _passThroughOptions c.
Proof. unfold assign_value. destruct (_storeOptionsAsProperties c); split; reflexivity. Qed.

Lemma assign_value_of key v s c :
  value_of (assign_value key v s c) key = v /\ source_of (assign_value key v s c) key = s.
Proof. apply assign_value_read. Qed.

(** [addOption] of an option that is not negated and that
    [#registerOption] accepts. *)
Lemma addOption_wires this option w c oname key :
  cmds w !! this = Some c ->
  existsb (flag_clash option) (options c) = false ->
  Opt.negate option = false ->
  OptMethods.name option = Some oname ->
  OptMethods.attributeName option = Some key ->
  exists c1,
    addOption this option w = Ok tt (with_cmd this c1 w)
    /\ options c1 = (options c ++ [option])%list
    /\ listeners c1
       = (listeners c
          ++ (("option:" ++ oname)%string, OnOption (length (options c)) key)
             :: (if truthy (Opt.envVar option)
                 then [(("optionEnv:" ++ oname)%string,
                        OnOptionEnv (length (options c)) key)]
                 else []))%list
    /\ _enablePositionalOptions c1 = _enablePositionalOptions c
    /\ _passThroughOptions c1 = _passThroughOptions c
    /\ value_of c1 key
       = (if is_undefined (Opt.defaultValue option) then value_of c key
          else Opt.defaultValue option).
Proof.
  intros Hc Hclash Hneg Hname Hkey.
  unfold addOption.
  erewrite bind_Ok by (apply get_cmd_ok, Hc). cbn beta iota zeta.
  erewrite bind_Ok by (apply (registerOption_returns this option w c Hc Hclash)).
  cbn beta iota. rewrite Hname, Hkey, Hneg.
  erewrite bind_Ok by reflexivity. cbn beta iota.
  erewrite bind_Ok by reflexivity. cbn beta iota.
  set (c0 := set_options (options c ++ [option])%list c).
  destruct (is_undefined (Opt.defaultValue option)) eqn:Hd; cbn [negb].
  - erewrite bind_Ok by reflexivity. cbn beta iota.
    erewrite bind_Ok by (apply on_ok, with_cmd_lookup). cbn beta iota.
    rewrite with_cmd_twice.
    destruct (truthy (Opt.envVar option)).
    + rewrite (on_ok _ _ _ _ _ (with_cmd_lookup _ _ _)), with_cmd_twice.
      eexists. split; [reflexivity|]. simpl. rewrite <- app_assoc.
      repeat split.
    + eexists. split; [reflexivity|]. repeat split.
  - erewrite bind_Ok by (apply setOptionValueWithSource_ok, with_cmd_lookup).
    cbn beta iota. rewrite with_cmd_twice.
    erewrite bind_Ok by (apply on_ok, with_cmd_lookup). cbn beta iota.
    rewrite with_cmd_twice.
    assert (Hfin : forall cx : Command,
              options cx = options (assign_value key (Opt.defaultValue option)
                                      (VStr "default") c0) ->
              _enablePositionalOptions cx
              = _enablePositionalOptions (assign_value key (Opt.defaultValue option)
                                            (VStr "default") c0) ->
              _passThroughOptions cx
              = _passThroughOptions (assign_value key (Opt.defaultValue option)
                                       (VStr "default") c0) ->
              value_of cx key = value_of (assign_value key (Opt.defaultValue option)
                                            (VStr "default") c0) key ->
              options cx = (options c ++ [option])%list
              /\ _enablePositionalOptions cx = _enablePositionalOptions c
              /\ _passThroughOptions cx = _passThroughOptions c
              /\ value_of cx key = Opt.defaultValue option).
    { intros cx H1 H2 H3 H4.
      rewrite H1, H2, H3, H4.
      rewrite (proj2 (listeners_assign _ _ _ c0)).
      rewrite (proj1 (assign_settings _ _ _ c0)), (proj2 (assign_settings _ _ _ c0)).
      rewrite (proj1 (assign_value_of _ _ _ c0)). repeat split. }
    pose proof (proj1 (listeners_assign key (Opt.defaultValue option) (VStr "default") c0))
      as Hl.
    destruct (truthy (Opt.envVar option)).
    + rewrite (on_ok _ _ _ _ _ (with_cmd_lookup _ _ _)), with_cmd_twice.
      eexists. split; [reflexivity|].
      match goal with
      | |- options ?cx = _ /\ _ =>
          destruct (Hfin cx eq_refl eq_refl eq_refl eq_refl) as (F1 & F2 & F3 & F4)
      end.
      split; [exact F1|]. split; [|split; [exact F2|split; [exact F3|exact F4]]].
      cbn [listeners set_listeners]. rewrite Hl, <- app_assoc. reflexivity.
    + eexists. split; [reflexivity|].
      match goal with
      | |- options ?cx = _ /\ _ =>
          destruct (Hfin cx eq_refl eq_refl eq_refl eq_refl) as (F1 & F2 & F3 & F4)
      end.
      split; [exact F1|]. split; [|split; [exact F2|split; [exact F3|exact F4]]].
      cbn [listeners set_listeners]. rewrite Hl. reflexivity.
Qed.

(** The event of the new option has one listener when it had none. *)
Lemma one_listener (oname : string) (l : list (string * Listener)) e (more : bool) e2 :
  Forall (fun x => listens ("option:" ++ oname) x = false) l ->
  listens ("option:" ++ oname) e = true ->
  listens ("option:" ++ oname) e2 = false ->
  List.filter (listens ("option:" ++ oname)) (l ++ e :: (if more then [e2] else []))%list
  = [e].
Proof.
  intros Hl He He2. induction Hl as [|x l Hx Hl IH].
  - simpl. rewrite He. destruct more; simpl; [rewrite He2|]; reflexivity.
  - simpl. rewrite Hx. exact IH.
Qed.

Section Wired.

Variables (this : nat) (option : Opt.Option) (oname key : string) (n : nat).
Hypothesis Hname : OptMethods.name option = Some oname.
Hypothesis Hparser : Opt.parseArg option = None.

(** The value that the listener of the option stores for [v]. *)
Lemma emit_option_stores w c v :
  cmds w !! this = Some c ->
  options c !! n = Some option ->
  List.filter (listens ("option:" ++ oname)) (listeners c)
  = [(("option:" ++ oname)%string, OnOption n key)] ->
  emit_option this option (VStr v) w
  = if Opt.variadic option
    then Ok tt (with_cmd this
                  (assign_value key
                     (OptMethods._concatValue option (next_tag w) (VStr v) (value_of c key))
                     (VStr "cli") c)
                  (set_next_tag (S (next_tag w)) w))
    else Ok tt (with_cmd this (assign_value key (VStr v) (VStr "cli") c) w).
Proof.
  intros Hc Hn Hl. unfold emit_option. rewrite Hname.
  erewrite bind_Ok by reflexivity. cbn beta iota.
  unfold emit. erewrite bind_Ok by (apply get_cmd_ok, Hc). cbn beta iota.
  rewrite Hl. cbn [for_each snd].
  assert (Hat : option_at c n w = Ok option w).
  { unfold option_at. rewrite Hn. reflexivity. }
  assert (Hrun : run_listener this (OnOption n key) (VStr v) w
                 = handleOptionValue this n key (VStr v)
                     ("error: option '" ++ Opt.flags option ++ "' argument '"
                      ++ to_string (VStr v) ++ "' is invalid.") "cli" w).
  { unfold run_listener. erewrite bind_Ok by (apply get_cmd_ok, Hc). cbn beta iota.
    erewrite bind_Ok by exact Hat. reflexivity. }
  unfold bind at 1. rewrite Hrun. unfold handleOptionValue.
  erewrite bind_Ok by (apply get_cmd_ok, Hc). cbn beta iota.
  erewrite bind_Ok by exact Hat. cbn beta iota zeta.
  cbn [is_nullish andb].
  erewrite bind_Ok by (apply getOptionValue_ok, Hc). cbn beta iota.
  fold (value_of c key).
  unfold customProcessing. cbn [is_null negb]. rewrite Hparser.
  destruct (Opt.variadic option).
  - unfold bind at 1. unfold bind at 1. unfold fresh_tag. cbn beta iota.
    unfold ret at 1.
    assert (Hnn : is_nullish (OptMethods._concatValue option (next_tag w) (VStr v)
                                (value_of c key)) = false).
    { unfold OptMethods._concatValue. destruct (value_of c key); try reflexivity.
      destruct (strict_eq _ _); reflexivity. }
    rewrite Hnn.
    rewrite (setOptionValueWithSource_ok this key _ _ _ c) by exact Hc.
    reflexivity.
  - erewrite bind_Ok by reflexivity. cbn beta iota. cbn [is_nullish].
    rewrite (setOptionValueWithSource_ok this key _ _ _ c) by exact Hc.
    reflexivity.
Qed.

Variables (a o u : nat).

(** The loop takes a flag of the option, which requires an argument, and
    the token after it. *)
Lemma iteration_required_flag d w c flag value rest w2 :
  cmds w !! this = Some c ->
  maybeOption flag = true -> String.eqb flag "--" = false ->
  find (fun p => OptMethods.is_ p flag) (options c) = Some option ->
  Opt.required option = true ->
  arrays w !! a = Some (value :: rest) ->
  emit_option this option (VStr value) (set_arrays (<[a := rest]> (arrays w)) w)
  = Ok tt w2 ->
  iteration this (locals_to a o u d) flag w
  = Ok (Some (set_active (if Opt.variadic option then Some option else None)
                (locals_to a o u d))) w2.
Proof.
  intros Hc Hflag Hdd Hfind Hreq Ha Hemit.
  unfold iteration. rewrite Hdd. cbn [activeVariadicOption locals_to]. rewrite Hflag.
  change (set_active None (locals_to a o u d)) with (locals_to a o u d).
  erewrite bind_Ok by (rewrite (findOption_ok this w c flag Hc), Hfind; reflexivity).
  cbn beta iota. unfold recognised. rewrite Hreq.
  erewrite bind_Ok; [reflexivity|].
  erewrite bind_Ok by (apply shift_cons; exact Ha). cbn beta iota. exact Hemit.
Qed.

(** While the variadic option is pending, a token that cannot be an option
    is one more value of it. *)
Lemma iteration_variadic_value d w t w2 :
  maybeOption t = false ->
  emit_option this option (VStr t) w = Ok tt w2 ->
  iteration this (set_active (Some option) (locals_to a o u d)) t w
  = Ok (Some (set_active (Some option) (locals_to a o u d))) w2.
Proof.
  intros Ht Hemit. destruct (operand_token t Ht) as (Hdd & _ & _).
  unfold iteration. rewrite Hdd. cbn [activeVariadicOption set_active]. rewrite Ht.
  erewrite bind_Ok by exact Hemit. reflexivity.
Qed.

Hypothesis Hvariadic : Opt.variadic option = true.
Hypothesis Hdefault : isArray (Opt.defaultValue option) = false.

Lemma concat_more id id0 items v :
  OptMethods._concatValue option id (VStr v) (VArr id0 items)
  = VArr id (items ++ [VStr v])%list.
Proof.
  unfold OptMethods._concatValue.
  destruct (Opt.defaultValue option); try discriminate Hdefault; reflexivity.
Qed.

Lemma concat_first id v previous :
  isArray previous = false ->
  OptMethods._concatValue option id (VStr v) previous = VArr id [VStr v].
Proof. intros H. destruct previous; try reflexivity. discriminate H. Qed.

(** The values of the pending variadic option are collected in order. *)
Lemma loop_variadic d fuel :
  forall vs w c id items,
    cmds w !! this = Some c ->
    options c !! n = Some option ->
    List.filter (listens ("option:" ++ oname)) (listeners c)
    = [(("option:" ++ oname)%string, OnOption n key)] ->
    value_of c key = VArr id items -> source_of c key = VStr "cli" ->
    arrays w !! a = Some vs ->
    Forall (fun t => maybeOption t = false) vs ->
    exists w' c' id',
      loop (length vs + S fuel) this (set_active (Some option) (locals_to a o u d)) w
      = Ok tt w'
      /\ cmds w' !! this = Some c'
      /\ value_of c' key = VArr id' (items ++ map VStr vs)%list
      /\ source_of c' key = VStr "cli"
      /\ forall x, x <> a -> arrays w' !! x = arrays w !! x.
Proof.
  induction vs as [|t vs IH]; intros w c id items Hc Hn Hl Hv Hs Ha Hvs.
  - exists w, c, id. cbn [length Nat.add loop].
    assert (Hsh : shift a w = Ok None w).
    { unfold shift. erewrite bind_Ok by (apply get_array_ok, Ha). reflexivity. }
    erewrite bind_Ok by exact Hsh. cbn [map]. rewrite app_nil_r.
    repeat split; try assumption; reflexivity.
  - inversion Hvs as [|? ? Ht Hvs']; subst.
    set (w1 := set_arrays (<[a := vs]> (arrays w)) w).
    assert (Hc1 : cmds w1 !! this = Some c) by exact Hc.
    pose proof (emit_option_stores w1 c t Hc1 Hn Hl) as Hemit.
    rewrite Hvariadic, Hv, concat_more in Hemit.
    set (c2 := assign_value key (VArr (next_tag w1) (items ++ [VStr t])%list) (VStr "cli") c)
      in *.
    set (w2 := with_cmd this c2 (set_next_tag (S (next_tag w1)) w1)) in *.
    destruct (IH w2 c2 (next_tag w1) (items ++ [VStr t])%list)
      as (w' & c' & id' & Hloop & Hc' & Hv' & Hs' & Hx').
    + apply with_cmd_lookup.
    + unfold c2. rewrite (proj2 (listeners_assign _ _ _ c)). exact Hn.
    + unfold c2. rewrite (proj1 (listeners_assign _ _ _ c)). exact Hl.
    + apply assign_value_of.
    + apply assign_value_of.
    + unfold w2, w1. simpl. apply lookup_insert_eq.
    + exact Hvs'.
    + exists w', c', id'. cbn [length Nat.add loop].
      erewrite bind_Ok by (apply shift_cons; exact Ha). cbn beta iota. fold w1.
      erewrite bind_Ok by (apply (iteration_variadic_value d w1 t w2 Ht Hemit)).
      cbn beta iota.
      split; [exact Hloop|]. split; [exact Hc'|]. split.
      * rewrite Hv', <- app_assoc. reflexivity.
      * split; [exact Hs'|]. intros x Hx. rewrite (Hx' x Hx).
        unfold w2, w1. simpl. rewrite lookup_insert_ne by congruence. reflexivity.
Qed.

End Wired.

End RoundFacts.

Module RoundClaims.
Import StrFacts ValueFacts ArrayFacts ParseFacts BuildFacts OptionFacts TokenFacts RoundFacts.

(** X19. An option that is added to a command and then given on the
    command line receives its value: for an option with a required
    argument (not negated, not variadic, without parser) that
    [#registerOption] accepts and whose event has no listener yet, after
    [addOption] the call of [parseOptions] on operands, a flag of the
    option, a token and further operands returns the operands in their
    order and nothing unknown, and the attribute of the option holds the
    token, a string, with the source ["cli"], whatever the token is.
    Neither positional nor pass-through options are enabled.
    The command keeps its option values in the separate object, and the
    attribute name is none of the member names that this object inherits. *)
Theorem added_option_receives_value
    (this argv : nat) (w : World) (c : Command) (option : Opt.Option)
    (oname key flag value : string) (pre post : list string) :
  cmds w !! this = Some c ->
  _storeOptionsAsProperties c = false -> ordinary_key key = true ->
  _enablePositionalOptions c = false -> _passThroughOptions c = false ->
  existsb (flag_clash option) (options c) = false ->
  Forall (fun e => listens ("option:" ++ oname) e = false) (listeners c) ->
  Opt.negate option = false ->
  OptMethods.name option = Some oname ->
  OptMethods.attributeName option = Some key ->
  Opt.required option = true -> Opt.variadic option = false ->
  Opt.parseArg option = None ->
  OptMethods.is_ option flag = true -> maybeOption flag = true -> flag <> "--" ->
  arrays w !! argv = Some (pre ++ flag :: value :: post)%list ->
  Forall (fun t => maybeOption t = false) pre ->
  Forall (fun t => maybeOption t = false) post ->
  exists r w' c',
    (addOption this option ;;; parseOptions this argv) w = Ok r w'
    /\ cmds w' !! this = Some c'
    /\ value_of c' key = VStr value /\ source_of c' key = VStr "cli"
    /\ arrays w' !! Parse.operands r = Some (pre ++ post)%list
    /\ arrays w' !! Parse.unknown r = Some [].
Proof.
  intros Hc _ _ Hpos Hpass Hclash Hsilent Hneg Hname Hkey Hreq Hvar Hparser
         His Hflag Hdd Hargv Hpre Hpost.
  destruct (addOption_wires this option w c oname key Hc Hclash Hneg Hname Hkey)
    as (c1 & Hadd & Ho1 & Hl1 & Hpos1 & Hpass1 & _).
  rewrite Hpos in Hpos1. rewrite Hpass in Hpass1.
  erewrite bind_Ok by exact Hadd. cbn beta iota.
  set (w1 := with_cmd this c1 w).
  assert (Hc1 : cmds w1 !! this = Some c1) by apply with_cmd_lookup.
  assert (Hargv1 : arrays w1 !! argv = Some (pre ++ flag :: value :: post)%list)
    by exact Hargv.
  destruct (parseOptions_start this argv w1 _ Hargv1)
    as (a & o & u & w0 & Hparse & Hc0 & Hao & Hau & Hou & Ha0 & Hop0 & Hu0).
  destruct (iterations_enough (pre ++ flag :: value :: post)) as [k Hk].
  rewrite length_app in Hk. cbn [length] in Hk.
  replace (length pre + S (S (length post)) + S k)
    with (length pre + S (length post + S (S k))) in Hk by lia.
  assert (Hc0' : cmds w0 !! this = Some c1) by (rewrite Hc0; exact Hc1).
  destruct (loop_operands this c1 a o u Hpos1 Hpass1 o (flag :: value :: post)
              (S (length post + S (S k))) Hao
              pre w0 [] Hc0' Ha0 Hop0 (ex_intro _ _ Hop0) (ex_intro _ _ Hu0) Hpre)
    as (w2 & Hloop & Hc2 & Ha2 & Hop2 & Hx2).
  simpl in Hop2.
  assert (Hu2 : arrays w2 !! u = Some []).
  { rewrite (Hx2 u) by congruence. exact Hu0. }
  assert (Hc2' : cmds w2 !! this = Some c1) by (rewrite Hc2; exact Hc0').
  (* the flag and its value *)
  set (w3 := set_arrays (<[a := value :: post]> (arrays w2)) w2).
  assert (Hc3 : cmds w3 !! this = Some c1) by exact Hc2'.
  assert (Ha3 : arrays w3 !! a = Some (value :: post))
    by (unfold w3; simpl; apply lookup_insert_eq).
  set (w4 := set_arrays (<[a := post]> (arrays w3)) w3).
  assert (Hc4 : cmds w4 !! this = Some c1) by exact Hc2'.
  assert (Hn : options c1 !! length (options c) = Some option).
  { rewrite Ho1. rewrite lookup_app_r by lia. rewrite Nat.sub_diag. reflexivity. }
  assert (Hfilter : List.filter (listens ("option:" ++ oname)) (listeners c1)
                    = [(("option:" ++ oname)%string, OnOption (length (options c)) key)]).
  { rewrite Hl1.
    destruct (truthy (Opt.envVar option)).
    - apply (one_listener oname (listeners c) _ true
               (("optionEnv:" ++ oname)%string, OnOptionEnv (length (options c)) key)
               Hsilent).
      + unfold listens. apply String.eqb_refl.
      + reflexivity.
    - apply (one_listener oname (listeners c) _ false
               (("optionEnv:" ++ oname)%string, OnOptionEnv (length (options c)) key)
               Hsilent).
      + unfold listens. apply String.eqb_refl.
      + reflexivity. }
  pose proof (emit_option_stores this option oname key (length (options c))
                Hname Hparser w4 c1 value Hc4 Hn Hfilter) as Hemit.
  rewrite Hvar in Hemit.
  set (c2 := assign_value key (VStr value) (VStr "cli") c1) in *.
  set (w5 := with_cmd this c2 w4) in *.
  assert (Hfind : find (fun p => OptMethods.is_ p flag) (options c1) = Some option).
  { rewrite Ho1. apply new_flag_finds; [exact Hclash| |exact His].
    apply maybeOption_nonempty, Hflag. }
  apply String.eqb_neq in Hdd.
  pose proof (iteration_required_flag this option a o u o w3 c1 flag value post w5
                Hc3 Hflag Hdd Hfind Hreq Ha3 Hemit) as Hit.
  rewrite Hvar in Hit.
  change (set_active None (locals_to a o u o)) with (locals_to a o u o) in Hit.
  (* the operands after the value *)
  assert (Hc5 : cmds w5 !! this = Some c2) by apply with_cmd_lookup.
  assert (Hpos2 : _enablePositionalOptions c2 = false).
  { unfold c2. rewrite (proj1 (assign_settings _ _ _ c1)). exact Hpos1. }
  assert (Hpass2 : _passThroughOptions c2 = false).
  { unfold c2. rewrite (proj2 (assign_settings _ _ _ c1)). exact Hpass1. }
  assert (Ha5 : arrays w5 !! a = Some (post ++ [])%list).
  { rewrite app_nil_r. unfold w5, w4. simpl. apply lookup_insert_eq. }
  assert (Hop5 : arrays w5 !! o = Some pre).
  { unfold w5, w4, w3. simpl. rewrite !lookup_insert_ne by congruence. exact Hop2. }
  assert (Hu5 : arrays w5 !! u = Some []).
  { unfold w5, w4, w3. simpl. rewrite !lookup_insert_ne by congruence. exact Hu2. }
  destruct (loop_operands this c2 a o u Hpos2 Hpass2 o [] (S (S k)) Hao
              post w5 pre Hc5 Ha5 Hop5 (ex_intro _ _ Hop5) (ex_intro _ _ Hu5) Hpost)
    as (w6 & Hloop6 & Hc6 & Ha6 & Hop6 & Hx6).
  assert (Hu6 : arrays w6 !! u = Some []).
  { rewrite (Hx6 u) by congruence. exact Hu5. }
  exists {| Parse.operands := o; Parse.unknown := u |}, w6, c2.
  split.
  - fold w1. rewrite Hparse, Hk. unfold bind at 1. rewrite Hloop.
    cbn [loop].
    erewrite bind_Ok by (apply shift_cons; exact Ha2). cbn beta iota. fold w3.
    erewrite bind_Ok by exact Hit. cbn beta iota.
    rewrite Hloop6. cbn [loop].
    assert (Hsh : shift a w6 = Ok None w6).
    { unfold shift. erewrite bind_Ok by (apply get_array_ok, Ha6). reflexivity. }
    erewrite bind_Ok by exact Hsh. reflexivity.
  - split; [rewrite Hc6; exact Hc5|].
    split; [apply assign_value_of|]. split; [apply assign_value_of|].
    split; [exact Hop6|exact Hu6].
Qed.

(** [serve public --port 80 x] after [.option("-p, --port <number>")]. *)
Lemma added_option_receives_value_witness :
  exists r w' c',
    (addOption 0 (Opt.new "-p, --port <number>") ;;; parseOptions 0 0)
      (plain_world ["public"; "--port"; "80"; "x"]) = Ok r w'
    /\ cmds w' !! 0 = Some c'
    /\ value_of c' "port" = VStr "80" /\ source_of c' "port" = VStr "cli"
    /\ arrays w' !! Parse.operands r = Some ["public"; "x"]
    /\ arrays w' !! Parse.unknown r = Some [].
Proof.
  apply (added_option_receives_value 0 0 (plain_world ["public"; "--port"; "80"; "x"])
           (Cmd.new "plain") (Opt.new "-p, --port <number>")
           "port" "port" "--port" "80" ["public"] ["x"]); try reflexivity.
  - constructor.
  - discriminate.
  - repeat constructor.
  - repeat constructor.
Defined.

(** X20. A variadic option collects its values in order: for an option
    with a required variadic argument (not negated, without parser,
    accepted by [#registerOption], its event without listener yet, and
    neither its default value nor the value of its attribute an array),
    after [addOption] the call of [parseOptions] on operands, a flag of
    the option and tokens of which only the first may start with a dash
    returns the operands before the flag and nothing unknown, and the
    attribute holds one array of all the tokens after the flag, with the
    source ["cli"].
    The command keeps its option values in the separate object, and the
    attribute name is none of the member names that this object inherits. *)
Theorem variadic_option_collects
    (this argv : nat) (w : World) (c : Command) (option : Opt.Option)
    (oname key flag value : string) (pre vs : list string) :
  cmds w !! this = Some c ->
  _storeOptionsAsProperties c = false -> ordinary_key key = true ->
  _enablePositionalOptions c = false -> _passThroughOptions c = false ->
  existsb (flag_clash option) (options c) = false ->
  Forall (fun e => listens ("option:" ++ oname) e = false) (listeners c) ->
  Opt.negate option = false ->
  OptMethods.name option = Some oname ->
  OptMethods.attributeName option = Some key ->
  Opt.required option = true -> Opt.variadic option = true ->
  Opt.parseArg option = None ->
  isArray (Opt.defaultValue option) = false -> isArray (value_of c key) = false ->
  OptMethods.is_ option flag = true -> maybeOption flag = true -> flag <> "--" ->
  arrays w !! argv = Some (pre ++ flag :: value :: vs)%list ->
  Forall (fun t => maybeOption t = false) pre ->
  Forall (fun t => maybeOption t = false) vs ->
  exists r w' c' id,
    (addOption this option ;;; parseOptions this argv) w = Ok r w'
    /\ cmds w' !! this = Some c'
    /\ value_of c' key = VArr id (VStr value :: map VStr vs)
    /\ source_of c' key = VStr "cli"
    /\ arrays w' !! Parse.operands r = Some pre
    /\ arrays w' !! Parse.unknown r = Some [].
Proof.
  intros Hc _ _ Hpos Hpass Hclash Hsilent Hneg Hname Hkey Hreq Hvar Hparser
         Hdefault Hold His Hflag Hdd Hargv Hpre Hvs.
  destruct (addOption_wires this option w c oname key Hc Hclash Hneg Hname Hkey)
    as (c1 & Hadd & Ho1 & Hl1 & Hpos1 & Hpass1 & Hv1).
  rewrite Hpos in Hpos1. rewrite Hpass in Hpass1.
  assert (Hold1 : isArray (value_of c1 key) = false).
  { rewrite Hv1. destruct (is_undefined (Opt.defaultValue option)); assumption. }
  erewrite bind_Ok by exact Hadd. cbn beta iota.
  set (w1 := with_cmd this c1 w).
  assert (Hc1 : cmds w1 !! this = Some c1) by apply with_cmd_lookup.
  assert (Hargv1 : arrays w1 !! argv = Some (pre ++ flag :: value :: vs)%list)
    by exact Hargv.
  destruct (parseOptions_start this argv w1 _ Hargv1)
    as (a & o & u & w0 & Hparse & Hc0 & Hao & Hau & Hou & Ha0 & Hop0 & Hu0).
  destruct (iterations_enough (pre ++ flag :: value :: vs)) as [k Hk].
  rewrite length_app in Hk. cbn [length] in Hk.
  replace (length pre + S (S (length vs)) + S k)
    with (length pre + S (length vs + S (S k))) in Hk by lia.
  assert (Hc0' : cmds w0 !! this = Some c1) by (rewrite Hc0; exact Hc1).
  destruct (loop_operands this c1 a o u Hpos1 Hpass1 o (flag :: value :: vs)
              (S (length vs + S (S k))) Hao
              pre w0 [] Hc0' Ha0 Hop0 (ex_intro _ _ Hop0) (ex_intro _ _ Hu0) Hpre)
    as (w2 & Hloop & Hc2 & Ha2 & Hop2 & Hx2).
  simpl in Hop2.
  assert (Hu2 : arrays w2 !! u = Some []).
  { rewrite (Hx2 u) by congruence. exact Hu0. }
  assert (Hc2' : cmds w2 !! this = Some c1) by (rewrite Hc2; exact Hc0').
  set (w3 := set_arrays (<[a := value :: vs]> (arrays w2)) w2).
  assert (Hc3 : cmds w3 !! this = Some c1) by exact Hc2'.
  assert (Ha3 : arrays w3 !! a = Some (value :: vs))
    by (unfold w3; simpl; apply lookup_insert_eq).
  set (w4 := set_arrays (<[a := vs]> (arrays w3)) w3).
  assert (Hc4 : cmds w4 !! this = Some c1) by exact Hc2'.
  assert (Hn : options c1 !! length (options c) = Some option).
  { rewrite Ho1. rewrite lookup_app_r by lia. rewrite Nat.sub_diag. reflexivity. }
  assert (Hfilter : List.filter (listens ("option:" ++ oname)) (listeners c1)
                    = [(("option:" ++ oname)%string, OnOption (length (options c)) key)]).
  { rewrite Hl1.
    destruct (truthy (Opt.envVar option)).
    - apply (one_listener oname (listeners c) _ true
               (("optionEnv:" ++ oname)%string, OnOptionEnv (length (options c)) key)
               Hsilent).
      + unfold listens. apply String.eqb_refl.
      + reflexivity.
    - apply (one_listener oname (listeners c) _ false
               (("optionEnv:" ++ oname)%string, OnOptionEnv (length (options c)) key)
               Hsilent).
      + unfold listens. apply String.eqb_refl.
      + reflexivity. }
  pose proof (emit_option_stores this option oname key (length (options c))
                Hname Hparser w4 c1 value Hc4 Hn Hfilter) as Hemit.
  rewrite Hvar, (concat_first option (next_tag w4) value _ Hold1) in Hemit.
  set (c2 := assign_value key (VArr (next_tag w4) [VStr value]) (VStr "cli") c1) in *.
  set (w5 := with_cmd this c2 (set_next_tag (S (next_tag w4)) w4)) in *.
  assert (Hfind : find (fun p => OptMethods.is_ p flag) (options c1) = Some option).
  { rewrite Ho1. apply new_flag_finds; [exact Hclash| |exact His].
    apply maybeOption_nonempty, Hflag. }
  apply String.eqb_neq in Hdd.
  pose proof (iteration_required_flag this option a o u o w3 c1 flag value vs w5
                Hc3 Hflag Hdd Hfind Hreq Ha3 Hemit) as Hit.
  rewrite Hvar in Hit.
  assert (Hc5 : cmds w5 !! this = Some c2) by apply with_cmd_lookup.
  destruct (loop_variadic this option oname key (length (options c)) Hname Hparser
              a o u Hvar Hdefault o (S k) vs w5 c2 (next_tag w4) [VStr value])
    as (w6 & c6 & id6 & Hloop6 & Hc6 & Hv6 & Hs6 & Hx6).
  { exact Hc5. }
  { unfold c2. rewrite (proj2 (listeners_assign _ _ _ c1)). exact Hn. }
  { unfold c2. rewrite (proj1 (listeners_assign _ _ _ c1)). exact Hfilter. }
  { apply assign_value_of. }
  { apply assign_value_of. }
  { unfold w5, w4. simpl. apply lookup_insert_eq. }
  { exact Hvs. }
  exists {| Parse.operands := o; Parse.unknown := u |}, w6, c6, id6.
  split.
  - fold w1. rewrite Hparse, Hk. unfold bind at 1. rewrite Hloop.
    cbn [loop].
    erewrite bind_Ok by (apply shift_cons; exact Ha2). cbn beta iota. fold w3.
    erewrite bind_Ok by exact Hit. cbn beta iota.
    rewrite Hloop6. reflexivity.
  - split; [exact Hc6|]. split; [exact Hv6|]. split; [exact Hs6|].
    cbn [Parse.operands Parse.unknown]. split.
    + rewrite (Hx6 o) by congruence. unfold w5, w4, w3. simpl.
      rewrite !lookup_insert_ne by congruence. exact Hop2.
    + rewrite (Hx6 u) by congruence. unfold w5, w4, w3. simpl.
      rewrite !lookup_insert_ne by congruence. exact Hu2.
Qed.

(** [pack out --files a b] after [.option("-f, --files <paths...>")]. *)
Lemma variadic_option_collects_witness :
  exists r w' c' id,
    (addOption 0 (Opt.new "-f, --files <paths...>") ;;; parseOptions 0 0)
      (plain_world ["out"; "--files"; "a"; "b"]) = Ok r w'
    /\ cmds w' !! 0 = Some c'
    /\ value_of c' "files" = VArr id (VStr "a" :: map VStr ["b"])
    /\ source_of c' "files" = VStr "cli"
    /\ arrays w' !! Parse.operands r = Some ["out"]
    /\ arrays w' !! Parse.unknown r = Some [].
Proof.
  apply (variadic_option_collects 0 0 (plain_world ["out"; "--files"; "a"; "b"])
           (Cmd.new "plain") (Opt.new "-f, --files <paths...>")
           "files" "files" "--files" "a" ["out"] ["b"]); try reflexivity.
  - constructor.
  - discriminate.
  - repeat constructor.
  - repeat constructor.
Defined.

End RoundClaims.

Module ImpliedFacts.
Import ValueFacts ConflictFacts EnvFacts BuildFacts OptionFacts.

Lemma reads_bind {A B} (m : M A) (k : A -> M B) w :
  reads m w -> (forall a, m w = Ok a w -> reads (k a) w) -> reads (bind m k) w.
Proof.
  unfold reads. intros Hm Hk. unfold bind.
  destruct (m w) as [a w1| | | |] eqn:E; simpl in *; try assumption.
  subst w1. apply Hk. reflexivity.
Qed.

Lemma hasCustomOptionValue_ok this key w c :
  cmds w !! this = Some c -> hasCustomOptionValue this key w = Ok (custom c key) w.
Proof.
  intros Hc. unfold hasCustomOptionValue.
  erewrite bind_Ok by (apply getOptionValue_ok, Hc). cbn beta iota.
  erewrite bind_Ok by (apply getOptionValueSource_ok, Hc). reflexivity.
Qed.

Lemma custom_implied c key : source_of c key = VStr "implied" -> custom c key = false.
Proof. intros H. unfold custom. rewrite H. apply andb_false_r. Qed.

Lemma custom_same c c' key :
  value_of c' key = value_of c key -> source_of c' key = source_of c key ->
  custom c' key = custom c key.
Proof. intros Hv Hs. unfold custom. rewrite Hv, Hs. reflexivity. Qed.

(** The constructor of [DualOptions] reads, and a dual key has a negative
    option. *)
Lemma fill_reads options w :
  forall pos neg, reads (Dual.fill options pos neg) w.
Proof.
  induction options as [|o rest IH]; intros pos neg; [reflexivity|].
  simpl. apply reads_bind.
  - unfold reads. destruct (OptMethods.attributeName o); reflexivity.
  - intros k _. destruct (Opt.negate o); apply IH.
Qed.

Lemma new_reads options w :
  wp (Dual.new options w)
     (fun d w' => w' = w
                  /\ forall k, k ∈ Dual.dualOptions d -> is_Some (Dual.negativeOptions d !! k))
     (fun w' => w' = w).
Proof.
  unfold Dual.new, bind. pose proof (fill_reads options w ∅ ∅) as H. unfold reads in H.
  destruct (Dual.fill options ∅ ∅ w) as [maps w1| | | |]; simpl in *; try assumption.
  split; [exact H|]. intros k Hk. apply elem_of_intersection in Hk.
  destruct Hk as [Hk _]. apply elem_of_dom in Hk. exact Hk.
Qed.

Lemma valueFromOption_reads d value option w :
  (forall k, k ∈ Dual.dualOptions d -> is_Some (Dual.negativeOptions d !! k)) ->
  reads (Dual.valueFromOption d value option) w.
Proof.
  intros Hd. unfold Dual.valueFromOption. apply reads_bind.
  - unfold reads. destruct (OptMethods.attributeName option); reflexivity.
  - intros k _. destruct (bool_decide (k ∈ Dual.dualOptions d)) eqn:E; [|reflexivity].
    apply bool_decide_eq_true in E. destruct (Hd k E) as [n Hn].
    cbn [negb]. rewrite Hn. reflexivity.
Qed.

(** [filter] with a predicate that reads. *)
Lemma filter_m_reads {A} (p : A -> M bool) (P : A -> Prop) (l : list A) (w : World) :
  (forall x, In x l ->
             wp (p x w) (fun b w' => w' = w /\ (b = true -> P x)) (fun w' => w' = w)) ->
  wp (filter_m p l w)
     (fun r w' => w' = w /\ forall x, In x r -> In x l /\ P x)
     (fun w' => w' = w).
Proof.
  induction l as [|x l IH]; intros Hp.
  - simpl. split; [reflexivity|]. intros x [].
  - simpl. unfold bind at 1.
    pose proof (Hp x (or_introl eq_refl)) as Hx.
    destruct (p x w) as [b w1| | | |]; simpl in Hx; try assumption.
    destruct Hx as [-> Hb].
    specialize (IH (fun y Hy => Hp y (or_intror Hy))).
    unfold bind. destruct (filter_m p l w) as [r w1| | | |]; simpl in *; try assumption.
    destruct IH as [-> Hr]. split; [reflexivity|].
    intros y Hy. destruct b.
    + destruct Hy as [<-|Hy]; [split; [left; reflexivity|apply Hb; reflexivity]|].
      destruct (Hr y Hy). split; [right|]; assumption.
    + destruct (Hr y Hy). split; [right|]; assumption.
Qed.

Section Pass.

Variables (this : nat) (c : Command).

(** The values of the keys are assigned. *)
Lemma implied_keys_loop implied keys :
  forall w c1,
    cmds w !! this = Some c1 -> implied_over c c1 ->
    (forall key, In key keys -> custom c1 key = false /\ implied_by c key) ->
    wp (for_each keys (fun impliedKey =>
          setOptionValueWithSource this impliedKey (implied_get implied impliedKey)
                                   (VStr "implied")) w)
       (fun _ w' => exists c', cmds w' !! this = Some c' /\ implied_over c c')
       (fun w' => exists c', cmds w' !! this = Some c' /\ implied_over c c').
Proof.
  induction keys as [|k keys IH]; intros w c1 Hc1 Hover Hkeys.
  - simpl. exists c1. split; assumption.
  - simpl. unfold bind.
    rewrite (setOptionValueWithSource_ok this k _ _ w c1 Hc1).
    set (c2 := assign_value k (implied_get implied k) (VStr "implied") c1).
    destruct (Hkeys k (or_introl eq_refl)) as [Hk1 Hkby].
    assert (Hover2 : implied_over c c2).
    { destruct Hover as [Ho Hall]. split.
      - unfold c2. rewrite (proj2 (listeners_assign _ _ _ c1)). exact Ho.
      - intros key. destruct (String.eqb_spec k key) as [<-|Hne].
        + right. split; [|split; [exact Hkby|apply assign_value_source]].
          destruct (Hall k) as [[Hv Hs]|[Hcu _]]; [|exact Hcu].
          rewrite <- (custom_same c c1 k Hv Hs). exact Hk1.
        + destruct (assign_value_other c1 k key (implied_get implied k) (VStr "implied") Hne)
            as [Hv Hs].
          fold c2 in Hv, Hs. rewrite Hv, Hs. apply Hall. }
    apply (IH _ c2 (with_cmd_lookup _ _ _) Hover2).
    intros key Hin. split; [|apply Hkeys; right; exact Hin].
    destruct (String.eqb_spec k key) as [<-|Hne].
    + apply custom_implied, assign_value_source.
    + destruct (assign_value_other c1 k key (implied_get implied k) (VStr "implied") Hne)
        as [Hv Hs].
      fold c2 in Hv, Hs. rewrite (custom_same c1 c2 key Hv Hs).
      apply Hkeys. right. exact Hin.
Qed.

(** The loop over the options that imply. *)
Lemma implying_loop implying :
  (forall o, In o implying ->
             In o (options c)
             /\ exists l k, Opt.implied o = Some l /\ OptMethods.attributeName o = Some k
                            /\ custom c k = true) ->
  forall w c1,
    cmds w !! this = Some c1 -> implied_over c c1 ->
    wp (for_each implying (fun option =>
          let implied := default [] (Opt.implied option) in
          keys <- filter_m (fun impliedKey =>
                              custom <- hasCustomOptionValue this impliedKey ;;
                              ret (negb custom)) (map fst implied) ;;
          for_each keys (fun impliedKey =>
            setOptionValueWithSource this impliedKey (implied_get implied impliedKey)
                                     (VStr "implied"))) w)
       (fun _ w' => exists c', cmds w' !! this = Some c' /\ implied_over c c')
       (fun w' => exists c', cmds w' !! this = Some c' /\ implied_over c c').
Proof.
  induction implying as [|o implying IH]; intros Himp w c1 Hc1 Hover.
  - simpl. exists c1. split; assumption.
  - destruct (Himp o (or_introl eq_refl)) as (Hin & l & k & Hl & Hk & Hcu).
    cbn [for_each].
    apply (wp_bind _ _ _ (fun _ w' => exists c', cmds w' !! this = Some c'
                                                 /\ implied_over c c')).
    + cbn zeta. rewrite Hl. cbn [default].
      erewrite bind_Ok.
      2:{ apply (filter_m_pure _ (fun key => negb (custom c1 key))).
          intros key _. erewrite bind_Ok by (apply hasCustomOptionValue_ok, Hc1).
          reflexivity. }
      cbn beta iota. apply (implied_keys_loop l _ w c1 Hc1 Hover).
      intros key Hkey. apply filter_In in Hkey. destruct Hkey as [Hkey Hnc].
      split; [apply negb_true_iff, Hnc|].
      exists o, l, k. repeat split; assumption.
    + intros [] w1 _ (c' & Hc' & Hover'). apply (IH (fun x Hx => Himp x (or_intror Hx)) w1 c' Hc' Hover').
Qed.

End Pass.

Lemma implied_over_refl c : implied_over c c.
Proof. split; [reflexivity|]. intros key. left. split; reflexivity. Qed.

End ImpliedFacts.

Module ImpliedClaims.
Import ValueFacts ConflictFacts EnvFacts BuildFacts OptionFacts ImpliedFacts.

(** X21. [_parseOptionsImplied] ends, and it never replaces a custom
    value: whatever the way it ends, every key of the command has the
    value and the source it had, unless it had no custom value (its value
    was [undefined], or its source ["default"] or ["implied"]) and is a
    key of the implied values of an option of the command that has a
    custom value; such a key may have a new value, with the source
    ["implied"]. The options of the command stay as they are. The command
    keeps its option values in the separate object, and neither the
    attribute name of an option nor a key of the implied values is a member
    name that this object inherits. *)
Theorem implied_pass_keeps_custom_values (this : nat) (w : World) (c : Command) :
  cmds w !! this = Some c ->
  plain_storage c = true -> plain_implied c = true ->
  total (_parseOptionsImplied this w)
        (fun w' => exists c', cmds w' !! this = Some c' /\ implied_over c c').
Proof.
  intros Hc _ _. unfold total, _parseOptionsImplied.
  erewrite bind_Ok by (apply get_cmd_ok, Hc). cbn beta iota.
  assert (Hstay : forall w', w' = w ->
            exists c', cmds w' !! this = Some c' /\ implied_over c c').
  { intros w' ->. exists c. split; [exact Hc|apply implied_over_refl]. }
  apply (wp_bind _ _ _ (fun d w' =>
           w' = w /\ forall k, k ∈ Dual.dualOptions d
                               -> is_Some (Dual.negativeOptions d !! k))).
  { apply (wp_conseq _ _ _ _ _ (new_reads (options c) w)); [auto|exact Hstay]. }
  intros d w1 _ [-> Hd].
  apply (wp_bind _ _ _ (fun implying w' =>
           w' = w /\ forall o, In o implying ->
                       In o (options c)
                       /\ exists l k, Opt.implied o = Some l
                                      /\ OptMethods.attributeName o = Some k
                                      /\ custom c k = true)).
  { eapply wp_conseq; [apply (filter_m_reads _
        (fun o => exists l k, Opt.implied o = Some l
                              /\ OptMethods.attributeName o = Some k
                              /\ custom c k = true))| |exact Hstay].
    - intros o _. destruct (Opt.implied o) as [l|] eqn:Hl.
      2:{ simpl. split; [reflexivity|discriminate]. }
      destruct (OptMethods.attributeName o) as [k|] eqn:Hk; [|reflexivity].
      erewrite bind_Ok by reflexivity. cbn beta iota.
      erewrite bind_Ok by (apply hasCustomOptionValue_ok, Hc). cbn beta iota.
      destruct (custom c k) eqn:Hcu.
      2:{ simpl. split; [reflexivity|discriminate]. }
      erewrite bind_Ok by (apply getOptionValue_ok, Hc). cbn beta iota.
      pose proof (valueFromOption_reads d
                    (if _storeOptionsAsProperties c then js_get (properties c) k
                     else js_get (optionValues c) k) o w Hd) as Hr.
      unfold reads in Hr.
      destruct (Dual.valueFromOption d _ o w) as [b w2| | | |]; simpl in *; try assumption.
      split; [exact Hr|]. intros _. exists l, k. repeat split; assumption.
    - intros r w' [-> Hr]. split; [reflexivity|exact Hr]. }
  intros implying w1 _ [-> Himp].
  apply (implying_loop this c implying Himp w c Hc (implied_over_refl c)).
Qed.

(** [shop --free --price 5]: the price stays ["5"]. *)
Lemma implied_pass_keeps_custom_values_witness :
  total (_parseOptionsImplied 0 shop_world)
        (fun w' => exists c',
             cmds w' !! 0 = Some c'
             /\ implied_over
                  (assign_value "price" (VStr "5") (VStr "cli")
                     (assign_value "free" (VBool true) (VStr "cli")
                        (set_options [free_option; Opt.new "--price <amount>"]
                           (Cmd.new "shop")))) c').
Proof.
  apply (implied_pass_keeps_custom_values 0 shop_world); reflexivity.
Defined.

End ImpliedClaims.

Module RejectFacts.
Import StrFacts ValueFacts ArrayFacts ParseFacts BuildFacts OptionFacts TokenFacts RoundFacts.

(** The listener of the option, when the parser of the option throws. *)
Lemma emit_option_throws this option oname key n fn w c v x :
  OptMethods.name option = Some oname ->
  Opt.parseArg option = Some fn ->
  cmds w !! this = Some c ->
  options c !! n = Some option ->
  List.filter (listens ("option:" ++ oname)) (listeners c)
  = [(("option:" ++ oname)%string, OnOption n key)] ->
  fn (VStr v) (value_of c key) = Raises x ->
  emit_option this option (VStr v) w
  = match x with
    | ThrowCommander e =>
        if String.eqb (code e) "commander.invalidArgument"
        then Exit {| exitCode := (if (exitCode e =? 0)%Z then 1%Z else exitCode e);
                     code := code e;
                     message := ("error: option '" ++ Opt.flags option ++ "' argument '"
                                 ++ v ++ "' is invalid.") ++ " " ++ message e |} w
        else Throw x w
    | _ => Throw x w
    end.
Proof.
  intros Hname Hparser Hc Hn Hl Hfn. unfold emit_option. rewrite Hname.
  erewrite bind_Ok by reflexivity. cbn beta iota.
  unfold emit. erewrite bind_Ok by (apply get_cmd_ok, Hc). cbn beta iota.
  rewrite Hl. cbn [for_each snd].
  assert (Hat : option_at c n w = Ok option w).
  { unfold option_at. rewrite Hn. reflexivity. }
  assert (Hrun : run_listener this (OnOption n key) (VStr v) w
                 = handleOptionValue this n key (VStr v)
                     ("error: option '" ++ Opt.flags option ++ "' argument '"
                      ++ to_string (VStr v) ++ "' is invalid.") "cli" w).
  { unfold run_listener. erewrite bind_Ok by (apply get_cmd_ok, Hc). cbn beta iota.
    erewrite bind_Ok by exact Hat. reflexivity. }
  unfold bind at 1. rewrite Hrun. unfold handleOptionValue.
  erewrite bind_Ok by (apply get_cmd_ok, Hc). cbn beta iota.
  erewrite bind_Ok by exact Hat. cbn beta iota zeta.
  cbn [is_nullish andb].
  erewrite bind_Ok by (apply getOptionValue_ok, Hc). cbn beta iota.
  fold (value_of c key).
  unfold customProcessing. cbn [is_null negb]. rewrite Hparser.
  unfold callParseArg. rewrite Hfn. cbn [to_string].
  destruct x as [e|m|m]; try reflexivity.
  destruct (String.eqb_spec (code e) "commander.invalidArgument") as [He|He]; [|reflexivity].
  unfold bind, error, exit_. rewrite He. reflexivity.
Qed.

(** [version(str, flags)] registers the option and its listener. *)
Lemma version_wires this str flags w c oname key :
  cmds w !! this = Some c ->
  existsb (flag_clash (Opt.new (if truthy flags then default "" flags
                                else "-V, --version"))) (options c) = false ->
  OptMethods.name (Opt.new (if truthy flags then default "" flags else "-V, --version"))
  = Some oname ->
  OptMethods.attributeName
    (Opt.new (if truthy flags then default "" flags else "-V, --version")) = Some key ->
  version this str flags w
  = Ok tt (with_cmd this
             (set_listeners (listeners c ++ [(("option:" ++ oname)%string, OnVersion str)])
                (set_options
                   (options c
                    ++ [Opt.new (if truthy flags then default "" flags
                                 else "-V, --version")]) c)) w).
Proof.
  intros Hc Hclash Hname Hkey. unfold version. cbn zeta. rewrite Hkey.
  erewrite bind_Ok by reflexivity. cbn beta iota.
  erewrite bind_Ok by (apply (registerOption_returns this _ w c Hc Hclash)).
  cbn beta iota. rewrite Hname.
  erewrite bind_Ok by reflexivity. cbn beta iota.
  rewrite (on_ok _ _ _ _ _ (with_cmd_lookup _ _ _)), with_cmd_twice. reflexivity.
Qed.

(** The loop takes a flag of an option without argument. *)
Lemma iteration_boolean_flag this option a o u d w c flag :
  cmds w !! this = Some c ->
  maybeOption flag = true -> String.eqb flag "--" = false ->
  find (fun p => OptMethods.is_ p flag) (options c) = Some option ->
  Opt.required option = false -> Opt.optional option = false ->
  iteration this (locals_to a o u d) flag w
  = (emit_option this option VUndefined ;;;
     ret (Some (set_active (if Opt.variadic option then Some option else None)
                  (locals_to a o u d)))) w.
Proof.
  intros Hc Hflag Hdd Hfind Hreq Hopt.
  unfold iteration. rewrite Hdd. cbn [activeVariadicOption locals_to]. rewrite Hflag.
  change (set_active None (locals_to a o u d)) with (locals_to a o u d).
  erewrite bind_Ok by (rewrite (findOption_ok this w c flag Hc), Hfind; reflexivity).
  cbn beta iota. unfold recognised. rewrite Hreq, Hopt. reflexivity.
Qed.

(** The loop takes a flag of an option that requires an argument, and the
    token after it. *)
Lemma iteration_required_flag_eq this option a o u d w c flag value rest :
  cmds w !! this = Some c ->
  maybeOption flag = true -> String.eqb flag "--" = false ->
  find (fun p => OptMethods.is_ p flag) (options c) = Some option ->
  Opt.required option = true ->
  arrays w !! a = Some (value :: rest) ->
  iteration this (locals_to a o u d) flag w
  = (emit_option this option (VStr value) ;;;
     ret (Some (set_active (if Opt.variadic option then Some option else None)
                  (locals_to a o u d))))
      (set_arrays (<[a := rest]> (arrays w)) w).
Proof.
  intros Hc Hflag Hdd Hfind Hreq Ha.
  unfold iteration. rewrite Hdd. cbn [activeVariadicOption locals_to]. rewrite Hflag.
  change (set_active None (locals_to a o u d)) with (locals_to a o u d).
  erewrite bind_Ok by (rewrite (findOption_ok this w c flag Hc), Hfind; reflexivity).
  cbn beta iota. unfold recognised. rewrite Hreq.
  rewrite bind_assoc.
  erewrite bind_Ok by (apply shift_cons; exact Ha). reflexivity.
Qed.

End RejectFacts.

Module RejectClaims.
Import StrFacts ValueFacts ArrayFacts ParseFacts BuildFacts OptionFacts TokenFacts RoundFacts.
Import RejectFacts.

(** X22. Let an option with a required argument and a parser be added to
    a command, and let the parser throw on a token, whatever the previous
    value. [parseOptions] on operands, a flag of the option and the token
    then exits with the code [commander.invalidArgument], the exit code 1
    and the message [error: option '<flags>' argument '<token>' is
    invalid.] followed by the message of the error, when the parser throws
    an [InvalidArgumentError]; it throws what the parser throws when that
    is an [Error] or a [TypeError]. In both cases the attribute of the
    option keeps the value it had after [addOption].
    The command keeps its option values in the separate object, and the
    attribute name is none of the member names that this object inherits. *)
Theorem rejected_option_argument
    (this argv : nat) (w : World) (c : Command) (option : Opt.Option)
    (fn : ParseArgFunc) (x : exn)
    (oname key flag value : string) (pre rest : list string) :
  cmds w !! this = Some c ->
  _storeOptionsAsProperties c = false -> ordinary_key key = true ->
  _enablePositionalOptions c = false -> _passThroughOptions c = false ->
  existsb (flag_clash option) (options c) = false ->
  Forall (fun e => listens ("option:" ++ oname) e = false) (listeners c) ->
  Opt.negate option = false ->
  OptMethods.name option = Some oname ->
  OptMethods.attributeName option = Some key ->
  Opt.required option = true ->
  Opt.parseArg option = Some fn ->
  (forall previous, fn (VStr value) previous = Raises x) ->
  OptMethods.is_ option flag = true -> maybeOption flag = true -> flag <> "--" ->
  arrays w !! argv = Some (pre ++ flag :: value :: rest)%list ->
  Forall (fun t => maybeOption t = false) pre ->
  exists w' c',
    cmds w' !! this = Some c'
    /\ value_of c' key = (if is_undefined (Opt.defaultValue option) then value_of c key
                          else Opt.defaultValue option)
    /\ (forall msg, x = InvalidArgumentError msg ->
        (addOption this option ;;; parseOptions this argv) w
        = Exit {| exitCode := 1; code := "commander.invalidArgument";
                  message := "error: option '" ++ Opt.flags option ++ "' argument '"
                             ++ value ++ "' is invalid. " ++ msg |} w')
    /\ ((exists msg, x = ThrowError msg \/ x = ThrowTypeError msg) ->
        (addOption this option ;;; parseOptions this argv) w = Throw x w').
Proof.
  intros Hc _ _ Hpos Hpass Hclash Hsilent Hneg Hname Hkey Hreq Hparser Hfn
         His Hflag Hdd Hargv Hpre.
  destruct (addOption_wires this option w c oname key Hc Hclash Hneg Hname Hkey)
    as (c1 & Hadd & Ho1 & Hl1 & Hpos1 & Hpass1 & Hv1).
  rewrite Hpos in Hpos1. rewrite Hpass in Hpass1.
  set (w1 := with_cmd this c1 w).
  assert (Hc1 : cmds w1 !! this = Some c1) by apply with_cmd_lookup.
  assert (Hargv1 : arrays w1 !! argv = Some (pre ++ flag :: value :: rest)%list)
    by exact Hargv.
  destruct (parseOptions_start this argv w1 _ Hargv1)
    as (a & o & u & w0 & Hparse & Hc0 & Hao & Hau & Hou & Ha0 & Hop0 & Hu0).
  destruct (iterations_enough (pre ++ flag :: value :: rest)) as [k Hk].
  rewrite length_app in Hk. cbn [length] in Hk.
  replace (length pre + S (S (length rest)) + S k)
    with (length pre + S (S (length rest) + S k)) in Hk by lia.
  assert (Hc0' : cmds w0 !! this = Some c1) by (rewrite Hc0; exact Hc1).
  destruct (loop_operands this c1 a o u Hpos1 Hpass1 o (flag :: value :: rest)
              (S (S (length rest) + S k)) Hao
              pre w0 [] Hc0' Ha0 Hop0 (ex_intro _ _ Hop0) (ex_intro _ _ Hu0) Hpre)
    as (w2 & Hloop & Hc2 & Ha2 & Hop2 & Hx2).
  assert (Hc2' : cmds w2 !! this = Some c1) by (rewrite Hc2; exact Hc0').
  set (w3 := set_arrays (<[a := value :: rest]> (arrays w2)) w2).
  assert (Hc3 : cmds w3 !! this = Some c1) by exact Hc2'.
  assert (Ha3 : arrays w3 !! a = Some (value :: rest))
    by (unfold w3; simpl; apply lookup_insert_eq).
  set (w4 := set_arrays (<[a := rest]> (arrays w3)) w3).
  assert (Hc4 : cmds w4 !! this = Some c1) by exact Hc2'.
  assert (Hn : options c1 !! length (options c) = Some option).
  { rewrite Ho1. rewrite lookup_app_r by lia. rewrite Nat.sub_diag. reflexivity. }
  assert (Hfilter : List.filter (listens ("option:" ++ oname)) (listeners c1)
                    = [(("option:" ++ oname)%string, OnOption (length (options c)) key)]).
  { rewrite Hl1.
    destruct (truthy (Opt.envVar option)).
    - apply (one_listener oname (listeners c) _ true
               (("optionEnv:" ++ oname)%string, OnOptionEnv (length (options c)) key)
               Hsilent).
      + unfold listens. apply String.eqb_refl.
      + reflexivity.
    - apply (one_listener oname (listeners c) _ false
               (("optionEnv:" ++ oname)%string, OnOptionEnv (length (options c)) key)
               Hsilent).
      + unfold listens. apply String.eqb_refl.
      + reflexivity. }
  pose proof (emit_option_throws this option oname key (length (options c)) fn w4 c1
                value x Hname Hparser Hc4 Hn Hfilter (Hfn _)) as Hemit.
  assert (Hfind : find (fun p => OptMethods.is_ p flag) (options c1) = Some option).
  { rewrite Ho1. apply new_flag_finds; [exact Hclash| |exact His].
    apply maybeOption_nonempty, Hflag. }
  apply String.eqb_neq in Hdd.
  pose proof (iteration_required_flag_eq this option a o u o w3 c1 flag value rest
                Hc3 Hflag Hdd Hfind Hreq Ha3) as Hit.
  fold w4 in Hit.
  exists w4, c1. split; [exact Hc4|]. split; [exact Hv1|]. split.
  - intros msg ->.
    erewrite bind_Ok by exact Hadd. cbn beta iota. fold w1.
    rewrite Hparse, Hk. apply bind_Exit. rewrite Hloop. cbn [loop].
    erewrite bind_Ok by (apply shift_cons; exact Ha2). cbn beta iota. fold w3.
    apply bind_Exit. refine (eq_trans Hit _). apply bind_Exit. rewrite Hemit.
    unfold InvalidArgumentError. cbn [code exitCode message].
    rewrite String.eqb_refl. cbn [Z.eqb].
    rewrite !SliceFacts.app_assoc. reflexivity.
  - intros [msg Hx].
    erewrite bind_Ok by exact Hadd. cbn beta iota. fold w1.
    rewrite Hparse, Hk. apply bind_Throw. rewrite Hloop. cbn [loop].
    erewrite bind_Ok by (apply shift_cons; exact Ha2). cbn beta iota. fold w3.
    apply bind_Throw. refine (eq_trans Hit _). apply bind_Throw. rewrite Hemit.
    destruct Hx as [-> | ->]; reflexivity.
Qed.

(** [serve --port x] with a parser that rejects [x]. *)
Lemma rejected_option_argument_witness :
  exists w' c',
    cmds w' !! 0 = Some c'
    /\ value_of c' "port"
       = (if is_undefined (Opt.defaultValue checked_port)
          then value_of (Cmd.new "plain") "port"
          else Opt.defaultValue checked_port)
    /\ (forall msg, InvalidArgumentError "Not a number." = InvalidArgumentError msg ->
        (addOption 0 checked_port ;;; parseOptions 0 0) (plain_world ["--port"; "x"])
        = Exit {| exitCode := 1; code := "commander.invalidArgument";
                  message := "error: option '" ++ Opt.flags checked_port ++ "' argument '"
                             ++ "x" ++ "' is invalid. " ++ msg |} w')
    /\ ((exists msg, InvalidArgumentError "Not a number." = ThrowError msg
                     \/ InvalidArgumentError "Not a number." = ThrowTypeError msg) ->
        (addOption 0 checked_port ;;; parseOptions 0 0) (plain_world ["--port"; "x"])
        = Throw (InvalidArgumentError "Not a number.") w').
Proof.
  apply (rejected_option_argument 0 0 (plain_world ["--port"; "x"]) (Cmd.new "plain")
           checked_port not_a_number (InvalidArgumentError "Not a number.")
           "port" "port" "--port" "x" [] []); try reflexivity.
  - constructor.
  - discriminate.
  - constructor.
Defined.

(** X23. After [version(str, flags)] a flag of the version option on the
    command line makes [parseOptions] exit with the exit code 0, the code
    [commander.version] and [str] as message, whatever follows the flag;
    the tokens before the flag are operands. The version option is one
    without argument that [#registerOption] accepts, its event has no
    listener yet, and neither positional nor pass-through options are
    enabled. *)
Theorem version_flag_exits
    (this argv : nat) (w : World) (c : Command) (str : string) (flags : option string)
    (versionOption : Opt.Option) (oname key flag : string) (pre rest : list string) :
  versionOption = Opt.new (if truthy flags then default "" flags else "-V, --version") ->
  cmds w !! this = Some c ->
  _enablePositionalOptions c = false -> _passThroughOptions c = false ->
  existsb (flag_clash versionOption) (options c) = false ->
  Forall (fun e => listens ("option:" ++ oname) e = false) (listeners c) ->
  OptMethods.name versionOption = Some oname ->
  OptMethods.attributeName versionOption = Some key ->
  Opt.required versionOption = false -> Opt.optional versionOption = false ->
  OptMethods.is_ versionOption flag = true -> maybeOption flag = true -> flag <> "--" ->
  arrays w !! argv = Some (pre ++ flag :: rest)%list ->
  Forall (fun t => maybeOption t = false) pre ->
  exists w',
    (version this str flags ;;; parseOptions this argv) w
    = Exit {| exitCode := 0; code := "commander.version"; message := str |} w'.
Proof.
  intros -> Hc Hpos Hpass Hclash Hsilent Hname Hkey Hreq Hopt His Hflag Hdd Hargv Hpre.
  set (vo := Opt.new (if truthy flags then default "" flags else "-V, --version")) in *.
  pose proof (version_wires this str flags w c oname key Hc Hclash Hname Hkey) as Hver.
  fold vo in Hver.
  set (c1 := set_listeners (listeners c ++ [(("option:" ++ oname)%string, OnVersion str)])
               (set_options (options c ++ [vo]) c)) in *.
  set (w1 := with_cmd this c1 w) in *.
  assert (Hc1 : cmds w1 !! this = Some c1) by apply with_cmd_lookup.
  assert (Hargv1 : arrays w1 !! argv = Some (pre ++ flag :: rest)%list) by exact Hargv.
  destruct (parseOptions_start this argv w1 _ Hargv1)
    as (a & o & u & w0 & Hparse & Hc0 & Hao & Hau & Hou & Ha0 & Hop0 & Hu0).
  destruct (iterations_enough (pre ++ flag :: rest)) as [k Hk].
  rewrite length_app in Hk. cbn [length] in Hk.
  replace (length pre + S (length rest) + S k)
    with (length pre + S (length rest + S k)) in Hk by lia.
  assert (Hc0' : cmds w0 !! this = Some c1) by (rewrite Hc0; exact Hc1).
  destruct (loop_operands this c1 a o u Hpos Hpass o (flag :: rest)
              (S (length rest + S k)) Hao
              pre w0 [] Hc0' Ha0 Hop0 (ex_intro _ _ Hop0) (ex_intro _ _ Hu0) Hpre)
    as (w2 & Hloop & Hc2 & Ha2 & Hop2 & Hx2).
  assert (Hc2' : cmds w2 !! this = Some c1) by (rewrite Hc2; exact Hc0').
  set (w3 := set_arrays (<[a := rest]> (arrays w2)) w2).
  assert (Hc3 : cmds w3 !! this = Some c1) by exact Hc2'.
  assert (Hfind : find (fun p => OptMethods.is_ p flag) (options c1) = Some vo).
  { apply new_flag_finds; [exact Hclash| |exact His]. apply maybeOption_nonempty, Hflag. }
  apply String.eqb_neq in Hdd.
  pose proof (iteration_boolean_flag this vo a o u o w3 c1 flag Hc3 Hflag Hdd Hfind
                Hreq Hopt) as Hit.
  assert (Hfilter : List.filter (listens ("option:" ++ oname)) (listeners c1)
                    = [(("option:" ++ oname)%string, OnVersion str)]).
  { apply (one_listener oname (listeners c) _ false
             (("optionEnv:" ++ oname)%string, OnVersion str) Hsilent).
    - unfold listens. apply String.eqb_refl.
    - reflexivity. }
  assert (Hemit : emit_option this vo VUndefined w3
                  = Exit {| exitCode := 0; code := "commander.version"; message := str |} w3).
  { unfold emit_option. rewrite Hname.
    erewrite bind_Ok by reflexivity. cbn beta iota.
    unfold emit. erewrite bind_Ok by (apply get_cmd_ok, Hc3). cbn beta iota.
    rewrite Hfilter. reflexivity. }
  exists w3.
  erewrite bind_Ok by exact Hver. cbn beta iota.
  rewrite Hparse, Hk. apply bind_Exit. rewrite Hloop. cbn [loop].
  erewrite bind_Ok by (apply shift_cons; exact Ha2). cbn beta iota.
  apply bind_Exit. refine (eq_trans Hit _). apply bind_Exit. exact Hemit.
Qed.

(** [plain a -V b] after [.version("1.2.3")]. *)
Lemma version_flag_exits_witness :
  exists w',
    (version 0 "1.2.3" None ;;; parseOptions 0 0) (plain_world ["a"; "-V"; "b"])
    = Exit {| exitCode := 0; code := "commander.version"; message := "1.2.3" |} w'.
Proof.
  apply (version_flag_exits 0 0 (plain_world ["a"; "-V"; "b"]) (Cmd.new "plain")
           "1.2.3" None (Opt.new "-V, --version") "version" "version" "-V" ["a"] ["b"]);
    try reflexivity.
  - constructor.
  - discriminate.
  - repeat constructor.
Defined.

End RejectClaims.

Module HelpClaims.
Import ValueFacts ConflictFacts FamilyFacts.

(** X24. [_getHelpCommand] creates the help command lazily and once. It
    returns [null] and changes nothing when there is no implicit help
    command: the member [#addImplicitHelpCommand] is [false], or it is not
    set and the command has no subcommands, or an action handler, or a
    subcommand that goes by [help]. Otherwise it returns the help command
    of the command when there is one, and changes nothing; when there is
    none it creates the command [help [command]] as a new object, and a
    second call returns this same object and changes nothing. *)
Theorem getHelpCommand_is_lazy (this : nat) (w : World) (c : Command) :
  cmds w !! this = Some c -> subcommands_in w c ->
  (hasImplicitHelpCommand w c = false -> _getHelpCommand this w = Ok None w)
  /\ (hasImplicitHelpCommand w c = true ->
      forall l, helpCommand c = Some l -> _getHelpCommand this w = Ok (Some l) w)
  /\ (hasImplicitHelpCommand w c = true -> helpCommand c = None ->
      exists l w',
        _getHelpCommand this w = Ok (Some l) w'
        /\ cmds w !! l = None
        /\ cmds w' !! l = Some default_help
        /\ cmds w' !! this
           = Some (set_helpCommand (Some l) (set_addImplicitHelpCommand (Some true) c))
        /\ _getHelpCommand this w' = Ok (Some l) w').
Proof.
  intros Hc Hsub.
  assert (Hfirst : (match addImplicitHelpCommand c with
                    | Some b => ret b
                    | None =>
                        if negb (Nat.eqb (length (commands c)) 0) && negb (_actionHandler c)
                        then found <- findCommand this (Some "help") ;;
                             ret (match found with Some _ => false | None => true end)
                        else ret false
                    end) w = Ok (hasImplicitHelpCommand w c) w).
  { unfold hasImplicitHelpCommand. destruct (addImplicitHelpCommand c) as [b|]; [reflexivity|].
    destruct (negb (Nat.eqb (length (commands c)) 0) && negb (_actionHandler c));
      [|reflexivity].
    destruct (findCommand_taken this w c "help" Hc Hsub) as (found & Hf & Hm).
    erewrite bind_Ok by exact Hf. cbn beta iota.
    destruct found as [l|]; [destruct Hm as [-> _]|rewrite Hm]; reflexivity. }
  split; [|split].
  - intros Hno. unfold _getHelpCommand.
    erewrite bind_Ok by (apply get_cmd_ok, Hc). cbn beta iota.
    erewrite bind_Ok by exact Hfirst. cbn beta iota. rewrite Hno. reflexivity.
  - intros Hyes l Hl. unfold _getHelpCommand.
    erewrite bind_Ok by (apply get_cmd_ok, Hc). cbn beta iota.
    erewrite bind_Ok by exact Hfirst. cbn beta iota. rewrite Hyes, Hl.
    erewrite bind_Ok by reflexivity. cbn beta iota.
    erewrite bind_Ok by (apply get_cmd_ok, Hc). cbn beta iota. rewrite Hl. reflexivity.
  - intros Hyes Hnone.
    set (l := fresh (dom (cmds w))).
    assert (Hl : cmds w !! l = None).
    { apply not_elem_of_dom. apply is_fresh. }
    assert (Hne : this <> l) by (intros ->; congruence).
    set (c' := set_helpCommand (Some l) (set_addImplicitHelpCommand (Some true) c)).
    set (w' := with_cmd this c'
                 (with_cmd l default_help (with_cmd l (Cmd.new "help") w))).
    assert (Hthis' : cmds w' !! this = Some c') by apply with_cmd_lookup.
    assert (Hl' : cmds w' !! l = Some default_help).
    { unfold w'. rewrite with_cmd_lookup_ne by exact Hne. apply with_cmd_lookup. }
    exists l, w'.
    split; [|split; [exact Hl|split; [exact Hl'|split; [exact Hthis'|]]]].
    + unfold _getHelpCommand.
      erewrite bind_Ok by (apply get_cmd_ok, Hc). cbn beta iota.
      erewrite bind_Ok by exact Hfirst. cbn beta iota. rewrite Hyes, Hnone.
      assert (Hdefault : defaultHelpCommand this w = Ok tt w').
      { unfold defaultHelpCommand.
        erewrite bind_Ok by reflexivity. cbn beta iota.
        fold l. fold (with_cmd l (Cmd.new "help") w).
        assert (Hadd : addArgument l (Arg.default VUndefined (Arg.new "[command]" None))
                         (with_cmd l (Cmd.new "help") w)
                       = Ok tt (with_cmd l default_help (with_cmd l (Cmd.new "help") w))).
        { unfold addArgument.
          erewrite bind_Ok by (apply get_cmd_ok, with_cmd_lookup). reflexivity. }
        erewrite bind_Ok by exact Hadd. cbn beta iota.
        assert (Hthis2 : cmds (with_cmd l default_help (with_cmd l (Cmd.new "help") w))
                         !! this = Some c).
        { rewrite !with_cmd_lookup_ne by congruence. exact Hc. }
        unfold modify_cmd. erewrite bind_Ok by (apply get_cmd_ok, Hthis2).
        reflexivity. }
      erewrite bind_Ok by exact Hdefault. cbn beta iota.
      erewrite bind_Ok by (apply get_cmd_ok, Hthis'). reflexivity.
    + unfold _getHelpCommand.
      erewrite bind_Ok by (apply get_cmd_ok, Hthis'). cbn beta iota.
      change (addImplicitHelpCommand c') with (Some true).
      change (helpCommand c') with (Some l).
      erewrite bind_Ok by reflexivity. cbn beta iota.
      erewrite bind_Ok by reflexivity. cbn beta iota.
      erewrite bind_Ok by (apply get_cmd_ok, Hthis'). reflexivity.
Qed.

(** [program] with the subcommand [serve]: the help command is created. *)
Lemma getHelpCommand_is_lazy_witness :
  exists l w',
    _getHelpCommand 0 family_world = Ok (Some l) w'
    /\ cmds family_world !! l = None
    /\ cmds w' !! l = Some default_help
    /\ cmds w' !! 0
       = Some (set_helpCommand (Some l)
                 (set_addImplicitHelpCommand (Some true)
                    (set_commands [1] (Cmd.new "program"))))
    /\ _getHelpCommand 0 w' = Ok (Some l) w'.
Proof.
  refine (proj2 (proj2 (getHelpCommand_is_lazy 0 family_world
                          (set_commands [1] (Cmd.new "program")) eq_refl _))
            eq_refl eq_refl).
  intros l [<-|[]]. eexists. reflexivity.
Defined.

End HelpClaims.

Module PositionalFacts.
Import StrFacts ValueFacts ConflictFacts ArrayFacts ParseFacts FamilyFacts TokenFacts.

(** Without implicit help command [_getHelpCommand] returns [null]. *)
Lemma getHelpCommand_none this w c :
  cmds w !! this = Some c -> subcommands_in w c ->
  hasImplicitHelpCommand w c = false ->
  _getHelpCommand this w = Ok None w.
Proof.
  intros Hc Hsub Hno. unfold _getHelpCommand.
  erewrite bind_Ok by (apply get_cmd_ok, Hc). cbn beta iota.
  unfold hasImplicitHelpCommand in Hno.
  destruct (addImplicitHelpCommand c) as [b|].
  { subst b. reflexivity. }
  destruct (negb (Nat.eqb (length (commands c)) 0) && negb (_actionHandler c));
    [|reflexivity].
  destruct (findCommand_taken this w c "help" Hc Hsub) as (found & Hf & Hm).
  cbn [andb] in Hno. apply negb_false_iff in Hno.
  destruct found as [l|]; [|congruence].
  erewrite bind_Ok.
  2:{ erewrite bind_Ok by exact Hf. reflexivity. }
  reflexivity.
Qed.

(** The first token, one that cannot be an option, reaches the statements
    that route it. *)
Lemma iteration_routes this a o u d w t :
  maybeOption t = false ->
  iteration this (locals_to a o u d) t w = route_token this (locals_to a o u d) t w.
Proof.
  intros Ht. destruct (operand_token t Ht) as (Hdd & Hsc & Hlv).
  unfold iteration. rewrite Hdd. cbn [activeVariadicOption locals_to]. rewrite Ht.
  rewrite Hsc, Hlv.
  change (set_active None (locals_to a o u d)) with (locals_to a o u d).
  reflexivity.
Qed.

End PositionalFacts.

Module PositionalClaims.
Import StrFacts ValueFacts ConflictFacts ArrayFacts ParseFacts FamilyFacts TokenFacts.
Import PositionalFacts.

(** X26. With positional or pass-through options enabled, [parseOptions]
    stops at a first token that is the name or an alias of a subcommand:
    it returns this token as the only operand and all the tokens after it,
    untouched, as unknown. *)
Theorem positional_options_stop_at_subcommand
    (this argv : nat) (w : World) (c : Command) (sub : string) (rest : list string) :
  cmds w !! this = Some c -> subcommands_in w c ->
  _enablePositionalOptions c || _passThroughOptions c = true ->
  maybeOption sub = false -> name_taken w c sub = true ->
  arrays w !! argv = Some (sub :: rest) ->
  exists r w',
    parseOptions this argv w = Ok r w'
    /\ cmds w' = cmds w
    /\ arrays w' !! Parse.operands r = Some [sub]
    /\ arrays w' !! Parse.unknown r = Some rest.
Proof.
  intros Hc Hsub Hmode Ht Htaken Hargv.
  destruct (parseOptions_start this argv w _ Hargv)
    as (a & o & u & w0 & Hparse & Hc0 & Hao & Hau & Hou & Ha0 & Ho0 & Hu0).
  assert (Hc0' : cmds w0 !! this = Some c) by (rewrite Hc0; exact Hc).
  set (w1 := set_arrays (<[a := rest]> (arrays w0)) w0).
  assert (Hc1 : cmds w1 !! this = Some c) by exact Hc0'.
  assert (Ha1 : arrays w1 !! a = Some rest) by (unfold w1; simpl; apply lookup_insert_eq).
  assert (Ho1 : arrays w1 !! o = Some []).
  { unfold w1. simpl. rewrite lookup_insert_ne by exact Hao. exact Ho0. }
  assert (Hu1 : arrays w1 !! u = Some []).
  { unfold w1. simpl. rewrite lookup_insert_ne by exact Hau. exact Hu0. }
  assert (Hsub1 : subcommands_in w1 c).
  { intros l Hl. change (is_Some (cmds w0 !! l)). rewrite Hc0. apply Hsub, Hl. }
  assert (Htaken1 : name_taken w1 c sub = true) by (rewrite <- Htaken; unfold name_taken, goes_by; simpl; rewrite Hc0; reflexivity).
  destruct (findCommand_taken this w1 c sub Hc1 Hsub1) as (found & Hf & Hm).
  destruct found as [l|]; [|congruence].
  set (w2 := set_arrays (<[o := ([] ++ [sub])%list]> (arrays w1)) w1).
  set (w3 := set_arrays (<[u := ([] ++ rest)%list]> (arrays w2)) w2).
  assert (Hroute : route_token this (locals_to a o u o) sub w1 = Ok None w3).
  { unfold route_token. rewrite Ht.
    erewrite bind_Ok by (apply get_cmd_ok, Hc1). cbn beta iota.
    erewrite bind_Ok by (apply get_array_ok, Ho1). cbn beta iota.
    erewrite bind_Ok by (apply get_array_ok, Hu1). cbn beta iota.
    rewrite Hmode. cbn [length Nat.eqb andb].
    erewrite bind_Ok.
    2:{ erewrite bind_Ok by exact Hf. cbn beta iota.
        erewrite bind_Ok by (apply push_ok, Ho1). cbn beta iota. fold w2.
        erewrite bind_Ok.
        2:{ apply get_array_ok. unfold w2. simpl.
            rewrite lookup_insert_ne by congruence. exact Ha1. }
        cbn beta iota.
        erewrite bind_Ok.
        2:{ apply push_ok. unfold w2. simpl.
            rewrite lookup_insert_ne by congruence. exact Hu1. }
        reflexivity. }
    reflexivity. }
  exists {| Parse.operands := o; Parse.unknown := u |}, w3.
  split.
  - rewrite Hparse. unfold iterations. cbn [loop].
    unfold bind at 1.
    erewrite bind_Ok by (apply shift_cons; exact Ha0). cbn beta iota. fold w1.
    erewrite bind_Ok by (rewrite iteration_routes by exact Ht; exact Hroute).
    reflexivity.
  - split; [unfold w3, w2, w1; simpl; exact Hc0|].
    cbn [Parse.operands Parse.unknown]. split.
    + unfold w3, w2. simpl. rewrite lookup_insert_ne by congruence.
      apply lookup_insert_eq.
    + unfold w3. simpl. apply lookup_insert_eq.
Qed.

(** [program serve --port 80] with positional options. *)
Lemma positional_options_stop_at_subcommand_witness :
  exists r w',
    parseOptions 0 0 positional_world = Ok r w'
    /\ cmds w' = cmds positional_world
    /\ arrays w' !! Parse.operands r = Some ["serve"]
    /\ arrays w' !! Parse.unknown r = Some ["--port"; "80"].
Proof.
  apply (positional_options_stop_at_subcommand 0 0 positional_world
           (set_enablePositionalOptions true (set_commands [1] (Cmd.new "program")))
           "serve" ["--port"; "80"]); try reflexivity.
  intros l [<-|[]]. eexists. reflexivity.
Defined.

End PositionalClaims.

Module ArgsClaims.
Import StrFacts ValueFacts ArrayFacts ParseFacts TokenFacts.

(** X25. For a command without declared options (and with neither
    positional nor pass-through options) the first statements of
    [#parseCommand] assign to [this.args] the operands it was given
    followed by the tokens of [unknown], without the literal [--] when
    that is the first of the tokens that starts with a dash; the new
    [operands] are these without the tokens that [parseOptions] returns
    as unknown, which are the new [unknown]. *)
Theorem plain_command_args
    (this operands unknown : nat) (w : World) (c : Command)
    (before pre rest : list string) :
  cmds w !! this = Some c -> options c = [] ->
  _enablePositionalOptions c = false -> _passThroughOptions c = false ->
  arrays w !! operands = Some before ->
  arrays w !! unknown = Some (pre ++ rest)%list ->
  Forall (fun t => maybeOption t = false) pre ->
  (forall t more, rest = t :: more -> maybeOption t = true) ->
  exists operands' unknown' w',
    parseCommand_args this operands unknown w = Ok (operands', unknown') w'
    /\ cmds w' !! this
       = Some (set_args ((before ++ pre ++ fst (split_at_dash rest))
                         ++ snd (split_at_dash rest))%list c)
    /\ arrays w' !! operands' = Some (before ++ pre ++ fst (split_at_dash rest))%list
    /\ arrays w' !! unknown' = Some (snd (split_at_dash rest)).
Proof.
  intros Hc Hopt Hpos Hpass Hbefore Hunknown Hpre Hrest.
  destruct (parseOptions_plain this unknown w c pre rest Hc Hopt Hpos Hpass Hunknown
              Hpre Hrest) as (r & w1 & Hparse & Hc1 & Hops & Hunk).
  pose proof (parseOptions_spec this unknown (arrays w) w eq_refl) as Hframe.
  unfold awp in Hframe. rewrite Hparse in Hframe.
  assert (Hc1' : cmds w1 !! this = Some c) by (rewrite Hc1; exact Hc).
  assert (Henv : _parseOptionsEnv this w1 = Ok tt w1).
  { unfold _parseOptionsEnv. erewrite bind_Ok by (apply get_cmd_ok, Hc1').
    rewrite Hopt. reflexivity. }
  assert (Himplied : _parseOptionsImplied this w1 = Ok tt w1).
  { unfold _parseOptionsImplied. erewrite bind_Ok by (apply get_cmd_ok, Hc1').
    rewrite Hopt. reflexivity. }
  set (ops := (before ++ pre ++ fst (split_at_dash rest))%list).
  set (o' := fresh (dom (arrays w1))).
  assert (Ho' : arrays w1 !! o' = None).
  { apply not_elem_of_dom. apply is_fresh. }
  set (w2 := set_arrays (<[o' := ops]> (arrays w1)) w1).
  assert (Hne : Parse.unknown r <> o') by (intros E; rewrite E in Hunk; congruence).
  assert (Hc2 : cmds w2 !! this = Some c) by exact Hc1'.
  exists o', (Parse.unknown r),
         (with_cmd this (set_args (ops ++ snd (split_at_dash rest))%list c) w2).
  split; [|split; [apply with_cmd_lookup|split]].
  - unfold parseCommand_args.
    erewrite bind_Ok by exact Hparse. cbn beta iota.
    erewrite bind_Ok by exact Henv. cbn beta iota.
    erewrite bind_Ok by exact Himplied. cbn beta iota.
    erewrite bind_Ok by (apply get_array_ok, Hframe, Hbefore). cbn beta iota.
    erewrite bind_Ok by (apply get_array_ok, Hops). cbn beta iota.
    erewrite bind_Ok by reflexivity. cbn beta iota zeta.
    fold o'. fold ops. fold w2.
    erewrite bind_Ok.
    2:{ apply get_array_ok. unfold w2. simpl. apply lookup_insert_eq. }
    cbn beta iota.
    erewrite bind_Ok.
    2:{ apply get_array_ok. unfold w2. simpl.
        rewrite lookup_insert_ne by congruence. exact Hunk. }
    cbn beta iota.
    unfold modify_cmd. erewrite bind_Ok.
    2:{ erewrite bind_Ok by (apply get_cmd_ok, Hc2). reflexivity. }
    reflexivity.
  - simpl. apply lookup_insert_eq.
  - simpl. rewrite lookup_insert_ne by congruence. exact Hunk.
Qed.

(** [plain a -- b] after the operand [x]. *)
Lemma plain_command_args_witness :
  exists operands' unknown' w',
    parseCommand_args 0 1 0 (operands_world ["x"] ["a"; "--"; "b"])
    = Ok (operands', unknown') w'
    /\ cmds w' !! 0 = Some (set_args ["x"; "a"; "b"] (Cmd.new "plain"))
    /\ arrays w' !! operands' = Some ["x"; "a"; "b"]
    /\ arrays w' !! unknown' = Some [].
Proof.
  apply (plain_command_args 0 1 0 (operands_world ["x"] ["a"; "--"; "b"])
           (Cmd.new "plain") ["x"] ["a"] ["--"; "b"]); try reflexivity.
  - repeat constructor.
  - intros t more E. injection E as <- _. reflexivity.
Defined.

End ArgsClaims.

Module InlineFacts.
Import StrFacts ValueFacts ArrayFacts ParseFacts BuildFacts OptionFacts TokenFacts RoundFacts.

(** The shape of a token [--name=value]. *)
Lemma inline_token nm value :
  Str.nonempty nm = true -> Str.has "=" nm = false ->
  String.eqb ("--" ++ nm ++ "=" ++ value) "--" = false
  /\ maybeOption ("--" ++ nm ++ "=" ++ value) = true
  /\ short_cluster ("--" ++ nm ++ "=" ++ value) = None
  /\ long_with_value ("--" ++ nm ++ "=" ++ value) = Some ("--" ++ nm, value).
Proof.
  intros Hne Hhas. destruct nm as [|x nm]; [discriminate Hne|].
  repeat split; try reflexivity.
  unfold long_with_value.
  replace ("--" ++ String x nm ++ "=" ++ value)
    with (("--" ++ String x nm) ++ String "=" value).
  2:{ rewrite !SliceFacts.app_assoc. reflexivity. }
  rewrite cut_app.
  - rewrite strip_app. reflexivity.
  - exact Hhas.
Qed.

(** The loop takes a token [--name=value] for an option that takes an
    argument. *)
Lemma iteration_inline this option a o u d w c nm value :
  cmds w !! this = Some c ->
  Str.nonempty nm = true -> Str.has "=" nm = false ->
  find (fun p => OptMethods.is_ p ("--" ++ nm ++ "=" ++ value)) (options c) = None ->
  find (fun p => OptMethods.is_ p ("--" ++ nm)) (options c) = Some option ->
  Opt.required option || Opt.optional option = true ->
  iteration this (locals_to a o u d) ("--" ++ nm ++ "=" ++ value) w
  = (emit_option this option (VStr value) ;;; ret (Some (locals_to a o u d))) w.
Proof.
  intros Hc Hne Hhas Hwhole Hfind Harg.
  destruct (inline_token nm value Hne Hhas) as (Hdd & Hmaybe & Hsc & Hlv).
  unfold iteration. rewrite Hdd. cbn [activeVariadicOption locals_to]. rewrite Hmaybe.
  change (set_active None (locals_to a o u d)) with (locals_to a o u d).
  erewrite bind_Ok by (rewrite (findOption_ok this w c _ Hc), Hwhole; reflexivity).
  cbn beta iota. rewrite Hsc.
  erewrite bind_Ok by reflexivity. cbn beta iota. rewrite Hlv.
  unfold long_equals.
  rewrite !bind_assoc.
  erewrite bind_Ok by (rewrite (findOption_ok this w c _ Hc), Hfind; reflexivity).
  cbn beta iota. rewrite Harg. rewrite !bind_assoc.
  unfold bind. destruct (emit_option this option (VStr value) w); reflexivity.
Qed.

End InlineFacts.

Module InlineClaims.
Import StrFacts ValueFacts ArrayFacts ParseFacts BuildFacts OptionFacts TokenFacts RoundFacts.
Import InlineFacts.

(** X28. An option that takes an argument receives the value of a token
    [--name=value]: after [addOption] of an option with the long flag
    [--name] (not negated, not variadic, without parser, accepted by
    [#registerOption], its event without listener yet), [parseOptions] on
    operands, the token and further operands returns the operands and
    nothing unknown, and the attribute of the option holds the text after
    the first [=], the empty string included, with the source ["cli"]. No
    option goes by the whole token, and neither positional nor
    pass-through options are enabled.
    The command keeps its option values in the separate object, and the
    attribute name is none of the member names that this object inherits. *)
Theorem added_option_receives_inline_value
    (this argv : nat) (w : World) (c : Command) (option : Opt.Option)
    (oname key nm value : string) (pre post : list string) :
  cmds w !! this = Some c ->
  _storeOptionsAsProperties c = false -> ordinary_key key = true ->
  _enablePositionalOptions c = false -> _passThroughOptions c = false ->
  existsb (flag_clash option) (options c) = false ->
  Forall (fun e => listens ("option:" ++ oname) e = false) (listeners c) ->
  Opt.negate option = false ->
  OptMethods.name option = Some oname ->
  OptMethods.attributeName option = Some key ->
  Opt.required option || Opt.optional option = true ->
  Opt.variadic option = false ->
  Opt.parseArg option = None ->
  Opt.long option = Some ("--" ++ nm) ->
  Str.nonempty nm = true -> Str.has "=" nm = false ->
  existsb (fun p => OptMethods.is_ p ("--" ++ nm ++ "=" ++ value))
          (options c ++ [option]) = false ->
  arrays w !! argv = Some (pre ++ ("--" ++ nm ++ "=" ++ value)%string :: post)%list ->
  Forall (fun t => maybeOption t = false) pre ->
  Forall (fun t => maybeOption t = false) post ->
  exists r w' c',
    (addOption this option ;;; parseOptions this argv) w = Ok r w'
    /\ cmds w' !! this = Some c'
    /\ value_of c' key = VStr value /\ source_of c' key = VStr "cli"
    /\ arrays w' !! Parse.operands r = Some (pre ++ post)%list
    /\ arrays w' !! Parse.unknown r = Some [].
Proof.
  intros Hc _ _ Hpos Hpass Hclash Hsilent Hneg Hname Hkey Harg Hvar Hparser
         Hlong Hne Hhas Hwhole Hargv Hpre Hpost.
  destruct (addOption_wires this option w c oname key Hc Hclash Hneg Hname Hkey)
    as (c1 & Hadd & Ho1 & Hl1 & Hpos1 & Hpass1 & _).
  rewrite Hpos in Hpos1. rewrite Hpass in Hpass1.
  erewrite bind_Ok by exact Hadd. cbn beta iota.
  set (token := "--" ++ nm ++ "=" ++ value) in *.
  set (w1 := with_cmd this c1 w).
  assert (Hc1 : cmds w1 !! this = Some c1) by apply with_cmd_lookup.
  assert (Hargv1 : arrays w1 !! argv = Some (pre ++ token :: post)%list) by exact Hargv.
  destruct (parseOptions_start this argv w1 _ Hargv1)
    as (a & o & u & w0 & Hparse & Hc0 & Hao & Hau & Hou & Ha0 & Hop0 & Hu0).
  destruct (iterations_enough (pre ++ token :: post)) as [k Hk].
  rewrite length_app in Hk. cbn [length] in Hk.
  replace (length pre + S (length post) + S k)
    with (length pre + S (length post + S k)) in Hk by lia.
  assert (Hc0' : cmds w0 !! this = Some c1) by (rewrite Hc0; exact Hc1).
  destruct (loop_operands this c1 a o u Hpos1 Hpass1 o (token :: post)
              (S (length post + S k)) Hao
              pre w0 [] Hc0' Ha0 Hop0 (ex_intro _ _ Hop0) (ex_intro _ _ Hu0) Hpre)
    as (w2 & Hloop & Hc2 & Ha2 & Hop2 & Hx2).
  simpl in Hop2.
  assert (Hu2 : arrays w2 !! u = Some []).
  { rewrite (Hx2 u) by congruence. exact Hu0. }
  assert (Hc2' : cmds w2 !! this = Some c1) by (rewrite Hc2; exact Hc0').
  set (w3 := set_arrays (<[a := post]> (arrays w2)) w2).
  assert (Hc3 : cmds w3 !! this = Some c1) by exact Hc2'.
  assert (Hn : options c1 !! length (options c) = Some option).
  { rewrite Ho1. rewrite lookup_app_r by lia. rewrite Nat.sub_diag. reflexivity. }
  assert (Hfilter : List.filter (listens ("option:" ++ oname)) (listeners c1)
                    = [(("option:" ++ oname)%string, OnOption (length (options c)) key)]).
  { rewrite Hl1.
    destruct (truthy (Opt.envVar option)).
    - apply (one_listener oname (listeners c) _ true
               (("optionEnv:" ++ oname)%string, OnOptionEnv (length (options c)) key)
               Hsilent).
      + unfold listens. apply String.eqb_refl.
      + reflexivity.
    - apply (one_listener oname (listeners c) _ false
               (("optionEnv:" ++ oname)%string, OnOptionEnv (length (options c)) key)
               Hsilent).
      + unfold listens. apply String.eqb_refl.
      + reflexivity. }
  pose proof (emit_option_stores this option oname key (length (options c))
                Hname Hparser w3 c1 value Hc3 Hn Hfilter) as Hemit.
  rewrite Hvar in Hemit.
  set (c2 := assign_value key (VStr value) (VStr "cli") c1) in *.
  set (w4 := with_cmd this c2 w3) in *.
  assert (Hfind : find (fun p => OptMethods.is_ p ("--" ++ nm)) (options c1) = Some option).
  { rewrite Ho1. apply new_flag_finds; [exact Hclash|reflexivity|].
    unfold OptMethods.is_. rewrite Hlong, String.eqb_refl. apply orb_true_r. }
  assert (Hwhole1 : find (fun p => OptMethods.is_ p token) (options c1) = None).
  { rewrite Ho1. apply find_none_existsb. exact Hwhole. }
  pose proof (iteration_inline this option a o u o w3 c1 nm value Hc3 Hne Hhas
                Hwhole1 Hfind Harg) as Hit.
  fold token in Hit.
  assert (Hit' : iteration this (locals_to a o u o) token w3
                 = Ok (Some (locals_to a o u o)) w4).
  { rewrite Hit. erewrite bind_Ok by exact Hemit. reflexivity. }
  assert (Hc4 : cmds w4 !! this = Some c2) by apply with_cmd_lookup.
  assert (Hpos2 : _enablePositionalOptions c2 = false).
  { unfold c2. rewrite (proj1 (assign_settings _ _ _ c1)). exact Hpos1. }
  assert (Hpass2 : _passThroughOptions c2 = false).
  { unfold c2. rewrite (proj2 (assign_settings _ _ _ c1)). exact Hpass1. }
  assert (Ha4 : arrays w4 !! a = Some (post ++ [])%list).
  { rewrite app_nil_r. unfold w4, w3. simpl. apply lookup_insert_eq. }
  assert (Hop4 : arrays w4 !! o = Some pre).
  { unfold w4, w3. simpl. rewrite !lookup_insert_ne by congruence. exact Hop2. }
  assert (Hu4 : arrays w4 !! u = Some []).
  { unfold w4, w3. simpl. rewrite !lookup_insert_ne by congruence. exact Hu2. }
  destruct (loop_operands this c2 a o u Hpos2 Hpass2 o [] (S k) Hao
              post w4 pre Hc4 Ha4 Hop4 (ex_intro _ _ Hop4) (ex_intro _ _ Hu4) Hpost)
    as (w5 & Hloop5 & Hc5 & Ha5 & Hop5 & Hx5).
  assert (Hu5 : arrays w5 !! u = Some []).
  { rewrite (Hx5 u) by congruence. exact Hu4. }
  exists {| Parse.operands := o; Parse.unknown := u |}, w5, c2.
  split.
  - fold w1. rewrite Hparse, Hk. unfold bind at 1. rewrite Hloop.
    cbn [loop].
    erewrite bind_Ok by (apply shift_cons; exact Ha2). cbn beta iota. fold w3.
    erewrite bind_Ok by exact Hit'. cbn beta iota.
    rewrite Hloop5. cbn [loop].
    assert (Hsh : shift a w5 = Ok None w5).
    { unfold shift. erewrite bind_Ok by (apply get_array_ok, Ha5). reflexivity. }
    erewrite bind_Ok by exact Hsh. reflexivity.
  - split; [rewrite Hc5; exact Hc4|].
    split; [apply assign_value_of|]. split; [apply assign_value_of|].
    split; [exact Hop5|exact Hu5].
Qed.

(** [serve public --port=80] after [.option("-p, --port <number>")]. *)
Lemma added_option_receives_inline_value_witness :
  exists r w' c',
    (addOption 0 (Opt.new "-p, --port <number>") ;;; parseOptions 0 0)
      (plain_world ["public"; "--port=80"]) = Ok r w'
    /\ cmds w' !! 0 = Some c'
    /\ value_of c' "port" = VStr "80" /\ source_of c' "port" = VStr "cli"
    /\ arrays w' !! Parse.operands r = Some ["public"]
    /\ arrays w' !! Parse.unknown r = Some [].
Proof.
  apply (added_option_receives_inline_value 0 0 (plain_world ["public"; "--port=80"])
           (Cmd.new "plain") (Opt.new "-p, --port <number>")
           "port" "port" "port" "80" ["public"] []); try reflexivity.
  - constructor.
  - repeat constructor.
  - constructor.
Defined.

End InlineClaims.

Module FlagOnlyFacts.
Import StrFacts ValueFacts ArrayFacts ParseFacts BuildFacts OptionFacts TokenFacts RoundFacts.
Import RejectFacts.

(** The value that the listener of the option stores for an event without
    value, [null] or [undefined]. *)
Lemma emit_option_fills this option oname key n w c val :
  OptMethods.name option = Some oname ->
  Opt.parseArg option = None -> Opt.variadic option = false ->
  is_nullish val = true ->
  cmds w !! this = Some c ->
  options c !! n = Some option ->
  List.filter (listens ("option:" ++ oname)) (listeners c)
  = [(("option:" ++ oname)%string, OnOption n key)] ->
  emit_option this option val w
  = Ok tt (with_cmd this
             (assign_value key
                (if is_nullish (Opt.presetArg option) then fill_missing option
                 else Opt.presetArg option) (VStr "cli") c) w).
Proof.
  intros Hname Hparser Hvar Hval Hc Hn Hl. unfold emit_option. rewrite Hname.
  erewrite bind_Ok by reflexivity. cbn beta iota.
  unfold emit. erewrite bind_Ok by (apply get_cmd_ok, Hc). cbn beta iota.
  rewrite Hl. cbn [for_each snd].
  assert (Hat : option_at c n w = Ok option w).
  { unfold option_at. rewrite Hn. reflexivity. }
  assert (Hrun : run_listener this (OnOption n key) val w
                 = handleOptionValue this n key val
                     ("error: option '" ++ Opt.flags option ++ "' argument '"
                      ++ to_string val ++ "' is invalid.") "cli" w).
  { unfold run_listener. erewrite bind_Ok by (apply get_cmd_ok, Hc). cbn beta iota.
    erewrite bind_Ok by exact Hat. reflexivity. }
  unfold bind at 1. rewrite Hrun. unfold handleOptionValue.
  erewrite bind_Ok by (apply get_cmd_ok, Hc). cbn beta iota.
  erewrite bind_Ok by exact Hat. cbn beta iota zeta.
  rewrite Hval. cbn [andb].
  erewrite bind_Ok by (apply getOptionValue_ok, Hc). cbn beta iota.
  unfold customProcessing. rewrite Hparser, Hvar.
  assert (Hcustom : forall v,
             (if negb (is_null v) then ret v else ret v) w = Ok v w)
    by (intros v; destruct (negb (is_null v)); reflexivity).
  erewrite bind_Ok by apply Hcustom. cbn beta iota.
  rewrite (setOptionValueWithSource_ok this key _ _ _ c) by exact Hc.
  destruct (Opt.presetArg option) eqn:Hp; cbn [is_undefined negb is_nullish];
    destruct val; try discriminate Hval; reflexivity.
Qed.

(** [addOption] of an option that [#registerOption] accepts, negated or
    not. *)
Lemma addOption_wires_any this option w c oname key :
  cmds w !! this = Some c ->
  existsb (flag_clash option) (options c) = false ->
  (Opt.negate option = true -> exists l, Opt.long option = Some l) ->
  OptMethods.name option = Some oname ->
  OptMethods.attributeName option = Some key ->
  exists c1,
    addOption this option w = Ok tt (with_cmd this c1 w)
    /\ options c1 = (options c ++ [option])%list
    /\ listeners c1
       = (listeners c
          ++ (("option:" ++ oname)%string, OnOption (length (options c)) key)
             :: (if truthy (Opt.envVar option)
                 then [(("optionEnv:" ++ oname)%string,
                        OnOptionEnv (length (options c)) key)]
                 else []))%list
    /\ _enablePositionalOptions c1 = _enablePositionalOptions c
    /\ _passThroughOptions c1 = _passThroughOptions c.
Proof.
  intros Hc Hclash Hlong Hname Hkey.
  destruct (Opt.negate option) eqn:Hneg.
  2:{ destruct (addOption_wires this option w c oname key Hc Hclash Hneg Hname Hkey)
        as (c1 & H1 & H2 & H3 & H4 & H5 & _).
      exists c1. repeat split; assumption. }
  destruct (Hlong eq_refl) as [l Hl].
  set (c0 := set_options (options c ++ [option])%list c).
  assert (Hstore : exists cA,
            (long <- or_type_error (Opt.long option) ;;
             positive <- _findOption this
                           (match Str.strip "--no-" long with
                            | Some r => "--" ++ r
                            | None => long
                            end) ;;
             match positive with
             | Some _ => ret tt
             | None =>
                 setOptionValueWithSource this key
                   (if is_undefined (Opt.defaultValue option) then VBool true
                    else Opt.defaultValue option) (VStr "default")
             end) (with_cmd this c0 w) = Ok tt (with_cmd this cA w)
            /\ options cA = options c0 /\ listeners cA = listeners c0
            /\ _enablePositionalOptions cA = _enablePositionalOptions c0
            /\ _passThroughOptions cA = _passThroughOptions c0).
  { rewrite Hl. erewrite bind_Ok by reflexivity. cbn beta iota.
    erewrite bind_Ok by (apply findOption_ok, with_cmd_lookup). cbn beta iota.
    destruct (find _ (options c0)).
    - exists c0. repeat split.
    - eexists. split.
      + rewrite (setOptionValueWithSource_ok _ _ _ _ _ _ (with_cmd_lookup _ _ _)).
        rewrite with_cmd_twice. reflexivity.
      + split; [apply listeners_assign|]. split; [apply listeners_assign|].
        apply assign_settings. }
  destruct Hstore as (cA & HA & HoA & HlA & HpA & HqA).
  unfold addOption.
  erewrite bind_Ok by (apply get_cmd_ok, Hc). cbn beta iota zeta.
  erewrite bind_Ok by (apply (registerOption_returns this option w c Hc Hclash)).
  cbn beta iota. rewrite Hname, Hkey, Hneg.
  erewrite bind_Ok by reflexivity. cbn beta iota.
  erewrite bind_Ok by reflexivity. cbn beta iota.
  fold c0.
  erewrite bind_Ok by exact HA. cbn beta iota.
  erewrite bind_Ok by (apply on_ok, with_cmd_lookup). cbn beta iota.
  rewrite with_cmd_twice.
  destruct (truthy (Opt.envVar option)).
  - rewrite (on_ok _ _ _ _ _ (with_cmd_lookup _ _ _)), with_cmd_twice.
    eexists. split; [reflexivity|].
    cbn [options listeners set_listeners _enablePositionalOptions _passThroughOptions].
    rewrite HoA, HlA, HpA, HqA, <- app_assoc. repeat split.
  - eexists. split; [reflexivity|].
    cbn [options listeners set_listeners _enablePositionalOptions _passThroughOptions].
    rewrite HoA, HlA, HpA, HqA. repeat split.
Qed.

(** [parseOptions] up to the first token that may be an option. *)
Lemma parse_begin this argv w c pre mid :
  cmds w !! this = Some c ->
  _enablePositionalOptions c = false -> _passThroughOptions c = false ->
  arrays w !! argv = Some (pre ++ mid)%list ->
  Forall (fun t => maybeOption t = false) pre ->
  exists a o u k w2,
    parseOptions this argv w
    = (loop (length mid + S k) this (locals_to a o u o) ;;;
       ret {| Parse.operands := o; Parse.unknown := u |}) w2
    /\ a <> o /\ a <> u /\ o <> u
    /\ cmds w2 = cmds w
    /\ arrays w2 !! a = Some mid /\ arrays w2 !! o = Some pre
    /\ arrays w2 !! u = Some [].
Proof.
  intros Hc Hpos Hpass Hargv Hpre.
  destruct (parseOptions_start this argv w _ Hargv)
    as (a & o & u & w0 & Hparse & Hc0 & Hao & Hau & Hou & Ha0 & Hop0 & Hu0).
  destruct (iterations_enough (pre ++ mid)) as [k Hk].
  rewrite length_app, <- Nat.add_assoc in Hk.
  assert (Hc0' : cmds w0 !! this = Some c) by (rewrite Hc0; exact Hc).
  destruct (loop_operands this c a o u Hpos Hpass o mid (length mid + S k) Hao
              pre w0 [] Hc0' Ha0 Hop0 (ex_intro _ _ Hop0) (ex_intro _ _ Hu0) Hpre)
    as (w2 & Hloop & Hc2 & Ha2 & Hop2 & Hx2).
  exists a, o, u, k, w2.
  split.
  { rewrite Hparse, Hk. unfold bind. rewrite Hloop. reflexivity. }
  split; [exact Hao|]. split; [exact Hau|]. split; [exact Hou|].
  split; [rewrite Hc2; exact Hc0|]. split; [exact Ha2|]. split; [exact Hop2|].
  rewrite (Hx2 u) by congruence. exact Hu0.
Qed.

(** The loop on the operands that remain. *)
Lemma parse_end this c a o u k w post ops :
  cmds w !! this = Some c ->
  _enablePositionalOptions c = false -> _passThroughOptions c = false ->
  a <> o -> a <> u -> o <> u ->
  arrays w !! a = Some post -> arrays w !! o = Some ops -> arrays w !! u = Some [] ->
  Forall (fun t => maybeOption t = false) post ->
  exists w',
    loop (length post + S k) this (locals_to a o u o) w = Ok tt w'
    /\ cmds w' = cmds w
    /\ arrays w' !! o = Some (ops ++ post)%list /\ arrays w' !! u = Some [].
Proof.
  intros Hc Hpos Hpass Hao Hau Hou Ha Ho Hu Hpost.
  assert (Ha' : arrays w !! a = Some (post ++ [])%list) by (rewrite app_nil_r; exact Ha).
  destruct (loop_operands this c a o u Hpos Hpass o [] (S k) Hao
              post w ops Hc Ha' Ho (ex_intro _ _ Ho) (ex_intro _ _ Hu) Hpost)
    as (w' & Hloop & Hc' & Ha1 & Ho1 & Hx1).
  exists w'. split; [|split; [exact Hc'|split; [exact Ho1|]]].
  - rewrite Hloop. cbn [loop].
    assert (Hsh : shift a w' = Ok None w').
    { unfold shift. erewrite bind_Ok by (apply get_array_ok, Ha1). reflexivity. }
    erewrite bind_Ok by exact Hsh. reflexivity.
  - rewrite (Hx1 u) by congruence. exact Hu.
Qed.

(** The listener of an option that was just added. *)
Lemma new_listener oname key n (l : list (string * Listener)) (env : bool) :
  Forall (fun e => listens ("option:" ++ oname) e = false) l ->
  List.filter (listens ("option:" ++ oname))
    (l ++ (("option:" ++ oname)%string, OnOption n key)
       :: (if env then [(("optionEnv:" ++ oname)%string, OnOptionEnv n key)] else []))%list
  = [(("option:" ++ oname)%string, OnOption n key)].
Proof.
  intros Hl. apply (one_listener oname l _ env _ Hl).
  - unfold listens. apply String.eqb_refl.
  - reflexivity.
Qed.

(** The loop takes a flag of an option with an optional argument. *)
Lemma iteration_optional_flag this option a o u d w c flag rest :
  cmds w !! this = Some c ->
  maybeOption flag = true -> String.eqb flag "--" = false ->
  find (fun p => OptMethods.is_ p flag) (options c) = Some option ->
  Opt.required option = false -> Opt.optional option = true ->
  arrays w !! a = Some rest ->
  iteration this (locals_to a o u d) flag w
  = match rest with
    | next :: more =>
        if maybeOption next
        then (emit_option this option VNull ;;;
              ret (Some (set_active (if Opt.variadic option then Some option else None)
                           (locals_to a o u d)))) w
        else (emit_option this option (VStr next) ;;;
              ret (Some (set_active (if Opt.variadic option then Some option else None)
                           (locals_to a o u d))))
               (set_arrays (<[a := more]> (arrays w)) w)
    | [] => (emit_option this option VNull ;;;
             ret (Some (set_active (if Opt.variadic option then Some option else None)
                          (locals_to a o u d)))) w
    end.
Proof.
  intros Hc Hflag Hdd Hfind Hreq Hopt Ha.
  unfold iteration. rewrite Hdd. cbn [activeVariadicOption locals_to]. rewrite Hflag.
  change (set_active None (locals_to a o u d)) with (locals_to a o u d).
  erewrite bind_Ok by (rewrite (findOption_ok this w c flag Hc), Hfind; reflexivity).
  cbn beta iota. unfold recognised. rewrite Hreq, Hopt.
  rewrite bind_assoc.
  erewrite bind_Ok by (apply get_array_ok, Ha). cbn beta iota.
  destruct rest as [|next more].
  - rewrite bind_assoc. erewrite bind_Ok by reflexivity. reflexivity.
  - destruct (maybeOption next); cbn [negb].
    + rewrite bind_assoc. erewrite bind_Ok by reflexivity. reflexivity.
    + rewrite !bind_assoc.
      erewrite bind_Ok by (apply shift_cons; exact Ha). reflexivity.
Qed.

End FlagOnlyFacts.

Module FlagOnlyClaims.
Import StrFacts ValueFacts ArrayFacts ParseFacts BuildFacts OptionFacts TokenFacts RoundFacts.
Import RejectFacts FlagOnlyFacts.

(** X29. An added option without argument is a switch: [parseOptions] on
    operands, a flag of the option and further operands stores [true] for
    the option, [false] when it is negated, or the preset of the option
    when it has one, with the source ["cli"]; the token after the flag is
    not taken, all the operands are returned in their order, and nothing
    is unknown. The option has no parser and is not variadic,
    [#registerOption] accepts it, and its event has no listener yet.
    The command keeps its option values in the separate object, and the
    attribute name is none of the member names that this object inherits. *)
Theorem flag_without_argument_is_a_switch
    (this argv : nat) (w : World) (c : Command) (option : Opt.Option)
    (oname key flag : string) (pre post : list string) :
  cmds w !! this = Some c ->
  _storeOptionsAsProperties c = false -> ordinary_key key = true ->
  _enablePositionalOptions c = false -> _passThroughOptions c = false ->
  existsb (flag_clash option) (options c) = false ->
  Forall (fun e => listens ("option:" ++ oname) e = false) (listeners c) ->
  (Opt.negate option = true -> exists l, Opt.long option = Some l) ->
  OptMethods.name option = Some oname ->
  OptMethods.attributeName option = Some key ->
  Opt.required option = false -> Opt.optional option = false ->
  Opt.variadic option = false -> Opt.parseArg option = None ->
  OptMethods.is_ option flag = true -> maybeOption flag = true -> flag <> "--" ->
  arrays w !! argv = Some (pre ++ flag :: post)%list ->
  Forall (fun t => maybeOption t = false) pre ->
  Forall (fun t => maybeOption t = false) post ->
  exists r w' c',
    (addOption this option ;;; parseOptions this argv) w = Ok r w'
    /\ cmds w' !! this = Some c'
    /\ value_of c' key = (if is_nullish (Opt.presetArg option)
                          then VBool (negb (Opt.negate option))
                          else Opt.presetArg option)
    /\ source_of c' key = VStr "cli"
    /\ arrays w' !! Parse.operands r = Some (pre ++ post)%list
    /\ arrays w' !! Parse.unknown r = Some [].
Proof.
  intros Hc _ _ Hpos Hpass Hclash Hsilent Hlong Hname Hkey Hreq Hopt Hvar Hparser
         His Hflag Hdd Hargv Hpre Hpost.
  destruct (addOption_wires_any this option w c oname key Hc Hclash Hlong Hname Hkey)
    as (c1 & Hadd & Ho1 & Hl1 & Hpos1 & Hpass1).
  rewrite Hpos in Hpos1. rewrite Hpass in Hpass1.
  erewrite bind_Ok by exact Hadd. cbn beta iota.
  set (w1 := with_cmd this c1 w).
  assert (Hc1 : cmds w1 !! this = Some c1) by apply with_cmd_lookup.
  destruct (parse_begin this argv w1 c1 pre (flag :: post) Hc1 Hpos1 Hpass1 Hargv Hpre)
    as (a & o & u & k & w2 & Hparse & Hao & Hau & Hou & Hc2 & Ha2 & Hop2 & Hu2).
  assert (Hc2' : cmds w2 !! this = Some c1) by (rewrite Hc2; exact Hc1).
  set (w3 := set_arrays (<[a := post]> (arrays w2)) w2).
  assert (Hc3 : cmds w3 !! this = Some c1) by exact Hc2'.
  assert (Hn : options c1 !! length (options c) = Some option).
  { rewrite Ho1. rewrite lookup_app_r by lia. rewrite Nat.sub_diag. reflexivity. }
  assert (Hfilter : List.filter (listens ("option:" ++ oname)) (listeners c1)
                    = [(("option:" ++ oname)%string, OnOption (length (options c)) key)]).
  { rewrite Hl1. apply new_listener, Hsilent. }
  pose proof (emit_option_fills this option oname key (length (options c)) w3 c1
                VUndefined Hname Hparser Hvar eq_refl Hc3 Hn Hfilter) as Hemit.
  assert (Hfill : fill_missing option = VBool (negb (Opt.negate option))).
  { unfold fill_missing, OptMethods.isBoolean. rewrite Hreq, Hopt.
    destruct (Opt.negate option); reflexivity. }
  rewrite Hfill in Hemit.
  set (c2 := assign_value key (if is_nullish (Opt.presetArg option)
                               then VBool (negb (Opt.negate option))
                               else Opt.presetArg option) (VStr "cli") c1) in *.
  set (w4 := with_cmd this c2 w3) in *.
  assert (Hfind : find (fun p => OptMethods.is_ p flag) (options c1) = Some option).
  { rewrite Ho1. apply new_flag_finds; [exact Hclash| |exact His].
    apply maybeOption_nonempty, Hflag. }
  apply String.eqb_neq in Hdd.
  pose proof (iteration_boolean_flag this option a o u o w3 c1 flag Hc3 Hflag Hdd Hfind
                Hreq Hopt) as Hit.
  rewrite Hvar in Hit.
  assert (Hit' : iteration this (locals_to a o u o) flag w3
                 = Ok (Some (locals_to a o u o)) w4).
  { rewrite Hit. erewrite bind_Ok by exact Hemit. reflexivity. }
  assert (Hc4 : cmds w4 !! this = Some c2) by apply with_cmd_lookup.
  assert (Hpos2 : _enablePositionalOptions c2 = false).
  { unfold c2. rewrite (proj1 (assign_settings _ _ _ c1)). exact Hpos1. }
  assert (Hpass2 : _passThroughOptions c2 = false).
  { unfold c2. rewrite (proj2 (assign_settings _ _ _ c1)). exact Hpass1. }
  destruct (parse_end this c2 a o u k w4 post pre Hc4 Hpos2 Hpass2 Hao Hau Hou)
    as (w5 & Hloop5 & Hc5 & Hop5 & Hu5).
  { unfold w4, w3. simpl. apply lookup_insert_eq. }
  { unfold w4, w3. simpl. rewrite lookup_insert_ne by congruence. exact Hop2. }
  { unfold w4, w3. simpl. rewrite lookup_insert_ne by congruence. exact Hu2. }
  { exact Hpost. }
  exists {| Parse.operands := o; Parse.unknown := u |}, w5, c2.
  split.
  - fold w1. rewrite Hparse. cbn [length Nat.add loop]. unfold bind at 1.
    erewrite bind_Ok by (apply shift_cons; exact Ha2). cbn beta iota. fold w3.
    erewrite bind_Ok by exact Hit'. cbn beta iota.
    rewrite Hloop5. reflexivity.
  - split; [rewrite Hc5; exact Hc4|].
    split; [apply assign_value_of|]. split; [apply assign_value_of|].
    split; [exact Hop5|exact Hu5].
Qed.

(** [draw --no-color x] after [.option("--no-color")]. *)
Lemma flag_without_argument_is_a_switch_witness :
  exists r w' c',
    (addOption 0 (Opt.new "--no-color") ;;; parseOptions 0 0)
      (plain_world ["--no-color"; "x"]) = Ok r w'
    /\ cmds w' !! 0 = Some c'
    /\ value_of c' "color" = VBool false
    /\ source_of c' "color" = VStr "cli"
    /\ arrays w' !! Parse.operands r = Some ["x"]
    /\ arrays w' !! Parse.unknown r = Some [].
Proof.
  apply (flag_without_argument_is_a_switch 0 0 (plain_world ["--no-color"; "x"])
           (Cmd.new "plain") (Opt.new "--no-color")
           "no-color" "color" "--no-color" [] ["x"]); try reflexivity.
  - constructor.
  - intros _. eexists. reflexivity.
  - discriminate.
  - constructor.
  - repeat constructor.
Defined.

(** X30. An added option with an optional argument (not negated, not
    variadic, without parser) takes the token after its flag as its value
    only when that token cannot be an option. When the flag is the last
    token, or the next token is the literal [--], the attribute holds
    [true], or the preset of the option when it has one; the tokens after
    [--] are operands. Otherwise the attribute holds the next token, and
    the tokens after it are operands. The source is ["cli"], and nothing
    is unknown.
    The command keeps its option values in the separate object, and the
    attribute name is none of the member names that this object inherits. *)
Theorem optional_argument_is_taken_unless_option
    (this argv : nat) (w : World) (c : Command) (option : Opt.Option)
    (oname key flag : string) (pre after : list string) :
  cmds w !! this = Some c ->
  _storeOptionsAsProperties c = false -> ordinary_key key = true ->
  _enablePositionalOptions c = false -> _passThroughOptions c = false ->
  existsb (flag_clash option) (options c) = false ->
  Forall (fun e => listens ("option:" ++ oname) e = false) (listeners c) ->
  Opt.negate option = false ->
  OptMethods.name option = Some oname ->
  OptMethods.attributeName option = Some key ->
  Opt.required option = false -> Opt.optional option = true ->
  Opt.variadic option = false -> Opt.parseArg option = None ->
  OptMethods.is_ option flag = true -> maybeOption flag = true -> flag <> "--" ->
  arrays w !! argv = Some (pre ++ flag :: after)%list ->
  Forall (fun t => maybeOption t = false) pre ->
  Forall (fun t => maybeOption t = false) (tl after) ->
  (forall t more, after = t :: more -> maybeOption t = true -> t = "--") ->
  exists r w' c',
    (addOption this option ;;; parseOptions this argv) w = Ok r w'
    /\ cmds w' !! this = Some c'
    /\ value_of c' key
       = match after with
         | next :: _ =>
             if maybeOption next
             then (if is_nullish (Opt.presetArg option) then VBool true
                   else Opt.presetArg option)
             else VStr next
         | [] => if is_nullish (Opt.presetArg option) then VBool true
                 else Opt.presetArg option
         end
    /\ source_of c' key = VStr "cli"
    /\ arrays w' !! Parse.operands r = Some (pre ++ tl after)%list
    /\ arrays w' !! Parse.unknown r = Some [].
Proof.
  intros Hc _ _ Hpos Hpass Hclash Hsilent Hneg Hname Hkey Hreq Hopt Hvar Hparser
         His Hflag Hdd Hargv Hpre Hafter Hdashes.
  destruct (addOption_wires this option w c oname key Hc Hclash Hneg Hname Hkey)
    as (c1 & Hadd & Ho1 & Hl1 & Hpos1 & Hpass1 & _).
  rewrite Hpos in Hpos1. rewrite Hpass in Hpass1.
  erewrite bind_Ok by exact Hadd. cbn beta iota.
  set (w1 := with_cmd this c1 w).
  assert (Hc1 : cmds w1 !! this = Some c1) by apply with_cmd_lookup.
  destruct (parse_begin this argv w1 c1 pre (flag :: after) Hc1 Hpos1 Hpass1 Hargv Hpre)
    as (a & o & u & k & w2 & Hparse & Hao & Hau & Hou & Hc2 & Ha2 & Hop2 & Hu2).
  assert (Hc2' : cmds w2 !! this = Some c1) by (rewrite Hc2; exact Hc1).
  set (w3 := set_arrays (<[a := after]> (arrays w2)) w2).
  assert (Hc3 : cmds w3 !! this = Some c1) by exact Hc2'.
  assert (Ha3 : arrays w3 !! a = Some after) by (unfold w3; simpl; apply lookup_insert_eq).
  assert (Hop3 : arrays w3 !! o = Some pre).
  { unfold w3. simpl. rewrite lookup_insert_ne by congruence. exact Hop2. }
  assert (Hu3 : arrays w3 !! u = Some []).
  { unfold w3. simpl. rewrite lookup_insert_ne by congruence. exact Hu2. }
  assert (Hn : options c1 !! length (options c) = Some option).
  { rewrite Ho1. rewrite lookup_app_r by lia. rewrite Nat.sub_diag. reflexivity. }
  assert (Hfilter : List.filter (listens ("option:" ++ oname)) (listeners c1)
                    = [(("option:" ++ oname)%string, OnOption (length (options c)) key)]).
  { rewrite Hl1. apply new_listener, Hsilent. }
  assert (Hfill : fill_missing option = VBool true).
  { unfold fill_missing. rewrite Hneg, Hopt, orb_true_r. reflexivity. }
  assert (Hfind : find (fun p => OptMethods.is_ p flag) (options c1) = Some option).
  { rewrite Ho1. apply new_flag_finds; [exact Hclash| |exact His].
    apply maybeOption_nonempty, Hflag. }
  apply String.eqb_neq in Hdd.
  pose proof (iteration_optional_flag this option a o u o w3 c1 flag after
                Hc3 Hflag Hdd Hfind Hreq Hopt Ha3) as Hit.
  rewrite Hvar in Hit.
  change (set_active None (locals_to a o u o)) with (locals_to a o u o) in Hit.
  assert (Hstart :
            loop (S (length after + S k)) this (locals_to a o u o) w2
            = (r <- iteration this (locals_to a o u o) flag ;;
               match r with
               | Some lv' => loop (length after + S k) this lv'
               | None => ret tt
               end) w3).
  { cbn [loop].
    erewrite bind_Ok by (apply shift_cons; exact Ha2). reflexivity. }
  cbn [length Nat.add] in Hparse.
  assert (Hsettings : forall v,
            _enablePositionalOptions (assign_value key v (VStr "cli") c1) = false
            /\ _passThroughOptions (assign_value key v (VStr "cli") c1) = false).
  { intros v. rewrite (proj1 (assign_settings _ _ _ c1)), (proj2 (assign_settings _ _ _ c1)).
    split; assumption. }
  destruct after as [|next more].
  - (* the flag is the last token *)
    pose proof (emit_option_fills this option oname key (length (options c)) w3 c1
                  VNull Hname Hparser Hvar eq_refl Hc3 Hn Hfilter) as Hemit.
    rewrite Hfill in Hemit.
    set (c2 := assign_value key (if is_nullish (Opt.presetArg option) then VBool true
                                 else Opt.presetArg option) (VStr "cli") c1) in *.
    set (w4 := with_cmd this c2 w3) in *.
    destruct (parse_end this c2 a o u k w4 [] pre (with_cmd_lookup _ _ _)
                (proj1 (Hsettings _)) (proj2 (Hsettings _)) Hao Hau Hou Ha3 Hop3 Hu3
                (Forall_nil _)) as (w5 & Hloop5 & Hc5 & Hop5 & Hu5).
    exists {| Parse.operands := o; Parse.unknown := u |}, w5, c2.
    split.
    + assert (Hiter : iteration this (locals_to a o u o) flag w3
                      = Ok (Some (locals_to a o u o)) w4).
      { rewrite Hit. erewrite bind_Ok by exact Hemit. reflexivity. }
      fold w1. rewrite Hparse. unfold bind at 1. rewrite Hstart.
      erewrite bind_Ok by exact Hiter. cbn beta iota.
      rewrite Hloop5. reflexivity.
    + split; [rewrite Hc5; apply with_cmd_lookup|].
      split; [apply assign_value_of|]. split; [apply assign_value_of|].
      split; [exact Hop5|exact Hu5].
  - destruct (maybeOption next) eqn:Hnext.
    + (* the next token is the literal [--] *)
      pose proof (Hdashes next more eq_refl Hnext) as ->.
      pose proof (emit_option_fills this option oname key (length (options c)) w3 c1
                    VNull Hname Hparser Hvar eq_refl Hc3 Hn Hfilter) as Hemit.
      rewrite Hfill in Hemit.
      set (c2 := assign_value key (if is_nullish (Opt.presetArg option) then VBool true
                                   else Opt.presetArg option) (VStr "cli") c1) in *.
      set (w4 := with_cmd this c2 w3) in *.
      set (w5 := set_arrays (<[a := more]> (arrays w4)) w4).
      destruct (iteration_dashes this a o u o w5 more pre Hao)
        as (w6 & Hit6 & Hc6 & Hop6 & Hx6).
      { unfold w5. simpl. apply lookup_insert_eq. }
      { unfold w5. simpl. rewrite lookup_insert_ne by congruence. exact Hop3. }
      exists {| Parse.operands := o; Parse.unknown := u |}, w6, c2.
      split.
      * assert (Hiter : iteration this (locals_to a o u o) flag w3
                        = Ok (Some (locals_to a o u o)) w4).
        { rewrite Hit. cbn [maybeOption String.length Nat.ltb Nat.leb andb].
          erewrite bind_Ok by exact Hemit. reflexivity. }
        assert (Ha4 : arrays w4 !! a = Some ("--" :: more)) by exact Ha3.
        fold w1. rewrite Hparse. unfold bind at 1. rewrite Hstart.
        erewrite bind_Ok by exact Hiter. cbn beta iota.
        cbn [length Nat.add loop].
        erewrite bind_Ok by (apply shift_cons; exact Ha4). cbn beta iota. fold w5.
        erewrite bind_Ok by exact Hit6. reflexivity.
      * split; [rewrite Hc6; apply with_cmd_lookup|].
        split; [apply assign_value_of|]. split; [apply assign_value_of|].
        cbn [Parse.operands Parse.unknown tl]. split.
        -- rewrite Hop6. replace (Nat.eqb o u) with false; [reflexivity|].
           symmetry. apply Nat.eqb_neq. exact Hou.
        -- rewrite (Hx6 u) by congruence. unfold w5. simpl.
           rewrite lookup_insert_ne by congruence. exact Hu3.
    + (* the next token is the value *)
      set (w3' := set_arrays (<[a := more]> (arrays w3)) w3) in *.
      assert (Hc3' : cmds w3' !! this = Some c1) by exact Hc2'.
      pose proof (emit_option_stores this option oname key (length (options c))
                    Hname Hparser w3' c1 next Hc3' Hn Hfilter) as Hemit.
      rewrite Hvar in Hemit.
      set (c2 := assign_value key (VStr next) (VStr "cli") c1) in *.
      set (w4 := with_cmd this c2 w3') in *.
      destruct (parse_end this c2 a o u (S k) w4 more pre (with_cmd_lookup _ _ _)
                  (proj1 (Hsettings _)) (proj2 (Hsettings _)) Hao Hau Hou)
        as (w5 & Hloop5 & Hc5 & Hop5 & Hu5).
      { unfold w4, w3'. simpl. apply lookup_insert_eq. }
      { unfold w4, w3'. simpl. rewrite lookup_insert_ne by congruence. exact Hop3. }
      { unfold w4, w3'. simpl. rewrite lookup_insert_ne by congruence. exact Hu3. }
      { exact Hafter. }
      exists {| Parse.operands := o; Parse.unknown := u |}, w5, c2.
      split.
      * assert (Hiter : iteration this (locals_to a o u o) flag w3
                        = Ok (Some (locals_to a o u o)) w4).
        { rewrite Hit. fold w3'. erewrite bind_Ok by exact Hemit. reflexivity. }
        fold w1. rewrite Hparse. unfold bind at 1. rewrite Hstart.
        erewrite bind_Ok by exact Hiter. cbn beta iota.
        cbn [length Nat.add].
        replace (S (length more + S k)) with (length more + S (S k)) by lia.
        rewrite Hloop5. reflexivity.
      * split; [rewrite Hc5; apply with_cmd_lookup|].
        split; [apply assign_value_of|]. split; [apply assign_value_of|].
        split; [exact Hop5|exact Hu5].
Qed.

(** [draw a --shadow -- x] after [.option("-s, --shadow [depth]")]. *)
Lemma optional_argument_is_taken_unless_option_witness :
  exists r w' c',
    (addOption 0 (Opt.new "-s, --shadow [depth]") ;;; parseOptions 0 0)
      (plain_world ["a"; "--shadow"; "--"; "x"]) = Ok r w'
    /\ cmds w' !! 0 = Some c'
    /\ value_of c' "shadow" = VBool true
    /\ source_of c' "shadow" = VStr "cli"
    /\ arrays w' !! Parse.operands r = Some ["a"; "x"]
    /\ arrays w' !! Parse.unknown r = Some [].
Proof.
  apply (optional_argument_is_taken_unless_option 0 0
           (plain_world ["a"; "--shadow"; "--"; "x"])
           (Cmd.new "plain") (Opt.new "-s, --shadow [depth]")
           "shadow" "shadow" "--shadow" ["a"] ["--"; "x"]); try reflexivity.
  - constructor.
  - discriminate.
  - repeat constructor.
  - repeat constructor.
  - intros t more E _. injection E as <- _. reflexivity.
Defined.

End FlagOnlyClaims.

Module PassThroughFacts.
Import StrFacts ValueFacts ConflictFacts ArrayFacts ParseFacts FamilyFacts TokenFacts.
Import RoundFacts RejectFacts FlagOnlyFacts PositionalFacts.

Lemma same_but_values_refl c : same_but_values c c.
Proof. repeat split. Qed.

Lemma switched_same c c1 flag :
  same_but_values c c1 -> same_but_values c (switched c1 flag).
Proof.
  intros H. unfold switched.
  destruct (find _ (options c1)) as [option|]; [|exact H].
  destruct (OptMethods.attributeName option) as [key|]; [|exact H].
  unfold same_but_values, assign_value in *.
  destruct (_storeOptionsAsProperties c1); exact H.
Qed.

Lemma switches_same c flags :
  forall c1, same_but_values c c1 -> same_but_values c (fold_left switched flags c1).
Proof.
  induction flags as [|flag flags IH]; intros c1 H; [exact H|].
  simpl. apply IH, switched_same, H.
Qed.

Lemma stored_plain_switch option :
  stored_plain option VUndefined
  = (if is_nullish (Opt.presetArg option) then fill_missing option
     else Opt.presetArg option).
Proof. unfold stored_plain. destruct (Opt.presetArg option); reflexivity. Qed.

(** The loop takes the switches, one after the other. *)
Lemma loop_switches this c a o u d fuel rest' :
  forall pre w c1,
    cmds w !! this = Some c1 -> same_but_values c c1 ->
    arrays w !! a = Some (pre ++ rest')%list ->
    Forall (switch c) pre ->
    exists w',
      loop (length pre + fuel) this (locals_to a o u d) w
      = loop fuel this (locals_to a o u d) w'
      /\ cmds w' = <[this := fold_left switched pre c1]> (cmds w)
      /\ arrays w' !! a = Some rest'
      /\ forall x, x <> a -> arrays w' !! x = arrays w !! x.
Proof.
  induction pre as [|flag pre IH]; intros w c1 Hc Hsame Ha Hpre.
  - exists w. split; [reflexivity|]. split; [|split; [exact Ha|reflexivity]].
    simpl. symmetry. apply insert_id, Hc.
  - inversion Hpre as [|? ? Hflag Hpre']; subst.
    destruct Hflag as (Hm & Hdd & option & n & oname & key & Hfind & Hn & Hname & Hkey
                       & Hreq & Hopt & Hvar & Hparser & Hl).
    pose proof Hsame as (Hopts & Hls & _).
    set (w1 := set_arrays (<[a := (pre ++ rest')%list]> (arrays w)) w).
    assert (Hc1 : cmds w1 !! this = Some c1) by exact Hc.
    assert (Hfind1 : find (fun p => OptMethods.is_ p flag) (options c1) = Some option)
      by (rewrite Hopts; exact Hfind).
    assert (Hn1 : options c1 !! n = Some option) by (rewrite Hopts; exact Hn).
    assert (Hl1 : List.filter (listens ("option:" ++ oname)) (listeners c1)
                  = [(("option:" ++ oname)%string, OnOption n key)])
      by (rewrite Hls; exact Hl).
    assert (Hdd' : String.eqb flag "--" = false) by (apply String.eqb_neq, Hdd).
    set (c2 := switched c1 flag).
    assert (Ec2 : c2 = assign_value key
                         (if is_nullish (Opt.presetArg option) then fill_missing option
                          else Opt.presetArg option) (VStr "cli") c1).
    { unfold c2, switched. rewrite Hfind1, Hkey, stored_plain_switch. reflexivity. }
    set (w2 := with_cmd this c2 w1).
    assert (Hit : iteration this (locals_to a o u d) flag w1
                  = Ok (Some (locals_to a o u d)) w2).
    { rewrite (iteration_boolean_flag this option a o u d w1 c1 flag
                 Hc1 Hm Hdd' Hfind1 Hreq Hopt).
      erewrite bind_Ok.
      2:{ apply (emit_option_fills this option oname key n w1 c1 VUndefined
                   Hname Hparser Hvar eq_refl Hc1 Hn1 Hl1). }
      cbn beta iota. rewrite Hvar, <- Ec2. reflexivity. }
    destruct (IH w2 c2) as (w' & Hloop & Hc' & Ha' & Hx').
    + apply with_cmd_lookup.
    + apply switched_same, Hsame.
    + unfold w2, w1. simpl. apply lookup_insert_eq.
    + exact Hpre'.
    + exists w'. split; [|split; [|split]].
      * rewrite <- Hloop. cbn [length Nat.add loop].
        erewrite bind_Ok by (apply shift_cons; exact Ha). cbn beta iota. fold w1.
        erewrite bind_Ok by exact Hit. reflexivity.
      * rewrite Hc'. unfold w2, w1, with_cmd. simpl.
        rewrite insert_insert_eq. reflexivity.
      * exact Ha'.
      * intros x Hx. rewrite (Hx' x Hx). unfold w2, w1. simpl.
        rewrite lookup_insert_ne by congruence. reflexivity.
Qed.

(** A token that no option takes reaches the statements that route it. *)
Lemma iteration_unrecognised this c a o u d w t :
  cmds w !! this = Some c ->
  unrecognised c t = true ->
  iteration this (locals_to a o u d) t w = route_token this (locals_to a o u d) t w.
Proof.
  intros Hc Hun. unfold unrecognised in Hun.
  apply andb_prop in Hun as [Hun Hlong]. apply andb_prop in Hun as [Hun Hshort].
  apply andb_prop in Hun as [Hun Hwhole]. apply andb_prop in Hun as [Hm Hdd].
  apply negb_true_iff in Hdd.
  unfold iteration. rewrite Hdd. cbn [activeVariadicOption locals_to]. rewrite Hm.
  change (set_active None (locals_to a o u d)) with (locals_to a o u d).
  erewrite bind_Ok by (apply (findOption_ok this w c t Hc)). cbn beta iota.
  destruct (find (fun p => OptMethods.is_ p t) (options c)); [discriminate Hwhole|].
  assert (Hcombo : (match short_cluster t with
                    | Some (x, rest) => combo this (locals_to a o u d) x rest
                    | None => ret None
                    end) w = Ok None w).
  { destruct (short_cluster t) as [[x r]|]; [|reflexivity].
    unfold combo.
    erewrite bind_Ok by (apply (findOption_ok this w c _ Hc)). cbn beta iota.
    destruct (find _ (options c)); [discriminate Hshort|reflexivity]. }
  erewrite bind_Ok by exact Hcombo. cbn beta iota.
  assert (Hlv : (match long_with_value t with
                 | Some (flag, value) => long_equals this (locals_to a o u d) flag value
                 | None => ret None
                 end) w = Ok None w).
  { destruct (long_with_value t) as [[flag value]|]; [|reflexivity].
    unfold long_equals.
    erewrite bind_Ok by (apply (findOption_ok this w c _ Hc)). cbn beta iota.
    destruct (find _ (options c)) as [option|]; [|reflexivity].
    apply negb_true_iff in Hlong. rewrite Hlong. reflexivity. }
  erewrite bind_Ok by exact Hlv. reflexivity.
Qed.

(** With pass-through options and nothing collected yet, the token that
    is routed ends the loop: it goes to [operands], or to [unknown] when it
    starts with a dash, and the tokens after it follow it. *)
Lemma route_passes_through this c a o u w t rest :
  cmds w !! this = Some c ->
  _passThroughOptions c = true -> commands c = [] ->
  hasImplicitHelpCommand w c = false ->
  truthy (_defaultCommandName c) = false ->
  a <> o -> a <> u -> o <> u ->
  arrays w !! a = Some rest -> arrays w !! o = Some [] -> arrays w !! u = Some [] ->
  exists w',
    route_token this (locals_to a o u o) t w = Ok None w'
    /\ cmds w' = cmds w
    /\ arrays w' !! o = Some (if maybeOption t then [] else t :: rest)
    /\ arrays w' !! u = Some (if maybeOption t then t :: rest else []).
Proof.
  intros Hc Hpass Hnone Hhelp Hdefault Hao Hau Hou Ha Ho Hu.
  assert (Hsub : subcommands_in w c).
  { intros l Hl. rewrite Hnone in Hl. destruct Hl. }
  destruct (findCommand_taken this w c t Hc Hsub) as (found & Hf & Hfound).
  destruct found as [l|].
  { destruct Hfound as [_ Hin]. rewrite Hnone in Hin. destruct Hin. }
  set (d := if maybeOption t then u else o).
  assert (Hd : arrays w !! d = Some []) by (unfold d; destruct (maybeOption t); assumption).
  assert (Had : a <> d) by (unfold d; destruct (maybeOption t); assumption).
  set (w2 := set_arrays (<[d := ([] ++ [t])%list]> (arrays w)) w).
  set (w3 := set_arrays (<[d := (([] ++ [t]) ++ rest)%list]> (arrays w2)) w2).
  exists w3. split; [|split; [reflexivity|]].
  - unfold route_token.
    assert (Hlv : (if maybeOption t
                   then set_dest (unknown_ (locals_to a o u o)) (locals_to a o u o)
                   else locals_to a o u o) = locals_to a o u d).
    { unfold d. destruct (maybeOption t); reflexivity. }
    cbn zeta. rewrite Hlv.
    erewrite bind_Ok by (apply get_cmd_ok, Hc). cbn beta iota.
    erewrite bind_Ok by (apply get_array_ok, Ho). cbn beta iota.
    erewrite bind_Ok by (apply get_array_ok, Hu). cbn beta iota.
    rewrite Hpass, orb_true_r. cbn [length Nat.eqb andb].
    erewrite bind_Ok.
    2:{ erewrite bind_Ok by exact Hf. cbn beta iota.
        erewrite bind_Ok by (apply (getHelpCommand_none this w c Hc Hsub Hhelp)).
        cbn beta iota.
        erewrite bind_Ok by reflexivity. cbn beta iota.
        rewrite Hdefault. reflexivity. }
    cbn beta iota. cbn [locals_to dest_ args_].
    erewrite bind_Ok by (apply push_ok, Hd). cbn beta iota. fold w2.
    erewrite bind_Ok.
    2:{ apply get_array_ok. unfold w2. simpl.
        rewrite lookup_insert_ne by congruence. exact Ha. }
    cbn beta iota.
    erewrite bind_Ok.
    2:{ apply push_ok. unfold w2. simpl. apply lookup_insert_eq. }
    reflexivity.
  - unfold w3, w2, d. simpl. destruct (maybeOption t).
    + split; [|apply lookup_insert_eq].
      rewrite !lookup_insert_ne by congruence. exact Ho.
    + split; [apply lookup_insert_eq|].
      rewrite !lookup_insert_ne by congruence. exact Hu.
Qed.

End PassThroughFacts.

Module PassThroughClaims.
Import StrFacts ValueFacts ConflictFacts ArrayFacts ParseFacts FamilyFacts TokenFacts.
Import PositionalFacts PassThroughFacts.

(** X27. With pass-through options, on a command without subcommands,
    implicit help command and default command, [parseOptions] stops at the
    first token that is not an option of the command, whatever follows it.
    The tokens before it are switches of the command, flags of options
    without argument, any number of them: each stores the value of its
    option with the source ["cli"]. The token at which the loop stops
    cannot be an option, and then it and all the tokens after it are
    returned, untouched, as operands, and nothing is unknown; or it starts
    with a dash and no option of the command takes it, and then it and all
    the tokens after it are returned, untouched, as unknown, and there are
    no operands. The command keeps its option values in the separate
    object, and no option of it is stored under a member name that this
    object inherits. *)
Theorem pass_through_keeps_the_rest
    (this argv : nat) (w : World) (c : Command) (pre : list string) (t : string)
    (rest : list string) :
  cmds w !! this = Some c ->
  plain_storage c = true ->
  _passThroughOptions c = true ->
  commands c = [] -> hasImplicitHelpCommand w c = false ->
  truthy (_defaultCommandName c) = false ->
  Forall (switch c) pre ->
  maybeOption t = false \/ unrecognised c t = true ->
  arrays w !! argv = Some (pre ++ t :: rest)%list ->
  exists r w',
    parseOptions this argv w = Ok r w'
    /\ cmds w' = <[this := fold_left switched pre c]> (cmds w)
    /\ arrays w' !! Parse.operands r = Some (if maybeOption t then [] else t :: rest)
    /\ arrays w' !! Parse.unknown r = Some (if maybeOption t then t :: rest else []).
Proof.
  intros Hc _ Hpass Hnone Hhelp Hdefault Hpre Ht Hargv.
  destruct (parseOptions_start this argv w _ Hargv)
    as (a & o & u & w0 & Hparse & Hc0 & Hao & Hau & Hou & Ha0 & Ho0 & Hu0).
  assert (Hc0' : cmds w0 !! this = Some c) by (rewrite Hc0; exact Hc).
  destruct (iterations_enough (pre ++ t :: rest)) as [k Hk].
  rewrite length_app in Hk. cbn [length] in Hk.
  replace (length pre + S (length rest) + S k)
    with (length pre + S (length rest + S k)) in Hk by lia.
  destruct (loop_switches this c a o u o (S (length rest + S k)) (t :: rest)
              pre w0 c Hc0' (same_but_values_refl c) Ha0 Hpre)
    as (w1 & Hloop & Hc1 & Ha1 & Hx1).
  set (c1 := fold_left switched pre c) in *.
  assert (Hsame : same_but_values c c1)
    by (apply switches_same, same_but_values_refl).
  destruct Hsame as (Hopts & _ & Hcommands & Hpass1 & Hdefault1 & Himplicit & Haction).
  assert (Hc1' : cmds w1 !! this = Some c1) by (rewrite Hc1; apply lookup_insert_eq).
  set (w2 := set_arrays (<[a := rest]> (arrays w1)) w1).
  assert (Hc2 : cmds w2 !! this = Some c1) by exact Hc1'.
  assert (Hhelp2 : hasImplicitHelpCommand w2 c1 = false).
  { rewrite <- Hhelp. unfold hasImplicitHelpCommand, name_taken.
    rewrite Himplicit, Hcommands, Haction, Hnone. reflexivity. }
  destruct (route_passes_through this c1 a o u w2 t rest Hc2) as (w3 & Hroute & Hc3 & Ho3 & Hu3).
  { rewrite Hpass1. exact Hpass. }
  { rewrite Hcommands. exact Hnone. }
  { exact Hhelp2. }
  { rewrite Hdefault1. exact Hdefault. }
  { exact Hao. }
  { exact Hau. }
  { exact Hou. }
  { unfold w2. simpl. apply lookup_insert_eq. }
  { unfold w2. simpl. rewrite lookup_insert_ne by exact Hao.
    rewrite (Hx1 o) by congruence. exact Ho0. }
  { unfold w2. simpl. rewrite lookup_insert_ne by exact Hau.
    rewrite (Hx1 u) by congruence. exact Hu0. }
  assert (Hit : iteration this (locals_to a o u o) t w2 = Ok None w3).
  { destruct Ht as [Ht|Ht].
    - rewrite iteration_routes by exact Ht. exact Hroute.
    - rewrite (iteration_unrecognised this c1 a o u o w2 t Hc2); [exact Hroute|].
      unfold unrecognised. rewrite Hopts. exact Ht. }
  exists {| Parse.operands := o; Parse.unknown := u |}, w3.
  split; [|split; [|split]].
  - rewrite Hparse, Hk. unfold bind at 1. rewrite Hloop. cbn [loop].
    erewrite bind_Ok by (apply shift_cons; exact Ha1). cbn beta iota. fold w2.
    erewrite bind_Ok by exact Hit. reflexivity.
  - rewrite Hc3. unfold w2. simpl. rewrite Hc1, Hc0. reflexivity.
  - exact Ho3.
  - exact Hu3.
Qed.

(** [run -v script -v]: the first [-v] is the switch of the program, and
    the second one is left to the script. *)
Lemma pass_through_keeps_the_rest_witness :
  exists r w',
    parseOptions 0 0 (verbose_run_world ["-v"; "script"; "-v"]) = Ok r w'
    /\ cmds w' = <[0 := fold_left switched ["-v"]
                          (program_of (verbose_run_world ["-v"; "script"; "-v"]))]>
                   (cmds (verbose_run_world ["-v"; "script"; "-v"]))
    /\ arrays w' !! Parse.operands r = Some ["script"; "-v"]
    /\ arrays w' !! Parse.unknown r = Some [].
Proof.
  apply (pass_through_keeps_the_rest 0 0 (verbose_run_world ["-v"; "script"; "-v"])
           (program_of (verbose_run_world ["-v"; "script"; "-v"]))
           ["-v"] "script" ["-v"]); try (vm_compute; reflexivity).
  - constructor; [|constructor].
    split; [reflexivity|]. split; [discriminate|].
    exists (Opt.new "-v, --verbose"), 0, "verbose", "verbose".
    repeat split; vm_compute; reflexivity.
  - left. reflexivity.
Defined.

(** The value that the switch of that command line stores. *)
Example pass_through_switch_is_stored :
  value_of (fold_left switched ["-v"]
              (program_of (verbose_run_world ["-v"; "script"; "-v"]))) "verbose"
  = VBool true.
Proof. vm_compute. reflexivity. Qed.

End PassThroughClaims.
